(** * pyxsim source models: photon generation, verified over a shallow embedding

    The development follows [pyxsim/source_models.py]: the thermal engine
    ([ThermalSourceModel]), the power-law engine ([PowerLawSourceModel]) and
    the line engine ([LineSourceModel]).

    Numbers.  numpy's float64 values are modelled as real numbers ([R]) with
    exact arithmetic; integer counts and indices are [nat].  Exceptions are
    modelled by [None] (for [process_data]) or by an explicit exception value
    (for [setup_model]); Python's [None] return value is the result [RNone].

    Randomness.  Every draw goes through [self.prng]; the generator is an
    abstract state type with one state-passing operation per numpy call. *)

From Stdlib Require Import String Ascii.
From Stdlib Require Import Reals Lra Lia Psatz List Bool Arith Sorted.
Import ListNotations.
Open Scope R_scope.

Set Implicit Arguments.

(** ** Comparisons on floats, as booleans *)

Definition Rltb (x y : R) : bool := if Rlt_dec x y then true else false.
Definition Rleb (x y : R) : bool := if Rle_dec x y then true else false.
Definition Reqb (x y : R) : bool := if Req_dec_T x y then true else false.

(** ** The error monad of [process_data] *)

Notation "x <- c ;; k" :=
  (match c with Some x => k | None => None end)
    (at level 61, c at next level, right associativity).
Notation "' pat <- c ;; k" :=
  (match c with Some pat => k | None => None end)
    (at level 61, pat pattern, c at next level, right associativity).

(** ** numpy helpers *)

Fixpoint zip_with {A B C : Type} (f : A -> B -> C) (l1 : list A) (l2 : list B)
  : list C :=
  match l1, l2 with
  | a :: t1, b :: t2 => f a b :: zip_with f t1 t2
  | _, _ => []
  end.

(** [a.sum()] *)
Definition np_sum (l : list R) : R := fold_right Rplus 0 l.

Definition nat_sum (l : list nat) : nat := fold_right Nat.add 0%nat l.

(** [np.cumsum(a)] with the running total [acc] carried along. *)
Fixpoint cumsum_from (acc : R) (l : list R) : list R :=
  match l with
  | [] => []
  | x :: t => (acc + x) :: cumsum_from (acc + x) t
  end.

Definition np_cumsum (l : list R) : list R := cumsum_from 0 l.

(** [a[lo:hi]] *)
Definition slice {A : Type} (lo hi : nat) (l : list A) : list A :=
  firstn (hi - lo) (skipn lo l).

(** [a[lo:lo+len(vals)] = vals] *)
Definition slice_assign {A : Type} (lo : nat) (vals l : list A) : list A :=
  firstn lo l ++ vals ++ skipn (lo + length vals) l.

(** [a[mask]], boolean-mask indexing *)
Fixpoint mask_select {A : Type} (mask : list bool) (l : list A) : list A :=
  match mask, l with
  | b :: mt, x :: t => if b then x :: mask_select mt t else mask_select mt t
  | _, _ => []
  end.

(** [np.where(mask)[0]], counting positions from [i] *)
Fixpoint where_from (i : nat) (mask : list bool) : list nat :=
  match mask with
  | [] => []
  | b :: t => if b then i :: where_from (S i) t else where_from (S i) t
  end.

Definition np_where (mask : list bool) : list nat := where_from 0 mask.

(** [mask.sum()] *)
Definition count_true (mask : list bool) : nat :=
  length (filter (fun b : bool => b) mask).

(** [a[i] = v] *)
Fixpoint list_set {A : Type} (i : nat) (v : A) (l : list A) : list A :=
  match l, i with
  | [], _ => []
  | _ :: t, O => v :: t
  | x :: t, S i' => x :: list_set i' v t
  end.

(** [a[idx] = vals], integer-array (fancy) assignment *)
Fixpoint scatter {A : Type} (idx : list nat) (vals : list A) (l : list A)
  : list A :=
  match idx, vals with
  | i :: it, v :: vt => scatter it vt (list_set i v l)
  | _, _ => l
  end.

(** [a[idx]], integer-array indexing; an index out of range raises. *)
Fixpoint take {A : Type} (l : list A) (idx : list nat) : option (list A) :=
  match idx with
  | [] => Some []
  | i :: it =>
      x <- nth_error l i ;;
      r <- take l it ;;
      Some (x :: r)
  end.

(** [a.sort()], ascending *)
Fixpoint sort_insert (x : R) (l : list R) : list R :=
  match l with
  | [] => [x]
  | y :: t => if Rleb x y then x :: y :: t else y :: sort_insert x t
  end.

Definition np_sort (l : list R) : list R := fold_right sort_insert [] l.

(** Arrays with a shape: what [process_data] hands back for the field and
    spectrum modes. *)
Record ndarray : Type := mk_ndarray { shape : list nat; data : list R }.

(** [np.prod(shape)] *)
Definition np_prod (sh : list nat) : nat := fold_right Nat.mul 1%nat sh.

(** [np.zeros(shape)] *)
Definition np_zeros (sh : list nat) : ndarray :=
  {| shape := sh; data := repeat 0 (np_prod sh) |}.

(** [np.array([])] *)
Definition np_empty : ndarray := {| shape := [0%nat]; data := [] |}.

(** [np.resize(a, shape)]: the flat data repeated cyclically to fill the new
    shape (zeros when [a] is empty). *)
Definition np_resize (a : list R) (sh : list nat) : ndarray :=
  {| shape := sh;
     data := map (fun i => nth (i mod length a) a 0) (seq 0 (np_prod sh)) |}.

(** [a.resize(n)] in place on a flat array: truncated or padded with zeros. *)
Definition resize_flat (a : list R) (n : nat) : list R :=
  firstn n a ++ repeat 0 (n - length a).

(** [np.interp(x, xp, fp)] for one abscissa.  numpy locates the interval
    [xp[j] <= x < xp[j+1]] (for increasing [xp]) and interpolates linearly on
    it; below [xp[0]] it returns [fp[0]], from [xp[-1]] on it returns
    [fp[-1]].  [interp_from x x0 f0 xs fs] has already established
    [x0 <= x]. *)
Fixpoint interp_from (x x0 f0 : R) (xs fs : list R) : R :=
  match xs, fs with
  | x1 :: xs', f1 :: fs' =>
      if Rltb x x1 then
        if Reqb x0 x then f0
        else (f1 - f0) / (x1 - x0) * (x - x0) + f0
      else interp_from x x1 f1 xs' fs'
  | _, _ => f0
  end.

Definition interp1 (xp fp : list R) (x : R) : R :=
  match xp, fp with
  | x0 :: xs, f0 :: fs => if Rltb x x0 then f0 else interp_from x x0 f0 xs fs
  | _, _ => 0
  end.

(** The vectorised call; numpy raises when [xp] is empty or when [xp] and
    [fp] differ in length. *)
Definition np_interp (x xp fp : list R) : option (list R) :=
  match xp with
  | [] => None
  | _ => if (length xp =? length fp)%nat then Some (map (interp1 xp fp) x)
         else None
  end.

(** [more_itertools.chunked(l, n)]: consecutive pieces of length [n], the
    last one possibly shorter.  The fuel is the length of [l]. *)
Fixpoint chunked_fuel {A : Type} (fuel n : nat) (l : list A) : list (list A) :=
  match fuel with
  | O => []
  | S fuel' =>
      match l with
      | [] => []
      | _ => firstn n l :: chunked_fuel fuel' n (skipn n l)
      end
  end.

Definition chunked {A : Type} (l : list A) (n : nat) : list (list A) :=
  chunked_fuel (length l) n l.

(** Two-dimensional arrays (batch by bin) as lists of rows. *)
Definition matrix : Type := list (list R).

Definition mat_zeros (r c : nat) : matrix := repeat (repeat 0 c) r.

Definition has_shape (r c : nat) (m : matrix) : bool :=
  (length m =? r)%nat && forallb (fun row => (length row =? c)%nat) m.

Definition mat_add (a b : matrix) : matrix := zip_with (zip_with Rplus) a b.

(** [z[:, np.newaxis] * m]: row [i] of [m] scaled by [z[i]] *)
Definition scale_rows (z : list R) (m : matrix) : matrix :=
  zip_with (fun zi row => map (Rmult zi) row) z m.

(** [m * v]: every row of [m] multiplied elementwise by the vector [v] *)
Definition mul_cols (m : matrix) (v : list R) : matrix :=
  map (fun row => zip_with Rmult row v) m.

(** [m[i, j]] *)
Definition mget (m : matrix) (i j : nat) : R := nth j (nth i m []) 0.

(** [m.sum(axis=-1)] *)
Definition row_sums (m : matrix) : list R := map np_sum m.

(** [np.sum(m, axis=0)] for a matrix with [c] columns *)
Definition col_sums (c : nat) (m : matrix) : list R :=
  fold_right (zip_with Rplus) (repeat 0 c) m.

(** ** Data handed in by the simulation framework *)

(** A field key is an [(ftype, fname)] pair. *)
Definition field_key : Type := (string * string)%type.

Definition field_key_eqb (a b : field_key) : bool :=
  String.eqb (fst a) (fst b) && String.eqb (snd a) (snd b).

(** [ds._get_field_info(f)]: the field's registered name and the string of its
    units, or nothing when the lookup raises [YTFieldNotFound]. *)
Record Dataset : Type := mk_Dataset {
  get_field_info : field_key -> option (field_key * string)
}.

(** A chunk of a thermal source: every field array has the shape
    [orig_shape]; [field_values f i] is entry [i] of [np.ravel(chunk[f])]. *)
Record Chunk : Type := mk_Chunk {
  orig_shape : list nat;
  field_values : field_key -> nat -> R;
  field_units : field_key -> string
}.

(** [np.ravel(chunk[f])] *)
Definition chunk_get (c : Chunk) (f : field_key) : list R :=
  map (field_values c f) (seq 0 (np_prod (orig_shape c))).

(** The [data_source] argument of [setup_model]: a dataset itself, or a
    data object (a sphere, a region, ...) with its dataset [data_source.ds]
    and the chunks that [data_source.chunks([], "io")] yields. *)
Inductive DataSource : Type :=
| WholeDataset (ds : Dataset)
| DataObject (ds : Dataset) (chunks : list Chunk).

Definition source_ds (data_source : DataSource) : Dataset :=
  match data_source with
  | WholeDataset ds => ds
  | DataObject ds _ => ds
  end.

(** A chunk of the power-law and line engines, which index their field
    arrays by one cell number ([len(chunk[f])], [range(num_cells)]): flat
    arrays of [io_size] cells. *)
Record IOChunk : Type := mk_IOChunk {
  io_size : nat;
  io_values : field_key -> nat -> R
}.

Definition io_get (c : IOChunk) (f : field_key) : list R :=
  map (io_values c f) (seq 0 (io_size c)).

(** A parameter that is either a float or the name of a field. *)
Inductive param : Type :=
| Float (v : R)
| Field (f : field_key).

(** The [mode] argument of [process_data]. *)
Inductive mode : Type := photons | photon_field | energy_field | spectrum.

(** The third component of a photons-mode result: the thermal engine returns
    the integer indices of the active cells, the power-law and line engines
    return the boolean array [active_cells] itself. *)
Inductive selector : Type :=
| Indices (idxs : list nat)
| Mask (active_cells : list bool).

Definition selector_length (s : selector) : nat :=
  match s with
  | Indices i => length i
  | Mask b => length b
  end.

(** What [process_data] returns. *)
Inductive result : Type :=
| RNone
| RPhotons (ncells : nat) (number_of_photons : list nat) (idxs : selector)
           (energies : list R)
| RArray (a : ndarray).

(** Exceptions of [setup_model]; the last constructor stands for an
    exception of any other class, which the spectral-table collaborator may
    raise. *)
Inductive exn : Type :=
| RuntimeError (msg : string)
| YTFieldNotFound (f : field_key)
| ValueError (msg : string)
| IndexError (msg : string)
| OtherException (class msg : string).

Definition bind_exn {A B : Type} (c : exn + A) (k : A -> exn + B) : exn + B :=
  match c with
  | inl e => inl e
  | inr a => k a
  end.

Notation "x <-! c ;; k" := (bind_exn c (fun x => k))
  (at level 61, c at next level, right associativity).

(** ** The pseudo-random generator owned by a model instance

    [self.prng] is a [numpy.random.RandomState]; each operation takes the
    generator state and returns the draw with the next state.  [choice1]
    raises when numpy rejects the probability vector. *)
Record PRNG : Type := mk_PRNG {
  RandomState : Type;
  poisson1 : R -> RandomState -> nat * RandomState;
  uniform1 : RandomState -> R * RandomState;
  choice1 : nat -> list R -> RandomState -> option (nat * RandomState);
  normal1 : R -> RandomState -> R * RandomState
}.

Section Draws.
Variable G : PRNG.

(** [prng.poisson(lam=lams)]: numpy checks every mean first and raises
    [ValueError] on a negative one, then draws cell by cell. *)
Fixpoint poisson_draws (lams : list R) (s : RandomState G) : list nat * RandomState G :=
  match lams with
  | [] => ([], s)
  | lam :: t =>
      let (n, s1) := poisson1 G lam s in
      let (ns, s2) := poisson_draws t s1 in
      (n :: ns, s2)
  end.

Definition poisson (lams : list R) (s : RandomState G) : option (list nat * RandomState G) :=
  if existsb (fun lam => Rltb lam 0) lams then None
  else Some (poisson_draws lams s).

(** [prng.uniform(size=n)] *)
Fixpoint uniform (n : nat) (s : RandomState G) : list R * RandomState G :=
  match n with
  | O => ([], s)
  | S n' =>
      let (u, s1) := uniform1 G s in
      let (us, s2) := uniform n' s1 in
      (u :: us, s2)
  end.

(** [prng.choice(nchan, size=n, p=p)] *)
Fixpoint choice (nchan n : nat) (p : list R) (s : RandomState G)
  : option (list nat * RandomState G) :=
  match n with
  | O => Some ([], s)
  | S n' =>
      '(i, s1) <- choice1 G nchan p s ;;
      '(js, s2) <- choice nchan n' p s1 ;;
      Some (i :: js, s2)
  end.

(** [prng.normal(loc=0.0, scale=sigma, size=n)]; a negative scale raises. *)
Fixpoint normal_draws (sigma : R) (n : nat) (s : RandomState G) : list R * RandomState G :=
  match n with
  | O => ([], s)
  | S n' =>
      let (x, s1) := normal1 G sigma s in
      let (xs, s2) := normal_draws sigma n' s1 in
      (x :: xs, s2)
  end.

Definition normal (sigma : R) (n : nat) (s : RandomState G)
  : option (list R * RandomState G) :=
  if Rltb sigma 0 then None else Some (normal_draws sigma n s).
End Draws.

(** [np.log10] and [10**x] on floats *)
Definition np_log10 (x : R) : R := ln x / ln 10.
Definition np_pow10 (x : R) : R := Rpower 10 x.

(** [np.isclose(a, b)] with numpy's default tolerances *)
Definition np_isclose (a b : R) : bool :=
  Rleb (Rabs (a - b)) (1 / 100000000 + 1 / 100000 * Rabs b).

(** Dictionaries with string keys, in insertion order; a lookup finds the
    binding written last. *)
Fixpoint dict_get {A : Type} (d : list (string * A)) (key : string) : option A :=
  match d with
  | [] => None
  | (k, v) :: t => if String.eqb k key then Some v else dict_get t key
  end.

Definition dict_set {A : Type} (d : list (string * A)) (key : string) (v : A)
  : list (string * A) := (key, v) :: d.

(** [l.index(x)] on a list of strings *)
Fixpoint index_of (l : list string) (x : string) : option nat :=
  match l with
  | [] => None
  | y :: t => if String.eqb y x then Some O
              else match index_of t x with
                   | Some i => Some (S i)
                   | None => None
                   end
  end.

(** [key.split("^")[0]] when the key holds a caret, the key itself
    otherwise: the characters before the first caret. *)
Fixpoint before_caret (key : string) : string :=
  match key with
  | EmptyString => EmptyString
  | String c t => if Ascii.eqb c "^"%char then EmptyString
                  else String c (before_caret t)
  end.

(** * The thermal engine *)
Module Thermal.

Inductive sampling_method : Type := invert_cdf | accept_reject | other_method.

Inductive scale : Type := linear | log.

(** The spectral-table collaborator after [prepare_spectrum]: its energy
    binning and [get_spectrum(kT, nH=...)], which returns the continuum,
    the metal-line and the trace-element spectra, each possibly [None]. *)
Record SpectralModel : Type := mk_SpectralModel {
  sm_ebins : list R;
  sm_de : list R;
  sm_emid : list R;
  get_spectrum : list R -> option (list R) ->
                 option matrix * option matrix * option (list matrix)
}.

(** The attributes of a [ThermalSourceModel] that [setup_model] and
    [process_data] read or write.  [nei] and [fix_norm] are the class
    attributes [nei] and [_fix_norm].  [prepare_spectrum z kT_min kT_max]
    is the call [self.spectral_model.prepare_spectrum(z, kT_min, kT_max)]:
    the exception it raises, or the collaborator as the call leaves it.
    [tot_num_cells] is set for a data object only. *)
Record ThermalSourceModel : Type := mk_ThermalSourceModel {
  spectral_model : SpectralModel;
  prepare_spectrum : R -> R -> R -> exn + SpectralModel;
  Zmet : param;
  var_elem : list (string * param);
  var_elem_keys : list string;
  var_ion_keys : list string;
  num_var_elem : nat;
  max_density : option R;
  temperature_field : field_key;
  emission_measure_field : field_key;
  density_field : field_key;
  nh_field : option field_key;
  h_fraction : param;
  kT_min : R;
  kT_max : R;
  nH_min : option R;
  nH_max : option R;
  nei : bool;
  fix_norm : bool;
  atable : list R;
  method : sampling_method;
  ftype : string;
  redshift : R;
  spectral_norm : R;
  Zconvert : R;
  mconvert : list (string * R);
  ebins : list R;
  de : list R;
  emid : list R;
  binscale : scale;
  bin_edges : list R;
  nchan : nat;
  tot_num_cells : option nat
}.

(** ** [setup_model] *)
Section Setup.
(** The tables of [soxs.constants]. *)
Variable elem_names : list string.
Variable atomic_weights : list R.
Variable metal_elem : list nat.

Definition code_units : list string :=
  ["dimensionless"%string; ""%string; "code_metallicity"%string].

Definition is_code_unit (u : string) : bool :=
  existsb (String.eqb u) code_units.

(** [(self.atable*atomic_weights)[metal_elem].sum()] *)
Definition Zsum (m : ThermalSourceModel) : R :=
  np_sum (map (fun i => nth i (zip_with Rmult (atable m) atomic_weights) 0)
              metal_elem).

(** Lines 306-315: the value [self.Zconvert] has afterwards. *)
Definition metallicity_conversion (m : ThermalSourceModel) (ds : Dataset)
  : exn + R :=
  match nei m, Zmet m with
  | false, Field f =>
      match get_field_info ds f with
      | None => inl (YTFieldNotFound f)
      | Some (_, Z_units) =>
          if is_code_unit Z_units then
            inr (nth 1 atomic_weights 0 / Zsum m)
          else if String.eqb Z_units "Zsun" then inr 1
          else inl (RuntimeError
                      ("I don't understand metallicity units of "
                         ++ Z_units ++ "!")%string)
      end
  | _, _ => inr (Zconvert m)
  end.

(** Lines 318-332: one turn of the loop over [self.var_elem.items()];
    the result is the value stored in [self.mconvert[key]], if any. *)
Definition element_conversion (m : ThermalSourceModel) (ds : Dataset)
           (key : string) (value : param) : exn + option R :=
  match value with
  | Float _ => inr None
  | Field f =>
      match index_of elem_names (before_caret key) with
      | None => inl (ValueError ("'" ++ before_caret key
                                     ++ "' is not in list")%string)
      | Some n_elem =>
          match get_field_info ds f with
          | None => inl (YTFieldNotFound f)
          | Some (_, m_units) =>
              if is_code_unit m_units then
                inr (Some (nth 1 atomic_weights 0 /
                           (nth n_elem (atable m) 0
                            * nth n_elem atomic_weights 0)))
              else if String.eqb m_units "Zsun" then inr (Some 1)
              else inl (RuntimeError
                          ("I don't understand units of " ++ m_units
                             ++ " for element " ++ key ++ "!")%string)
          end
      end
  end.

Fixpoint element_conversions (m : ThermalSourceModel) (ds : Dataset)
         (items : list (string * param)) (mc : list (string * R))
  : exn + list (string * R) :=
  match items with
  | [] => inr mc
  | (key, value) :: t =>
      c <-! element_conversion m ds key value ;;
      element_conversions m ds t
        (match c with
         | Some v => dict_set mc key v
         | None => mc
         end)
  end.

Definition show_field (f : field_key) : string :=
  ("('" ++ fst f ++ "', '" ++ snd f ++ "')")%string.

Definition all_isclose (l : list R) : bool :=
  forallb (fun d => np_isclose d (nth 0 l 0)) l.

(** Lines 352-358: the cells of a data object are counted by reading the
    temperature field of every chunk.  yt resolves the field of such a read
    through the dataset of the object, so the read raises [YTFieldNotFound]
    when the dataset does not have the field. *)
Fixpoint count_cells (ds : Dataset) (f : field_key) (chunks : list Chunk)
         (num_cells : nat) : exn + nat :=
  match chunks with
  | [] => inr num_cells
  | c :: t =>
      match get_field_info ds f with
      | None => inl (YTFieldNotFound f)
      | Some _ => count_cells ds f t (num_cells + np_prod (orig_shape c))%nat
      end
  end.

(** [setup_model(data_source, redshift, spectral_norm)], in a serial run.
    The progress bar is left out. *)
Definition setup_model (m : ThermalSourceModel) (data_source : DataSource)
           (redshift' spectral_norm' : R) : exn + ThermalSourceModel :=
  let ds := source_ds data_source in
  match get_field_info ds (emission_measure_field m) with
  | None =>
      inl (RuntimeError
             ("The " ++ show_field (emission_measure_field m)
                ++ " field is not found. If you do not have species "
                ++ "fields in your dataset, you may need to set "
                ++ "default_species_fields='ionized' in the call "
                ++ "to yt.load().")%string)
  | Some (name, _) =>
      zc <-! metallicity_conversion m ds ;;
      mc <-! (if (0 <? num_var_elem m)%nat
              then element_conversions m ds (var_elem m) (mconvert m)
              else inr (mconvert m)) ;;
      sm <-! prepare_spectrum m redshift' (kT_min m) (kT_max m) ;;
      bs <-! match sm_de sm with
             | [] => inl (IndexError
                            "index 0 is out of bounds for axis 0 with size 0")
             | _ :: _ => inr (if all_isclose (sm_de sm) then linear else log)
             end ;;
      tot <-! match data_source with
              | WholeDataset _ => inr (tot_num_cells m)
              | DataObject _ chunks =>
                  n <-! count_cells ds (temperature_field m) chunks O ;;
                  inr (Some n)
              end ;;
      inr {| spectral_model := sm;
             prepare_spectrum := prepare_spectrum m;
             Zmet := Zmet m;
             var_elem := var_elem m;
             var_elem_keys := var_elem_keys m;
             var_ion_keys := var_ion_keys m;
             num_var_elem := num_var_elem m;
             max_density := max_density m;
             temperature_field := temperature_field m;
             emission_measure_field := emission_measure_field m;
             density_field := (fst name, "density"%string);
             nh_field := nh_field m;
             h_fraction := h_fraction m;
             kT_min := kT_min m;
             kT_max := kT_max m;
             nH_min := nH_min m;
             nH_max := nH_max m;
             nei := nei m;
             fix_norm := fix_norm m;
             atable := atable m;
             method := method m;
             ftype := fst name;
             redshift := redshift';
             spectral_norm := spectral_norm';
             Zconvert := zc;
             mconvert := mc;
             ebins := sm_ebins sm;
             de := sm_de sm;
             emid := sm_emid sm;
             binscale := bs;
             bin_edges := match bs with
                          | log => map np_log10 (sm_ebins sm)
                          | linear => sm_ebins sm
                          end;
             nchan := length (sm_emid sm);
             tot_num_cells := tot |}
  end.

(** A parameter whose field carries units [setup_model] does not
    understand: neither code units nor "Zsun". *)
Definition unit_error (ds : Dataset) (p : param) : bool :=
  match p with
  | Float _ => false
  | Field f =>
      match get_field_info ds f with
      | Some (_, u) => negb (is_code_unit u || String.eqb u "Zsun")
      | None => false
      end
  end.

(** The lookups made for one entry of [var_elem] succeed: its field exists
    and its element is one of [elem_names]. *)
Definition resolves (ds : Dataset) (kv : string * param) : Prop :=
  match snd kv with
  | Float _ => True
  | Field f => get_field_info ds f <> None
               /\ index_of elem_names (before_caret (fst kv)) <> None
  end.
End Setup.

(** ** [process_data] *)

(** The output buffer of the photons mode: the array [energies] and the
    capacity [num_photons_max]. *)
Record buffer : Type := mk_buffer {
  energies : list R;
  num_photons_max : nat
}.

(** The local variables the batch loop of [process_data] updates. *)
Record loop_state : Type := mk_loop_state {
  number_of_photons : list nat;
  buf : buffer;
  start_e : nat;
  end_e : nat;
  spec : list R;
  ret : list R
}.

(** The per-chunk arrays of the eligible cells, computed before the batch
    loop (lines 402-464). *)
Record eligible : Type := mk_eligible {
  num_cells : nat;
  kT : list R;
  cell_nrm : list R;
  nH : option (list R);
  metalZ : list R;
  elemZ : list (list R);
  idxs : list nat
}.

(** [while ei+cn > num_photons_max: num_photons_max *= 2], with [need] for
    [ei+cn]; the fuel bounds the number of doublings. *)
Fixpoint grow (fuel cap need : nat) : option nat :=
  match fuel with
  | O => None
  | S fuel' => if (need <=? cap)%nat then Some cap
               else grow fuel' (2 * cap) need
  end.

(** Lines 515-519: make room for the cell's energies and write them at
    [ei]. *)
Definition store_cell (b : buffer) (ei cn : nat) (cell_e : list R)
  : option buffer :=
  let need := (ei + cn)%nat in
  cap <- grow (S need) (num_photons_max b) need ;;
  let e1 := if (length (energies b) <? cap)%nat
            then resize_flat (energies b) cap
            else energies b in
  Some {| energies := slice_assign ei cell_e e1; num_photons_max := cap |}.

Definition num_photons_max_init : nat := (10 ^ 7)%nat.

Section ProcessData.
Variable G : PRNG.

(** [x.to_value("keV", "thermal")] on one temperature *)
Variable to_keV : R -> R.

(** Lines 389-400: the mask [cut] over all cells of the chunk; comparing
    against a limit that is [None] raises. *)
Definition density_cut (m : ThermalSourceModel) (c : Chunk) : list bool :=
  match max_density m with
  | Some dmax => map (fun d => Rltb d dmax) (chunk_get c (density_field m))
  | None => repeat true (np_prod (orig_shape c))
  end.

Definition kT_all (m : ThermalSourceModel) (c : Chunk) : list R :=
  map to_keV (chunk_get c (temperature_field m)).

Definition kT_cut (m : ThermalSourceModel) (c : Chunk) : list bool :=
  map (fun t => Rleb (kT_min m) t && Rleb t (kT_max m)) (kT_all m c).

Definition nH_cut (m : ThermalSourceModel) (c : Chunk)
  : option (list bool) :=
  match nh_field m with
  | None => Some (repeat true (np_prod (orig_shape c)))
  | Some f =>
      match nH_min m, nH_max m with
      | Some lo, Some hi =>
          Some (map (fun n => Rleb lo n && Rleb n hi) (chunk_get c f))
      | _, _ => None
      end
  end.

Definition sample_filter (m : ThermalSourceModel) (c : Chunk)
  : option (list bool) :=
  nc <- nH_cut m c ;;
  Some (zip_with andb (zip_with andb (density_cut m c) (kT_cut m c)) nc).

(** [fac] of lines 437-439 and 451-453, cell by cell *)
Definition solar_factor (c : Chunk) (f : field_key) (conv : R)
           (X_H : list R) : list R :=
  if String.eqb (field_units c f) "Zsun" then map (fun _ => conv) X_H
  else map (fun x => conv / x) X_H.

(** That [fac] is a float when the field is in solar units or the hydrogen
    fraction is a float, and an array with an entry per eligible cell
    otherwise. *)
Definition fac_per_cell (m : ThermalSourceModel) (c : Chunk) (f : field_key)
  : bool :=
  negb (String.eqb (field_units c f) "Zsun")
  && match h_fraction m with
     | Field _ => true
     | Float _ => false
     end.

(** [np.ravel(a.d[cut]*fac)] of lines 440 and 454, from the selected values
    [sel] and the factors [fac] cell by cell.  A float factor, and an array
    factor on a one-dimensional chunk, multiply entry by entry.  On a chunk
    of more dimensions the selection [a.d[cut]] has the shape (n, 1, ..., 1),
    which numpy broadcasts against an array factor of shape (n,) to [n] rows
    of [n] products: every selected value times every factor. *)
Definition times_fac (m : ThermalSourceModel) (c : Chunk) (f : field_key)
           (sel fac : list R) : list R :=
  if fac_per_cell m c f && (1 <? length (orig_shape c))%nat
  then flat_map (fun a => map (Rmult a) fac) sel
  else zip_with Rmult sel fac.

(** Lines 445-454: one row of [elemZ]; the assignment [elemZ[j,:] = ...]
    raises unless the right-hand side has one entry per eligible cell. *)
Definition element_row (m : ThermalSourceModel) (c : Chunk)
           (cut : list bool) (X_H : list R) (key : string)
  : option (list R) :=
  value <- dict_get (var_elem m) key ;;
  match value with
  | Float v => Some (map (fun _ => v) X_H)
  | Field f =>
      conv <- dict_get (mconvert m) key ;;
      let row := times_fac m c f (mask_select cut (chunk_get c f))
                           (solar_factor c f conv X_H) in
      if (length row =? count_true cut)%nat then Some row else None
  end.

Fixpoint element_rows (m : ThermalSourceModel) (c : Chunk)
         (cut : list bool) (X_H : list R) (keys : list string)
  : option (list (list R)) :=
  match keys with
  | [] => Some []
  | key :: t =>
      row <- element_row m c cut X_H key ;;
      rows <- element_rows m c cut X_H t ;;
      Some (row :: rows)
  end.

(** The masks [kT[cut]] of line 413 and [a.d[cut]] of lines 415, 421, 440
    and 454 for the one-dimensional mask [cut]: [kT] is raveled, so the
    mask must have one entry per cell of the chunk; a field array [a.d]
    has the shape [orig_shape], and numpy matches a one-dimensional boolean
    index against the first axis only, raising [IndexError] unless that
    axis is as long as the mask.  So the first axis must hold every cell:
    a shape (N,) or (N, 1, 1) passes, a grid of shape (2, 2) does not.
    The selection then has one row per eligible cell and every other axis
    of length one. *)
Definition mask_fits (c : Chunk) (cut : list bool) : bool :=
  (length cut =? np_prod (orig_shape c))%nat
  && (hd O (orig_shape c) =? length cut)%nat.

(** Lines 413-464, for a chunk with at least one eligible cell *)
Definition prepare (m : ThermalSourceModel) (c : Chunk) (cut : list bool)
  : option eligible :=
  if negb (mask_fits c cut) then None else
  let n := count_true cut in
  let kT' := mask_select cut (kT_all m c) in
  let nrm := map (fun em => em * spectral_norm m)
                 (mask_select cut (chunk_get c (emission_measure_field m))) in
  let X_H := match h_fraction m with
             | Float x => repeat x n
             | Field f => mask_select cut (chunk_get c f)
             end in
  let nH' := match nh_field m with
             | Some f => Some (mask_select cut (chunk_get c f))
             | None => None
             end in
  let nrm' := match nH' with
              | Some nh => if fix_norm m then zip_with Rdiv nrm nh else nrm
              | None => nrm
              end in
  let Z := if nei m then repeat 0 n
           else match Zmet m with
                | Float z => map (Rmult z) (repeat 1 n)
                | Field f =>
                    times_fac m c f (mask_select cut (chunk_get c f))
                              (solar_factor c f (Zconvert m) X_H)
                end in
  eZ <- (if (0 <? num_var_elem m)%nat then
           rows <- element_rows m c cut X_H
                     (if nei m then var_ion_keys m else var_elem_keys m) ;;
           if (length rows <=? num_var_elem m)%nat
           then Some (rows ++ repeat (repeat 0 n)
                                     (num_var_elem m - length rows))
           else None
         else Some []) ;;
  Some {| num_cells := n; kT := kT'; cell_nrm := nrm'; nH := nH';
          metalZ := Z; elemZ := eZ; idxs := np_where cut |}.

(** [tot_spec += x] for an [x] of the table's shape, batch by bin; any
    other shape is a broadcasting failure of the interface. *)
Definition add_spec (nck nch : nat) (tot x : matrix) : option matrix :=
  if has_shape nck nch x then Some (mat_add tot x) else None.

(** [np.sum(elemZ[:,ibegin:iend,np.newaxis]*vspec, axis=0)] *)
Definition element_sum (nck nch : nat) (eZ : list (list R))
           (vspec : list matrix) : matrix :=
  fold_right mat_add (mat_zeros nck nch) (zip_with scale_rows eZ vspec).

(** Lines 480-486: the composed spectrum of one batch *)
Definition compose (m : ThermalSourceModel) (nck : nat)
           (Z_ck : list R) (eZ_ck : list (list R))
           (out : option matrix * option matrix * option (list matrix))
  : option matrix :=
  let '(cspec, mspec, vspec) := out in
  let nch := nchan m in
  tot1 <- match cspec with
          | Some cs => add_spec nck nch (mat_zeros nck nch) cs
          | None => Some (mat_zeros nck nch)
          end ;;
  tot2 <- match mspec with
          | Some ms => if has_shape nck nch ms
                       then Some (mat_add tot1 (scale_rows Z_ck ms))
                       else None
          | None => Some tot1
          end ;;
  if (0 <? num_var_elem m)%nat then
    vs <- vspec ;;
    if (length vs =? num_var_elem m)%nat
       && forallb (has_shape nck nch) vs
    then Some (mat_add tot2 (element_sum nck nch eZ_ck vs))
    else None
  else Some tot2.

(** Lines 468-486 for the batch [ibegin, iend) *)
Definition tot_spec (m : ThermalSourceModel) (e : eligible)
           (ibegin iend : nat) : option matrix :=
  let cnH := match nH e with
             | Some nh => Some (slice ibegin iend nh)
             | None => None
             end in
  compose m (iend - ibegin) (slice ibegin iend (metalZ e))
          (map (slice ibegin iend) (elemZ e))
          (get_spectrum (spectral_model m) (slice ibegin iend (kT e)) cnH).

(** Lines 490-491: the Poisson means (photons mode) or the photon flux
    (photon_field mode) of the cells of a batch *)
Definition cell_norm (e : eligible) (ibegin iend : nat) (tot : matrix)
  : list R :=
  zip_with Rmult (row_sums tot) (slice ibegin iend (cell_nrm e)).

(** Lines 508-514: the energies of one cell with [cn] photons *)
Definition sample_cell (m : ThermalSourceModel) (cn : nat)
           (cp_row p_row : list R) (s : RandomState G)
  : option (list R * RandomState G) :=
  match method m with
  | invert_cdf =>
      let (randvec, s1) := uniform G cn s in
      cell_e <- np_interp (np_sort randvec) cp_row (bin_edges m) ;;
      Some (cell_e, s1)
  | accept_reject =>
      '(eidxs, s1) <- choice G (nchan m) cn p_row s ;;
      cell_e <- take (emid m) eidxs ;;
      Some (cell_e, s1)
  | other_method => None
  end.

(** Lines 504-520: the loop over the cells of a batch; each cell comes
    with its count and its rows of [cp] and [p]. *)
Fixpoint cells_loop (m : ThermalSourceModel)
         (cells : list (nat * (list R * list R)))
         (b : buffer) (ei : nat) (s : RandomState G)
  : option (buffer * nat * RandomState G) :=
  match cells with
  | [] => Some (b, ei, s)
  | (cn, (cp_row, p_row)) :: t =>
      if (cn =? 0)%nat then cells_loop m t b ei s
      else
        '(cell_e, s1) <- sample_cell m cn cp_row p_row s ;;
        b1 <- store_cell b ei cn cell_e ;;
        cells_loop m t b1 (ei + cn)%nat s1
  end.

(** Lines 488-534: what the active mode does with the composed spectrum
    [tot] of the batch [ibegin, iend) *)
Definition use_spectrum (m : ThermalSourceModel) (md : mode) (e : eligible)
           (st : loop_state) (s : RandomState G) (ibegin iend : nat)
           (tot : matrix)
  : option (loop_state * RandomState G) :=
  let nrm_ck := slice ibegin iend (cell_nrm e) in
  match md with
  | photons =>
      let spec_sum := row_sums tot in
      '(cell_n, s1) <- poisson G (cell_norm e ibegin iend tot) s ;;
      let end_e' := (end_e st + nat_sum cell_n)%nat in
      let norm_factor := map (fun x => 1 / x) spec_sum in
      let p := scale_rows norm_factor tot in
      let cp := map (fun row => 0 :: np_cumsum row) p in
      '(b1, _, s2) <- cells_loop m (combine cell_n (combine cp p))
                                 (buf st) (start_e st) s1 ;;
      Some ({| number_of_photons :=
                 slice_assign ibegin cell_n (number_of_photons st);
               buf := b1;
               start_e := end_e';
               end_e := end_e';
               spec := spec st;
               ret := ret st |}, s2)
  | photon_field =>
      Some ({| number_of_photons := number_of_photons st;
               buf := buf st;
               start_e := start_e st;
               end_e := end_e st;
               spec := spec st;
               ret := scatter (slice ibegin iend (idxs e))
                              (cell_norm e ibegin iend tot) (ret st) |}, s)
  | energy_field =>
      let vals := zip_with Rmult (row_sums (mul_cols tot (emid m))) nrm_ck in
      Some ({| number_of_photons := number_of_photons st;
               buf := buf st;
               start_e := start_e st;
               end_e := end_e st;
               spec := spec st;
               ret := scatter (slice ibegin iend (idxs e)) vals (ret st) |},
            s)
  | spectrum =>
      Some ({| number_of_photons := number_of_photons st;
               buf := buf st;
               start_e := start_e st;
               end_e := end_e st;
               spec := zip_with Rplus (spec st)
                         (col_sums (nchan m) (scale_rows nrm_ck tot));
               ret := ret st |}, s)
  end.

(** Lines 466-536: one turn of the batch loop *)
Definition batch_step (m : ThermalSourceModel) (md : mode) (e : eligible)
           (st : loop_state) (s : RandomState G) (ck : list nat)
  : option (loop_state * RandomState G) :=
  let ibegin := hd O ck in
  let iend := S (last ck O) in
  tot <- tot_spec m e ibegin iend ;;
  use_spectrum m md e st s ibegin iend tot.

Fixpoint batch_loop (m : ThermalSourceModel) (md : mode) (e : eligible)
         (cks : list (list nat)) (st : loop_state) (s : RandomState G)
  : option (loop_state * RandomState G) :=
  match cks with
  | [] => Some (st, s)
  | ck :: t =>
      '(st1, s1) <- batch_step m md e st s ck ;;
      batch_loop m md e t st1 s1
  end.

(** [chunked(range(num_cells), 100)] *)
Definition batches (n : nat) : list (list nat) := chunked (seq 0 n) 100.

Definition init_state (m : ThermalSourceModel) (e : eligible)
           (orig_ncells cap0 : nat) : loop_state :=
  {| number_of_photons := repeat O (num_cells e);
     buf := {| energies := repeat 0 cap0; num_photons_max := cap0 |};
     start_e := O;
     end_e := O;
     spec := repeat 0 (nchan m);
     ret := repeat 0 orig_ncells |}.

(** Lines 538-549: what is returned after the batch loop *)
Definition finish (m : ThermalSourceModel) (md : mode) (c : Chunk)
           (e : eligible) (st : loop_state) : result :=
  match md with
  | photons =>
      let active_cells := map (fun n => (0 <? n)%nat) (number_of_photons st) in
      let idxs' := mask_select active_cells (idxs e) in
      let ee := firstn (end_e st) (energies (buf st)) in
      RPhotons (length idxs')
               (mask_select active_cells (number_of_photons st))
               (Indices idxs')
               (match binscale m with
                | log => map np_pow10 ee
                | linear => ee
                end)
  | spectrum => RArray {| shape := [nchan m]; data := spec st |}
  | _ => RArray (np_resize (ret st) (orig_shape c))
  end.

(** Lines 376-380 *)
Definition orig_ncells (c : Chunk) : nat :=
  match orig_shape c with
  | [] => O
  | sh => np_prod sh
  end.

(** Lines 413-536: the arrays of the eligible cells and the batch loop over
    them, from the initial state *)
Definition run_batches (cap0 : nat) (m : ThermalSourceModel) (md : mode)
           (c : Chunk) (cut : list bool) (s : RandomState G)
  : option (eligible * loop_state * RandomState G) :=
  e <- prepare m c cut ;;
  '(st, s1) <- batch_loop m md e (batches (num_cells e))
                          (init_state m e (orig_ncells c) cap0) s ;;
  Some (e, st, s1).

(** [process_data(mode, chunk)] with the initial buffer capacity [cap0]
    in the place of the constant of line 456. *)
Definition process_data_from (cap0 : nat) (m : ThermalSourceModel)
           (md : mode) (c : Chunk) (s : RandomState G)
  : option (result * RandomState G) :=
  if (orig_ncells c =? 0)%nat then
    match md with
    | photons => Some (RNone, s)
    | _ => Some (RArray np_empty, s)
    end
  else
    cut <- sample_filter m c ;;
    if (count_true cut =? 0)%nat then
      match md with
      | photons => Some (RNone, s)
      | _ => Some (RArray (np_zeros (orig_shape c)), s)
      end
    else
      '(e, st, s1) <- run_batches cap0 m md c cut s ;;
      Some (finish m md c e st, s1).

Definition process_data : ThermalSourceModel -> mode -> Chunk ->
                          RandomState G -> option (result * RandomState G) :=
  process_data_from num_photons_max_init.
End ProcessData.

End Thermal.

(** [a op b] on flat arrays under numpy broadcasting: equal lengths, or one
    side of length one; anything else raises. *)
Definition broadcast2 (f : R -> R -> R) (a b : list R) : option (list R) :=
  if (length a =? length b)%nat then Some (zip_with f a b)
  else match a, b with
       | [x], _ => Some (map (f x) b)
       | _, [y] => Some (map (fun x => f x y) a)
       | _, _ => None
       end.

Definition flat (l : list R) : ndarray := {| shape := [length l]; data := l |}.

(** * The power-law engine *)
Module PowerLaw.

Record PowerLawSourceModel : Type := mk_PowerLawSourceModel {
  e0 : R;
  emin : R;
  emax : R;
  emission_field : field_key;
  alpha : param;
  spectral_norm : R;
  redshift : R;
  scale_factor : R
}.

(** Lines 805-808 *)
Definition alpha_of (m : PowerLawSourceModel) (c : IOChunk) : list R :=
  match alpha m with
  | Float a => map (Rmult a) (repeat 1 (io_size c))
  | Field f => io_get c f
  end.

(** Lines 812-814: [norm_fac] *)
Definition norm_fac (m : PowerLawSourceModel) (al : list R) : list R :=
  let nf0 := map (fun a => Rpower (emax m) (1 - a) - Rpower (emin m) (1 - a))
                 al in
  let nf1 := zip_with (fun a x => if Reqb a 1 then ln (emax m / emin m) else x)
                      al nf0 in
  zip_with (fun a x => x * Rpower (e0 m) a) al nf1.

(** Lines 815-816: [norm] *)
Definition norm (m : PowerLawSourceModel) (al em : list R) : list R :=
  let norm0 := zip_with Rmult (norm_fac m al) em in
  zip_with (fun a x => if negb (Reqb a 1) then x / (1 - a) else x) al norm0.

(** Lines 832-836: the rest-frame energy for the uniform draw [u] in a cell
    of index [a] whose entry of [norm_fac] is [nf] *)
Definition energy (m : PowerLawSourceModel) (a nf u : R) : R :=
  if Reqb a 1 then emin m * Rpower (emax m / emin m) u
  else Rpower (Rpower (emin m) (1 - a) + u * nf) (1 / (1 - a)).

(** Line 820: the Poisson means of the photons mode *)
Definition photon_means (m : PowerLawSourceModel) (c : IOChunk) : list R :=
  map (fun x => x * (spectral_norm m * scale_factor m))
      (norm m (alpha_of m c) (io_get c (emission_field m))).

(** Lines 851-854 *)
Definition energy_flux (m : PowerLawSourceModel) (al em : list R) : list R :=
  let nf0 := map (fun a => Rpower (emax m) (2 - a) - Rpower (emin m) (2 - a))
                 al in
  let nf := zip_with (fun a x => x * (Rpower (e0 m) a / (2 - a))) al nf0 in
  zip_with Rmult nf em.

Section ProcessData.
Variable G : PRNG.

(** Lines 828-838: the loop over the cells; [energies] is filled from
    [start_e] on. *)
Fixpoint cells_loop (m : PowerLawSourceModel)
         (cells : list (nat * (R * R))) (energies : list R)
         (start_e end_e : nat) (s : RandomState G)
  : list R * nat * RandomState G :=
  match cells with
  | [] => (energies, end_e, s)
  | (n, (a, nf)) :: t =>
      if (0 <? n)%nat then
        let end_e' := (start_e + n)%nat in
        let (u, s1) := uniform G n s in
        let e := map (energy m a nf) u in
        cells_loop m t
          (slice_assign start_e (map (fun x => x * scale_factor m) e)
                        energies)
          end_e' end_e' s1
      else cells_loop m t energies start_e end_e s
  end.

(** [process_data(mode, chunk, emid=None)] *)
Definition process_data (m : PowerLawSourceModel) (md : mode)
           (c : IOChunk) (emid : option (list R)) (s : RandomState G)
  : option (result * RandomState G) :=
  let em := io_get c (emission_field m) in
  let al := alpha_of m c in
  match md with
  | photons =>
      '(number_of_photons, s1) <- poisson G (photon_means m c) s ;;
      let energies := repeat 0 (nat_sum number_of_photons) in
      let '(energies', end_e, s2) :=
        cells_loop m (combine number_of_photons
                              (combine al (norm_fac m al)))
                   energies O O s1 in
      let active_cells := map (fun n => (0 <? n)%nat) number_of_photons in
      Some (RPhotons (count_true active_cells)
                     (mask_select active_cells number_of_photons)
                     (Mask active_cells)
                     (firstn end_e energies'), s2)
  | photon_field =>
      Some (RArray (flat (norm m al em)), s)
  | energy_field =>
      Some (RArray (flat (energy_flux m al em)), s)
  | spectrum =>
      mid <- emid ;;
      r <- broadcast2 (fun x a => np_sum em * Rpower (x / e0 m) (- a))
                      mid al ;;
      Some (RArray (flat r), s)
  end.
End ProcessData.

End PowerLaw.

(** * The line engine *)
Module Line.

(** [self.sigma]: [None], a constant in keV, or the name of a velocity
    field. *)
Inductive broadening : Type :=
| Unbroadened
| Sigma (v : R)
| SigmaField (f : field_key).

Record LineSourceModel : Type := mk_LineSourceModel {
  e0 : R;
  emission_field : field_key;
  sigma : broadening;
  spectral_norm : R;
  redshift : R;
  scale_factor : R
}.

(** [np.linspace(-6, 6, 2400)] *)
Definition gx : list R :=
  map (fun i => -6 + INR i * (12 / 2399)) (seq 0 2400).

(** [np.searchsorted(a, x)]: the number of leading entries below [x] *)
Fixpoint searchsorted (a : list R) (x : R) : nat :=
  match a with
  | [] => O
  | y :: t => if Rltb y x then S (searchsorted t x) else O
  end.

(** [ret[1:] - ret[:-1]] *)
Definition diffs (r : list R) : list R :=
  zip_with Rminus (tl r) (removelast r).

Section ProcessData.
Variable G : PRNG.

(** [norm.cdf(gx)], the table of scipy. *)
Variable gcdf : list R.

(** The speed of light, in the velocity unit of the broadening field. *)
Variable clight : R.

(** Lines 948 and 983: the per-cell width in keV *)
Definition sigma_of (m : LineSourceModel) (c : IOChunk) (f : field_key)
  : list R :=
  map (fun v => v * e0 m / clight) (io_get c f).

(** Line 938: the Poisson means of the photons mode *)
Definition photon_means (m : LineSourceModel) (c : IOChunk) : list R :=
  map (fun x => x * spectral_norm m * scale_factor m)
      (io_get c (emission_field m)).

(** Lines 950-956: broadening by a field, cell by cell *)
Fixpoint cells_loop (cells : list (nat * R)) (energies : list R)
         (start_e : nat) (s : RandomState G)
  : option (list R * RandomState G) :=
  match cells with
  | [] => Some (energies, s)
  | (n, sg) :: t =>
      if (0 <? n)%nat then
        '(dE, s1) <- normal G sg n s ;;
        let cur := slice start_e (start_e + n) energies in
        cells_loop t (slice_assign start_e (zip_with Rplus cur dE) energies)
                   (start_e + n)%nat s1
      else cells_loop t energies start_e s
  end.

(** Lines 975-991 *)
Definition line_spectrum (m : LineSourceModel) (c : IOChunk)
           (ebins : list R) : option (list R) :=
  let em := io_get c (emission_field m) in
  let de := map (fun x => x - e0 m) ebins in
  let nb := (length ebins - 1)%nat in
  match sigma m with
  | Sigma sg =>
      r <- np_interp (map (fun x => x / sg) de) gx gcdf ;;
      Some (map (Rmult (np_sum em)) (diffs r))
  | SigmaField f =>
      fold_left
        (fun acc cell =>
           sp <- acc ;;
           r <- np_interp (map (fun x => x / snd cell) de) gx gcdf ;;
           Some (zip_with Rplus sp (map (Rmult (fst cell)) (diffs r))))
        (combine em (sigma_of m c f))
        (Some (repeat 0 nb))
  | Unbroadened =>
      let idx := searchsorted ebins (e0 m) in
      if (idx <? nb)%nat then Some (list_set idx (np_sum em) (repeat 0 nb))
      else None
  end.

(** [process_data(mode, chunk, ebins=None)] *)
Definition process_data (m : LineSourceModel) (md : mode) (c : IOChunk)
           (ebins : option (list R)) (s : RandomState G)
  : option (result * RandomState G) :=
  let em := io_get c (emission_field m) in
  match md with
  | photons =>
      '(number_of_photons, s1) <- poisson G (photon_means m c) s ;;
      let tot := nat_sum number_of_photons in
      let energies := map (Rmult (e0 m)) (repeat 1 tot) in
      '(energies1, s2) <-
        match sigma m with
        | Sigma sg =>
            '(dE, s2) <- normal G sg tot s1 ;;
            Some (zip_with Rplus energies dE, s2)
        | SigmaField f =>
            cells_loop (combine number_of_photons (sigma_of m c f))
                       energies O s1
        | Unbroadened => Some (energies, s1)
        end ;;
      let active_cells := map (fun n => (0 <? n)%nat) number_of_photons in
      Some (RPhotons (count_true active_cells)
                     (mask_select active_cells number_of_photons)
                     (Mask active_cells)
                     (map (fun x => x * scale_factor m) energies1), s2)
  | photon_field => Some (RArray (flat em), s)
  | energy_field => Some (RArray (flat (map (Rmult (e0 m)) em)), s)
  | spectrum =>
      eb <- ebins ;;
      sp <- line_spectrum m c eb ;;
      Some (RArray (flat sp), s)
  end.
End ProcessData.

End Line.

(** * [make_spectrum]

    The three [make_spectrum] methods sum the spectrum mode of
    [process_data] over the chunks of a data source, with [spec += ...] on an
    array allocated beforehand. *)

(** [spec += a] for a flat [spec]: numpy adds in place when [a] broadcasts
    to the shape of [spec] (a scalar, one entry, or as many entries as
    [spec]) and raises otherwise. *)
Definition np_iadd (spec : list R) (a : ndarray) : option (list R) :=
  match shape a with
  | [] => match data a with
          | [x] => Some (map (fun y => y + x) spec)
          | _ => None
          end
  | [n] => if (n =? length spec)%nat then Some (zip_with Rplus spec (data a))
           else if (n =? 1)%nat
                then match data a with
                     | [x] => Some (map (fun y => y + x) spec)
                     | _ => None
                     end
                else None
  | _ => None
  end.

(** [np.linspace(lo, hi, num)] *)
Definition np_linspace (lo hi : R) (num : nat) : list R :=
  match num with
  | 1%nat => [lo]
  | _ => map (fun i => lo + INR i * ((hi - lo) / INR (num - 1))) (seq 0 num)
  end.

(** [0.5*(ebins[1:]+ebins[:-1])] *)
Definition midpoints (ebins : list R) : list R :=
  zip_with (fun a b => (1 / 2) * (a + b)) (tl ebins) (removelast ebins).

(** The loop [for chunk in ...: spec += process_data("spectrum", chunk)]
    over any of the three engines. *)
Fixpoint spectrum_loop {G : PRNG} {C : Type}
         (call : C -> RandomState G -> option (result * RandomState G))
         (chunks : list C) (spec : list R) (s : RandomState G)
  : option (list R * RandomState G) :=
  match chunks with
  | [] => Some (spec, s)
  | c :: t =>
      '(r, s1) <- call c s ;;
      match r with
      | RArray a =>
          spec1 <- np_iadd spec a ;;
          spectrum_loop call t spec1 s1
      | _ => None
      end
  end.

Section MakeSpectrum.
Variable G : PRNG.

(** The tables of [soxs.constants] and the temperature conversion, for the
    thermal engine. *)
Variable elem_names : list string.
Variable atomic_weights : list R.
Variable metal_elem : list nat.
Variable to_keV : R -> R.

(** [ThermalSourceModel.make_spectrum(data_source)] for a data object,
    given by its dataset and the list of its chunks.  The result is the
    pair of the bin edges and the spectrum. *)
Definition thermal_make_spectrum (m : Thermal.ThermalSourceModel)
           (ds : Dataset) (chunks : list Chunk) (s : RandomState G)
  : option (list R * list R * RandomState G) :=
  match Thermal.setup_model elem_names atomic_weights metal_elem m
                            (DataObject ds chunks) 0 1 with
  | inl _ => None
  | inr m' =>
      let sm := Thermal.spectral_model m' in
      '(spec, s') <- spectrum_loop (Thermal.process_data G to_keV m' spectrum)
                                   chunks
                                   (repeat 0 (length (Thermal.sm_emid sm))) s ;;
      Some (Thermal.sm_ebins sm, spec, s')
  end.

(** [PowerLawSourceModel.setup_model]; the division by [1 + redshift]
    raises for the float -1, and the field lookup raises when the emission
    field does not exist.  The attribute [ftype] that the lookup sets is
    read by [make_xray_fields] only and is not part of the model record. *)
Definition plaw_setup_model (m : PowerLaw.PowerLawSourceModel) (ds : Dataset)
           (redshift' spectral_norm' : R)
  : option PowerLaw.PowerLawSourceModel :=
  if Reqb (1 + redshift') 0 then None else
  '(_, _) <- get_field_info ds (PowerLaw.emission_field m) ;;
  Some {| PowerLaw.e0 := PowerLaw.e0 m;
          PowerLaw.emin := PowerLaw.emin m;
          PowerLaw.emax := PowerLaw.emax m;
          PowerLaw.emission_field := PowerLaw.emission_field m;
          PowerLaw.alpha := PowerLaw.alpha m;
          PowerLaw.spectral_norm := spectral_norm';
          PowerLaw.redshift := redshift';
          PowerLaw.scale_factor := 1 / (1 + redshift') |}.

(** [LineSourceModel.setup_model], likewise. *)
Definition line_setup_model (m : Line.LineSourceModel) (ds : Dataset)
           (redshift' spectral_norm' : R)
  : option Line.LineSourceModel :=
  if Reqb (1 + redshift') 0 then None else
  '(_, _) <- get_field_info ds (Line.emission_field m) ;;
  Some {| Line.e0 := Line.e0 m;
          Line.emission_field := Line.emission_field m;
          Line.sigma := Line.sigma m;
          Line.spectral_norm := spectral_norm';
          Line.redshift := redshift';
          Line.scale_factor := 1 / (1 + redshift') |}.

(** [PowerLawSourceModel.make_spectrum(data_source, emin, emax, nbins)] *)
Definition plaw_make_spectrum (m : PowerLaw.PowerLawSourceModel)
           (chunks : list IOChunk) (emin emax : R) (nbins : nat)
           (s : RandomState G)
  : option (list R * list R * RandomState G) :=
  let ebins := np_linspace emin emax (nbins + 1) in
  let emid := midpoints ebins in
  '(spec, s') <- spectrum_loop
                   (fun c => PowerLaw.process_data G m spectrum c (Some emid))
                   chunks (repeat 0 nbins) s ;;
  Some (ebins, spec, s').

(** [norm.cdf(gx)] and the speed of light, for the line engine. *)
Variable gcdf : list R.
Variable clight : R.

(** [LineSourceModel.make_spectrum(data_source, emin, emax, nbins)] *)
Definition line_make_spectrum (m : Line.LineSourceModel)
           (chunks : list IOChunk) (emin emax : R) (nbins : nat)
           (s : RandomState G)
  : option (list R * list R * RandomState G) :=
  let ebins := np_linspace emin emax (nbins + 1) in
  '(spec, s') <- spectrum_loop
                   (fun c => Line.process_data G gcdf clight m spectrum c
                                               (Some ebins))
                   chunks (repeat 0 nbins) s ;;
  Some (ebins, spec, s').
End MakeSpectrum.

(** * Random state inside and outside a model instance

    A process holds the state of the generator behind the [numpy.random]
    module, which everything running in the process shares, and the state
    of the generator object that [__init__] stores in [self.prng] (lines 61,
    278, 777 and 909). *)
Record World (G : PRNG) : Type := mk_World {
  np_random : RandomState G;
  self_prng : RandomState G
}.

(** The two generators of a process. *)
Inductive generator : Type := numpy_random_module | instance_prng.

Definition state_of {G : PRNG} (g : generator) (w : World G) : RandomState G :=
  match g with
  | numpy_random_module => np_random w
  | instance_prng => self_prng w
  end.

Definition with_state {G : PRNG} (g : generator) (w : World G)
           (s : RandomState G) : World G :=
  match g with
  | numpy_random_module => {| np_random := s; self_prng := self_prng w |}
  | instance_prng => {| np_random := np_random w; self_prng := s |}
  end.

(** The generator [g] as an object of the process: each of its methods
    draws from the state of [g] and advances it.  The draws of the
    [process_data] methods are the calls [self.prng.poisson],
    [self.prng.uniform], [self.prng.choice] and [self.prng.normal] of lines
    495, 509, 513, 822, 831, 939, 944 and 953, so in a process a method runs
    with the object of [instance_prng] as its generator. *)
Definition generator_object (G : PRNG) (g : generator) : PRNG :=
  {| RandomState := World G;
     poisson1 := fun lam w =>
       let (n, s) := poisson1 G lam (state_of g w) in (n, with_state g w s);
     uniform1 := fun w =>
       let (u, s) := uniform1 G (state_of g w) in (u, with_state g w s);
     choice1 := fun nchan p w =>
       match choice1 G nchan p (state_of g w) with
       | Some (i, s) => Some (i, with_state g w s)
       | None => None
       end;
     normal1 := fun sg w =>
       let (x, s) := normal1 G sg (state_of g w) in (x, with_state g w s) |}.

(** * Scaling the emission

    The chunk with the values of one field multiplied by [k], and a result
    with its array multiplied by [k]. *)

Definition scale_chunk (f : field_key) (k : R) (c : Chunk) : Chunk :=
  {| orig_shape := orig_shape c;
     field_values := fun g i => if field_key_eqb g f
                                then k * field_values c g i
                                else field_values c g i;
     field_units := field_units c |}.

Definition scale_io (f : field_key) (k : R) (c : IOChunk) : IOChunk :=
  {| io_size := io_size c;
     io_values := fun g i => if field_key_eqb g f
                             then k * io_values c g i
                             else io_values c g i |}.

Definition scale_array (k : R) (a : ndarray) : ndarray :=
  {| shape := shape a; data := map (Rmult k) (data a) |}.

Definition scale_result (k : R) (r : result) : result :=
  match r with
  | RArray a => RArray (scale_array k a)
  | _ => r
  end.

Definition scale_run {S : Type} (k : R) (r : option (result * S))
  : option (result * S) :=
  match r with
  | Some (x, s) => Some (scale_result k x, s)
  | None => None
  end.

(** The fields a parameter reads. *)
Definition param_fields (p : param) : list field_key :=
  match p with
  | Field f => [f]
  | Float _ => []
  end.

(** The fields a thermal model reads besides the emission measure. *)
Definition thermal_other_fields (m : Thermal.ThermalSourceModel)
  : list field_key :=
  [Thermal.temperature_field m; Thermal.density_field m]
    ++ match Thermal.nh_field m with Some f => [f] | None => [] end
    ++ param_fields (Thermal.h_fraction m)
    ++ param_fields (Thermal.Zmet m)
    ++ flat_map (fun kv => param_fields (snd kv)) (Thermal.var_elem m).

(** * Notions used in the proofs *)

(** A run of [l] consecutive cell numbers, from 1 to [k] of them, inside
    the cells [a], ..., [a + n - 1]. *)
Definition is_batch (k a n : nat) (ck : list nat) : Prop :=
  exists b l, ck = seq b l /\ (0 < l <= k)%nat /\ (a <= b)%nat
              /\ (b + l <= a + n)%nat.

(** What the batch loop of the photons mode keeps true, with [n] eligible
    cells of which the first [a] have been processed: a count per eligible
    cell, none yet for the cells still to come, both positions in the buffer
    at the number of photons drawn so far, and a buffer as long as its
    capacity that holds them. *)
Definition photons_inv (n a : nat) (st : Thermal.loop_state) : Prop :=
  length (Thermal.number_of_photons st) = n
  /\ skipn a (Thermal.number_of_photons st) = repeat O (n - a)
  /\ Thermal.start_e st = Thermal.end_e st
  /\ Thermal.end_e st = nat_sum (Thermal.number_of_photons st)
  /\ length (Thermal.energies (Thermal.buf st))
     = Thermal.num_photons_max (Thermal.buf st)
  /\ (Thermal.end_e st <= Thermal.num_photons_max (Thermal.buf st))%nat.

(** Of the first [a] eligible cells, those without normalization have no
    photons. *)
Definition dark_inv (e : Thermal.eligible) (a : nat)
           (st : Thermal.loop_state) : Prop :=
  forall k, (k < a)%nat -> nth k (Thermal.cell_nrm e) 0 = 0 ->
            nth k (Thermal.number_of_photons st) O = O.

(** The values the photon_field and energy_field modes store for the cells
    of the batch [ibegin, iend) (lines 525 and 529-530). *)
Definition field_values_of (m : Thermal.ThermalSourceModel) (md : mode)
           (e : Thermal.eligible) (ibegin iend : nat) (tot : matrix) : list R :=
  match md with
  | energy_field =>
      zip_with Rmult (row_sums (mul_cols tot (Thermal.emid m)))
               (slice ibegin iend (Thermal.cell_nrm e))
  | _ => Thermal.cell_norm e ibegin iend tot
  end.

(** The batches still to be processed, from cell [a] up to cell [n]. *)
Fixpoint chain (a : nat) (cks : list (list nat)) (n : nat) : Prop :=
  match cks with
  | [] => a = n
  | ck :: t => exists l, (0 < l)%nat /\ (a + l <= n)%nat /\ ck = seq a l
                         /\ chain (a + l) t n
  end.

(** The outcome [r] of a computation on the state of the generator [g],
    seen in the world [w] it started from. *)
Definition in_world {G : PRNG} {A : Type} (g : generator) (w : World G)
           (r : option (A * RandomState G)) : option (A * World G) :=
  match r with
  | Some (a, s) => Some (a, with_state g w s)
  | None => None
  end.

(** The uniform numbers a photons-mode loop over the cells draws, cell by
    cell, for the photon counts [counts]: as many as the cell has photons. *)
Fixpoint draws_per_cell (G : PRNG) (counts : list nat) (s : RandomState G)
  : list (list R) * RandomState G :=
  match counts with
  | [] => ([], s)
  | n :: t =>
      let (u, s1) := uniform G n s in
      let (us, s2) := draws_per_cell G t s1 in
      (u :: us, s2)
  end.

(** The total of a spectrum as a field mode counts it: the photons of all
    bins, or their energy at the mid energies of the bins. *)
Definition weighted_total (m : Thermal.ThermalSourceModel) (md : mode)
           (spec : list R) : R :=
  match md with
  | energy_field => np_sum (zip_with Rmult spec (Thermal.emid m))
  | _ => np_sum spec
  end.

(** The eligible arrays with the normalizations multiplied by [k], and the
    loop state with its flux and spectrum accumulators multiplied by [k]. *)
Definition scale_eligible (k : R) (e : Thermal.eligible) : Thermal.eligible :=
  {| Thermal.num_cells := Thermal.num_cells e;
     Thermal.kT := Thermal.kT e;
     Thermal.cell_nrm := map (Rmult k) (Thermal.cell_nrm e);
     Thermal.nH := Thermal.nH e;
     Thermal.metalZ := Thermal.metalZ e;
     Thermal.elemZ := Thermal.elemZ e;
     Thermal.idxs := Thermal.idxs e |}.

Definition scale_state (k : R) (st : Thermal.loop_state) : Thermal.loop_state :=
  {| Thermal.number_of_photons := Thermal.number_of_photons st;
     Thermal.buf := Thermal.buf st;
     Thermal.start_e := Thermal.start_e st;
     Thermal.end_e := Thermal.end_e st;
     Thermal.spec := map (Rmult k) (Thermal.spec st);
     Thermal.ret := map (Rmult k) (Thermal.ret st) |}.

Definition scale_step {G : PRNG} (k : R)
           (r : option (Thermal.loop_state * RandomState G))
  : option (Thermal.loop_state * RandomState G) :=
  match r with
  | Some (st, s) => Some (scale_state k st, s)
  | None => None
  end.

(** * Test data

    Small concrete models and chunks on which the theorems below are
    instantiated. *)
Module Fixtures.

Definition gas (name : string) : field_key := ("gas"%string, name).

(** A generator whose state counts the draws made so far: a Poisson draw
    gives two photons for a positive mean and none otherwise, a uniform
    draw gives one half. *)
Definition counter : PRNG :=
  {| RandomState := nat;
     poisson1 := fun lam s => (if Rltb 0 lam then 2%nat else O, S s);
     uniform1 := fun s => (1 / 2, S s);
     choice1 := fun nchan p s => Some (O, S s);
     normal1 := fun sg s => (0, S s) |}.

Definition plaw : PowerLaw.PowerLawSourceModel :=
  {| PowerLaw.e0 := 1; PowerLaw.emin := 1; PowerLaw.emax := 2;
     PowerLaw.emission_field := gas "norm";
     PowerLaw.alpha := Field (gas "index");
     PowerLaw.spectral_norm := 1; PowerLaw.redshift := 0;
     PowerLaw.scale_factor := 1 |}.

(** Two cells: indices 1 and 2, emission 3 and 4. *)
Definition plaw_chunk : IOChunk :=
  {| io_size := 2;
     io_values := fun f i =>
       if String.eqb (snd f) "index" then nth i [1; 2] 0
       else nth i [3; 4] 0 |}.

(** Tables in the layout of [soxs.constants], cut down to hydrogen, helium
    and oxygen. *)
Definition elem_names : list string :=
  [""%string; "H"%string; "He"%string; "O"%string].
Definition atomic_weights : list R := [0; 1; 4; 16].
Definition metal_elem : list nat := [3%nat].

(** A spectral table with two bins between 1 and 3 keV: a flat continuum,
    flat metal lines and one flat trace-element spectrum, for every
    temperature. *)
Definition flat_table : Thermal.SpectralModel :=
  {| Thermal.sm_ebins := [1; 2; 3];
     Thermal.sm_de := [1; 1];
     Thermal.sm_emid := [3 / 2; 5 / 2];
     Thermal.get_spectrum := fun kT nH =>
       (Some (map (fun _ => [1; 1]) kT),
        Some (map (fun _ => [1; 1]) kT),
        Some [map (fun _ => [1; 1]) kT]) |}.

(** A thermal model as [setup_model] leaves it: metallicity and oxygen
    abundance read from fields, inverse-CDF sampling, linear bins. *)
Definition apec : Thermal.ThermalSourceModel :=
  {| Thermal.spectral_model := flat_table;
     Thermal.prepare_spectrum := fun _ _ _ => inr flat_table;
     Thermal.Zmet := Field (gas "metallicity");
     Thermal.var_elem := [("O"%string, Field (gas "O_fraction"))];
     Thermal.var_elem_keys := ["O"%string];
     Thermal.var_ion_keys := [];
     Thermal.num_var_elem := 1;
     Thermal.max_density := Some 5;
     Thermal.temperature_field := gas "temperature";
     Thermal.emission_measure_field := gas "emission_measure";
     Thermal.density_field := gas "density";
     Thermal.nh_field := None;
     Thermal.h_fraction := Float 1;
     Thermal.kT_min := 1;
     Thermal.kT_max := 64;
     Thermal.nH_min := None;
     Thermal.nH_max := None;
     Thermal.nei := false;
     Thermal.fix_norm := false;
     Thermal.atable := [0; 1; 1; 1];
     Thermal.method := Thermal.invert_cdf;
     Thermal.ftype := "gas";
     Thermal.redshift := 0;
     Thermal.spectral_norm := 1;
     Thermal.Zconvert := 1;
     Thermal.mconvert := [("O"%string, 1)];
     Thermal.ebins := [1; 2; 3];
     Thermal.de := [1; 1];
     Thermal.emid := [3 / 2; 5 / 2];
     Thermal.binscale := Thermal.linear;
     Thermal.bin_edges := [1; 2; 3];
     Thermal.nchan := 2;
     Thermal.tot_num_cells := None |}.

(** Every field exists; abundances are in solar units. *)
Definition dataset : Dataset :=
  {| get_field_info := fun f => Some (f, "Zsun"%string) |}.

(** The same fields as mass fractions without units, and in units that
    [setup_model] does not know. *)
Definition code_dataset : Dataset :=
  {| get_field_info := fun f => Some (f, "dimensionless"%string) |}.

Definition cgs_dataset : Dataset :=
  {| get_field_info := fun f => Some (f, "g/cm**3"%string) |}.

(** Three cells; the first is too cold for the filter, the second has no
    emission measure. *)
Definition cells (name : string) (i : nat) : R :=
  if String.eqb name "temperature" then nth i [0; 2; 3] 0
  else if String.eqb name "emission_measure" then nth i [1; 0; 1] 0
  else 1.

Definition chunk : Chunk :=
  {| orig_shape := [3%nat];
     field_values := fun f i => cells (snd f) i;
     field_units := fun f => "Zsun"%string |}.

(** The same cells, all of them too cold for the filter. *)
Definition cold_chunk : Chunk :=
  {| orig_shape := [3%nat];
     field_values := fun f i =>
       if String.eqb (snd f) "temperature" then 0 else 1;
     field_units := fun f => "Zsun"%string |}.

(** A chunk without cells. *)
Definition empty_chunk : Chunk :=
  {| orig_shape := [0%nat];
     field_values := fun f i => 0;
     field_units := fun f => "Zsun"%string |}.

(** The power-law chunk again, with no emission in its second cell. *)
Definition plaw_dim_chunk : IOChunk :=
  {| io_size := 2;
     io_values := fun f i =>
       if String.eqb (snd f) "index" then nth i [1; 2] 0
       else nth i [3; 0] 0 |}.

(** An unbroadened line at 1 keV, and two cells of which the first does not
    emit. *)
Definition line : Line.LineSourceModel :=
  {| Line.e0 := 1;
     Line.emission_field := gas "norm";
     Line.sigma := Line.Unbroadened;
     Line.spectral_norm := 1;
     Line.redshift := 0;
     Line.scale_factor := 1 |}.

Definition line_chunk : IOChunk :=
  {| io_size := 2; io_values := fun f i => nth i [0; 1] 0 |}.

(** The thermal model again, with another sampling method. *)
Definition with_method (me : Thermal.sampling_method)
           (m : Thermal.ThermalSourceModel) : Thermal.ThermalSourceModel :=
  {| Thermal.spectral_model := Thermal.spectral_model m;
     Thermal.prepare_spectrum := Thermal.prepare_spectrum m;
     Thermal.Zmet := Thermal.Zmet m;
     Thermal.var_elem := Thermal.var_elem m;
     Thermal.var_elem_keys := Thermal.var_elem_keys m;
     Thermal.var_ion_keys := Thermal.var_ion_keys m;
     Thermal.num_var_elem := Thermal.num_var_elem m;
     Thermal.max_density := Thermal.max_density m;
     Thermal.temperature_field := Thermal.temperature_field m;
     Thermal.emission_measure_field := Thermal.emission_measure_field m;
     Thermal.density_field := Thermal.density_field m;
     Thermal.nh_field := Thermal.nh_field m;
     Thermal.h_fraction := Thermal.h_fraction m;
     Thermal.kT_min := Thermal.kT_min m;
     Thermal.kT_max := Thermal.kT_max m;
     Thermal.nH_min := Thermal.nH_min m;
     Thermal.nH_max := Thermal.nH_max m;
     Thermal.nei := Thermal.nei m;
     Thermal.fix_norm := Thermal.fix_norm m;
     Thermal.atable := Thermal.atable m;
     Thermal.method := me;
     Thermal.ftype := Thermal.ftype m;
     Thermal.redshift := Thermal.redshift m;
     Thermal.spectral_norm := Thermal.spectral_norm m;
     Thermal.Zconvert := Thermal.Zconvert m;
     Thermal.mconvert := Thermal.mconvert m;
     Thermal.ebins := Thermal.ebins m;
     Thermal.de := Thermal.de m;
     Thermal.emid := Thermal.emid m;
     Thermal.binscale := Thermal.binscale m;
     Thermal.bin_edges := Thermal.bin_edges m;
     Thermal.nchan := Thermal.nchan m;
     Thermal.tot_num_cells := Thermal.tot_num_cells m |}.

(** The power-law model with the constant index 2. *)
Definition plaw_flat : PowerLaw.PowerLawSourceModel :=
  {| PowerLaw.e0 := 1; PowerLaw.emin := 1; PowerLaw.emax := 2;
     PowerLaw.emission_field := gas "norm";
     PowerLaw.alpha := Float 2;
     PowerLaw.spectral_norm := 1; PowerLaw.redshift := 0;
     PowerLaw.scale_factor := 1 |}.

(** A chunk of one cell with emission 5. *)
Definition plaw_cell : IOChunk :=
  {| io_size := 1; io_values := fun f i => 5 |}.

(** A line of constant width 1 keV, and a table in the place of
    [norm.cdf(gx)] with one (constant) entry per abscissa. *)
Definition line_broad : Line.LineSourceModel :=
  {| Line.e0 := 1;
     Line.emission_field := gas "norm";
     Line.sigma := Line.Sigma 1;
     Line.spectral_norm := 1;
     Line.redshift := 0;
     Line.scale_factor := 1 |}.

Definition flat_cdf : list R := map (fun _ => 1 / 2) Line.gx.

(** Three cells that pass the filter and have no emission measure. *)
Definition dark_chunk : Chunk :=
  {| orig_shape := [3%nat];
     field_values := fun f i =>
       if String.eqb (snd f) "temperature" then 2
       else if String.eqb (snd f) "emission_measure" then 0
       else 1;
     field_units := fun f => "Zsun"%string |}.

(** The thermal model with the hydrogen fraction read from a field and
    without trace elements, and two cells in a column of shape (2, 1) whose
    abundances are mass fractions: metallicities 3 and 5, hydrogen
    fractions 2 and 4. *)
Definition apec_hfield : Thermal.ThermalSourceModel :=
  {| Thermal.spectral_model := flat_table;
     Thermal.prepare_spectrum := fun _ _ _ => inr flat_table;
     Thermal.Zmet := Field (gas "metallicity");
     Thermal.var_elem := [];
     Thermal.var_elem_keys := [];
     Thermal.var_ion_keys := [];
     Thermal.num_var_elem := 0;
     Thermal.max_density := Some 5;
     Thermal.temperature_field := gas "temperature";
     Thermal.emission_measure_field := gas "emission_measure";
     Thermal.density_field := gas "density";
     Thermal.nh_field := None;
     Thermal.h_fraction := Field (gas "H_fraction");
     Thermal.kT_min := 1;
     Thermal.kT_max := 64;
     Thermal.nH_min := None;
     Thermal.nH_max := None;
     Thermal.nei := false;
     Thermal.fix_norm := false;
     Thermal.atable := [0; 1; 1; 1];
     Thermal.method := Thermal.invert_cdf;
     Thermal.ftype := "gas";
     Thermal.redshift := 0;
     Thermal.spectral_norm := 1;
     Thermal.Zconvert := 1;
     Thermal.mconvert := [];
     Thermal.ebins := [1; 2; 3];
     Thermal.de := [1; 1];
     Thermal.emid := [3 / 2; 5 / 2];
     Thermal.binscale := Thermal.linear;
     Thermal.bin_edges := [1; 2; 3];
     Thermal.nchan := 2;
     Thermal.tot_num_cells := None |}.

Definition column_chunk : Chunk :=
  {| orig_shape := [2%nat; 1%nat];
     field_values := fun f i =>
       if String.eqb (snd f) "temperature" then 2
       else if String.eqb (snd f) "metallicity" then nth i [3; 5] 0
       else if String.eqb (snd f) "H_fraction" then nth i [2; 4] 0
       else 1;
     field_units := fun f => "dimensionless"%string |}.

(** Four cells on a grid of two by two, all of which pass the filter. *)
Definition grid_chunk : Chunk :=
  {| orig_shape := [2%nat; 2%nat];
     field_values := fun f i =>
       if String.eqb (snd f) "temperature" then 2 else 1;
     field_units := fun f => "Zsun"%string |}.

End Fixtures.

(** * Properties *)

Unset Implicit Arguments.

Arguments Rltb : simpl never.
Arguments Rleb : simpl never.
Arguments Reqb : simpl never.
Arguments Thermal.num_photons_max_init : simpl never.
Arguments Line.gx : simpl never.

(** ** Lists *)

Lemma zip_with_length {A B C : Type} (f : A -> B -> C) l1 l2 :
  length (zip_with f l1 l2) = Nat.min (length l1) (length l2).
Proof.
  revert l2; induction l1 as [|a l1 IH]; intros [|b l2]; simpl; auto.
Qed.

Lemma zip_with_nth_error {A B C : Type} (f : A -> B -> C) l1 l2 i :
  nth_error (zip_with f l1 l2) i =
  match nth_error l1 i, nth_error l2 i with
  | Some a, Some b => Some (f a b)
  | _, _ => None
  end.
Proof.
  revert l2 i; induction l1 as [|a l1 IH]; intros [|b l2] [|i]; simpl; auto.
  - destruct (nth_error l1 i); reflexivity.
Qed.

Lemma Reqb_true x y : x = y -> Reqb x y = true.
Proof. intros H; unfold Reqb; destruct (Req_dec_T x y); congruence. Qed.

Lemma Reqb_false x y : x <> y -> Reqb x y = false.
Proof. intros H; unfold Reqb; destruct (Req_dec_T x y); congruence. Qed.

Lemma Rltb_true x y : x < y -> Rltb x y = true.
Proof. intros H; unfold Rltb; destruct (Rlt_dec x y); [reflexivity|lra]. Qed.

Lemma Rltb_false x y : y <= x -> Rltb x y = false.
Proof. intros H; unfold Rltb; destruct (Rlt_dec x y); [lra|reflexivity]. Qed.

Lemma Rleb_true x y : x <= y -> Rleb x y = true.
Proof. intros H; unfold Rleb; destruct (Rle_dec x y); [reflexivity|lra]. Qed.

Lemma Rleb_false x y : y < x -> Rleb x y = false.
Proof. intros H; unfold Rleb; destruct (Rle_dec x y); [lra|reflexivity]. Qed.

(** Decide the float comparisons left in a goal over concrete numbers. *)
Ltac decide_floats :=
  repeat match goal with
    | |- context [Rltb ?x ?y] =>
        first [ rewrite (@Rltb_true x y) by lra
              | rewrite (@Rltb_false x y) by lra ]
    | |- context [Rleb ?x ?y] =>
        first [ rewrite (@Rleb_true x y) by lra
              | rewrite (@Rleb_false x y) by lra ]
    | |- context [Reqb ?x ?y] =>
        first [ rewrite (@Reqb_true x y) by lra
              | rewrite (@Reqb_false x y) by lra ]
    end.

Ltac run_model :=
  repeat (progress (cbn; unfold poisson, normal; cbn; decide_floats)).

(** ** The power-law engine: closed forms *)

Lemma plaw_norm_fac_nth m al i a :
  nth_error al i = Some a ->
  nth_error (PowerLaw.norm_fac m al) i =
  Some ((if Reqb a 1 then ln (PowerLaw.emax m / PowerLaw.emin m)
         else Rpower (PowerLaw.emax m) (1 - a) - Rpower (PowerLaw.emin m) (1 - a))
        * Rpower (PowerLaw.e0 m) a).
Proof.
  intros Ha. unfold PowerLaw.norm_fac.
  rewrite !zip_with_nth_error, nth_error_map, Ha. reflexivity.
Qed.

Lemma plaw_norm_nth m al em i a e :
  nth_error al i = Some a -> nth_error em i = Some e ->
  nth_error (PowerLaw.norm m al em) i =
  Some (if Reqb a 1
        then ln (PowerLaw.emax m / PowerLaw.emin m) * Rpower (PowerLaw.e0 m) a * e
        else (Rpower (PowerLaw.emax m) (1 - a) - Rpower (PowerLaw.emin m) (1 - a))
             * Rpower (PowerLaw.e0 m) a * e / (1 - a)).
Proof.
  intros Ha He. unfold PowerLaw.norm.
  rewrite !zip_with_nth_error, (plaw_norm_fac_nth m al i a Ha), Ha, He.
  destruct (Reqb a 1); reflexivity.
Qed.

(** ** The power-law engine: energy flux *)

(** C10.  The energy_field mode of the power-law engine returns, for every
    cell, emission * (emax^(2-alpha) - emin^(2-alpha)) * e0^alpha /
    (2 - alpha); the formula is the same for every index, and at an index
    equal to two its divisor 2 - alpha is zero. *)
Theorem plaw_energy_field_divides_by_two_minus_alpha :
  forall (G : PRNG) (m : PowerLaw.PowerLawSourceModel) (c : IOChunk)
         (i : nat) (a e : R),
    nth_error (PowerLaw.alpha_of m c) i = Some a ->
    nth_error (io_get c (PowerLaw.emission_field m)) i = Some e ->
    let al := PowerLaw.alpha_of m c in
    let em := io_get c (PowerLaw.emission_field m) in
    (forall emid s,
        PowerLaw.process_data G m energy_field c emid s =
        Some (RArray (flat (PowerLaw.energy_flux m al em)), s))
    /\ nth_error (PowerLaw.energy_flux m al em) i
       = Some ((Rpower (PowerLaw.emax m) (2 - a)
                - Rpower (PowerLaw.emin m) (2 - a))
               * (Rpower (PowerLaw.e0 m) a / (2 - a)) * e)
    /\ (a = 2 -> 2 - a = 0).
Proof.
  intros G m c i a e Ha He al em.
  split; [reflexivity|]. split; [|intros ->; ring].
  unfold PowerLaw.energy_flux. fold al em in Ha, He |- *.
  rewrite !zip_with_nth_error, nth_error_map, Ha, He. reflexivity.
Qed.

Lemma plaw_energy_field_divides_by_two_minus_alpha_witness :
  nth_error (PowerLaw.alpha_of Fixtures.plaw Fixtures.plaw_chunk) 1 = Some 2
  /\ nth_error (io_get Fixtures.plaw_chunk
                       (PowerLaw.emission_field Fixtures.plaw)) 1 = Some 4
  /\ nth_error
       (PowerLaw.energy_flux Fixtures.plaw
          (PowerLaw.alpha_of Fixtures.plaw Fixtures.plaw_chunk)
          (io_get Fixtures.plaw_chunk (PowerLaw.emission_field Fixtures.plaw))) 1
     = Some ((Rpower 2 (2 - 2) - Rpower 1 (2 - 2)) * (Rpower 1 2 / (2 - 2)) * 4)
  /\ 2 - 2 = 0.
Proof.
  split; [reflexivity|]. split; [reflexivity|].
  pose proof (@plaw_energy_field_divides_by_two_minus_alpha Fixtures.counter
                Fixtures.plaw Fixtures.plaw_chunk 1%nat 2 4 eq_refl eq_refl)
    as [_ [H1 H2]].
  split; [exact H1 | exact (H2 eq_refl)].
Defined.

(** ** The thermal engine: unit conversion at setup *)

Section SetupFacts.
Variable elem_names : list string.
Variable atomic_weights : list R.
Variable metal_elem : list nat.

Let element_conversion := Thermal.element_conversion elem_names atomic_weights.
Let element_conversions := Thermal.element_conversions elem_names atomic_weights.

Lemma metallicity_conversion_raises m ds :
  (Thermal.nei m = false ->
   forall f, Thermal.Zmet m = Field f -> get_field_info ds f <> None) ->
  ((exists e, Thermal.metallicity_conversion atomic_weights metal_elem m ds
              = inl e)
   <-> Thermal.nei m = false /\ Thermal.unit_error ds (Thermal.Zmet m) = true)
  /\ (forall e, Thermal.metallicity_conversion atomic_weights metal_elem m ds
                = inl e -> exists msg, e = RuntimeError msg).
Proof.
  intros Hf. unfold Thermal.metallicity_conversion, Thermal.unit_error.
  destruct (Thermal.nei m) eqn:Hnei.
  - split; [split|]; [intros [e He]|intros [H _]|intros e He]; discriminate.
  - destruct (Thermal.Zmet m) as [v|f] eqn:HZ.
    + split; [split|]; [intros [e He]|intros [_ H]|intros e He]; discriminate.
    + specialize (Hf eq_refl f eq_refl).
      destruct (get_field_info ds f) as [[name u]|]; [|congruence].
      destruct (Thermal.is_code_unit u); simpl.
      * split; [split|]; [intros [e He]|intros [_ H]|intros e He]; discriminate.
      * destruct (String.eqb u "Zsun"); simpl.
        -- split; [split|]; [intros [e He]|intros [_ H]|intros e He];
             discriminate.
        -- split; [split|]; [intros _; auto|intros _; eauto|].
           intros e He. inversion He. eauto.
Qed.

Lemma metallicity_conversion_value m ds f name u z :
  Thermal.nei m = false -> Thermal.Zmet m = Field f ->
  get_field_info ds f = Some (name, u) ->
  Thermal.metallicity_conversion atomic_weights metal_elem m ds = inr z ->
  z = if Thermal.is_code_unit u
      then nth 1 atomic_weights 0 / Thermal.Zsum atomic_weights metal_elem m
      else 1.
Proof.
  intros Hnei HZ Hget. unfold Thermal.metallicity_conversion.
  rewrite Hnei, HZ, Hget.
  destruct (Thermal.is_code_unit u); [congruence|].
  destruct (String.eqb u "Zsun"); congruence.
Qed.

Lemma element_conversion_raises m ds key value :
  Thermal.resolves elem_names ds (key, value) ->
  ((exists e, element_conversion m ds key value = inl e)
   <-> Thermal.unit_error ds value = true)
  /\ (forall e, element_conversion m ds key value = inl e ->
                exists msg, e = RuntimeError msg).
Proof.
  unfold Thermal.resolves, element_conversion, Thermal.element_conversion,
    Thermal.unit_error; simpl.
  destruct value as [v|f].
  - intros _. split; [split|]; [intros [e He]|intros H|intros e He];
      discriminate.
  - intros [Hg Hi].
    destruct (index_of elem_names (before_caret key)) as [n|]; [|congruence].
    destruct (get_field_info ds f) as [[name u]|]; [|congruence].
    destruct (Thermal.is_code_unit u); simpl.
    + split; [split|]; [intros [e He]|intros H|intros e He]; discriminate.
    + destruct (String.eqb u "Zsun"); simpl.
      * split; [split|]; [intros [e He]|intros H|intros e He]; discriminate.
      * split; [split|]; [auto|eauto|]. intros e He. inversion He. eauto.
Qed.

Lemma element_conversions_raises m ds items mc :
  Forall (Thermal.resolves elem_names ds) items ->
  ((exists e, element_conversions m ds items mc = inl e)
   <-> Exists (fun kv => Thermal.unit_error ds (snd kv) = true) items)
  /\ (forall e, element_conversions m ds items mc = inl e ->
                exists msg, e = RuntimeError msg).
Proof.
  intros HF. revert mc. induction HF as [|[key value] items Hr HF IH]; intros mc.
  - simpl. split; [split|]; [intros [e He]; discriminate|intros H; inversion H|].
    intros e He; discriminate.
  - cbn [element_conversions Thermal.element_conversions].
    destruct (element_conversion_raises m ds key value Hr) as [Hiff Hrt].
    fold element_conversion. fold element_conversions.
    destruct (element_conversion m ds key value) as [e0|c] eqn:Hc; simpl.
    + split; [split|].
      * intros _. constructor. simpl. apply Hiff. eauto.
      * eauto.
      * intros e He. inversion He; subst. eauto.
    + destruct (IH (match c with
                    | Some v => dict_set mc key v
                    | None => mc
                    end)) as [IHiff IHrt].
      split; [split|].
      * intros He. apply Exists_cons_tl. apply IHiff, He.
      * intros HE. inversion HE as [? ? Hbad|? ? Htl]; subst.
        -- simpl in Hbad. apply Hiff in Hbad. destruct Hbad; discriminate.
        -- apply IHiff, Htl.
      * exact IHrt.
Qed.

Lemma element_conversions_keeps m ds items mc mc' key :
  element_conversions m ds items mc = inr mc' ->
  ~ In key (map fst items) ->
  dict_get mc' key = dict_get mc key.
Proof.
  revert mc. induction items as [|[k value] items IH]; intros mc H Hnot.
  - simpl in H. congruence.
  - cbn [element_conversions Thermal.element_conversions] in H.
    fold element_conversion in H. fold element_conversions in H.
    destruct (element_conversion m ds k value) as [e|c]; [discriminate|].
    simpl in H, Hnot. apply IH in H; [|tauto]. rewrite H.
    destruct c as [v|]; [|reflexivity].
    unfold dict_set. simpl.
    destruct (String.eqb_spec k key); [subst; tauto|reflexivity].
Qed.

Lemma element_conversions_value m ds items mc mc' key f name u n :
  element_conversions m ds items mc = inr mc' ->
  NoDup (map fst items) ->
  In (key, Field f) items ->
  get_field_info ds f = Some (name, u) ->
  index_of elem_names (before_caret key) = Some n ->
  dict_get mc' key =
  Some (if Thermal.is_code_unit u
        then nth 1 atomic_weights 0
             / (nth n (Thermal.atable m) 0 * nth n atomic_weights 0)
        else 1).
Proof.
  revert mc. induction items as [|[k value] items IH];
    intros mc H Hnd Hin Hget Hidx; [destruct Hin|].
  cbn [element_conversions Thermal.element_conversions] in H.
  fold element_conversion in H. fold element_conversions in H.
  simpl in Hnd. inversion Hnd as [|? ? Hnotin Hnd']; subst.
  destruct Hin as [Heq|Hin].
  - inversion Heq; subst k value.
    unfold element_conversion, Thermal.element_conversion in H.
    rewrite Hidx, Hget in H.
    destruct (Thermal.is_code_unit u).
    + simpl in H. rewrite (element_conversions_keeps _ _ _ _ _ _ H Hnotin).
      unfold dict_set; simpl. rewrite String.eqb_refl. reflexivity.
    + destruct (String.eqb u "Zsun"); simpl in H; [|discriminate].
      rewrite (element_conversions_keeps _ _ _ _ _ _ H Hnotin).
      unfold dict_set; simpl. rewrite String.eqb_refl. reflexivity.
  - destruct (element_conversion m ds k value) as [e|c]; [discriminate|].
    simpl in H. eapply IH; eauto.
Qed.

Lemma count_cells_raises ds f chunks n e :
  Thermal.count_cells ds f chunks n = inl e ->
  chunks <> [] /\ get_field_info ds f = None /\ e = YTFieldNotFound f.
Proof.
  revert n. induction chunks as [|c chunks IH]; intros n H; simpl in H.
  - discriminate.
  - destruct (get_field_info ds f) as [info|] eqn:Hf.
    + destruct (IH _ H) as (_ & Hnone & _). discriminate.
    + inversion H. repeat split. discriminate.
Qed.

Lemma count_cells_returns ds f chunks n :
  (chunks <> [] -> get_field_info ds f <> None) ->
  exists n', Thermal.count_cells ds f chunks n = inr n'.
Proof.
  revert n. induction chunks as [|c chunks IH]; intros n H; simpl.
  - eauto.
  - destruct (get_field_info ds f) as [info|] eqn:Hf.
    + apply IH. intros _. discriminate.
    + exfalso. apply H; [discriminate|reflexivity].
Qed.

(** C7.  In [setup_model], with the lookups themselves succeeding (the
    emission-measure field, the metallicity field and the trace-element
    fields exist, and every trace element with a field is a known element):
    when the metallicity field (outside the NEI variant) or the field of a
    trace element carries units that are neither "dimensionless", "" or
    "code_metallicity" nor "Zsun", a RuntimeError is raised, whatever the
    later steps of the setup would do.  Every other error comes from one of
    those later steps: the exception of [prepare_spectrum], the IndexError
    of [self.de[0]] on a table without bins, or the YTFieldNotFound of
    reading the temperature field of a chunk of a data object.  So when
    those steps succeed, an error is raised if and only if the units are
    not understood.  When no error is raised, a metallicity field in code
    units sets Zconvert to the atomic weight of hydrogen divided by the sum
    of abundance times atomic weight over the metals, a trace element's
    field in code units sets its entry of mconvert to the atomic weight of
    hydrogen divided by that element's abundance times atomic weight, and
    units of "Zsun" set the factor to one. *)
Theorem setup_model_unit_conversion :
  forall (m : Thermal.ThermalSourceModel) (data_source : DataSource)
         (z sn : R),
    let ds := source_ds data_source in
    get_field_info ds (Thermal.emission_measure_field m) <> None ->
    (Thermal.nei m = false ->
     forall f, Thermal.Zmet m = Field f -> get_field_info ds f <> None) ->
    Forall (Thermal.resolves elem_names ds) (Thermal.var_elem m) ->
    NoDup (map fst (Thermal.var_elem m)) ->
    let run := Thermal.setup_model elem_names atomic_weights metal_elem
                                   m data_source z sn in
    let bad_units :=
      (Thermal.nei m = false /\ Thermal.unit_error ds (Thermal.Zmet m) = true)
      \/ ((0 < Thermal.num_var_elem m)%nat
          /\ Exists (fun kv => Thermal.unit_error ds (snd kv) = true)
                    (Thermal.var_elem m)) in
    let prepared :=
      Thermal.prepare_spectrum m z (Thermal.kT_min m) (Thermal.kT_max m) in
    (bad_units -> exists msg, run = inl (RuntimeError msg))
    /\ (forall e, run = inl e ->
          bad_units
          \/ prepared = inl e
          \/ (exists sm msg, prepared = inr sm /\ Thermal.sm_de sm = []
                             /\ e = IndexError msg)
          \/ (exists chunks,
                 data_source = DataObject ds chunks /\ chunks <> []
                 /\ get_field_info ds (Thermal.temperature_field m) = None
                 /\ e = YTFieldNotFound (Thermal.temperature_field m)))
    /\ ((exists sm, prepared = inr sm /\ Thermal.sm_de sm <> []) ->
        (forall chunks, data_source = DataObject ds chunks -> chunks <> [] ->
                        get_field_info ds (Thermal.temperature_field m)
                        <> None) ->
        ((exists e, run = inl e) <-> bad_units))
    /\ (forall m', run = inr m' ->
         (forall f name u,
             Thermal.nei m = false -> Thermal.Zmet m = Field f ->
             get_field_info ds f = Some (name, u) ->
             Thermal.Zconvert m' =
             if Thermal.is_code_unit u
             then nth 1 atomic_weights 0
                  / Thermal.Zsum atomic_weights metal_elem m
             else 1)
         /\ (forall key f name u n,
                (0 < Thermal.num_var_elem m)%nat ->
                In (key, Field f) (Thermal.var_elem m) ->
                get_field_info ds f = Some (name, u) ->
                index_of elem_names (before_caret key) = Some n ->
                dict_get (Thermal.mconvert m') key =
                Some (if Thermal.is_code_unit u
                      then nth 1 atomic_weights 0
                           / (nth n (Thermal.atable m) 0
                              * nth n atomic_weights 0)
                      else 1))).
Proof.
  intros m data_source z sn ds Hem HZ Hres Hnd run bad_units prepared.
  destruct (@metallicity_conversion_raises m ds HZ) as [Ziff Zrt].
  destruct (@element_conversions_raises m ds (Thermal.var_elem m)
              (Thermal.mconvert m) Hres) as [Eiff Ert].
  unfold element_conversions in Eiff, Ert.
  subst run prepared. unfold Thermal.setup_model. fold ds.
  destruct (get_field_info ds (Thermal.emission_measure_field m))
    as [[name eu]|]; [clear Hem|congruence].
  (* the metallicity, lines 306-315 *)
  destruct (Thermal.metallicity_conversion atomic_weights metal_elem m ds)
    as [ez|zc] eqn:Hzc; simpl.
  { assert (Hb : bad_units) by (left; apply Ziff; eauto).
    destruct (Zrt ez eq_refl) as [msg ->].
    split; [eauto|]. split; [intros e _; left; exact Hb|].
    split; [intros _ _; split; [intros _; exact Hb|eauto]|].
    intros m' Hm'; discriminate. }
  assert (HnZ : ~ (Thermal.nei m = false
                   /\ Thermal.unit_error ds (Thermal.Zmet m) = true)).
  { intros H. apply Ziff in H. destruct H; discriminate. }
  assert (HvZ : forall f name u,
             Thermal.nei m = false -> Thermal.Zmet m = Field f ->
             get_field_info ds f = Some (name, u) ->
             zc = if Thermal.is_code_unit u
                  then nth 1 atomic_weights 0
                       / Thermal.Zsum atomic_weights metal_elem m
                  else 1).
  { intros f nm u Hnei HZm Hget.
    eapply metallicity_conversion_value; eauto. }
  clear Ziff Zrt.
  (* the trace elements, lines 316-332 *)
  assert (Hel : forall r,
             (if (0 <? Thermal.num_var_elem m)%nat
              then Thermal.element_conversions elem_names atomic_weights m ds
                     (Thermal.var_elem m) (Thermal.mconvert m)
              else inr (Thermal.mconvert m)) = r ->
             match r with
             | inl e =>
                 (exists msg, e = RuntimeError msg)
                 /\ (0 < Thermal.num_var_elem m)%nat
                 /\ Exists (fun kv => Thermal.unit_error ds (snd kv) = true)
                           (Thermal.var_elem m)
             | inr mc =>
                 ~ ((0 < Thermal.num_var_elem m)%nat
                    /\ Exists (fun kv => Thermal.unit_error ds (snd kv) = true)
                              (Thermal.var_elem m))
                 /\ forall key f name u n,
                     (0 < Thermal.num_var_elem m)%nat ->
                     In (key, Field f) (Thermal.var_elem m) ->
                     get_field_info ds f = Some (name, u) ->
                     index_of elem_names (before_caret key) = Some n ->
                     dict_get mc key =
                     Some (if Thermal.is_code_unit u
                           then nth 1 atomic_weights 0
                                / (nth n (Thermal.atable m) 0
                                   * nth n atomic_weights 0)
                           else 1)
             end).
  { intros r Hr. destruct (0 <? Thermal.num_var_elem m)%nat eqn:Hnv.
    - apply Nat.ltb_lt in Hnv. destruct r as [e|mc].
      + split; [apply Ert; exact Hr|]. split; [exact Hnv|].
        apply Eiff. eauto.
      + split.
        * intros [_ H]. apply Eiff in H. destruct H as [e He]. congruence.
        * intros key f nm u n _ Hin Hget Hidx.
          eapply element_conversions_value; eauto.
    - apply Nat.ltb_ge in Hnv. subst r. split; [|intros; lia].
      intros [H _]. lia. }
  destruct (if (0 <? Thermal.num_var_elem m)%nat then _ else _)
    as [ee|mc]; specialize (Hel _ eq_refl); simpl.
  { destruct Hel as ([msg ->] & Hnv & Hex).
    assert (Hb : bad_units) by (right; split; assumption).
    split; [eauto|]. split; [intros e _; left; exact Hb|].
    split; [intros _ _; split; [intros _; exact Hb|eauto]|].
    intros m' Hm'; discriminate. }
  destruct Hel as [HnE HvE].
  assert (Hnb : ~ bad_units) by (intros [H|H]; contradiction).
  clear Eiff Ert.
  (* the spectral table, lines 340-348 *)
  destruct (Thermal.prepare_spectrum m z (Thermal.kT_min m)
                                     (Thermal.kT_max m))
    as [ep|sm] eqn:Hp; simpl.
  { split; [intros Hb; contradiction|].
    split; [intros e He; right; left; inversion He; reflexivity|].
    split; [intros (sm & Hsm & _); discriminate|].
    intros m' Hm'; discriminate. }
  destruct (Thermal.sm_de sm) as [|d0 de'] eqn:Hde; simpl.
  { split; [intros Hb; contradiction|].
    split.
    { intros e He. right; right; left. exists sm. eexists.
      split; [reflexivity|]. split; [exact Hde|].
      inversion He. reflexivity. }
    split.
    { intros (sm' & Hsm' & Hne). inversion Hsm'; subst sm'. congruence. }
    intros m' Hm'; discriminate. }
  (* the cells of a data object, lines 352-358 *)
  destruct data_source as [ds0|ds0 chunks]; simpl.
  { split; [intros Hb; contradiction|].
    split; [intros e He; discriminate|].
    split; [intros _ _; split; [intros [e He]; discriminate|contradiction]|].
    intros m' Hm'. inversion Hm'; subst m'; simpl. split; assumption. }
  destruct (Thermal.count_cells ds (Thermal.temperature_field m) chunks 0)
    as [ec|n] eqn:Hc; simpl.
  { split; [intros Hb; contradiction|].
    split.
    { intros e He. inversion He; subst ec.
      destruct (count_cells_raises _ _ _ _ _ Hc) as (Hne & Hnone & ->).
      right; right; right. exists chunks. repeat split; auto. }
    split.
    { intros _ Hread.
      destruct (count_cells_returns ds (Thermal.temperature_field m)
                  chunks 0 (Hread chunks eq_refl)) as [n Hn].
      congruence. }
    intros m' Hm'; discriminate. }
  split; [intros Hb; contradiction|].
  split; [intros e He; discriminate|].
  split; [intros _ _; split; [intros [e He]; discriminate|contradiction]|].
  intros m' Hm'. inversion Hm'; subst m'; simpl. split; assumption.
Qed.
End SetupFacts.

Lemma setup_model_unit_conversion_witness :
  (exists m',
      Thermal.setup_model Fixtures.elem_names Fixtures.atomic_weights
        Fixtures.metal_elem Fixtures.apec
        (DataObject Fixtures.code_dataset [Fixtures.chunk]) 0 1 = inr m'
      /\ Thermal.Zconvert m' = 1 / 16
      /\ dict_get (Thermal.mconvert m') "O" = Some (1 / (1 * 16)))
  /\ (exists msg,
         Thermal.setup_model Fixtures.elem_names Fixtures.atomic_weights
           Fixtures.metal_elem Fixtures.apec
           (WholeDataset Fixtures.cgs_dataset) 0 1 = inl (RuntimeError msg)).
Proof.
  assert (H3 : forall ds, (forall f, get_field_info ds f <> None) ->
               Forall (Thermal.resolves Fixtures.elem_names ds)
                      (Thermal.var_elem Fixtures.apec)).
  { intros ds Hds. repeat constructor; [apply Hds|discriminate]. }
  assert (H4 : NoDup (map fst (Thermal.var_elem Fixtures.apec)))
    by (repeat constructor; simpl; tauto).
  split.
  - destruct (@setup_model_unit_conversion Fixtures.elem_names
                Fixtures.atomic_weights Fixtures.metal_elem Fixtures.apec
                (DataObject Fixtures.code_dataset [Fixtures.chunk]) 0 1
                ltac:(discriminate) ltac:(intros _ f _; discriminate)
                (H3 Fixtures.code_dataset ltac:(intros f; discriminate)) H4)
      as (_ & _ & Hiff & Hval).
    destruct (Thermal.setup_model Fixtures.elem_names Fixtures.atomic_weights
                Fixtures.metal_elem Fixtures.apec
                (DataObject Fixtures.code_dataset [Fixtures.chunk]) 0 1)
      as [e|m'] eqn:Hrun.
    + exfalso.
      destruct (proj1 (Hiff
                  ltac:(exists Fixtures.flat_table; split;
                        [reflexivity|discriminate])
                  ltac:(intros; discriminate))
                  (ex_intro _ e eq_refl)) as [[_ H]|[_ H]].
      * discriminate H.
      * inversion H as [? ? Hb|? ? Ht]; [discriminate Hb|inversion Ht].
    + exists m'. split; [reflexivity|].
      destruct (Hval m' eq_refl) as [HZ HO]. split.
      * rewrite (HZ (Fixtures.gas "metallicity") (Fixtures.gas "metallicity")
                    "dimensionless"%string eq_refl eq_refl eq_refl).
        unfold Thermal.Zsum, np_sum. simpl. f_equal. lra.
      * rewrite (HO "O"%string (Fixtures.gas "O_fraction")
                    (Fixtures.gas "O_fraction") "dimensionless"%string 3%nat
                    ltac:(simpl; lia) ltac:(simpl; auto) eq_refl eq_refl).
        reflexivity.
  - apply (@setup_model_unit_conversion Fixtures.elem_names
             Fixtures.atomic_weights Fixtures.metal_elem Fixtures.apec
             (WholeDataset Fixtures.cgs_dataset) 0 1
             ltac:(discriminate) ltac:(intros _ f _; discriminate)
             (H3 Fixtures.cgs_dataset ltac:(intros f; discriminate)) H4).
    left. split; reflexivity.
Defined.

(** ** The thermal engine: chunks with nothing to process *)

(** C3, as the code has it.  When a chunk has no cells, or when the filter
    (which itself evaluates without error) selects none of them,
    [process_data] raises nothing and draws nothing: the photons mode
    returns None, and the photon_field and energy_field modes return an
    array of zeros, of the original shape of the chunk's fields when the
    chunk has cells and empty when it has none. *)
Theorem thermal_nothing_eligible :
  forall (G : PRNG) (to_keV : R -> R) (cap0 : nat)
         (m : Thermal.ThermalSourceModel) (c : Chunk) (s : RandomState G),
    Thermal.orig_ncells c = O
    \/ (exists cut, Thermal.sample_filter to_keV m c = Some cut
                    /\ count_true cut = O) ->
    Thermal.process_data_from G to_keV cap0 m photons c s = Some (RNone, s)
    /\ (forall md, md = photon_field \/ md = energy_field ->
          Thermal.process_data_from G to_keV cap0 m md c s
          = Some (RArray (if (Thermal.orig_ncells c =? 0)%nat then np_empty
                          else np_zeros (orig_shape c)), s)).
Proof.
  intros G to_keV cap0 m c s H. unfold Thermal.process_data_from.
  destruct (Thermal.orig_ncells c =? 0)%nat eqn:Hn.
  - split; [reflexivity|]. intros md [-> | ->]; reflexivity.
  - destruct H as [H | [cut [Hcut Hz]]].
    + apply Nat.eqb_neq in Hn. contradiction.
    + rewrite Hcut, Hz. simpl.
      split; [reflexivity|]. intros md [-> | ->]; reflexivity.
Qed.

Lemma thermal_nothing_eligible_witness :
  (Thermal.orig_ncells Fixtures.cold_chunk = O
   \/ (exists cut,
          Thermal.sample_filter (fun x => x) Fixtures.apec Fixtures.cold_chunk
          = Some cut /\ count_true cut = O))
  /\ Thermal.process_data Fixtures.counter (fun x => x) Fixtures.apec
       energy_field Fixtures.cold_chunk O
     = Some (RArray (np_zeros [3%nat]), O).
Proof.
  assert (H : Thermal.orig_ncells Fixtures.cold_chunk = O
              \/ (exists cut,
                     Thermal.sample_filter (fun x => x) Fixtures.apec
                       Fixtures.cold_chunk = Some cut /\ count_true cut = O)).
  { right. exists [false; false; false]. split; [|reflexivity].
    unfold Thermal.sample_filter. run_model. reflexivity. }
  split; [exact H|].
  exact (proj2 (@thermal_nothing_eligible Fixtures.counter (fun x => x)
                  Thermal.num_photons_max_init Fixtures.apec
                  Fixtures.cold_chunk O H) energy_field (or_intror eq_refl)).
Defined.

(** The claim as the specification words it fails twice.  On a chunk without
    cells the photons mode returns no population at all; and on a chunk whose
    three cells are all filtered out, the spectrum mode returns three zeros,
    the shape of the chunk, where the spectrum of this model has two
    channels. *)
Lemma thermal_nothing_eligible_counterexample :
  (~ exists ncells counts sel ee s',
       Thermal.process_data Fixtures.counter (fun x => x) Fixtures.apec photons
         Fixtures.empty_chunk O = Some (RPhotons ncells counts sel ee, s'))
  /\ (exists a,
        Thermal.process_data Fixtures.counter (fun x => x) Fixtures.apec
          spectrum Fixtures.cold_chunk O = Some (RArray a, O)
        /\ shape a = [3%nat]
        /\ shape a <> [Thermal.nchan Fixtures.apec]).
Proof.
  split.
  - intros (ncells & counts & sel & ee & s' & H).
    unfold Thermal.process_data, Thermal.process_data_from in H.
    simpl in H. discriminate.
  - exists (np_zeros [3%nat]). split; [|split].
    + unfold Thermal.process_data, Thermal.process_data_from.
      run_model. reflexivity.
    + reflexivity.
    + simpl. discriminate.
Qed.

(** ** Arrays: shapes and entries *)

Lemma zip_with_nth {A B C : Type} (f : A -> B -> C) l1 l2 i da db dc :
  (i < length l1)%nat -> (i < length l2)%nat ->
  nth i (zip_with f l1 l2) dc = f (nth i l1 da) (nth i l2 db).
Proof.
  revert l2 i; induction l1 as [|a l1 IH]; intros [|b l2] [|i]; simpl;
    intros H1 H2; try lia; auto.
  apply IH; lia.
Qed.

Lemma slice_length {A : Type} lo hi (l : list A) :
  (hi <= length l)%nat -> length (slice lo hi l) = (hi - lo)%nat.
Proof.
  intros H. unfold slice. rewrite length_firstn, length_skipn. lia.
Qed.

Lemma slice_nth {A : Type} lo hi (l : list A) i d :
  (i < hi - lo)%nat -> nth i (slice lo hi l) d = nth (lo + i) l d.
Proof.
  intros H. unfold slice. rewrite nth_firstn.
  destruct (i <? hi - lo)%nat eqn:E; [|apply Nat.ltb_ge in E; lia].
  apply nth_skipn.
Qed.

Lemma has_shape_spec r c m :
  has_shape r c m = true <->
  length m = r /\ Forall (fun row => length row = c) m.
Proof.
  unfold has_shape. rewrite andb_true_iff, Nat.eqb_eq, forallb_forall,
    Forall_forall.
  split; intros [H1 H2]; split; auto; intros x Hx.
  - apply Nat.eqb_eq. auto.
  - apply Nat.eqb_eq. auto.
Qed.

Lemma has_shape_row r c m i :
  has_shape r c m = true -> (i < r)%nat -> length (nth i m []) = c.
Proof.
  intros H Hi. apply has_shape_spec in H. destruct H as [Hl HF].
  rewrite Forall_forall in HF. apply HF. apply nth_In. lia.
Qed.

Lemma has_shape_mat_zeros r c : has_shape r c (mat_zeros r c) = true.
Proof.
  apply has_shape_spec. unfold mat_zeros. rewrite repeat_length. split; auto.
  apply Forall_forall. intros x Hx. apply repeat_spec in Hx. subst.
  apply repeat_length.
Qed.

Lemma mget_mat_zeros r c i j : mget (mat_zeros r c) i j = 0.
Proof.
  unfold mget, mat_zeros.
  destruct (Nat.lt_ge_cases i r) as [Hi|Hi].
  - rewrite (nth_indep _ [] (repeat 0 c)) by (rewrite repeat_length; lia).
    rewrite nth_repeat. apply nth_repeat.
  - rewrite (nth_overflow (repeat (repeat 0 c) r) [])
      by (rewrite repeat_length; lia).
    destruct j; reflexivity.
Qed.

Lemma has_shape_mat_add r c a b :
  has_shape r c a = true -> has_shape r c b = true ->
  has_shape r c (mat_add a b) = true.
Proof.
  rewrite !has_shape_spec. intros [Ha HFa] [Hb HFb]. unfold mat_add. split.
  - rewrite zip_with_length. lia.
  - clear Ha Hb. revert b HFb.
    induction HFa as [|x a Hx HFa IH]; intros b HFb; [constructor|].
    destruct HFb as [|y b Hy HFb]; [constructor|]. simpl. constructor; auto.
    rewrite zip_with_length. lia.
Qed.

Lemma mget_mat_add r c a b i j :
  has_shape r c a = true -> has_shape r c b = true ->
  (i < r)%nat -> (j < c)%nat ->
  mget (mat_add a b) i j = mget a i j + mget b i j.
Proof.
  intros Ha Hb Hi Hj. unfold mget, mat_add.
  pose proof (has_shape_row r c a i Ha Hi) as Hra.
  pose proof (has_shape_row r c b i Hb Hi) as Hrb.
  apply has_shape_spec in Ha, Hb. destruct Ha as [Ha _], Hb as [Hb _].
  rewrite (zip_with_nth _ a b i [] [] []) by lia.
  apply zip_with_nth; lia.
Qed.

Lemma has_shape_scale_rows r c z m :
  length z = r -> has_shape r c m = true ->
  has_shape r c (scale_rows z m) = true.
Proof.
  rewrite !has_shape_spec. intros Hz [Hm HF]. unfold scale_rows. split.
  - rewrite zip_with_length. lia.
  - clear Hz Hm. revert z.
    induction HF as [|x m Hx HF IH]; intros [|zi z]; simpl; constructor; auto.
    rewrite length_map. exact Hx.
Qed.

Lemma mget_scale_rows r c z m i j :
  length z = r -> has_shape r c m = true -> (i < r)%nat -> (j < c)%nat ->
  mget (scale_rows z m) i j = nth i z 0 * mget m i j.
Proof.
  intros Hz Hm Hi Hj. unfold mget, scale_rows.
  pose proof (has_shape_row r c m i Hm Hi) as Hr.
  apply has_shape_spec in Hm. destruct Hm as [Hm _].
  rewrite (zip_with_nth _ z m i 0 [] []) by lia.
  rewrite (nth_indep _ 0 (nth i z 0 * 0)) by (rewrite length_map; lia).
  apply map_nth.
Qed.

Lemma element_sum_entry r c eZ vs :
  Forall (fun zr => length zr = r) eZ ->
  Forall (fun v => has_shape r c v = true) vs ->
  has_shape r c (Thermal.element_sum r c eZ vs) = true
  /\ forall i j, (i < r)%nat -> (j < c)%nat ->
       mget (Thermal.element_sum r c eZ vs) i j =
       np_sum (zip_with (fun zr v => nth i zr 0 * mget v i j) eZ vs).
Proof.
  unfold Thermal.element_sum. intros HZ. revert vs.
  induction HZ as [|zr eZ Hzr HZ IH]; intros vs Hvs; simpl.
  - split; [apply has_shape_mat_zeros|]. intros; apply mget_mat_zeros.
  - destruct Hvs as [|v vs Hv Hvs]; simpl.
    + split; [apply has_shape_mat_zeros|]. intros; apply mget_mat_zeros.
    + destruct (IH vs Hvs) as [Hsh Hent].
      pose proof (has_shape_scale_rows r c zr v Hzr Hv) as Hs.
      split; [apply has_shape_mat_add; assumption|].
      intros i j Hi Hj.
      rewrite (mget_mat_add r c _ _ i j Hs Hsh Hi Hj),
        (mget_scale_rows r c zr v i j Hzr Hv Hi Hj).
      rewrite Hent by assumption. reflexivity.
Qed.

Lemma mask_select_length {A : Type} (mask : list bool) (l : list A) :
  length l = length mask -> length (mask_select mask l) = count_true mask.
Proof.
  unfold count_true. revert l.
  induction mask as [|b mask IH]; intros [|x l] H; simpl in *; try lia.
  destruct b; simpl; rewrite IH by lia; reflexivity.
Qed.

Lemma where_from_length i mask :
  length (where_from i mask) = count_true mask.
Proof.
  unfold count_true. revert i. induction mask as [|b mask IH]; intros i; simpl.
  - reflexivity.
  - destruct b; simpl; rewrite IH; reflexivity.
Qed.

Lemma chunk_get_length c f : length (chunk_get c f) = np_prod (orig_shape c).
Proof. unfold chunk_get. rewrite length_map, length_seq. reflexivity. Qed.

Lemma zip_with_map_l {A A' B C : Type} (f : A' -> B -> C) (g : A -> A') l1 l2 :
  zip_with f (map g l1) l2 = zip_with (fun a b => f (g a) b) l1 l2.
Proof.
  revert l2; induction l1 as [|a l1 IH]; intros [|b l2]; simpl; auto.
  rewrite IH. reflexivity.
Qed.

Lemma zip_with_ext_in {A B C : Type} (f g : A -> B -> C) l1 l2 :
  (forall a b, In a l1 -> In b l2 -> f a b = g a b) ->
  zip_with f l1 l2 = zip_with g l1 l2.
Proof.
  revert l2; induction l1 as [|a l1 IH]; intros [|b l2] H; simpl; auto.
  rewrite H by (left; reflexivity). rewrite IH; [reflexivity|].
  intros; apply H; right; assumption.
Qed.

(** ** The thermal engine: the filter and the eligible cells *)

Section ThermalFacts.
Variable G : PRNG.
Variable to_keV : R -> R.

Lemma sample_filter_length m c cut :
  Thermal.sample_filter to_keV m c = Some cut ->
  length cut = np_prod (orig_shape c).
Proof.
  unfold Thermal.sample_filter.
  destruct (Thermal.nH_cut m c) as [nc|] eqn:Hn; [|discriminate].
  intros H; inversion H; subst; clear H.
  assert (Hnc : length nc = np_prod (orig_shape c)).
  { unfold Thermal.nH_cut in Hn. destruct (Thermal.nh_field m).
    - destruct (Thermal.nH_min m), (Thermal.nH_max m); try discriminate.
      inversion Hn. rewrite length_map. apply chunk_get_length.
    - inversion Hn. apply repeat_length. }
  assert (Hd : length (Thermal.density_cut m c) = np_prod (orig_shape c)).
  { unfold Thermal.density_cut. destruct (Thermal.max_density m).
    - rewrite length_map. apply chunk_get_length.
    - apply repeat_length. }
  assert (Hk : length (Thermal.kT_cut to_keV m c) = np_prod (orig_shape c)).
  { unfold Thermal.kT_cut, Thermal.kT_all. rewrite !length_map.
    apply chunk_get_length. }
  rewrite !zip_with_length. lia.
Qed.

Lemma solar_factor_length c f conv X_H :
  length (Thermal.solar_factor c f conv X_H) = length X_H.
Proof.
  unfold Thermal.solar_factor.
  destruct (String.eqb (field_units c f) "Zsun"); apply length_map.
Qed.

Lemma flat_map_map_length {A B C : Type} (f : A -> B -> C) l1 l2 :
  length (flat_map (fun a => map (f a) l2) l1) = (length l1 * length l2)%nat.
Proof.
  induction l1 as [|a l1 IH]; simpl; [reflexivity|].
  rewrite length_app, length_map, IH. reflexivity.
Qed.

(** The product [a.d[cut]*fac] has an entry per eligible cell, or one per
    pair of eligible cells. *)
Lemma times_fac_length m c f sel fac n :
  length sel = n -> length fac = n ->
  (n <= length (Thermal.times_fac m c f sel fac))%nat.
Proof.
  intros Hs Hf. unfold Thermal.times_fac.
  destruct (Thermal.fac_per_cell m c f && (1 <? length (orig_shape c))%nat).
  - rewrite flat_map_map_length, Hs, Hf. destruct n; simpl; lia.
  - rewrite zip_with_length, Hs, Hf. lia.
Qed.

Lemma prepare_mask_fits m c cut e :
  Thermal.prepare to_keV m c cut = Some e ->
  Thermal.mask_fits c cut = true.
Proof.
  unfold Thermal.prepare. destruct (Thermal.mask_fits c cut); [reflexivity|].
  discriminate.
Qed.

Lemma mask_fits_spec c cut :
  Thermal.mask_fits c cut = true ->
  length cut = np_prod (orig_shape c)
  /\ hd O (orig_shape c) = np_prod (orig_shape c).
Proof.
  unfold Thermal.mask_fits. rewrite andb_true_iff, !Nat.eqb_eq. lia.
Qed.

Lemma element_rows_length m c cut X_H keys rows :
  length X_H = count_true cut ->
  Thermal.element_rows m c cut X_H keys = Some rows ->
  Forall (fun row => length row = count_true cut) rows.
Proof.
  intros HX. revert rows.
  induction keys as [|key keys IH]; intros rows H; simpl in H.
  - inversion H. constructor.
  - destruct (Thermal.element_row m c cut X_H key) as [row|] eqn:Hrow;
      [|discriminate].
    destruct (Thermal.element_rows m c cut X_H keys) as [rows'|];
      [|discriminate].
    inversion H; subst. constructor; [|apply IH; reflexivity].
    unfold Thermal.element_row in Hrow.
    destruct (dict_get (Thermal.var_elem m) key) as [[v|f]|]; try discriminate.
    + inversion Hrow. rewrite length_map. exact HX.
    + destruct (dict_get (Thermal.mconvert m) key); [|discriminate].
      simpl in Hrow.
      destruct (length _ =? count_true cut)%nat eqn:Hl; [|discriminate].
      inversion Hrow; subst row. apply Nat.eqb_eq. exact Hl.
Qed.

(** Every per-cell array of the eligible cells has one entry per selected
    cell; [metalZ] has at least as many. *)
Lemma prepare_lengths m c cut e :
  length cut = np_prod (orig_shape c) ->
  Thermal.prepare to_keV m c cut = Some e ->
  Thermal.num_cells e = count_true cut
  /\ length (Thermal.kT e) = count_true cut
  /\ length (Thermal.cell_nrm e) = count_true cut
  /\ (count_true cut <= length (Thermal.metalZ e))%nat
  /\ Forall (fun row => length row = count_true cut) (Thermal.elemZ e)
  /\ length (Thermal.idxs e) = count_true cut.
Proof.
  intros Hcut. unfold Thermal.prepare.
  destruct (Thermal.mask_fits c cut); [|discriminate]. cbn [negb].
  set (n := count_true cut).
  set (X_H := match Thermal.h_fraction m with
              | Float x => repeat x n
              | Field f => mask_select cut (chunk_get c f)
              end).
  assert (HX : length X_H = n).
  { subst X_H. destruct (Thermal.h_fraction m).
    - apply repeat_length.
    - apply mask_select_length. rewrite chunk_get_length; auto. }
  match goal with
  | |- match ?x with Some _ => _ | None => _ end = _ -> _ =>
      destruct x as [eZ|] eqn:HeZ; [|discriminate]
  end.
  intros H; inversion H; subst e; clear H; simpl.
  assert (Hsel : forall f, length (mask_select cut (chunk_get c f)) = n).
  { intros f. apply mask_select_length. rewrite chunk_get_length; auto. }
  split; [reflexivity|]. split.
  { unfold Thermal.kT_all. apply mask_select_length.
    rewrite length_map, chunk_get_length; auto. }
  split.
  { destruct (Thermal.nh_field m) as [f|].
    - destruct (Thermal.fix_norm m).
      + rewrite zip_with_length, length_map, !Hsel. lia.
      + rewrite length_map. apply Hsel.
    - rewrite length_map. apply Hsel. }
  split.
  { destruct (Thermal.nei m); [rewrite repeat_length; lia|].
    destruct (Thermal.Zmet m) as [z|f].
    - rewrite length_map, repeat_length. lia.
    - apply times_fac_length; [apply Hsel|].
      rewrite solar_factor_length. exact HX. }
  split.
  { destruct (0 <? Thermal.num_var_elem m)%nat.
    - match type of HeZ with
      | match ?x with Some _ => _ | None => _ end = _ =>
          destruct x as [rows|] eqn:Hrows; [|discriminate]
      end.
      destruct (length rows <=? Thermal.num_var_elem m)%nat; [|discriminate].
      inversion HeZ; subst eZ. apply Forall_app. split.
      + eapply element_rows_length; eauto.
      + apply Forall_forall. intros x Hx. apply repeat_spec in Hx. subst x.
        apply repeat_length.
    - inversion HeZ. constructor. }
  unfold np_where. apply where_from_length.
Qed.
End ThermalFacts.

(** ** The thermal engine: batches and the composed spectrum *)

Lemma firstn_seq k a n : firstn k (seq a n) = seq a (Nat.min k n).
Proof.
  revert a n; induction k as [|k IH]; intros a [|n]; simpl; auto.
  rewrite IH. reflexivity.
Qed.

Lemma seq_hd_last b l :
  (0 < l)%nat -> hd O (seq b l) = b /\ S (last (seq b l) O) = (b + l)%nat.
Proof.
  intros Hl. destruct l as [|l]; [lia|]. split; [reflexivity|].
  replace (S l) with (l + 1)%nat by lia. rewrite seq_app.
  change (seq (b + l) 1) with [(b + l)%nat]. rewrite last_last. lia.
Qed.

Lemma chunked_fuel_seq fuel k a n :
  (0 < k)%nat -> (n <= fuel)%nat ->
  concat (chunked_fuel fuel k (seq a n)) = seq a n
  /\ Forall (is_batch k a n) (chunked_fuel fuel k (seq a n)).
Proof.
  intros Hk. revert a n. induction fuel as [|fuel IH]; intros a n Hn.
  - assert (n = O) by lia. subst n. simpl. split; constructor.
  - destruct n as [|n]; [simpl; split; constructor|].
    change (chunked_fuel (S fuel) k (seq a (S n)))
      with (firstn k (seq a (S n))
            :: chunked_fuel fuel k (skipn k (seq a (S n)))).
    rewrite skipn_seq, firstn_seq.
    destruct (IH (a + k)%nat (S n - k)%nat ltac:(lia)) as [IHc IHF].
    split.
    + change (concat (?x :: ?t)) with (x ++ concat t). rewrite IHc.
      rewrite <- (firstn_skipn k (seq a (S n))) at 1.
      rewrite skipn_seq, firstn_seq. reflexivity.
    + constructor.
      * exists a, (Nat.min k (S n)). repeat split; lia.
      * eapply Forall_impl; [|exact IHF].
        intros ck (b & l & -> & Hl & Hb & Hbl).
        exists b, l. repeat split; lia.
Qed.

Lemma batches_spec n :
  concat (Thermal.batches n) = seq 0 n
  /\ Forall (fun ck =>
               let ibegin := hd O ck in
               let iend := S (last ck O) in
               ck = seq ibegin (iend - ibegin)
               /\ (0 < iend - ibegin <= 100)%nat /\ (iend <= n)%nat)
            (Thermal.batches n).
Proof.
  unfold Thermal.batches, chunked. rewrite length_seq.
  destruct (chunked_fuel_seq n 100 0 n ltac:(lia) ltac:(lia)) as [Hc HF].
  split; [exact Hc|].
  eapply Forall_impl; [|exact HF].
  intros ck (b & l & -> & Hl & Hb & Hbl).
  destruct (seq_hd_last b l ltac:(lia)) as [Hh Hla].
  cbv zeta. rewrite Hh, Hla.
  replace (b + l - b)%nat with l by lia. repeat split; lia.
Qed.

Lemma compose_entry m nck Z_ck eZ_ck cspec mspec vspec tot :
  length Z_ck = nck ->
  Forall (fun zr => length zr = nck) eZ_ck ->
  Thermal.compose m nck Z_ck eZ_ck (cspec, mspec, vspec) = Some tot ->
  has_shape nck (Thermal.nchan m) tot = true
  /\ forall i j, (i < nck)%nat -> (j < Thermal.nchan m)%nat ->
       mget tot i j =
       match cspec with Some cs => mget cs i j | None => 0 end
       + match mspec with
         | Some ms => nth i Z_ck 0 * mget ms i j
         | None => 0
         end
       + (if (0 <? Thermal.num_var_elem m)%nat then
            match vspec with
            | Some vs =>
                np_sum (zip_with (fun zr v => nth i zr 0 * mget v i j) eZ_ck vs)
            | None => 0
            end
          else 0).
Proof.
  intros HZ HeZ. unfold Thermal.compose, Thermal.add_spec.
  set (nch := Thermal.nchan m).
  pose proof (has_shape_mat_zeros nck nch) as H0.
  (* continuum *)
  assert (H1 : forall tot1,
             match cspec with
             | Some cs => if has_shape nck nch cs
                          then Some (mat_add (mat_zeros nck nch) cs) else None
             | None => Some (mat_zeros nck nch)
             end = Some tot1 ->
             has_shape nck nch tot1 = true
             /\ forall i j, (i < nck)%nat -> (j < nch)%nat ->
                  mget tot1 i j
                  = match cspec with Some cs => mget cs i j | None => 0 end).
  { intros tot1. destruct cspec as [cs|].
    - destruct (has_shape nck nch cs) eqn:Hcs; [|discriminate].
      intros H; inversion H; subst tot1. split.
      + apply has_shape_mat_add; assumption.
      + intros i j Hi Hj.
        rewrite (mget_mat_add nck nch _ _ i j H0 Hcs Hi Hj), mget_mat_zeros.
        ring.
    - intros H; inversion H; subst tot1. split; [assumption|].
      intros; apply mget_mat_zeros. }
  destruct (match cspec with
            | Some cs => if has_shape nck nch cs
                         then Some (mat_add (mat_zeros nck nch) cs) else None
            | None => Some (mat_zeros nck nch)
            end) as [tot1|]; [|discriminate].
  destruct (H1 tot1 eq_refl) as [Hs1 He1]. clear H1.
  (* metal lines *)
  assert (H2 : forall tot2,
             match mspec with
             | Some ms => if has_shape nck nch ms
                          then Some (mat_add tot1 (scale_rows Z_ck ms))
                          else None
             | None => Some tot1
             end = Some tot2 ->
             has_shape nck nch tot2 = true
             /\ forall i j, (i < nck)%nat -> (j < nch)%nat ->
                  mget tot2 i j
                  = mget tot1 i j
                    + match mspec with
                      | Some ms => nth i Z_ck 0 * mget ms i j
                      | None => 0
                      end).
  { intros tot2. destruct mspec as [ms|].
    - destruct (has_shape nck nch ms) eqn:Hms; [|discriminate].
      intros H; inversion H; subst tot2.
      pose proof (has_shape_scale_rows nck nch Z_ck ms HZ Hms) as Hsc. split.
      + apply has_shape_mat_add; assumption.
      + intros i j Hi Hj.
        rewrite (mget_mat_add nck nch _ _ i j Hs1 Hsc Hi Hj),
          (mget_scale_rows nck nch Z_ck ms i j HZ Hms Hi Hj).
        reflexivity.
    - intros H; inversion H; subst tot2. split; [assumption|].
      intros; ring. }
  destruct (match mspec with
            | Some ms => if has_shape nck nch ms
                         then Some (mat_add tot1 (scale_rows Z_ck ms))
                         else None
            | None => Some tot1
            end) as [tot2|]; [|discriminate].
  destruct (H2 tot2 eq_refl) as [Hs2 He2]. clear H2.
  (* trace elements *)
  destruct (0 <? Thermal.num_var_elem m)%nat.
  - destruct vspec as [vs|]; [|discriminate].
    destruct (length vs =? Thermal.num_var_elem m)%nat; [|discriminate].
    destruct (forallb (has_shape nck nch) vs) eqn:Hvs; [|discriminate].
    simpl. intros H; inversion H; subst tot.
    assert (HF : Forall (fun v => has_shape nck nch v = true) vs).
    { apply Forall_forall. rewrite forallb_forall in Hvs. exact Hvs. }
    destruct (element_sum_entry nck nch eZ_ck vs HeZ HF) as [Hs3 He3].
    split; [apply has_shape_mat_add; assumption|].
    intros i j Hi Hj.
    rewrite (mget_mat_add nck nch _ _ i j Hs2 Hs3 Hi Hj), He2, He1, He3
      by assumption.
    reflexivity.
  - intros H; inversion H; subst tot. split; [assumption|].
    intros i j Hi Hj. rewrite He2, He1 by assumption. ring.
Qed.

(** A call that returns has composed the spectrum of every batch. *)
Lemma batch_loop_tot_spec (G : PRNG) m md e cks st (s : RandomState G) r :
  Thermal.batch_loop G m md e cks st s = Some r ->
  Forall (fun ck => exists tot,
              Thermal.tot_spec m e (hd O ck) (S (last ck O)) = Some tot) cks.
Proof.
  revert st s. induction cks as [|ck cks IH]; intros st s H.
  - constructor.
  - cbn [Thermal.batch_loop] in H.
    destruct (Thermal.batch_step G m md e st s ck) as [[st1 s1]|] eqn:Hstep;
      [|discriminate].
    simpl in H. constructor; [|exact (IH _ _ H)].
    unfold Thermal.batch_step in Hstep.
    destruct (Thermal.tot_spec m e (hd O ck) (S (last ck O))) as [tot|];
      [eauto|discriminate].
Qed.

(** C2.  A call of [process_data] on a chunk with eligible cells that
    returns, in whatever mode, has run the batch loop over the batches of
    the eligible cells, in their order: consecutive runs of cell numbers,
    none empty and none longer than 100, which put end to end give every
    eligible cell once.  For each batch [ibegin, iend) it has composed a
    spectrum of one row per cell of the batch and one column per bin, whose
    entry for cell [ibegin + i] at bin [j] is the continuum (when the table
    returns one) plus the cell's metallicity times the metal-line spectrum
    (when the table returns one) plus, when trace elements are configured,
    the sum over the trace elements of the cell's abundance of the element
    times the element's spectrum.  Whatever the mode, the turn of the batch
    loop works on this one composed spectrum, and the result of the call is
    what the mode makes of the state the loop ends in. *)
Theorem thermal_composed_spectrum :
  forall (G : PRNG) (to_keV : R -> R) (cap0 : nat)
         (m : Thermal.ThermalSourceModel) (md : mode) (c : Chunk)
         (cut : list bool) (s : RandomState G) (r : result)
         (s' : RandomState G),
    Thermal.orig_ncells c <> O ->
    Thermal.sample_filter to_keV m c = Some cut ->
    count_true cut <> O ->
    Thermal.process_data_from G to_keV cap0 m md c s = Some (r, s') ->
    exists e st,
      Thermal.prepare to_keV m c cut = Some e
      /\ Thermal.batch_loop G m md e (Thermal.batches (Thermal.num_cells e))
           (Thermal.init_state m e (Thermal.orig_ncells c) cap0) s
         = Some (st, s')
      /\ r = Thermal.finish m md c e st
      /\ concat (Thermal.batches (Thermal.num_cells e))
         = seq 0 (Thermal.num_cells e)
      /\ Forall
           (fun ck =>
              let ibegin := hd O ck in
              let iend := S (last ck O) in
              ck = seq ibegin (iend - ibegin)
              /\ (0 < iend - ibegin <= 100)%nat
              /\ (iend <= Thermal.num_cells e)%nat
              /\ exists tot,
                  Thermal.tot_spec m e ibegin iend = Some tot
                  /\ has_shape (iend - ibegin) (Thermal.nchan m) tot = true
                  /\ (forall cspec mspec vspec,
                         Thermal.get_spectrum (Thermal.spectral_model m)
                           (slice ibegin iend (Thermal.kT e))
                           (match Thermal.nH e with
                            | Some nh => Some (slice ibegin iend nh)
                            | None => None
                            end) = (cspec, mspec, vspec) ->
                         forall i j,
                           (i < iend - ibegin)%nat ->
                           (j < Thermal.nchan m)%nat ->
                           mget tot i j =
                           match cspec with
                           | Some cs => mget cs i j
                           | None => 0
                           end
                           + match mspec with
                             | Some ms =>
                                 nth (ibegin + i) (Thermal.metalZ e) 0
                                 * mget ms i j
                             | None => 0
                             end
                           + (if (0 <? Thermal.num_var_elem m)%nat then
                                match vspec with
                                | Some vs =>
                                    np_sum
                                      (zip_with
                                         (fun zr v =>
                                            nth (ibegin + i) zr 0 * mget v i j)
                                         (Thermal.elemZ e) vs)
                                | None => 0
                                end
                              else 0))
                  /\ forall st0 (s0 : RandomState G),
                      Thermal.batch_step G m md e st0 s0 ck
                      = Thermal.use_spectrum G m md e st0 s0 ibegin iend tot)
           (Thermal.batches (Thermal.num_cells e)).
Proof.
  intros G to_keV cap0 m md c cut s r s' Hcells Hcut Hcnt Hrun.
  unfold Thermal.process_data_from in Hrun.
  apply Nat.eqb_neq in Hcells. rewrite Hcells, Hcut in Hrun. simpl in Hrun.
  apply Nat.eqb_neq in Hcnt. rewrite Hcnt in Hrun.
  unfold Thermal.run_batches in Hrun.
  destruct (Thermal.prepare to_keV m c cut) as [e|] eqn:Hprep;
    [|discriminate].
  simpl in Hrun.
  destruct (Thermal.batch_loop G m md e _ _ s) as [[st s1]|] eqn:Hloop;
    [|discriminate].
  simpl in Hrun. injection Hrun as <- <-.
  exists e, st. split; [reflexivity|]. split; [exact Hloop|].
  split; [reflexivity|].
  pose proof (sample_filter_length to_keV m c cut Hcut) as Hlen.
  destruct (prepare_lengths to_keV m c cut e Hlen Hprep)
    as (Hn & _ & _ & HZ & HeZ & _).
  destruct (batches_spec (Thermal.num_cells e)) as [Hc HF].
  split; [exact Hc|].
  pose proof (batch_loop_tot_spec G m md e _ _ s _ Hloop) as Htots.
  rewrite Forall_forall in HF, Htots. apply Forall_forall.
  intros ck Hin. specialize (HF ck Hin). specialize (Htots ck Hin).
  cbv zeta in HF |- *. destruct HF as (Hck & Hsz & Hend).
  destruct Htots as [tot Htot].
  set (ibegin := hd O ck) in *. set (iend := S (last ck O)) in *.
  repeat (split; [assumption|]).
  exists tot. split; [exact Htot|].
  assert (Hcomp : forall cspec mspec vspec,
             Thermal.get_spectrum (Thermal.spectral_model m)
               (slice ibegin iend (Thermal.kT e))
               (match Thermal.nH e with
                | Some nh => Some (slice ibegin iend nh)
                | None => None
                end) = (cspec, mspec, vspec) ->
             Thermal.compose m (iend - ibegin)
               (slice ibegin iend (Thermal.metalZ e))
               (map (slice ibegin iend) (Thermal.elemZ e))
               (cspec, mspec, vspec) = Some tot).
  { intros cspec mspec vspec Hget. unfold Thermal.tot_spec in Htot.
    rewrite Hget in Htot. exact Htot. }
  assert (HlZ : length (slice ibegin iend (Thermal.metalZ e))
                = (iend - ibegin)%nat) by (apply slice_length; lia).
  assert (HleZ : Forall (fun zr => length zr = (iend - ibegin)%nat)
                        (map (slice ibegin iend) (Thermal.elemZ e))).
  { apply Forall_forall. intros zr Hzr. apply in_map_iff in Hzr.
    destruct Hzr as (row & <- & Hrow).
    rewrite Forall_forall in HeZ. apply slice_length.
    rewrite (HeZ row Hrow). lia. }
  split; [|split].
  - destruct (Thermal.get_spectrum (Thermal.spectral_model m)
                (slice ibegin iend (Thermal.kT e))
                (match Thermal.nH e with
                 | Some nh => Some (slice ibegin iend nh)
                 | None => None
                 end)) as [[cspec mspec] vspec] eqn:Hget.
    exact (proj1 (compose_entry m _ _ _ cspec mspec vspec tot HlZ HleZ
                    (Hcomp _ _ _ eq_refl))).
  - intros cspec mspec vspec Hget i j Hi Hj.
    destruct (compose_entry m _ _ _ cspec mspec vspec tot HlZ HleZ
                (Hcomp _ _ _ Hget)) as [_ Hent].
    rewrite (Hent i j Hi Hj).
    rewrite (slice_nth ibegin iend (Thermal.metalZ e) i 0 Hi).
    f_equal.
    destruct (0 <? Thermal.num_var_elem m)%nat; [|reflexivity].
    destruct vspec as [vs|]; [|reflexivity].
    rewrite zip_with_map_l. f_equal.
    apply zip_with_ext_in.
    intros a v _ _. rewrite (slice_nth ibegin iend a i 0 Hi). reflexivity.
  - intros st0 s0. unfold Thermal.batch_step. fold ibegin iend.
    rewrite Htot. reflexivity.
Qed.

Lemma thermal_run :
  { ee : list R &
    { s' | Thermal.process_data_from Fixtures.counter (fun x => x) 1
             Fixtures.apec photons Fixtures.chunk O
           = Some (RPhotons 1 [2%nat] (Indices [2%nat]) ee, s') } }.
Proof.
  do 2 eexists. unfold Thermal.process_data_from, Thermal.run_batches.
  run_model. reflexivity.
Defined.

Lemma thermal_composed_spectrum_witness :
  exists ee s' e tot,
    Thermal.process_data_from Fixtures.counter (fun x => x) 1
      Fixtures.apec photons Fixtures.chunk O
    = Some (RPhotons 1 [2%nat] (Indices [2%nat]) ee, s')
    /\ Thermal.prepare (fun x => x) Fixtures.apec Fixtures.chunk
         [false; true; true] = Some e
    /\ Thermal.batches (Thermal.num_cells e) = [[0%nat; 1%nat]]
    /\ Thermal.tot_spec Fixtures.apec e 0 2 = Some tot
    /\ mget tot 1 0 = 3.
Proof.
  destruct thermal_run as (ee & s' & Hrun).
  assert (Hcut : Thermal.sample_filter (fun x => x) Fixtures.apec Fixtures.chunk
                 = Some [false; true; true]).
  { unfold Thermal.sample_filter. run_model. reflexivity. }
  assert (Hprep : { e | Thermal.prepare (fun x => x) Fixtures.apec
                          Fixtures.chunk [false; true; true] = Some e }).
  { eexists. unfold Thermal.prepare. run_model. reflexivity. }
  destruct Hprep as [e0 Hprep0].
  destruct (thermal_composed_spectrum Fixtures.counter (fun x => x) 1
              Fixtures.apec photons Fixtures.chunk [false; true; true] O
              _ s' ltac:(cbv; discriminate) Hcut ltac:(cbv; discriminate)
              Hrun)
    as (e & st & Hprep & _ & _ & _ & HF).
  assert (He : e = e0) by congruence. subst e.
  assert (Hb : Thermal.batches (Thermal.num_cells e0) = [[0%nat; 1%nat]]).
  { injection Hprep0 as <-. reflexivity. }
  rewrite Hb in HF. apply Forall_inv in HF. cbv zeta in HF.
  destruct HF as (_ & _ & _ & tot & Htot & _ & Hent & _).
  exists ee, s', e0, tot.
  split; [exact Hrun|]. split; [exact Hprep|]. split; [exact Hb|].
  split; [exact Htot|].
  rewrite (Hent _ _ _ eq_refl 1%nat 0%nat ltac:(simpl; lia) ltac:(simpl; lia)).
  injection Hprep0 as <-. cbn. unfold np_sum. cbn. lra.
Defined.

(** ** The thermal engine: the growable energy buffer *)

Lemma grow_spec fuel cap need c :
  Thermal.grow fuel cap need = Some c ->
  exists k, c = (cap * 2 ^ k)%nat /\ (need <= c)%nat
            /\ forall j, (j < k)%nat -> (cap * 2 ^ j < need)%nat.
Proof.
  revert cap. induction fuel as [|fuel IH]; intros cap H; simpl in H.
  - discriminate.
  - destruct (need <=? cap)%nat eqn:E.
    + inversion H; subst c. apply Nat.leb_le in E.
      exists O. simpl. repeat split; try lia.
    + apply Nat.leb_gt in E. apply IH in H.
      destruct H as (k & Hc & Hn & Hj).
      exists (S k). split; [|split].
      * rewrite Hc, Nat.pow_succ_r'. ring.
      * exact Hn.
      * intros [|j] Hjk; [simpl; lia|].
        specialize (Hj j ltac:(lia)). rewrite Nat.pow_succ_r'.
        replace (cap * (2 * 2 ^ j))%nat with (2 * cap * 2 ^ j)%nat by ring.
        exact Hj.
Qed.

Lemma grow_total fuel cap need :
  (0 < cap)%nat -> (need <= cap + fuel)%nat ->
  exists c, Thermal.grow (S fuel) cap need = Some c.
Proof.
  revert cap. induction fuel as [|fuel IH]; intros cap Hc Hn;
    cbn [Thermal.grow]; destruct (need <=? cap)%nat eqn:E; eauto.
  - apply Nat.leb_gt in E. lia.
  - apply Nat.leb_gt in E. apply IH; lia.
Qed.

Lemma resize_flat_length a n : length (resize_flat a n) = n.
Proof.
  unfold resize_flat. rewrite length_app, length_firstn, repeat_length. lia.
Qed.

Lemma resize_flat_prefix a n k :
  (k <= length a)%nat -> (k <= n)%nat ->
  firstn k (resize_flat a n) = firstn k a.
Proof.
  intros Ha Hn. unfold resize_flat.
  rewrite firstn_app, firstn_firstn, length_firstn.
  replace (Nat.min k n) with k by lia.
  replace (k - Nat.min n (length a))%nat with O by lia.
  simpl. apply app_nil_r.
Qed.

Lemma slice_assign_length {A : Type} lo (vals l : list A) :
  (lo + length vals <= length l)%nat ->
  length (slice_assign lo vals l) = length l.
Proof.
  intros H. unfold slice_assign.
  rewrite !length_app, length_firstn, length_skipn. lia.
Qed.

Lemma slice_assign_prefix {A : Type} lo (vals l : list A) k :
  (k <= lo)%nat -> (lo <= length l)%nat ->
  firstn k (slice_assign lo vals l) = firstn k l.
Proof.
  intros Hk Hl. unfold slice_assign.
  rewrite firstn_app, firstn_firstn, length_firstn.
  replace (Nat.min k lo) with k by lia.
  replace (k - Nat.min lo (length l))%nat with O by lia.
  simpl. apply app_nil_r.
Qed.

Lemma slice_assign_written {A : Type} lo (vals l : list A) :
  (lo <= length l)%nat ->
  slice lo (lo + length vals) (slice_assign lo vals l) = vals.
Proof.
  intros Hl. unfold slice, slice_assign.
  rewrite skipn_app, length_firstn.
  replace (Nat.min lo (length l)) with lo by lia.
  rewrite skipn_all2 by (rewrite length_firstn; lia).
  replace (lo - lo)%nat with O by lia. simpl.
  replace (lo + length vals - lo)%nat with (length vals) by lia.
  rewrite firstn_app, firstn_all, Nat.sub_diag. simpl. apply app_nil_r.
Qed.

Lemma firstn_prefix_mono {A : Type} k n (l1 l2 : list A) :
  (k <= n)%nat -> firstn n l1 = firstn n l2 -> firstn k l1 = firstn k l2.
Proof.
  intros Hk H.
  rewrite <- (Nat.min_l k n Hk), <- !firstn_firstn, H. reflexivity.
Qed.

(** One write into the buffer: the capacity has been doubled just as often
    as needed, the energies written earlier are unchanged, and the cell's
    energies are in place. *)
Lemma store_cell_spec b ei cn cell_e b' :
  length (Thermal.energies b) = Thermal.num_photons_max b ->
  (ei <= Thermal.num_photons_max b)%nat ->
  length cell_e = cn ->
  Thermal.store_cell b ei cn cell_e = Some b' ->
  (exists k, Thermal.num_photons_max b' = (Thermal.num_photons_max b * 2 ^ k)%nat
             /\ forall j, (j < k)%nat ->
                          (Thermal.num_photons_max b * 2 ^ j < ei + cn)%nat)
  /\ (ei + cn <= Thermal.num_photons_max b')%nat
  /\ length (Thermal.energies b') = Thermal.num_photons_max b'
  /\ firstn ei (Thermal.energies b') = firstn ei (Thermal.energies b)
  /\ slice ei (ei + cn) (Thermal.energies b') = cell_e.
Proof.
  intros Hlen Hei Hcn. unfold Thermal.store_cell.
  destruct (Thermal.grow (S (ei + cn)) (Thermal.num_photons_max b) (ei + cn))
    as [cap|] eqn:Hg; [|discriminate].
  intros H; inversion H; subst b'; clear H. simpl.
  destruct (grow_spec _ _ _ _ Hg) as (k & Hcap & Hneed & Hmin).
  assert (Hge : (Thermal.num_photons_max b <= cap)%nat).
  { rewrite Hcap. pose proof (Nat.pow_nonzero 2 k ltac:(lia)). nia. }
  set (e1 := if (length (Thermal.energies b) <? cap)%nat
             then resize_flat (Thermal.energies b) cap
             else Thermal.energies b).
  assert (He1 : length e1 = cap
                /\ firstn ei e1 = firstn ei (Thermal.energies b)).
  { subst e1. destruct (length (Thermal.energies b) <? cap)%nat eqn:E.
    - split; [apply resize_flat_length|].
      apply resize_flat_prefix; lia.
    - apply Nat.ltb_ge in E. split; [lia|reflexivity]. }
  destruct He1 as [Hl1 Hp1].
  split; [exists k; split; [exact Hcap|exact Hmin]|].
  split; [exact Hneed|].
  split; [rewrite slice_assign_length; lia|].
  split.
  - rewrite slice_assign_prefix by lia. exact Hp1.
  - rewrite <- Hcn. apply slice_assign_written. lia.
Qed.

Lemma store_cell_total b ei cn cell_e :
  (0 < Thermal.num_photons_max b)%nat ->
  exists b', Thermal.store_cell b ei cn cell_e = Some b'.
Proof.
  intros Hpos. unfold Thermal.store_cell.
  destruct (grow_total (ei + cn) (Thermal.num_photons_max b) (ei + cn)
              Hpos ltac:(lia)) as [cap Hg].
  rewrite Hg. eauto.
Qed.

(** ** Draws: how many values come back *)

Section DrawFacts.
Variable G : PRNG.

Lemma poisson_draws_length lams (s : RandomState G) :
  length (fst (poisson_draws G lams s)) = length lams.
Proof.
  revert s. induction lams as [|lam lams IH]; intros s; simpl; auto.
  destruct (poisson1 G lam s) as [n s1].
  specialize (IH s1). destruct (poisson_draws G lams s1) as [ns s2].
  simpl in *. lia.
Qed.

Lemma poisson_length lams (s : RandomState G) ns s' :
  poisson G lams s = Some (ns, s') -> length ns = length lams.
Proof.
  unfold poisson. destruct (existsb _ lams); [discriminate|].
  intros H; inversion H. rewrite <- (poisson_draws_length lams s).
  destruct (poisson_draws G lams s); simpl in *. congruence.
Qed.

Lemma uniform_length n (s : RandomState G) :
  length (fst (uniform G n s)) = n.
Proof.
  revert s. induction n as [|n IH]; intros s; simpl; auto.
  destruct (uniform1 G s) as [u s1].
  specialize (IH s1). destruct (uniform G n s1) as [us s2].
  simpl in *. lia.
Qed.

Lemma choice_length nchan n p (s : RandomState G) js s' :
  choice G nchan n p s = Some (js, s') -> length js = n.
Proof.
  revert s js s'. induction n as [|n IH]; intros s js s' H; simpl in H.
  - inversion H. reflexivity.
  - destruct (choice1 G nchan p s) as [[i s1]|]; [|discriminate].
    destruct (choice G nchan n p s1) as [[js' s2]|] eqn:E; [|discriminate].
    inversion H; subst. simpl. f_equal. eapply IH; eauto.
Qed.

Lemma normal_draws_length sigma n (s : RandomState G) :
  length (fst (normal_draws G sigma n s)) = n.
Proof.
  revert s. induction n as [|n IH]; intros s; simpl; auto.
  destruct (normal1 G sigma s) as [x s1].
  specialize (IH s1). destruct (normal_draws G sigma n s1) as [xs2 s2].
  simpl in *. lia.
Qed.

Lemma normal_length sigma n (s : RandomState G) xs s' :
  normal G sigma n s = Some (xs, s') -> length xs = n.
Proof.
  unfold normal. destruct (Rltb sigma 0); [discriminate|].
  intros H; inversion H. rewrite <- (normal_draws_length sigma n s).
  destruct (normal_draws G sigma n s); simpl in *. congruence.
Qed.
End DrawFacts.

Lemma sort_insert_length x l : length (sort_insert x l) = S (length l).
Proof.
  induction l as [|y l IH]; simpl; auto.
  destruct (Rleb x y); simpl; auto.
Qed.

Lemma np_sort_length l : length (np_sort l) = length l.
Proof.
  unfold np_sort. induction l as [|x l IH]; simpl; auto.
  rewrite sort_insert_length. auto.
Qed.

Lemma np_interp_length x xp fp r :
  np_interp x xp fp = Some r -> length r = length x.
Proof.
  unfold np_interp. destruct xp; [discriminate|].
  destruct (_ =? _)%nat; [|discriminate].
  intros H; inversion H. apply length_map.
Qed.

Lemma take_length {A : Type} (l : list A) idx r :
  take l idx = Some r -> length r = length idx.
Proof.
  revert r. induction idx as [|i idx IH]; intros r H; simpl in H.
  - inversion H. reflexivity.
  - destruct (nth_error l i); [|discriminate].
    destruct (take l idx) as [r'|]; [|discriminate].
    inversion H. simpl. f_equal. apply IH. reflexivity.
Qed.

(** ** The thermal engine: the photons mode *)

Section PhotonFacts.
Variable G : PRNG.

Lemma sample_cell_length m cn cp_row p_row (s : RandomState G) cell_e s' :
  Thermal.sample_cell G m cn cp_row p_row s = Some (cell_e, s') ->
  length cell_e = cn.
Proof.
  unfold Thermal.sample_cell. destruct (Thermal.method m).
  - pose proof (uniform_length G cn s) as Hu.
    destruct (uniform G cn s) as [randvec s1]. simpl in Hu.
    destruct (np_interp _ _ _) as [r|] eqn:Hi; [|discriminate].
    intros H; injection H as Hr _; subst cell_e.
    apply np_interp_length in Hi. rewrite Hi, np_sort_length. exact Hu.
  - destruct (choice G (Thermal.nchan m) cn p_row s) as [[eidxs s1]|] eqn:Hc;
      [|discriminate].
    destruct (take (Thermal.emid m) eidxs) as [r|] eqn:Ht; [|discriminate].
    intros H; injection H as Hr _; subst cell_e.
    apply take_length in Ht. apply choice_length in Hc. lia.
  - discriminate.
Qed.

(** The loop over the cells of a batch advances the write position by the
    photons of the batch, keeps the buffer as long as its capacity, and
    leaves what was written before untouched. *)
Lemma cells_loop_inv m cells b ei (s : RandomState G) b' ei' s' :
  length (Thermal.energies b) = Thermal.num_photons_max b ->
  (ei <= Thermal.num_photons_max b)%nat ->
  Thermal.cells_loop G m cells b ei s = Some (b', ei', s') ->
  ei' = (ei + nat_sum (map fst cells))%nat
  /\ length (Thermal.energies b') = Thermal.num_photons_max b'
  /\ (ei' <= Thermal.num_photons_max b')%nat
  /\ firstn ei (Thermal.energies b') = firstn ei (Thermal.energies b).
Proof.
  revert b ei s. induction cells as [|[cn [cp_row p_row]] cells IH];
    intros b ei s Hlen Hei H; simpl in H.
  - inversion H; subst. simpl. repeat split; auto; lia.
  - destruct (cn =? 0)%nat eqn:Hcn.
    + apply Nat.eqb_eq in Hcn. subst cn.
      destruct (IH _ _ _ Hlen Hei H) as (H1 & H2 & H3 & H4).
      simpl. repeat split; auto.
    + destruct (Thermal.sample_cell G m cn cp_row p_row s)
        as [[cell_e s1]|] eqn:Hs; [|discriminate].
      destruct (Thermal.store_cell b ei cn cell_e) as [b1|] eqn:Hst;
        [|discriminate].
      pose proof (sample_cell_length _ _ _ _ _ _ _ Hs) as Hce.
      destruct (store_cell_spec _ _ _ _ _ Hlen Hei Hce Hst)
        as (_ & Hneed & Hl1 & Hp1 & _).
      destruct (IH _ _ _ Hl1 Hneed H) as (H1 & H2 & H3 & H4).
      simpl. repeat split; auto; try lia.
      rewrite <- Hp1. apply (firstn_prefix_mono ei (ei + cn)); [lia|exact H4].
Qed.

Lemma store_cell_capacity b ei cn cell_e b' :
  Thermal.store_cell b ei cn cell_e = Some b' ->
  (Thermal.num_photons_max b <= Thermal.num_photons_max b')%nat.
Proof.
  unfold Thermal.store_cell.
  destruct (Thermal.grow (S (ei + cn)) (Thermal.num_photons_max b) (ei + cn))
    as [cap|] eqn:Hg; [|discriminate].
  intros H; inversion H; subst b'; simpl.
  destruct (grow_spec _ _ _ _ Hg) as (k & -> & _).
  pose proof (Nat.pow_nonzero 2 k ltac:(lia)). nia.
Qed.

(** With a positive capacity the loop over the cells fails only where the
    sampling of a cell fails: making room always succeeds, and the capacity
    never shrinks. *)
Lemma cells_loop_total m cells b ei (s : RandomState G) :
  (0 < Thermal.num_photons_max b)%nat ->
  (forall cn cp_row p_row (s0 : RandomState G),
      In (cn, (cp_row, p_row)) cells ->
      exists r, Thermal.sample_cell G m cn cp_row p_row s0 = Some r) ->
  exists b' ei' s',
    Thermal.cells_loop G m cells b ei s = Some (b', ei', s')
    /\ (Thermal.num_photons_max b <= Thermal.num_photons_max b')%nat.
Proof.
  revert b ei s. induction cells as [|[cn [cp_row p_row]] cells IH];
    intros b ei s Hpos Hs; simpl.
  - exists b, ei, s. split; [reflexivity|lia].
  - destruct (cn =? 0)%nat.
    + apply IH; [exact Hpos|]. intros; apply Hs; right; assumption.
    + destruct (Hs cn cp_row p_row s (or_introl eq_refl)) as [[cell_e s1] Hc].
      rewrite Hc.
      destruct (store_cell_total b ei cn cell_e Hpos) as [b1 Hst].
      rewrite Hst. pose proof (store_cell_capacity _ _ _ _ _ Hst) as Hcap.
      destruct (IH b1 (ei + cn)%nat s1 ltac:(lia)
                  ltac:(intros; apply Hs; right; assumption))
        as (b' & ei' & s' & Hl & Hcap').
      exists b', ei', s'. split; [exact Hl|lia].
Qed.
End PhotonFacts.

Lemma nat_sum_app l1 l2 : nat_sum (l1 ++ l2) = (nat_sum l1 + nat_sum l2)%nat.
Proof. induction l1 as [|x l1 IH]; simpl; auto. rewrite IH. lia. Qed.

Lemma nat_sum_repeat_0 n : nat_sum (repeat O n) = O.
Proof. induction n; simpl; auto. Qed.

Lemma skipn_repeat {A : Type} (x : A) k n :
  skipn k (repeat x n) = repeat x (n - k).
Proof.
  revert n; induction k as [|k IH]; intros [|n]; simpl; auto.
Qed.

Lemma map_fst_combine {A B : Type} (l : list A) (l' : list B) :
  (length l <= length l')%nat -> map fst (combine l l') = l.
Proof.
  revert l'; induction l as [|x l IH]; intros [|y l'] H; simpl in *;
    try lia; auto.
  rewrite IH by lia. reflexivity.
Qed.

Lemma chunked_fuel_chain fuel k a len :
  (0 < k)%nat -> (len <= fuel)%nat ->
  chain a (chunked_fuel fuel k (seq a len)) (a + len).
Proof.
  intros Hk. revert a len. induction fuel as [|fuel IH]; intros a len Hlen.
  - assert (len = O) by lia. subst len. simpl. lia.
  - destruct len as [|len]; [simpl; lia|].
    change (chunked_fuel (S fuel) k (seq a (S len)))
      with (firstn k (seq a (S len))
            :: chunked_fuel fuel k (skipn k (seq a (S len)))).
    rewrite skipn_seq, firstn_seq.
    exists (Nat.min k (S len)). repeat split; try lia.
    destruct (Nat.le_ge_cases k (S len)) as [Hle|Hge].
    + replace (Nat.min k (S len)) with k by lia.
      replace (a + S len)%nat with ((a + k) + (S len - k))%nat by lia.
      apply IH. lia.
    + replace (Nat.min k (S len)) with (S len) by lia.
      replace (S len - k)%nat with O by lia.
      replace (a + k)%nat with (a + k + 0)%nat by lia.
      specialize (IH (a + k)%nat O ltac:(lia)).
      destruct fuel; simpl in *; lia.
Qed.

Lemma batches_chain n : chain 0 (Thermal.batches n) n.
Proof.
  unfold Thermal.batches, chunked. rewrite length_seq.
  exact (chunked_fuel_chain n 100 0 n ltac:(lia) ltac:(lia)).
Qed.

Section PhotonLoop.
Variable G : PRNG.

Lemma use_spectrum_photons_inv m e st (s : RandomState G) n a l tot st' s' :
  photons_inv n a st ->
  (0 < l)%nat -> (a + l <= n)%nat ->
  length (Thermal.cell_nrm e) = n ->
  has_shape l (Thermal.nchan m) tot = true ->
  Thermal.use_spectrum G m photons e st s a (a + l) tot = Some (st', s') ->
  photons_inv n (a + l) st'
  /\ firstn (Thermal.end_e st) (Thermal.energies (Thermal.buf st'))
     = firstn (Thermal.end_e st) (Thermal.energies (Thermal.buf st))
  /\ (Thermal.end_e st <= Thermal.end_e st')%nat.
Proof.
  intros (Hlen & Hrest & Hse & Hsum & Hbl & Hbe) Hl Hal Hnrm Htot.
  unfold Thermal.use_spectrum.
  destruct (poisson G (Thermal.cell_norm e a (a + l) tot) s)
    as [[cell_n s1]|] eqn:Hp; [|discriminate].
  destruct (Thermal.cells_loop G m _ (Thermal.buf st) (Thermal.start_e st) s1)
    as [[[b1 ei'] s2]|] eqn:Hc; [|discriminate].
  intros H; inversion H; subst st' s'; clear H. unfold photons_inv; simpl.
  apply has_shape_spec in Htot. destruct Htot as [Hrows _].
  assert (Hcn : length cell_n = l).
  { apply poisson_length in Hp. rewrite Hp. unfold Thermal.cell_norm.
    rewrite zip_with_length. unfold row_sums. rewrite length_map, Hrows.
    rewrite slice_length by lia. lia. }
  apply cells_loop_inv in Hc; [|assumption|lia].
  rewrite map_fst_combine in Hc.
  2:{ rewrite length_combine, length_map. unfold scale_rows.
      rewrite zip_with_length, length_map. unfold row_sums.
      rewrite length_map. lia. }
  destruct Hc as (Hei & Hbl1 & Hbe1 & Hpre).
  assert (Hskip : skipn (a + l) (Thermal.number_of_photons st)
                  = repeat O (n - (a + l))).
  { rewrite Nat.add_comm, <- skipn_skipn, Hrest, skipn_repeat.
    f_equal. lia. }
  assert (Hfirst : nat_sum (firstn a (Thermal.number_of_photons st))
                   = Thermal.end_e st).
  { rewrite Hsum.
    rewrite <- (firstn_skipn a (Thermal.number_of_photons st)) at 2.
    rewrite nat_sum_app, Hrest, nat_sum_repeat_0. lia. }
  repeat split.
  - rewrite slice_assign_length; lia.
  - unfold slice_assign. rewrite app_assoc, skipn_app, Hcn.
    rewrite skipn_all2 by (rewrite length_app, length_firstn; lia).
    rewrite length_app, length_firstn.
    replace (a + l - (Nat.min a (length (Thermal.number_of_photons st))
                      + length cell_n))%nat with O by lia.
    simpl. exact Hskip.
  - unfold slice_assign. rewrite !nat_sum_app, Hcn, Hskip, nat_sum_repeat_0.
    lia.
  - exact Hbl1.
  - lia.
  - rewrite <- Hse. exact Hpre.
  - lia.
Qed.

Lemma batch_loop_photons_inv m e n cks :
  length (Thermal.cell_nrm e) = n ->
  (n <= length (Thermal.metalZ e))%nat ->
  Forall (fun row => length row = n) (Thermal.elemZ e) ->
  forall a st (s : RandomState G) st' s',
    chain a cks n ->
    photons_inv n a st ->
    Thermal.batch_loop G m photons e cks st s = Some (st', s') ->
    photons_inv n n st'
    /\ firstn (Thermal.end_e st) (Thermal.energies (Thermal.buf st'))
       = firstn (Thermal.end_e st) (Thermal.energies (Thermal.buf st))
    /\ (Thermal.end_e st <= Thermal.end_e st')%nat.
Proof.
  intros Hnrm HZ HeZ.
  induction cks as [|ck cks IH]; intros a st s st' s' Hch Hinv H; simpl in *.
  - inversion H; subst. split; [assumption|]. split; [reflexivity|lia].
  - destruct Hch as (l & Hl & Hal & -> & Hch).
    destruct (Thermal.batch_step G m photons e st s (seq a l))
      as [[st1 s1]|] eqn:Hstep; [|discriminate].
    unfold Thermal.batch_step in Hstep.
    destruct (seq_hd_last a l Hl) as [Hh Hla]. rewrite Hh, Hla in Hstep.
    destruct (Thermal.tot_spec m e a (a + l)) as [tot|] eqn:Htot;
      [|discriminate].
    unfold Thermal.tot_spec in Htot.
    destruct (Thermal.get_spectrum _ _ _) as [[cspec mspec] vspec] in Htot.
    apply compose_entry in Htot.
    2:{ apply slice_length. lia. }
    2:{ apply Forall_forall. intros zr Hzr. apply in_map_iff in Hzr.
        destruct Hzr as (row & <- & Hrow).
        rewrite Forall_forall in HeZ. apply slice_length.
        rewrite (HeZ row Hrow). lia. }
    destruct Htot as [Hshape _].
    replace (a + l - a)%nat with l in Hshape by lia.
    destruct (use_spectrum_photons_inv m e st s n a l tot st1 s1
                Hinv Hl Hal Hnrm Hshape Hstep) as (Hinv1 & Hpre1 & Hle1).
    destruct (IH _ _ _ _ _ Hch Hinv1 H) as (Hinv' & Hpre' & Hle').
    split; [exact Hinv'|]. split; [|lia].
    rewrite <- Hpre1.
    apply (firstn_prefix_mono _ (Thermal.end_e st1)); [lia|exact Hpre'].
Qed.
End PhotonLoop.

Lemma nat_sum_active nop :
  nat_sum (mask_select (map (fun n => (0 <? n)%nat) nop) nop) = nat_sum nop.
Proof.
  induction nop as [|n nop IH]; simpl; auto.
  destruct n; simpl; rewrite IH; reflexivity.
Qed.

Lemma count_true_active nop :
  count_true (map (fun n => (0 <? n)%nat) nop)
  = length (filter (fun n => (0 <? n)%nat) nop).
Proof.
  unfold count_true. induction nop as [|n nop IH]; simpl; auto.
  destruct n; simpl; rewrite IH; reflexivity.
Qed.

Section PhotonRun.
Variable G : PRNG.
Variable to_keV : R -> R.

(** The state at the end of the batch loop of a photons-mode call. *)
Lemma run_batches_photons cap0 m c cut (s : RandomState G) e st s' :
  Thermal.sample_filter to_keV m c = Some cut ->
  Thermal.run_batches G to_keV cap0 m photons c cut s = Some (e, st, s') ->
  photons_inv (count_true cut) (count_true cut) st
  /\ length (Thermal.idxs e) = count_true cut.
Proof.
  intros Hcut. unfold Thermal.run_batches.
  destruct (Thermal.prepare to_keV m c cut) as [e0|] eqn:Hprep;
    [|discriminate].
  destruct (Thermal.batch_loop G m photons e0 _ _ s) as [[st0 s0]|] eqn:Hloop;
    [|discriminate].
  intros H; inversion H; subst e0 st0 s0; clear H.
  pose proof (sample_filter_length to_keV m c cut Hcut) as Hlen.
  destruct (prepare_lengths to_keV m c cut e Hlen Hprep)
    as (Hn & _ & Hnrm & HZ & HeZ & Hidx).
  split; [|exact Hidx].
  rewrite Hn in Hloop.
  refine (proj1 (batch_loop_photons_inv G m e (count_true cut) _
                   Hnrm HZ HeZ O _ s st s' (batches_chain _) _ Hloop)).
  unfold photons_inv, Thermal.init_state; simpl.
  rewrite Hn, !repeat_length, Nat.sub_0_r, nat_sum_repeat_0.
  repeat split; lia.
Qed.

(** What a photons-mode call of the thermal engine returns, in terms of the
    state [st] at the end of its batch loop. *)
Lemma thermal_photons_result cap0 m c (s : RandomState G)
      ncells counts sel ee s' :
  Thermal.process_data_from G to_keV cap0 m photons c s
  = Some (RPhotons ncells counts sel ee, s') ->
  exists cut e st,
    Thermal.sample_filter to_keV m c = Some cut
    /\ Thermal.run_batches G to_keV cap0 m photons c cut s = Some (e, st, s')
    /\ length (Thermal.number_of_photons st) = count_true cut
    /\ nat_sum counts = nat_sum (Thermal.number_of_photons st)
    /\ length ee = nat_sum (Thermal.number_of_photons st)
    /\ selector_length sel
       = length (filter (fun n => (0 <? n)%nat) (Thermal.number_of_photons st))
    /\ ncells = selector_length sel
    /\ length counts = selector_length sel
    /\ sel = Indices (mask_select
                        (map (fun n => (0 <? n)%nat)
                             (Thermal.number_of_photons st))
                        (Thermal.idxs e)).
Proof.
  unfold Thermal.process_data_from.
  destruct (Thermal.orig_ncells c =? 0)%nat; [discriminate|].
  destruct (Thermal.sample_filter to_keV m c) as [cut|] eqn:Hcut;
    [|discriminate].
  destruct (count_true cut =? 0)%nat; [discriminate|].
  destruct (Thermal.run_batches G to_keV cap0 m photons c cut s)
    as [[[e st] s1]|] eqn:Hrun; [|discriminate].
  intros H. injection H as Hn Hc Hs He Hs'. subst s1.
  destruct (run_batches_photons cap0 m c cut s e st s' Hcut Hrun)
    as [(Hlen & _ & _ & Hsum & Hbl & Hbe) Hidx].
  exists cut, e, st. split; [reflexivity|]. split; [exact Hrun|].
  split; [exact Hlen|].
  set (active := map (fun n => (0 <? n)%nat) (Thermal.number_of_photons st))
    in *.
  assert (Hact : length active = count_true cut)
    by (subst active; rewrite length_map; exact Hlen).
  split; [subst counts; apply nat_sum_active|].
  split.
  { subst ee. rewrite <- Hsum.
    destruct (Thermal.binscale m); [|rewrite length_map];
      rewrite length_firstn; lia. }
  subst sel ncells counts. simpl.
  rewrite !mask_select_length by lia.
  split; [subst active; apply count_true_active|].
  split; [reflexivity|]. split; reflexivity.
Qed.
End PhotonRun.

(** ** The power-law and line engines: the photons mode *)

Lemma io_get_length c f : length (io_get c f) = io_size c.
Proof. unfold io_get. rewrite length_map, length_seq. reflexivity. Qed.

Lemma plaw_alpha_length m c : length (PowerLaw.alpha_of m c) = io_size c.
Proof.
  unfold PowerLaw.alpha_of. destruct (PowerLaw.alpha m).
  - rewrite length_map. apply repeat_length.
  - apply io_get_length.
Qed.

Lemma plaw_norm_fac_length m al : length (PowerLaw.norm_fac m al) = length al.
Proof.
  unfold PowerLaw.norm_fac. rewrite !zip_with_length, length_map. lia.
Qed.

Lemma plaw_norm_length m al em :
  length (PowerLaw.norm m al em) = Nat.min (length al) (length em).
Proof.
  unfold PowerLaw.norm. rewrite !zip_with_length, plaw_norm_fac_length. lia.
Qed.

Lemma plaw_photon_means_length m c :
  length (PowerLaw.photon_means m c) = io_size c.
Proof.
  unfold PowerLaw.photon_means.
  rewrite length_map, plaw_norm_length, plaw_alpha_length, io_get_length. lia.
Qed.

Section ClosedFormPhotons.
Variable G : PRNG.

Lemma plaw_cells_loop_inv m cells energies start_e (s : RandomState G)
      energies' end_e' s' :
  (start_e + nat_sum (map fst cells) <= length energies)%nat ->
  PowerLaw.cells_loop G m cells energies start_e start_e s
  = (energies', end_e', s') ->
  end_e' = (start_e + nat_sum (map fst cells))%nat
  /\ length energies' = length energies.
Proof.
  revert energies start_e s. induction cells as [|[n [a nf]] cells IH];
    intros energies start_e s Hfit H; simpl in *.
  - inversion H; subst. split; [lia|reflexivity].
  - destruct (0 <? n)%nat eqn:Hn.
    + pose proof (uniform_length G n s) as Hu.
      destruct (uniform G n s) as [u s1]. simpl in Hu.
      apply IH in H.
      * destruct H as [He Hl]. split; [lia|].
        rewrite Hl. apply slice_assign_length. rewrite !length_map. lia.
      * rewrite slice_assign_length; rewrite ?length_map; lia.
    + apply Nat.ltb_ge in Hn. assert (n = O) by lia. subst n.
      apply IH in H; [|simpl in Hfit; lia].
      simpl. exact H.
Qed.

(** A photons-mode call of the power-law engine: the counts returned are the
    positive Poisson draws, the third component is the boolean array
    [active_cells] over all cells of the chunk, and there is one energy per
    photon. *)
Lemma plaw_photons_result m c emid (s : RandomState G)
      ncells counts sel ee s' :
  PowerLaw.process_data G m photons c emid s
  = Some (RPhotons ncells counts sel ee, s') ->
  exists number_of_photons s1,
    poisson G (PowerLaw.photon_means m c) s = Some (number_of_photons, s1)
    /\ length number_of_photons = io_size c
    /\ sel = Mask (map (fun n => (0 <? n)%nat) number_of_photons)
    /\ counts = filter (fun n => (0 <? n)%nat) number_of_photons
    /\ ncells = length counts
    /\ nat_sum counts = nat_sum number_of_photons
    /\ length ee = nat_sum number_of_photons.
Proof.
  unfold PowerLaw.process_data.
  destruct (poisson G (PowerLaw.photon_means m c) s) as [[nop s1]|] eqn:Hp;
    [|discriminate].
  destruct (PowerLaw.cells_loop G m _ _ O O s1) as [[en' end_e] s2] eqn:Hc.
  intros H. injection H as Hn Hcnt Hsel Hee Hs.
  pose proof (poisson_length G _ _ _ _ Hp) as Hlen.
  rewrite plaw_photon_means_length in Hlen.
  apply plaw_cells_loop_inv in Hc.
  2:{ rewrite map_fst_combine, repeat_length; [simpl; lia|].
      rewrite length_combine, plaw_norm_fac_length, plaw_alpha_length. lia. }
  rewrite map_fst_combine in Hc
    by (rewrite length_combine, plaw_norm_fac_length, plaw_alpha_length; lia).
  destruct Hc as [He Hl]. rewrite repeat_length in Hl. simpl in He.
  exists nop, s1. split; [reflexivity|]. split; [exact Hlen|].
  split; [symmetry; exact Hsel|].
  assert (Hsel_filter : forall l : list nat,
             mask_select (map (fun n => (0 <? n)%nat) l) l
             = filter (fun n => (0 <? n)%nat) l).
  { induction l as [|x l IHl]; simpl; auto.
    destruct x; simpl; rewrite IHl; reflexivity. }
  split; [rewrite <- Hcnt; apply Hsel_filter|].
  split.
  { rewrite <- Hn, <- Hcnt, Hsel_filter. apply count_true_active. }
  split; [rewrite <- Hcnt; apply nat_sum_active|].
  rewrite <- Hee, length_firstn. lia.
Qed.
End ClosedFormPhotons.

Lemma mask_select_active_filter (l : list nat) :
  mask_select (map (fun n => (0 <? n)%nat) l) l
  = filter (fun n => (0 <? n)%nat) l.
Proof.
  induction l as [|x l IHl]; simpl; auto.
  destruct x; simpl; rewrite IHl; reflexivity.
Qed.

Section LinePhotons.
Variable G : PRNG.
Variable gcdf : list R.
Variable clight : R.

Lemma line_cells_loop_length cells energies start_e (s : RandomState G)
      energies' s' :
  (start_e + nat_sum (map fst cells) <= length energies)%nat ->
  Line.cells_loop G cells energies start_e s = Some (energies', s') ->
  length energies' = length energies.
Proof.
  revert energies start_e s. induction cells as [|[n sg] cells IH];
    intros energies start_e s Hfit H; simpl in *.
  - inversion H; subst. reflexivity.
  - destruct (0 <? n)%nat eqn:Hn.
    + destruct (normal G sg n s) as [[dE s1]|] eqn:Hd; [|discriminate].
      apply normal_length in Hd.
      assert (Hz : length (zip_with Rplus
                             (slice start_e (start_e + n) energies) dE) = n).
      { rewrite zip_with_length, slice_length by lia. lia. }
      apply IH in H.
      * rewrite H. apply slice_assign_length. lia.
      * rewrite slice_assign_length; lia.
    + apply Nat.ltb_ge in Hn. assert (n = O) by lia. subst n.
      apply IH in H; [exact H|lia].
Qed.

(** A photons-mode call of the line engine, as for the power-law engine. *)
Lemma line_photons_result m c ebins (s : RandomState G)
      ncells counts sel ee s' :
  Line.process_data G gcdf clight m photons c ebins s
  = Some (RPhotons ncells counts sel ee, s') ->
  exists number_of_photons s1,
    poisson G (Line.photon_means m c) s = Some (number_of_photons, s1)
    /\ length number_of_photons = io_size c
    /\ sel = Mask (map (fun n => (0 <? n)%nat) number_of_photons)
    /\ counts = filter (fun n => (0 <? n)%nat) number_of_photons
    /\ ncells = length counts
    /\ nat_sum counts = nat_sum number_of_photons
    /\ length ee = nat_sum number_of_photons.
Proof.
  unfold Line.process_data.
  destruct (poisson G (Line.photon_means m c) s) as [[nop s1]|] eqn:Hp;
    [|discriminate].
  pose proof (poisson_length G _ _ _ _ Hp) as Hlen.
  unfold Line.photon_means in Hlen. rewrite length_map, io_get_length in Hlen.
  set (energies := map (Rmult (Line.e0 m)) (repeat 1 (nat_sum nop))).
  assert (Hen : length energies = nat_sum nop)
    by (subst energies; rewrite length_map; apply repeat_length).
  destruct (match Line.sigma m with
            | Line.Unbroadened => Some (energies, s1)
            | Line.Sigma sg =>
                ' (dE, s2) <- normal G sg (nat_sum nop) s1;;
                Some (zip_with Rplus energies dE, s2)
            | Line.SigmaField f =>
                Line.cells_loop G (combine nop (Line.sigma_of clight m c f))
                  energies 0 s1
            end) as [[energies1 s2]|] eqn:Hb; [|discriminate].
  assert (Hen1 : length energies1 = nat_sum nop).
  { destruct (Line.sigma m) as [|sg|f].
    - inversion Hb; subst. exact Hen.
    - destruct (normal G sg (nat_sum nop) s1) as [[dE s3]|] eqn:Hd;
        [|discriminate].
      inversion Hb; subst. apply normal_length in Hd.
      rewrite zip_with_length. lia.
    - assert (Hm : map fst (combine nop (Line.sigma_of clight m c f)) = nop).
      { apply map_fst_combine. unfold Line.sigma_of.
        rewrite length_map, io_get_length. lia. }
      apply line_cells_loop_length in Hb; [lia|].
      rewrite Hm. simpl. lia. }
  intros H. injection H as Hn Hcnt Hsel Hee Hs.
  exists nop, s1. split; [reflexivity|]. split; [exact Hlen|].
  split; [symmetry; exact Hsel|].
  split; [rewrite <- Hcnt; apply mask_select_active_filter|].
  split.
  { rewrite <- Hn, <- Hcnt, mask_select_active_filter.
    apply count_true_active. }
  split; [rewrite <- Hcnt; apply nat_sum_active|].
  rewrite <- Hee, length_map. exact Hen1.
Qed.
End LinePhotons.

(** ** Photon populations *)

(** C1, as the code has it.  Whenever a photons-mode call returns a
    population, the returned counts sum to the number of returned energies,
    for the thermal, the power-law and the line engine.  The thermal engine
    returns the indices of the active cells: as many as there are eligible
    cells with a positive count.  The power-law and line engines return the
    boolean array [active_cells] instead: it has one entry per cell of the
    chunk, and its true entries are as many as the cells with a positive
    count, which is also the returned number of active cells. *)
Theorem photons_counts_and_selector :
  forall (G : PRNG) (to_keV : R -> R) (cap0 : nat) (gcdf : list R) (clight : R),
    (forall m c (s : RandomState G) ncells counts sel ee s',
        Thermal.process_data_from G to_keV cap0 m photons c s
        = Some (RPhotons ncells counts sel ee, s') ->
        nat_sum counts = length ee
        /\ exists cut e st idxs,
            Thermal.sample_filter to_keV m c = Some cut
            /\ Thermal.run_batches G to_keV cap0 m photons c cut s
               = Some (e, st, s')
            /\ length (Thermal.number_of_photons st) = count_true cut
            /\ sel = Indices idxs
            /\ length idxs
               = length (filter (fun n => (0 <? n)%nat)
                                (Thermal.number_of_photons st))
            /\ ncells = length idxs)
    /\ (forall m c emid (s : RandomState G) ncells counts sel ee s',
          PowerLaw.process_data G m photons c emid s
          = Some (RPhotons ncells counts sel ee, s') ->
          nat_sum counts = length ee
          /\ exists number_of_photons s1 active_cells,
              poisson G (PowerLaw.photon_means m c) s
              = Some (number_of_photons, s1)
              /\ sel = Mask active_cells
              /\ length active_cells = io_size c
              /\ count_true active_cells
                 = length (filter (fun n => (0 <? n)%nat) number_of_photons)
              /\ ncells = count_true active_cells)
    /\ (forall m c ebins (s : RandomState G) ncells counts sel ee s',
          Line.process_data G gcdf clight m photons c ebins s
          = Some (RPhotons ncells counts sel ee, s') ->
          nat_sum counts = length ee
          /\ exists number_of_photons s1 active_cells,
              poisson G (Line.photon_means m c) s
              = Some (number_of_photons, s1)
              /\ sel = Mask active_cells
              /\ length active_cells = io_size c
              /\ count_true active_cells
                 = length (filter (fun n => (0 <? n)%nat) number_of_photons)
              /\ ncells = count_true active_cells).
Proof.
  intros G to_keV cap0 gcdf clight. split; [|split].
  - intros m c s ncells counts sel ee s' H.
    destruct (thermal_photons_result G to_keV cap0 m c s _ _ _ _ _ H)
      as (cut & e & st & Hcut & Hrun & Hlen & Hsum & Hee & Hsel & Hn & _ & Hi).
    split; [lia|].
    exists cut, e, st. eexists. split; [exact Hcut|]. split; [exact Hrun|].
    split; [exact Hlen|]. split; [exact Hi|].
    rewrite Hi in Hsel, Hn. simpl in Hsel, Hn. split; assumption.
  - intros m c emid s ncells counts sel ee s' H.
    destruct (plaw_photons_result G m c emid s _ _ _ _ _ H)
      as (nop & s1 & Hp & Hlen & Hsel & Hcnt & Hn & Hsum & Hee).
    split; [lia|].
    exists nop, s1. eexists. split; [exact Hp|]. split; [exact Hsel|].
    rewrite length_map, count_true_active. subst counts. auto.
  - intros m c ebins s ncells counts sel ee s' H.
    destruct (line_photons_result G gcdf clight m c ebins s _ _ _ _ _ H)
      as (nop & s1 & Hp & Hlen & Hsel & Hcnt & Hn & Hsum & Hee).
    split; [lia|].
    exists nop, s1. eexists. split; [exact Hp|]. split; [exact Hsel|].
    rewrite length_map, count_true_active. subst counts. auto.
Qed.

Lemma ln_2_1_pos : 0 < ln (2 / 1).
Proof. replace (2 / 1) with 2 by lra. pose proof ln_lt_2. lra. Qed.

Lemma Rpower_1_1 : Rpower 1 1 = 1.
Proof. apply Rpower_1. lra. Qed.

(** The three engines on the test data, in the photons mode. *)
Lemma plaw_run :
  { ee : list R &
    { s' | PowerLaw.process_data Fixtures.counter Fixtures.plaw photons
             Fixtures.plaw_dim_chunk None O
           = Some (RPhotons 1 [2%nat] (Mask [true; false]) ee, s') } }.
Proof.
  do 2 eexists. unfold PowerLaw.process_data, PowerLaw.photon_means.
  pose proof ln_2_1_pos.
  cbn. decide_floats. cbn. rewrite ?Rpower_1_1. unfold poisson.
  cbn. decide_floats. cbn. reflexivity.
Defined.

(** ** The power-law engine: the closed forms of a call *)

Lemma plaw_norm_fac_map m al :
  PowerLaw.norm_fac m al
  = map (fun a =>
           (if Reqb a 1 then ln (PowerLaw.emax m / PowerLaw.emin m)
            else Rpower (PowerLaw.emax m) (1 - a)
                 - Rpower (PowerLaw.emin m) (1 - a))
           * Rpower (PowerLaw.e0 m) a) al.
Proof.
  unfold PowerLaw.norm_fac. induction al as [|a al IH]; [reflexivity|].
  cbn [map zip_with]. cbn [map zip_with] in IH. rewrite IH. reflexivity.
Qed.

Lemma plaw_norm_zip m al em :
  PowerLaw.norm m al em
  = zip_with (fun a e =>
                if Reqb a 1
                then e * Rpower (PowerLaw.e0 m) a
                     * ln (PowerLaw.emax m / PowerLaw.emin m)
                else (Rpower (PowerLaw.emax m) (1 - a)
                      - Rpower (PowerLaw.emin m) (1 - a))
                     * Rpower (PowerLaw.e0 m) a / (1 - a) * e) al em.
Proof.
  unfold PowerLaw.norm. rewrite plaw_norm_fac_map.
  revert em. induction al as [|a al IH]; intros [|e em]; try reflexivity.
  cbn [map zip_with]. rewrite IH. f_equal.
  destruct (Reqb a 1); cbn [negb]; unfold Rdiv; ring.
Qed.

Lemma firstn_slice_assign_end {A : Type} lo (vals l : list A) :
  (lo + length vals <= length l)%nat ->
  firstn (lo + length vals) (slice_assign lo vals l) = firstn lo l ++ vals.
Proof.
  intros H. unfold slice_assign.
  rewrite firstn_app, length_firstn.
  replace (Nat.min lo (length l)) with lo by lia.
  rewrite firstn_all2 by (rewrite length_firstn; lia).
  replace (lo + length vals - lo)%nat with (length vals) by lia.
  rewrite firstn_app, firstn_all, Nat.sub_diag. cbn [firstn].
  rewrite app_nil_r. reflexivity.
Qed.

(** The loop over the cells writes, one cell after the other, the energies
    of the cell's uniform draws. *)
Lemma plaw_cells_loop_exact (G : PRNG) m cells energies k (s : RandomState G)
      energies' end_e' s' :
  (k + nat_sum (map fst cells) <= length energies)%nat ->
  PowerLaw.cells_loop G m cells energies k k s = (energies', end_e', s') ->
  firstn end_e' energies'
  = firstn k energies
    ++ concat (zip_with
                 (fun cell u =>
                    map (fun x => PowerLaw.energy m (fst (snd cell))
                                                  (snd (snd cell)) x
                                  * PowerLaw.scale_factor m) u)
                 cells (fst (draws_per_cell G (map fst cells) s)))
  /\ s' = snd (draws_per_cell G (map fst cells) s).
Proof.
  revert energies k s. induction cells as [|[n [a nf]] cells IH];
    intros energies k s Hfit H.
  - simpl in H. inversion H; subst. simpl. rewrite app_nil_r. auto.
  - cbn [PowerLaw.cells_loop] in H.
    cbn [map fst draws_per_cell]. cbn [map fst nat_sum] in Hfit.
    assert (Hsum : nat_sum (n :: map fst cells)
                   = (n + nat_sum (map fst cells))%nat) by reflexivity.
    rewrite Hsum in Hfit.
    destruct (0 <? n)%nat eqn:Hn.
    + pose proof (uniform_length G n s) as Hu.
      destruct (uniform G n s) as [u s1]. simpl in Hu.
      set (vals := map (fun x => x * PowerLaw.scale_factor m)
                       (map (PowerLaw.energy m a nf) u)) in H.
      assert (Hv : length vals = n)
        by (subst vals; rewrite !length_map; exact Hu).
      apply IH in H.
      2:{ rewrite slice_assign_length; lia. }
      destruct H as [He Hs].
      destruct (draws_per_cell G (map fst cells) s1) as [us s2].
      cbn [fst snd] in *. split; [|exact Hs].
      rewrite He. rewrite <- Hv at 1.
      rewrite firstn_slice_assign_end by lia.
      cbn [zip_with concat snd fst]. rewrite <- app_assoc. f_equal. f_equal.
      subst vals. rewrite map_map. reflexivity.
    + apply Nat.ltb_ge in Hn. assert (n = O) by lia. subst n.
      cbn [uniform].
      apply IH in H; [|lia]. destruct H as [He Hs].
      destruct (draws_per_cell G (map fst cells) s) as [us s2].
      cbn [fst snd] in *. split; [|exact Hs].
      rewrite He. reflexivity.
Qed.

Lemma plaw_cells_energies m (g : R -> R) (h : R -> R -> R) al counts
      (us : list (list R)) :
  length counts = length al ->
  (forall a x, PowerLaw.energy m a (g a) x = h a x) ->
  zip_with (fun (cell : nat * (R * R)) u =>
              map (fun x => PowerLaw.energy m (fst (snd cell))
                                            (snd (snd cell)) x
                            * PowerLaw.scale_factor m) u)
           (combine counts (combine al (map g al))) us
  = zip_with (fun a u => map (fun x => h a x * PowerLaw.scale_factor m) u)
             al us.
Proof.
  intros Hlen Hh. revert counts us Hlen.
  induction al as [|a al IH]; intros [|n counts] [|u us] Hlen;
    simpl in Hlen; try discriminate; try reflexivity.
  cbn [map combine zip_with fst snd]. f_equal.
  - apply map_ext. intros x. rewrite Hh. reflexivity.
  - apply IH. lia.
Qed.

(** C6.  In the photons and photon_field modes of the power-law engine a
    cell uses the logarithmic closed form exactly when its index equals one
    (equality of the floats, no tolerance): its normalization is
    emission * e0^alpha * log(emax/emin) and its photon energies are
    emin * (emax/emin)^u.  Every other cell uses the general closed form:
    normalization (emax^(1-alpha) - emin^(1-alpha)) * e0^alpha / (1-alpha)
    times the emission, energies
    (emin^(1-alpha) + u*norm_fac)^(1/(1-alpha)), where the cell's entry of
    norm_fac is (emax^(1-alpha) - emin^(1-alpha)) * e0^alpha.  A
    photon_field call returns these normalizations.  A photons call that
    returns has drawn its photon counts with these normalizations, times
    spectral_norm * scale_factor, as the Poisson means, and returns, cell
    after cell, these energies of the cell's uniform draws, times
    scale_factor. *)
Theorem plaw_closed_form_selected_by_exact_index :
  forall (G : PRNG) (m : PowerLaw.PowerLawSourceModel) (c : IOChunk),
    let al := PowerLaw.alpha_of m c in
    let em := io_get c (PowerLaw.emission_field m) in
    let emin := PowerLaw.emin m in
    let emax := PowerLaw.emax m in
    let e0 := PowerLaw.e0 m in
    let sf := PowerLaw.scale_factor m in
    let general := fun a =>
      (Rpower emax (1 - a) - Rpower emin (1 - a)) * Rpower e0 a in
    let norm_of := fun a e =>
      if Reqb a 1 then e * Rpower e0 a * ln (emax / emin)
      else general a / (1 - a) * e in
    let energy_of := fun a u =>
      if Reqb a 1 then emin * Rpower (emax / emin) u
      else Rpower (Rpower emin (1 - a) + u * general a) (1 / (1 - a)) in
    (forall a, Reqb a 1 = true <-> a = 1)
    /\ (forall i a, nth_error al i = Some a -> a <> 1 ->
                    nth_error (PowerLaw.norm_fac m al) i = Some (general a))
    /\ (forall emid s,
           PowerLaw.process_data G m photon_field c emid s
           = Some (RArray (flat (zip_with norm_of al em)), s))
    /\ (forall emid s r s',
           PowerLaw.process_data G m photons c emid s = Some (r, s') ->
           exists counts s1,
             poisson G (map (fun x => x * (PowerLaw.spectral_norm m * sf))
                            (zip_with norm_of al em)) s
             = Some (counts, s1)
             /\ s' = snd (draws_per_cell G counts s1)
             /\ r = let active := map (fun n => (0 <? n)%nat) counts in
                    RPhotons (count_true active) (mask_select active counts)
                      (Mask active)
                      (concat
                         (zip_with
                            (fun a u => map (fun x => energy_of a x * sf) u)
                            al (fst (draws_per_cell G counts s1))))).
Proof.
  intros G m c al em emin emax e0 sf general norm_of energy_of.
  split; [|split; [|split]].
  - intros a. unfold Reqb. destruct (Req_dec_T a 1); split; congruence.
  - intros i a Ha Hne. rewrite (plaw_norm_fac_nth m al i a Ha).
    rewrite (Reqb_false _ _ Hne). reflexivity.
  - intros emid s. unfold PowerLaw.process_data. fold al em.
    rewrite plaw_norm_zip. reflexivity.
  - intros emid s r s'. unfold PowerLaw.process_data, PowerLaw.photon_means.
    fold al em. rewrite plaw_norm_zip. fold emin emax e0 sf general norm_of.
    destruct (poisson G _ s) as [[counts s1]|] eqn:Hp; [|discriminate].
    simpl.
    destruct (PowerLaw.cells_loop G m _ _ O O s1) as [[en' end_e] s2] eqn:Hc.
    intros H. injection H as <- <-.
    exists counts, s1. split; [reflexivity|].
    pose proof (poisson_length G _ _ _ _ Hp) as Hlen.
    rewrite length_map in Hlen.
    assert (Hal : length al = io_size c) by apply plaw_alpha_length.
    assert (Hem : length em = io_size c)
      by (subst em; unfold io_get; rewrite length_map, length_seq; reflexivity).
    rewrite zip_with_length, Hal, Hem, Nat.min_id in Hlen.
    assert (Hfst : map fst (combine counts
                              (combine al (PowerLaw.norm_fac m al))) = counts).
    { apply map_fst_combine.
      rewrite length_combine, plaw_norm_fac_length. lia. }
    apply plaw_cells_loop_exact in Hc.
    2:{ rewrite Hfst, repeat_length. simpl. lia. }
    rewrite Hfst in Hc. destruct Hc as [He Hs].
    split; [exact Hs|]. cbv zeta. f_equal.
    rewrite He. cbn [firstn app].
    rewrite plaw_norm_fac_map.
    rewrite (plaw_cells_energies m _ energy_of al counts _ ltac:(lia));
      [reflexivity|].
    intros a x. unfold PowerLaw.energy. subst energy_of general. cbv beta.
    fold emin emax e0.
    destruct (Reqb a 1); reflexivity.
Qed.

Lemma plaw_closed_form_selected_by_exact_index_witness :
  exists ee s',
    PowerLaw.process_data Fixtures.counter Fixtures.plaw photons
      Fixtures.plaw_dim_chunk None O
    = Some (RPhotons 1 [2%nat] (Mask [true; false]) ee, s')
    /\ ee = [1 * Rpower (2 / 1) (1 / 2) * 1; 1 * Rpower (2 / 1) (1 / 2) * 1].
Proof.
  destruct plaw_run as (ee & s' & Hrun).
  exists ee, s'. split; [exact Hrun|].
  destruct (plaw_closed_form_selected_by_exact_index Fixtures.counter
              Fixtures.plaw Fixtures.plaw_dim_chunk)
    as (_ & _ & _ & Hph).
  destruct (Hph None O _ s' Hrun) as (counts & s1 & Hp & Hs & Hr).
  cbv zeta in Hr. injection Hr as _ Hcnt Hact Hee.
  assert (Hc : counts = [2%nat; 0%nat]).
  { destruct counts as [|n1 [|n2 [|n3 counts]]]; try discriminate.
    simpl in Hact. injection Hact as H1 H2.
    symmetry in H1, H2. apply Nat.ltb_lt in H1. apply Nat.ltb_ge in H2.
    destruct n1; [lia|]. simpl in Hcnt. destruct n2; [|lia].
    simpl in Hcnt. injection Hcnt as Hn1. subst. reflexivity. }
  subst counts.
  rewrite Hee. cbn. rewrite (Reqb_true 1 1 eq_refl). reflexivity.
Defined.

Lemma line_run :
  { ee : list R &
    { s' | Line.process_data Fixtures.counter [] 1 Fixtures.line photons
             Fixtures.line_chunk None O
           = Some (RPhotons 1 [2%nat] (Mask [false; true]) ee, s') } }.
Proof.
  do 2 eexists. unfold Line.process_data, Line.photon_means.
  run_model. reflexivity.
Defined.

Lemma photons_counts_and_selector_witness :
  (exists ee s',
      Thermal.process_data_from Fixtures.counter (fun x => x) 1
        Fixtures.apec photons Fixtures.chunk O
      = Some (RPhotons 1 [2%nat] (Indices [2%nat]) ee, s')
      /\ nat_sum [2%nat] = length ee)
  /\ (exists ee s',
         PowerLaw.process_data Fixtures.counter Fixtures.plaw photons
           Fixtures.plaw_dim_chunk None O
         = Some (RPhotons 1 [2%nat] (Mask [true; false]) ee, s')
         /\ nat_sum [2%nat] = length ee)
  /\ (exists ee s',
         Line.process_data Fixtures.counter [] 1 Fixtures.line photons
           Fixtures.line_chunk None O
         = Some (RPhotons 1 [2%nat] (Mask [false; true]) ee, s')
         /\ nat_sum [2%nat] = length ee).
Proof.
  destruct (photons_counts_and_selector Fixtures.counter (fun x => x) 1 [] 1)
    as (Ht & Hp & Hl).
  destruct thermal_run as (ee1 & s1 & H1).
  destruct plaw_run as (ee2 & s2 & H2).
  destruct line_run as (ee3 & s3 & H3).
  split; [|split].
  - exists ee1, s1. split; [exact H1|]. exact (proj1 (Ht _ _ _ _ _ _ _ _ H1)).
  - exists ee2, s2. split; [exact H2|].
    exact (proj1 (Hp _ _ _ _ _ _ _ _ _ H2)).
  - exists ee3, s3. split; [exact H3|].
    exact (proj1 (Hl _ _ _ _ _ _ _ _ _ H3)).
Defined.

(** The claim as the specification words it fails for the line engine (and
    likewise for the power-law engine): of two cells only the second emits,
    so one cell has a positive count, but the third component of the result
    has two entries. *)
Lemma photons_counts_and_selector_counterexample :
  exists ncells counts sel ee s' number_of_photons s1,
    Line.process_data Fixtures.counter [] 1 Fixtures.line photons
      Fixtures.line_chunk None O
    = Some (RPhotons ncells counts sel ee, s')
    /\ poisson Fixtures.counter
         (Line.photon_means Fixtures.line Fixtures.line_chunk) O
       = Some (number_of_photons, s1)
    /\ length (filter (fun n => (0 <? n)%nat) number_of_photons) = 1%nat
    /\ selector_length sel = 2%nat.
Proof.
  destruct line_run as (ee & s' & H).
  exists 1%nat, [2%nat], (Mask [false; true]), ee, s', [O; 2%nat], 2%nat.
  split; [exact H|]. split; [|split; reflexivity].
  unfold Line.photon_means. run_model. reflexivity.
Qed.

(** ** The growable energy buffer *)



(** ** Interpolation stays between the end points *)

Lemma lerp_bounds x x0 x1 f0 f1 :
  x0 <= x -> x < x1 -> f0 <= f1 ->
  f0 <= (f1 - f0) / (x1 - x0) * (x - x0) + f0 <= f1.
Proof.
  intros H0 H1 Hf.
  assert (Hd : 0 < x1 - x0) by lra.
  pose proof (Rinv_0_lt_compat _ Hd) as Hi.
  assert (Hone : (x1 - x0) * / (x1 - x0) = 1) by (apply Rinv_r; lra).
  unfold Rdiv. set (i := / (x1 - x0)) in *.
  assert (Ht : 0 <= i * (x - x0) <= 1) by (split; nra).
  replace ((f1 - f0) * i * (x - x0)) with ((f1 - f0) * (i * (x - x0))) by ring.
  split; nra.
Qed.

Lemma last_cons_default {A : Type} (a d : A) l : last (a :: l) d = last l a.
Proof.
  revert a d. induction l as [|b l IH]; intros a d; [reflexivity|].
  change (last (a :: b :: l) d) with (last (b :: l) d).
  rewrite (IH b d), (IH b a). reflexivity.
Qed.

Lemma sorted_head_le_last f0 fs :
  StronglySorted Rle (f0 :: fs) -> f0 <= last fs f0.
Proof.
  intros H. apply StronglySorted_inv in H. destruct H as [_ HF].
  destruct fs as [|f1 fs]; [simpl; lra|].
  rewrite Forall_forall in HF. apply HF.
  clear. revert f1. induction fs as [|f2 fs IH]; intros f1.
  - left. reflexivity.
  - right. apply (IH f2).
Qed.

Lemma interp_from_bounds xs fs x x0 f0 :
  x0 <= x -> StronglySorted Rle (f0 :: fs) ->
  f0 <= interp_from x x0 f0 xs fs <= last fs f0.
Proof.
  revert fs x0 f0. induction xs as [|x1 xs IH]; intros fs x0 f0 Hx Hs.
  - simpl. pose proof (sorted_head_le_last f0 fs Hs). destruct fs; lra.
  - destruct fs as [|f1 fs]; [simpl; lra|].
    pose proof (sorted_head_le_last f0 (f1 :: fs) Hs) as Hlast.
    pose proof (StronglySorted_inv Hs) as [Hs1 HF].
    assert (H01 : f0 <= f1) by (inversion HF; assumption).
    pose proof (sorted_head_le_last f1 fs Hs1) as Hlast1.
    pose proof (last_cons_default f1 f0 fs) as Hl.
    cbn [interp_from]. unfold Rltb, Reqb.
    destruct (Rlt_dec x x1) as [Hlt|Hge].
    + destruct (Req_dec_T x0 x) as [Heq|Hne]; [lra|].
      pose proof (lerp_bounds x x0 x1 f0 f1 Hx Hlt H01). rewrite Hl. lra.
    + specialize (IH fs x1 f1 ltac:(lra) Hs1). rewrite Hl. lra.
Qed.

(** Every value [np.interp] returns against increasing ordinates lies
    between the first and the last of them. *)
Lemma np_interp_bounds x xp fp r :
  StronglySorted Rle fp ->
  np_interp x xp fp = Some r ->
  Forall (fun y => hd 0 fp <= y <= last fp 0) r.
Proof.
  intros Hs. unfold np_interp.
  destruct xp as [|x0 xs]; [discriminate|].
  destruct (_ =? _)%nat eqn:Hlen; [|discriminate].
  intros H; inversion H; subst r; clear H.
  apply Forall_forall. intros y Hy. apply in_map_iff in Hy.
  destruct Hy as (u & <- & _).
  destruct fp as [|f0 fs]; [simpl in Hlen; discriminate|].
  pose proof (last_cons_default f0 0 fs) as Hl.
  rewrite Hl. cbn [interp1 hd]. unfold Rltb.
  destruct (Rlt_dec u x0) as [Hlt|Hge].
  - pose proof (sorted_head_le_last f0 fs Hs). lra.
  - apply interp_from_bounds; [lra|exact Hs].
Qed.

(** ** Decimal logarithm and power on positive energies *)

Lemma ln_10_pos : 0 < ln 10.
Proof. rewrite <- ln_1. apply ln_increasing; lra. Qed.

Lemma np_pow10_log10 x : 0 < x -> np_pow10 (np_log10 x) = x.
Proof.
  intros Hx. unfold np_pow10, np_log10, Rpower.
  pose proof ln_10_pos.
  replace (ln x / ln 10 * ln 10) with (ln x) by (field; lra).
  apply exp_ln. exact Hx.
Qed.

Lemma np_pow10_le x y : x <= y -> np_pow10 x <= np_pow10 y.
Proof.
  intros H. unfold np_pow10, Rpower. pose proof ln_10_pos.
  destruct (Req_dec x y) as [->|Hne]; [lra|].
  left. apply exp_increasing. nra.
Qed.

Lemma np_log10_le x y : 0 < x -> x <= y -> np_log10 x <= np_log10 y.
Proof.
  intros Hx H. unfold np_log10. pose proof ln_10_pos.
  destruct (Req_dec x y) as [->|Hne]; [lra|].
  assert (ln x < ln y) by (apply ln_increasing; lra).
  apply Rmult_le_compat_r; [left; apply Rinv_0_lt_compat; lra|lra].
Qed.

Lemma sorted_map_log10 l :
  Forall (fun x => 0 < x) l -> StronglySorted Rle l ->
  StronglySorted Rle (map np_log10 l).
Proof.
  intros Hpos Hs. induction Hs as [|a l Hs IH Ha]; simpl; constructor.
  - apply IH. inversion Hpos; assumption.
  - inversion Hpos as [|? ? Hap Hlp]; subst.
    apply Forall_forall. intros y Hy. apply in_map_iff in Hy.
    destruct Hy as (x & <- & Hx).
    rewrite Forall_forall in Ha. apply np_log10_le; auto.
Qed.

(** ** The thermal engine: what the buffer holds *)

Lemma firstn_add_split {A : Type} a n (l : list A) :
  firstn (a + n) l = firstn a l ++ firstn n (skipn a l).
Proof.
  revert l. induction a as [|a IH]; intros [|x l]; simpl; auto.
  - destruct n; reflexivity.
  - rewrite IH. reflexivity.
Qed.

Section BufferContent.
Variable G : PRNG.
Variable P : R -> Prop.

Lemma store_cell_content b ei cn cell_e b' :
  length (Thermal.energies b) = Thermal.num_photons_max b ->
  (ei <= Thermal.num_photons_max b)%nat ->
  length cell_e = cn ->
  Thermal.store_cell b ei cn cell_e = Some b' ->
  firstn (ei + cn) (Thermal.energies b')
  = firstn ei (Thermal.energies b) ++ cell_e.
Proof.
  intros Hlen Hei Hcn Hst.
  destruct (store_cell_spec b ei cn cell_e b' Hlen Hei Hcn Hst)
    as (_ & _ & _ & Hp & Hw).
  rewrite firstn_add_split, Hp. f_equal.
  unfold slice in Hw. replace (ei + cn - ei)%nat with cn in Hw by lia.
  exact Hw.
Qed.

Variable m : Thermal.ThermalSourceModel.
Hypothesis sampled :
  forall cn cp_row p_row (s : RandomState G) cell_e s1,
    Thermal.sample_cell G m cn cp_row p_row s = Some (cell_e, s1) ->
    Forall P cell_e.

Lemma cells_loop_content cells b ei (s : RandomState G) b' ei' s' :
  length (Thermal.energies b) = Thermal.num_photons_max b ->
  (ei <= Thermal.num_photons_max b)%nat ->
  Forall P (firstn ei (Thermal.energies b)) ->
  Thermal.cells_loop G m cells b ei s = Some (b', ei', s') ->
  Forall P (firstn ei' (Thermal.energies b')).
Proof.
  revert b ei s. induction cells as [|[cn [cp_row p_row]] cells IH];
    intros b ei s Hlen Hei HP H; simpl in H.
  - inversion H; subst. exact HP.
  - destruct (cn =? 0)%nat eqn:Hcn; [eapply IH; eauto|].
    destruct (Thermal.sample_cell G m cn cp_row p_row s)
      as [[cell_e s1]|] eqn:Hs; [|discriminate].
    destruct (Thermal.store_cell b ei cn cell_e) as [b1|] eqn:Hst;
      [|discriminate].
    pose proof (sample_cell_length G _ _ _ _ _ _ _ Hs) as Hce.
    destruct (store_cell_spec _ _ _ _ _ Hlen Hei Hce Hst)
      as (_ & Hneed & Hl1 & _ & _).
    apply (IH b1 (ei + cn)%nat s1 Hl1 Hneed); [|exact H].
    rewrite (store_cell_content b ei cn cell_e b1 Hlen Hei Hce Hst).
    apply Forall_app. split; [exact HP|]. eapply sampled; eauto.
Qed.

Lemma use_spectrum_photons_content e st (s : RandomState G) n a l tot st' s' :
  photons_inv n a st ->
  (0 < l)%nat -> (a + l <= n)%nat ->
  length (Thermal.cell_nrm e) = n ->
  has_shape l (Thermal.nchan m) tot = true ->
  Forall P (firstn (Thermal.end_e st) (Thermal.energies (Thermal.buf st))) ->
  Thermal.use_spectrum G m photons e st s a (a + l) tot = Some (st', s') ->
  Forall P (firstn (Thermal.end_e st') (Thermal.energies (Thermal.buf st'))).
Proof.
  intros (Hlen & Hrest & Hse & Hsum & Hbl & Hbe) Hl Hal Hnrm Htot HP.
  unfold Thermal.use_spectrum.
  destruct (poisson G (Thermal.cell_norm e a (a + l) tot) s)
    as [[cell_n s1]|] eqn:Hp; [|discriminate].
  destruct (Thermal.cells_loop G m _ (Thermal.buf st) (Thermal.start_e st) s1)
    as [[[b1 ei'] s2]|] eqn:Hc; [|discriminate].
  intros H; inversion H; subst st' s'; clear H. simpl.
  apply has_shape_spec in Htot. destruct Htot as [Hrows _].
  assert (Hcn : length cell_n = l).
  { apply poisson_length in Hp. rewrite Hp. unfold Thermal.cell_norm.
    rewrite zip_with_length. unfold row_sums. rewrite length_map, Hrows.
    rewrite slice_length by lia. lia. }
  pose proof Hc as Hc'.
  apply cells_loop_inv in Hc; [|assumption|lia].
  rewrite map_fst_combine in Hc.
  2:{ rewrite length_combine, length_map. unfold scale_rows.
      rewrite zip_with_length, length_map. unfold row_sums.
      rewrite length_map. lia. }
  destruct Hc as (Hei & _).
  apply cells_loop_content in Hc'; [|assumption|lia|rewrite Hse; exact HP].
  rewrite <- Hse, <- Hei. exact Hc'.
Qed.

Lemma batch_loop_photons_content e n cks :
  length (Thermal.cell_nrm e) = n ->
  (n <= length (Thermal.metalZ e))%nat ->
  Forall (fun row => length row = n) (Thermal.elemZ e) ->
  forall a st (s : RandomState G) st' s',
    chain a cks n ->
    photons_inv n a st ->
    Forall P (firstn (Thermal.end_e st) (Thermal.energies (Thermal.buf st))) ->
    Thermal.batch_loop G m photons e cks st s = Some (st', s') ->
    Forall P (firstn (Thermal.end_e st') (Thermal.energies (Thermal.buf st'))).
Proof.
  intros Hnrm HZ HeZ.
  induction cks as [|ck cks IH]; intros a st s st' s' Hch Hinv HP H;
    simpl in *.
  - inversion H; subst. exact HP.
  - destruct Hch as (l & Hl & Hal & -> & Hch).
    destruct (Thermal.batch_step G m photons e st s (seq a l))
      as [[st1 s1]|] eqn:Hstep; [|discriminate].
    unfold Thermal.batch_step in Hstep.
    destruct (seq_hd_last a l Hl) as [Hh Hla]. rewrite Hh, Hla in Hstep.
    destruct (Thermal.tot_spec m e a (a + l)) as [tot|] eqn:Htot;
      [|discriminate].
    unfold Thermal.tot_spec in Htot.
    destruct (Thermal.get_spectrum _ _ _) as [[cspec mspec] vspec] in Htot.
    apply compose_entry in Htot.
    2:{ apply slice_length. lia. }
    2:{ apply Forall_forall. intros zr Hzr. apply in_map_iff in Hzr.
        destruct Hzr as (row & <- & Hrow).
        rewrite Forall_forall in HeZ. apply slice_length.
        rewrite (HeZ row Hrow). lia. }
    destruct Htot as [Hshape _].
    replace (a + l - a)%nat with l in Hshape by lia.
    destruct (use_spectrum_photons_inv G m e st s n a l tot st1 s1
                Hinv Hl Hal Hnrm Hshape Hstep) as (Hinv1 & _).
    pose proof (use_spectrum_photons_content e st s n a l tot st1 s1
                  Hinv Hl Hal Hnrm Hshape HP Hstep) as HP1.
    exact (IH _ _ _ _ _ Hch Hinv1 HP1 H).
Qed.
End BufferContent.

Lemma hd_map_ne {A B : Type} (f : A -> B) l d d' :
  l <> [] -> hd d (map f l) = f (hd d' l).
Proof. destruct l; [congruence|reflexivity]. Qed.

Lemma last_map_ne {A B : Type} (f : A -> B) l d d' :
  l <> [] -> last (map f l) d = f (last l d').
Proof.
  intros Hne. destruct l as [|a l]; [congruence|]. clear Hne.
  revert a. induction l as [|b l IH]; intros a; [reflexivity|].
  change (last (map f (a :: b :: l)) d) with (last (map f (b :: l)) d).
  change (last (a :: b :: l) d') with (last (b :: l) d').
  apply IH.
Qed.

Lemma last_In_ne {A : Type} (l : list A) d : l <> [] -> In (last l d) l.
Proof.
  intros Hne. destruct l as [|a l]; [congruence|]. clear Hne.
  revert a. induction l as [|b l IH]; intros a; [left; reflexivity|].
  right. apply (IH b).
Qed.

(** ** Energies drawn by inverting the cumulative spectrum *)

(** C4.  For a model as [setup_model] leaves it (the interpolation
    coordinates are the bin edges, or their decimal logarithms on a log
    scale) whose bin edges increase (and are positive on a log scale),
    every energy a photons-mode call returns under the invert_cdf method
    lies between the first and the last bin edge. *)
Theorem invert_cdf_energies_within_bin_edges :
  forall (G : PRNG) (to_keV : R -> R) (cap0 : nat)
         (m : Thermal.ThermalSourceModel) (c : Chunk) (s : RandomState G)
         ncells counts sel ee s',
    Thermal.method m = Thermal.invert_cdf ->
    Thermal.bin_edges m = match Thermal.binscale m with
                          | Thermal.log => map np_log10 (Thermal.ebins m)
                          | Thermal.linear => Thermal.ebins m
                          end ->
    StronglySorted Rle (Thermal.ebins m) ->
    (Thermal.binscale m = Thermal.log ->
     Forall (fun x => 0 < x) (Thermal.ebins m)) ->
    Thermal.process_data_from G to_keV cap0 m photons c s
    = Some (RPhotons ncells counts sel ee, s') ->
    Forall (fun x => hd 0 (Thermal.ebins m) <= x <= last (Thermal.ebins m) 0)
           ee.
Proof.
  intros G to_keV cap0 m c s ncells counts sel ee s' Hmeth Hedges Hsorted Hpos.
  set (P := fun y => Thermal.bin_edges m <> []
                     /\ hd 0 (Thermal.bin_edges m) <= y
                        <= last (Thermal.bin_edges m) 0).
  assert (Hsorted' : StronglySorted Rle (Thermal.bin_edges m)).
  { rewrite Hedges. destruct (Thermal.binscale m) eqn:Hb; [exact Hsorted|].
    apply sorted_map_log10; auto. }
  assert (Hsampled : forall cn cp_row p_row (s : RandomState G) cell_e s1,
             Thermal.sample_cell G m cn cp_row p_row s = Some (cell_e, s1) ->
             Forall P cell_e).
  { intros cn cp_row p_row s0 cell_e s1. unfold Thermal.sample_cell.
    rewrite Hmeth. destruct (uniform G cn s0) as [randvec s2].
    destruct (np_interp (np_sort randvec) cp_row (Thermal.bin_edges m))
      as [r|] eqn:Hi; [|discriminate].
    intros H; injection H as Hr _; subst cell_e.
    pose proof (np_interp_bounds _ _ _ _ Hsorted' Hi) as Hb.
    assert (Hne : Thermal.bin_edges m <> []).
    { unfold np_interp in Hi. destruct cp_row; [discriminate|].
      destruct (Thermal.bin_edges m); [simpl in Hi; discriminate|discriminate]. }
    eapply Forall_impl; [|exact Hb]. intros y Hy. split; assumption. }
  unfold Thermal.process_data_from.
  destruct (Thermal.orig_ncells c =? 0)%nat; [discriminate|].
  destruct (Thermal.sample_filter to_keV m c) as [cut|] eqn:Hcut;
    [|discriminate].
  destruct (count_true cut =? 0)%nat; [discriminate|].
  destruct (Thermal.run_batches G to_keV cap0 m photons c cut s)
    as [[[e st] s1]|] eqn:Hrun; [|discriminate].
  intros H. injection H as _ _ _ Hee _.
  destruct (run_batches_photons G to_keV cap0 m c cut s e st s1 Hcut Hrun)
    as [Hinv _].
  assert (HP : Forall P (firstn (Thermal.end_e st)
                                (Thermal.energies (Thermal.buf st)))).
  { unfold Thermal.run_batches in Hrun.
    destruct (Thermal.prepare to_keV m c cut) as [e0|] eqn:Hprep;
      [|discriminate].
    destruct (Thermal.batch_loop G m photons e0 _ _ s) as [[st0 s0]|] eqn:Hloop;
      [|discriminate].
    injection Hrun as -> -> ->.
    pose proof (sample_filter_length to_keV m c cut Hcut) as Hlen.
    destruct (prepare_lengths to_keV m c cut e Hlen Hprep)
      as (Hn & _ & Hnrm & HZ & HeZ & _).
    rewrite Hn in Hloop.
    refine (batch_loop_photons_content G P m Hsampled e (count_true cut) _
              Hnrm HZ HeZ O _ s st s1 (batches_chain _) _ _ Hloop).
    - unfold photons_inv, Thermal.init_state; simpl.
      rewrite Hn, !repeat_length, Nat.sub_0_r, nat_sum_repeat_0.
      repeat split; lia.
    - simpl. constructor. }
  subst ee. unfold P in HP. destruct (Thermal.binscale m) eqn:Hb.
  - rewrite Hedges in HP. eapply Forall_impl; [|exact HP].
    intros y [_ Hy]. exact Hy.
  - specialize (Hpos eq_refl). rewrite Forall_forall. intros x Hx.
    apply in_map_iff in Hx. destruct Hx as (y & <- & Hy).
    rewrite Forall_forall in HP. destruct (HP y Hy) as [Hne [Hlo Hhi]].
    rewrite Hedges in Hne, Hlo, Hhi.
    assert (Hne' : Thermal.ebins m <> [])
      by (intros E; rewrite E in Hne; apply Hne; reflexivity).
    rewrite (hd_map_ne np_log10 _ 0 0 Hne') in Hlo.
    rewrite (last_map_ne np_log10 _ 0 0 Hne') in Hhi.
    rewrite Forall_forall in Hpos.
    assert (Hh : 0 < hd 0 (Thermal.ebins m)).
    { apply Hpos. destruct (Thermal.ebins m); [congruence|left; reflexivity]. }
    assert (Hl : 0 < last (Thermal.ebins m) 0).
    { apply Hpos. apply last_In_ne. exact Hne'. }
    split.
    + rewrite <- (np_pow10_log10 _ Hh). apply np_pow10_le. assumption.
    + rewrite <- (np_pow10_log10 _ Hl). apply np_pow10_le. assumption.
Qed.

(** [setup_model] leaves the model with the interpolation coordinates the
    theorem asks for. *)
Lemma setup_model_bin_edges elem_names atomic_weights metal_elem m ds z sn m' :
  Thermal.setup_model elem_names atomic_weights metal_elem m ds z sn = inr m' ->
  Thermal.bin_edges m' = match Thermal.binscale m' with
                         | Thermal.log => map np_log10 (Thermal.ebins m')
                         | Thermal.linear => Thermal.ebins m'
                         end
  /\ Thermal.ebins m' = Thermal.sm_ebins (Thermal.spectral_model m')
  /\ Thermal.nchan m' = length (Thermal.sm_emid (Thermal.spectral_model m'))
  /\ Thermal.prepare_spectrum m z (Thermal.kT_min m) (Thermal.kT_max m)
     = inr (Thermal.spectral_model m')
  /\ Thermal.method m' = Thermal.method m.
Proof.
  unfold Thermal.setup_model.
  destruct (get_field_info _ (Thermal.emission_measure_field m))
    as [[name u]|]; [|discriminate].
  destruct (Thermal.metallicity_conversion _ _ m _); [discriminate|].
  simpl. destruct (if (0 <? Thermal.num_var_elem m)%nat then _ else _);
    [discriminate|].
  simpl. destruct (Thermal.prepare_spectrum m z _ _) as [ep|sm];
    [discriminate|].
  simpl. destruct (Thermal.sm_de sm) as [|d0 de']; [discriminate|].
  simpl. destruct ds as [ds|ds chunks]; simpl.
  - intros H; inversion H; subst m'; simpl.
    destruct (Thermal.all_isclose _); repeat split; reflexivity.
  - destruct (Thermal.count_cells _ _ chunks 0); [discriminate|]. simpl.
    intros H; inversion H; subst m'; simpl.
    destruct (Thermal.all_isclose _); repeat split; reflexivity.
Qed.

Lemma invert_cdf_energies_within_bin_edges_witness :
  exists ee s',
    Thermal.process_data_from Fixtures.counter (fun x => x) 1
      Fixtures.apec photons Fixtures.chunk O
    = Some (RPhotons 1 [2%nat] (Indices [2%nat]) ee, s')
    /\ Forall (fun x => 1 <= x <= 3) ee.
Proof.
  destruct thermal_run as (ee & s' & H).
  exists ee, s'. split; [exact H|].
  assert (Hs : StronglySorted Rle (Thermal.ebins Fixtures.apec)).
  { simpl. repeat constructor; lra. }
  assert (Hp : Thermal.binscale Fixtures.apec = Thermal.log ->
               Forall (fun x => 0 < x) (Thermal.ebins Fixtures.apec)).
  { simpl. discriminate. }
  exact (invert_cdf_energies_within_bin_edges Fixtures.counter (fun x => x) 1
           Fixtures.apec Fixtures.chunk O 1%nat [2%nat] (Indices [2%nat]) ee s'
           eq_refl eq_refl Hs Hp H).
Defined.

(** ** Scaling: arrays *)

Lemma field_key_eqb_eq a b : field_key_eqb a b = true <-> a = b.
Proof.
  unfold field_key_eqb. destruct a as [a1 a2], b as [b1 b2]; simpl.
  rewrite andb_true_iff, !String.eqb_eq. split.
  - intros [-> ->]. reflexivity.
  - intros H; inversion H; auto.
Qed.

Lemma field_key_eqb_refl a : field_key_eqb a a = true.
Proof. apply field_key_eqb_eq. reflexivity. Qed.

Lemma field_key_eqb_neq a b : a <> b -> field_key_eqb a b = false.
Proof.
  intros H. destruct (field_key_eqb a b) eqn:E; [|reflexivity].
  apply field_key_eqb_eq in E. contradiction.
Qed.

Section ScaleLists.
Variable k : R.

Lemma map_scale_zeros n : map (Rmult k) (repeat 0 n) = repeat 0 n.
Proof.
  induction n as [|n IH]; simpl; [reflexivity|].
  rewrite IH, Rmult_0_r. reflexivity.
Qed.

Lemma mask_select_map {A B : Type} (f : A -> B) mask l :
  mask_select mask (map f l) = map f (mask_select mask l).
Proof.
  revert l. induction mask as [|b mask IH]; intros [|x l]; simpl; auto.
  destruct b; simpl; rewrite IH; reflexivity.
Qed.

Lemma slice_map {A B : Type} (f : A -> B) lo hi l :
  slice lo hi (map f l) = map f (slice lo hi l).
Proof. unfold slice. rewrite skipn_map, firstn_map. reflexivity. Qed.

Lemma zip_with_map_r {A B B' C : Type} (f : A -> B' -> C) (g : B -> B') l1 l2 :
  zip_with f l1 (map g l2) = zip_with (fun a b => f a (g b)) l1 l2.
Proof.
  revert l2; induction l1 as [|a l1 IH]; intros [|b l2]; simpl; auto.
  rewrite IH. reflexivity.
Qed.

Lemma map_zip_with {A B C D : Type} (g : C -> D) (f : A -> B -> C) l1 l2 :
  map g (zip_with f l1 l2) = zip_with (fun a b => g (f a b)) l1 l2.
Proof.
  revert l2; induction l1 as [|a l1 IH]; intros [|b l2]; simpl; auto.
  rewrite IH. reflexivity.
Qed.

Lemma zip_with_ext {A B C : Type} (f g : A -> B -> C) l1 l2 :
  (forall a b, f a b = g a b) -> zip_with f l1 l2 = zip_with g l1 l2.
Proof. intros H. apply zip_with_ext_in. intros; apply H. Qed.

Lemma zip_mult_scale_r a b :
  zip_with Rmult a (map (Rmult k) b) = map (Rmult k) (zip_with Rmult a b).
Proof.
  rewrite zip_with_map_r, map_zip_with. apply zip_with_ext. intros; ring.
Qed.

Lemma zip_mult_scale_l a b :
  zip_with Rmult (map (Rmult k) a) b = map (Rmult k) (zip_with Rmult a b).
Proof.
  rewrite zip_with_map_l, map_zip_with. apply zip_with_ext. intros; ring.
Qed.

Lemma zip_div_scale_l a b :
  zip_with Rdiv (map (Rmult k) a) b = map (Rmult k) (zip_with Rdiv a b).
Proof.
  rewrite zip_with_map_l, map_zip_with. apply zip_with_ext.
  intros; unfold Rdiv; ring.
Qed.

Lemma zip_plus_scale a b :
  zip_with Rplus (map (Rmult k) a) (map (Rmult k) b)
  = map (Rmult k) (zip_with Rplus a b).
Proof.
  rewrite zip_with_map_l, zip_with_map_r, map_zip_with. apply zip_with_ext.
  intros; ring.
Qed.

Lemma np_sum_scale l : np_sum (map (Rmult k) l) = k * np_sum l.
Proof.
  unfold np_sum. induction l as [|x l IH]; simpl; [ring|].
  rewrite IH. ring.
Qed.

Lemma list_set_map {A B : Type} (f : A -> B) i v l :
  list_set i (f v) (map f l) = map f (list_set i v l).
Proof.
  revert i. induction l as [|x l IH]; intros [|i]; simpl; auto.
  rewrite IH. reflexivity.
Qed.

Lemma scatter_map {A B : Type} (f : A -> B) idx vals l :
  scatter idx (map f vals) (map f l) = map f (scatter idx vals l).
Proof.
  revert vals l. induction idx as [|i idx IH]; intros [|v vals] l; simpl; auto.
  rewrite list_set_map. apply IH.
Qed.

Lemma np_resize_scale a sh :
  np_resize (map (Rmult k) a) sh = scale_array k (np_resize a sh).
Proof.
  unfold np_resize, scale_array; simpl. f_equal.
  rewrite map_map, length_map. apply map_ext. intros i.
  rewrite <- (Rmult_0_r k) at 1. apply map_nth.
Qed.

Lemma np_zeros_scale sh : scale_array k (np_zeros sh) = np_zeros sh.
Proof.
  unfold scale_array, np_zeros; simpl. rewrite map_scale_zeros. reflexivity.
Qed.

Lemma flat_scale l : flat (map (Rmult k) l) = scale_array k (flat l).
Proof. unfold flat, scale_array; simpl. rewrite length_map. reflexivity. Qed.

Lemma scale_rows_scale z tot :
  scale_rows (map (Rmult k) z) tot = map (map (Rmult k)) (scale_rows z tot).
Proof.
  unfold scale_rows. rewrite zip_with_map_l, map_zip_with.
  apply zip_with_ext. intros a row. rewrite map_map. apply map_ext.
  intros; ring.
Qed.

Lemma col_sums_scale c M :
  col_sums c (map (map (Rmult k)) M) = map (Rmult k) (col_sums c M).
Proof.
  unfold col_sums. induction M as [|row M IH]; simpl.
  - symmetry. apply map_scale_zeros.
  - rewrite IH. apply zip_plus_scale.
Qed.
End ScaleLists.

(** ** Scaling: the thermal engine *)

Lemma dict_get_In {A : Type} (d : list (string * A)) key v :
  dict_get d key = Some v -> In (key, v) d.
Proof.
  induction d as [|[k0 v0] d IH]; simpl; [discriminate|].
  destruct (String.eqb_spec k0 key) as [->|Hne].
  - intros H; inversion H. left. reflexivity.
  - intros H. right. apply IH. exact H.
Qed.

Section ThermalScaling.
Variable G : PRNG.
Variable to_keV : R -> R.
Variable k : R.
Variable m : Thermal.ThermalSourceModel.
Variable c : Chunk.

Let EM := Thermal.emission_measure_field m.
Let c' := scale_chunk EM k c.

Hypothesis independent : ~ In EM (thermal_other_fields m).

Lemma chunk_get_scale_self : chunk_get c' EM = map (Rmult k) (chunk_get c EM).
Proof.
  unfold chunk_get, c', scale_chunk; simpl. rewrite map_map.
  apply map_ext. intros i. rewrite field_key_eqb_refl. reflexivity.
Qed.

Lemma chunk_get_scale_other g : g <> EM -> chunk_get c' g = chunk_get c g.
Proof.
  intros Hg. unfold chunk_get, c', scale_chunk; simpl.
  apply map_ext. intros i. rewrite (field_key_eqb_neq g EM Hg). reflexivity.
Qed.

Lemma temperature_other : Thermal.temperature_field m <> EM.
Proof.
  intros E. apply independent. unfold thermal_other_fields.
  simpl. auto.
Qed.

Lemma density_other : Thermal.density_field m <> EM.
Proof.
  intros E. apply independent. unfold thermal_other_fields.
  simpl. auto.
Qed.

Lemma nh_other f : Thermal.nh_field m = Some f -> f <> EM.
Proof.
  intros Hf E. apply independent. unfold thermal_other_fields.
  rewrite Hf. simpl. auto.
Qed.

Lemma h_fraction_other f : Thermal.h_fraction m = Field f -> f <> EM.
Proof.
  intros Hf E. apply independent. unfold thermal_other_fields.
  simpl. rewrite !in_app_iff, Hf. simpl. tauto.
Qed.

Lemma Zmet_other f : Thermal.Zmet m = Field f -> f <> EM.
Proof.
  intros Hf E. apply independent. unfold thermal_other_fields.
  simpl. rewrite !in_app_iff, Hf. simpl. tauto.
Qed.

Lemma var_elem_other key f :
  dict_get (Thermal.var_elem m) key = Some (Field f) -> f <> EM.
Proof.
  intros Hf E. apply independent. unfold thermal_other_fields.
  simpl. rewrite !in_app_iff. do 5 right. apply in_flat_map.
  exists (key, Field f). split; [apply dict_get_In; exact Hf|].
  left. exact E.
Qed.

Lemma sample_filter_scale :
  Thermal.sample_filter to_keV m c' = Thermal.sample_filter to_keV m c.
Proof.
  unfold Thermal.sample_filter, Thermal.nH_cut, Thermal.density_cut,
    Thermal.kT_cut, Thermal.kT_all.
  rewrite (chunk_get_scale_other _ temperature_other).
  rewrite (chunk_get_scale_other _ density_other).
  destruct (Thermal.nh_field m) as [f|] eqn:Hf; [|reflexivity].
  rewrite (chunk_get_scale_other f (nh_other f Hf)). reflexivity.
Qed.

Lemma element_rows_scale cut X_H keys :
  Thermal.element_rows m c' cut X_H keys
  = Thermal.element_rows m c cut X_H keys.
Proof.
  induction keys as [|key keys IH]; simpl; [reflexivity|].
  rewrite IH. unfold Thermal.element_row.
  destruct (dict_get (Thermal.var_elem m) key) as [[v|f]|] eqn:Hk;
    try reflexivity.
  rewrite (chunk_get_scale_other f (var_elem_other key f Hk)). reflexivity.
Qed.

Lemma prepare_scale cut :
  Thermal.prepare to_keV m c' cut
  = option_map (scale_eligible k) (Thermal.prepare to_keV m c cut).
Proof.
  unfold Thermal.prepare, Thermal.kT_all.
  change (Thermal.mask_fits c' cut) with (Thermal.mask_fits c cut).
  destruct (Thermal.mask_fits c cut); [cbn [negb]|reflexivity].
  rewrite (chunk_get_scale_other _ temperature_other).
  fold EM. rewrite chunk_get_scale_self.
  assert (HX : match Thermal.h_fraction m with
               | Float x => repeat x (count_true cut)
               | Field f => mask_select cut (chunk_get c' f)
               end
               = match Thermal.h_fraction m with
                 | Float x => repeat x (count_true cut)
                 | Field f => mask_select cut (chunk_get c f)
                 end).
  { destruct (Thermal.h_fraction m) as [x|f] eqn:Hh; [reflexivity|].
    rewrite (chunk_get_scale_other f (h_fraction_other f Hh)). reflexivity. }
  rewrite HX. clear HX.
  set (X_H := match Thermal.h_fraction m with
              | Float x => repeat x (count_true cut)
              | Field f => mask_select cut (chunk_get c f)
              end).
  rewrite element_rows_scale.
  assert (HZ : match Thermal.Zmet m with
               | Float z => map (Rmult z) (repeat 1 (count_true cut))
               | Field f =>
                   Thermal.times_fac m c' f (mask_select cut (chunk_get c' f))
                     (Thermal.solar_factor c' f (Thermal.Zconvert m) X_H)
               end
               = match Thermal.Zmet m with
                 | Float z => map (Rmult z) (repeat 1 (count_true cut))
                 | Field f =>
                     Thermal.times_fac m c f (mask_select cut (chunk_get c f))
                       (Thermal.solar_factor c f (Thermal.Zconvert m) X_H)
                 end).
  { destruct (Thermal.Zmet m) as [z|f] eqn:Hz; [reflexivity|].
    rewrite (chunk_get_scale_other f (Zmet_other f Hz)). reflexivity. }
  rewrite HZ. clear HZ.
  match goal with
  | |- match ?x with Some _ => _ | None => _ end = _ =>
      destruct x as [eZ|]; [|reflexivity]
  end.
  simpl. unfold scale_eligible; simpl.
  assert (Hnh : match Thermal.nh_field m with
                | Some f => Some (mask_select cut (chunk_get c' f))
                | None => None
                end
                = match Thermal.nh_field m with
                  | Some f => Some (mask_select cut (chunk_get c f))
                  | None => None
                  end).
  { destruct (Thermal.nh_field m) as [f|] eqn:Hf; [|reflexivity].
    rewrite (chunk_get_scale_other f (nh_other f Hf)). reflexivity. }
  rewrite Hnh. clear Hnh.
  assert (Hnrm : map (fun em => em * Thermal.spectral_norm m)
                     (mask_select cut (map (Rmult k) (chunk_get c EM)))
                 = map (Rmult k)
                       (map (fun em => em * Thermal.spectral_norm m)
                            (mask_select cut (chunk_get c EM)))).
  { rewrite mask_select_map, !map_map. apply map_ext. intros; ring. }
  rewrite Hnrm. clear Hnrm.
  f_equal. f_equal.
  destruct (match Thermal.nh_field m with
            | Some f => Some (mask_select cut (chunk_get c f))
            | None => None
            end) as [nh|]; [|reflexivity].
  destruct (Thermal.fix_norm m); [|reflexivity].
  apply zip_div_scale_l.
Qed.
End ThermalScaling.

Section ThermalScalingLoop.
Variable G : PRNG.
Variable to_keV : R -> R.
Variable k : R.
Variable m : Thermal.ThermalSourceModel.

Lemma cell_norm_scale e a b tot :
  Thermal.cell_norm (scale_eligible k e) a b tot
  = map (Rmult k) (Thermal.cell_norm e a b tot).
Proof.
  unfold Thermal.cell_norm, scale_eligible; simpl.
  rewrite slice_map. apply zip_mult_scale_r.
Qed.

Lemma use_spectrum_scale md e st (s : RandomState G) a b tot :
  md <> photons ->
  Thermal.use_spectrum G m md (scale_eligible k e) (scale_state k st) s a b tot
  = scale_step k (Thermal.use_spectrum G m md e st s a b tot).
Proof.
  intros Hmd. destruct md; [congruence| | |].
  - unfold Thermal.use_spectrum, scale_step, scale_state. cbn [Thermal.ret
      Thermal.spec Thermal.number_of_photons Thermal.buf Thermal.start_e
      Thermal.end_e Thermal.idxs scale_eligible].
    rewrite cell_norm_scale, scatter_map. reflexivity.
  - unfold Thermal.use_spectrum, scale_step, scale_state. cbn [Thermal.ret
      Thermal.spec Thermal.number_of_photons Thermal.buf Thermal.start_e
      Thermal.end_e Thermal.idxs Thermal.cell_nrm scale_eligible].
    rewrite slice_map, zip_mult_scale_r, scatter_map. reflexivity.
  - unfold Thermal.use_spectrum, scale_step, scale_state. cbn [Thermal.ret
      Thermal.spec Thermal.number_of_photons Thermal.buf Thermal.start_e
      Thermal.end_e Thermal.idxs Thermal.cell_nrm scale_eligible].
    rewrite slice_map, scale_rows_scale, col_sums_scale, zip_plus_scale.
    reflexivity.
Qed.

Lemma batch_loop_scale md e cks st (s : RandomState G) :
  md <> photons ->
  Thermal.batch_loop G m md (scale_eligible k e) cks (scale_state k st) s
  = scale_step k (Thermal.batch_loop G m md e cks st s).
Proof.
  intros Hmd. revert st s. induction cks as [|ck cks IH]; intros st s.
  - reflexivity.
  - cbn [Thermal.batch_loop]. unfold Thermal.batch_step.
    change (Thermal.tot_spec m (scale_eligible k e))
      with (Thermal.tot_spec m e).
    destruct (Thermal.tot_spec m e (hd O ck) (S (last ck O))) as [tot|];
      [|reflexivity].
    rewrite (use_spectrum_scale md e st s _ _ tot Hmd).
    destruct (Thermal.use_spectrum G m md e st s _ _ tot) as [[st1 s1]|];
      [|reflexivity].
    simpl. apply IH.
Qed.

Lemma init_state_scale e n cap0 :
  Thermal.init_state m (scale_eligible k e) n cap0
  = scale_state k (Thermal.init_state m e n cap0).
Proof.
  unfold Thermal.init_state, scale_state; simpl.
  rewrite !map_scale_zeros. reflexivity.
Qed.

Lemma finish_scale md c f e st :
  md <> photons ->
  Thermal.finish m md (scale_chunk f k c) (scale_eligible k e)
                 (scale_state k st)
  = scale_result k (Thermal.finish m md c e st).
Proof.
  intros Hmd. destruct md; [congruence| | |]; simpl.
  - rewrite np_resize_scale. reflexivity.
  - rewrite np_resize_scale. reflexivity.
  - reflexivity.
Qed.

(** Multiplying the emission measure by [k] multiplies the flux fields and
    the spectrum of the thermal engine by [k]. *)
Lemma thermal_scaling cap0 md c (s : RandomState G) :
  ~ In (Thermal.emission_measure_field m) (thermal_other_fields m) ->
  md <> photons ->
  Thermal.process_data_from G to_keV cap0 m md
    (scale_chunk (Thermal.emission_measure_field m) k c) s
  = scale_run k (Thermal.process_data_from G to_keV cap0 m md c s).
Proof.
  intros Hind Hmd. unfold Thermal.process_data_from.
  change (Thermal.orig_ncells (scale_chunk _ k c)) with (Thermal.orig_ncells c).
  destruct (Thermal.orig_ncells c =? 0)%nat.
  { destruct md; [congruence| | |]; reflexivity. }
  rewrite (sample_filter_scale to_keV k m c Hind).
  destruct (Thermal.sample_filter to_keV m c) as [cut|]; [|reflexivity].
  destruct (count_true cut =? 0)%nat.
  { change (orig_shape (scale_chunk _ k c)) with (orig_shape c).
    destruct md; [congruence| | |]; simpl; rewrite np_zeros_scale;
      reflexivity. }
  unfold Thermal.run_batches.
  rewrite (prepare_scale to_keV k m c Hind cut).
  destruct (Thermal.prepare to_keV m c cut) as [e|]; [|reflexivity].
  simpl option_map. cbv iota beta.
  change (Thermal.num_cells (scale_eligible k e)) with (Thermal.num_cells e).
  rewrite init_state_scale, (batch_loop_scale md e _ _ s Hmd).
  destruct (Thermal.batch_loop G m md e _ _ s) as [[st s1]|]; [|reflexivity].
  simpl. rewrite (finish_scale md c _ e st Hmd). reflexivity.
Qed.

(** In the photons mode the Poisson means of every batch are multiplied by
    [k]; the filter and the composed spectrum stay as they are. *)
Lemma thermal_means_scaling c cut :
  ~ In (Thermal.emission_measure_field m) (thermal_other_fields m) ->
  Thermal.sample_filter to_keV m
    (scale_chunk (Thermal.emission_measure_field m) k c)
  = Thermal.sample_filter to_keV m c
  /\ forall e,
      Thermal.prepare to_keV m c cut = Some e ->
      exists e',
        Thermal.prepare to_keV m
          (scale_chunk (Thermal.emission_measure_field m) k c) cut = Some e'
        /\ forall ibegin iend,
            Thermal.tot_spec m e' ibegin iend = Thermal.tot_spec m e ibegin iend
            /\ forall tot,
                Thermal.cell_norm e' ibegin iend tot
                = map (Rmult k) (Thermal.cell_norm e ibegin iend tot).
Proof.
  intros Hind. split; [apply sample_filter_scale; exact Hind|].
  intros e He. exists (scale_eligible k e). split.
  - rewrite (prepare_scale to_keV k m c Hind cut), He. reflexivity.
  - intros ibegin iend. split; [reflexivity|].
    intros tot. apply cell_norm_scale.
Qed.
End ThermalScalingLoop.

(** ** Scaling: the power-law and line engines *)

Lemma io_get_scale_self f k c :
  io_get (scale_io f k c) f = map (Rmult k) (io_get c f).
Proof.
  unfold io_get, scale_io; simpl. rewrite map_map.
  apply map_ext. intros i. rewrite field_key_eqb_refl. reflexivity.
Qed.

Lemma io_get_scale_other f k c g :
  g <> f -> io_get (scale_io f k c) g = io_get c g.
Proof.
  intros Hg. unfold io_get, scale_io; simpl.
  apply map_ext. intros i. rewrite (field_key_eqb_neq g f Hg). reflexivity.
Qed.

Section ClosedFormScaling.
Variable G : PRNG.
Variable k : R.

Lemma plaw_norm_scale m al em :
  PowerLaw.norm m al (map (Rmult k) em) = map (Rmult k) (PowerLaw.norm m al em).
Proof.
  unfold PowerLaw.norm. rewrite zip_mult_scale_r, zip_with_map_r, map_zip_with.
  apply zip_with_ext. intros a x.
  destruct (negb (Reqb a 1)); [unfold Rdiv; ring|reflexivity].
Qed.

Lemma plaw_energy_flux_scale m al em :
  PowerLaw.energy_flux m al (map (Rmult k) em)
  = map (Rmult k) (PowerLaw.energy_flux m al em).
Proof. unfold PowerLaw.energy_flux. apply zip_mult_scale_r. Qed.

Lemma plaw_alpha_scale m c :
  (forall f, PowerLaw.alpha m = Field f -> f <> PowerLaw.emission_field m) ->
  PowerLaw.alpha_of m (scale_io (PowerLaw.emission_field m) k c)
  = PowerLaw.alpha_of m c.
Proof.
  intros H. unfold PowerLaw.alpha_of.
  destruct (PowerLaw.alpha m) as [a|f] eqn:Ha; [reflexivity|].
  apply io_get_scale_other. apply H. reflexivity.
Qed.

Lemma plaw_means_scale m c :
  (forall f, PowerLaw.alpha m = Field f -> f <> PowerLaw.emission_field m) ->
  PowerLaw.photon_means m (scale_io (PowerLaw.emission_field m) k c)
  = map (Rmult k) (PowerLaw.photon_means m c).
Proof.
  intros H. unfold PowerLaw.photon_means.
  rewrite (plaw_alpha_scale m c H), io_get_scale_self, plaw_norm_scale.
  rewrite !map_map. apply map_ext. intros; ring.
Qed.

Lemma broadcast2_scale (f g : R -> R -> R) a b :
  (forall x y, g x y = k * f x y) ->
  broadcast2 g a b = option_map (map (Rmult k)) (broadcast2 f a b).
Proof.
  intros H. unfold broadcast2.
  destruct (length a =? length b)%nat.
  - simpl. rewrite map_zip_with. f_equal. apply zip_with_ext. exact H.
  - destruct a as [|x [|x' a]].
    + destruct b as [|y [|y' b]]; simpl; try reflexivity.
    + simpl. rewrite map_map. f_equal. apply map_ext. intros; apply H.
    + destruct b as [|y [|y' b]]; simpl; try reflexivity.
      rewrite !H. f_equal. f_equal. f_equal. rewrite map_map.
      apply map_ext. intros; apply H.
Qed.

Lemma plaw_scaling m md c emid (s : RandomState G) :
  (forall f, PowerLaw.alpha m = Field f -> f <> PowerLaw.emission_field m) ->
  md <> photons ->
  PowerLaw.process_data G m md (scale_io (PowerLaw.emission_field m) k c)
                        emid s
  = scale_run k (PowerLaw.process_data G m md c emid s).
Proof.
  intros H Hmd. unfold PowerLaw.process_data.
  rewrite (plaw_alpha_scale m c H), io_get_scale_self.
  destruct md; [congruence| | |]; simpl.
  - rewrite plaw_norm_scale, flat_scale. reflexivity.
  - rewrite plaw_energy_flux_scale, flat_scale. reflexivity.
  - destruct emid as [mid|]; [|reflexivity].
    rewrite (broadcast2_scale
               (fun x a => np_sum (io_get c (PowerLaw.emission_field m))
                           * Rpower (x / PowerLaw.e0 m) (- a))).
    2:{ intros x y. rewrite np_sum_scale. ring. }
    destruct (broadcast2 _ mid (PowerLaw.alpha_of m c)) as [r|]; [|reflexivity].
    simpl. rewrite flat_scale. reflexivity.
Qed.

Variable gcdf : list R.
Variable clight : R.

Lemma line_fold_scale de (cells_em cells_sg : list R) acc :
  fold_left
    (fun acc cell =>
       sp <- acc ;;
       r <- np_interp (map (fun x => x / snd cell) de) Line.gx gcdf ;;
       Some (zip_with Rplus sp (map (Rmult (fst cell)) (Line.diffs r))))
    (combine (map (Rmult k) cells_em) cells_sg)
    (option_map (map (Rmult k)) acc)
  = option_map (map (Rmult k))
      (fold_left
         (fun acc cell =>
            sp <- acc ;;
            r <- np_interp (map (fun x => x / snd cell) de) Line.gx gcdf ;;
            Some (zip_with Rplus sp (map (Rmult (fst cell)) (Line.diffs r))))
         (combine cells_em cells_sg) acc).
Proof.
  revert cells_sg acc. induction cells_em as [|e em IH]; intros [|sg sgs] acc;
    cbn [fold_left combine map]; try reflexivity.
  rewrite <- IH. f_equal.
  destruct acc as [sp|]; [|reflexivity]. cbn [option_map fst snd].
  match goal with
  | |- context [np_interp ?x ?xp ?fp] =>
      destruct (np_interp x xp fp) as [r|]; [|reflexivity]
  end.
  cbn [option_map]. f_equal. rewrite <- zip_plus_scale. f_equal.
  rewrite map_map. apply map_ext. intros; ring.
Qed.

Lemma line_spectrum_scale m c ebins :
  (forall f, Line.sigma m = Line.SigmaField f -> f <> Line.emission_field m) ->
  Line.line_spectrum gcdf clight m (scale_io (Line.emission_field m) k c) ebins
  = option_map (map (Rmult k)) (Line.line_spectrum gcdf clight m c ebins).
Proof.
  intros H. unfold Line.line_spectrum. rewrite io_get_scale_self.
  destruct (Line.sigma m) as [|sg|f] eqn:Hs.
  - destruct (_ <? _)%nat; [|reflexivity]. simpl.
    rewrite np_sum_scale, <- list_set_map, map_scale_zeros. reflexivity.
  - match goal with
    | |- context [np_interp ?x ?xp ?fp] =>
        destruct (np_interp x xp fp) as [r|]; [|reflexivity]
    end.
    cbn [option_map]. rewrite np_sum_scale, map_map. f_equal. apply map_ext.
    intros; ring.
  - unfold Line.sigma_of.
    rewrite (io_get_scale_other _ k c f (H f eq_refl)).
    rewrite <- (map_scale_zeros k (length ebins - 1)) at 1.
    apply (line_fold_scale _ _ _ (Some (repeat 0 (length ebins - 1)))).
Qed.

Lemma line_means_scale m c :
  Line.photon_means m (scale_io (Line.emission_field m) k c)
  = map (Rmult k) (Line.photon_means m c).
Proof.
  unfold Line.photon_means. rewrite io_get_scale_self, !map_map.
  apply map_ext. intros; ring.
Qed.

Lemma line_scaling m md c ebins (s : RandomState G) :
  (forall f, Line.sigma m = Line.SigmaField f -> f <> Line.emission_field m) ->
  md <> photons ->
  Line.process_data G gcdf clight m md (scale_io (Line.emission_field m) k c)
                    ebins s
  = scale_run k (Line.process_data G gcdf clight m md c ebins s).
Proof.
  intros H Hmd. unfold Line.process_data. rewrite io_get_scale_self.
  destruct md; [congruence| | |]; simpl.
  - rewrite flat_scale. reflexivity.
  - rewrite <- flat_scale, !map_map. do 4 f_equal.
    apply map_ext. intros; ring.
  - destruct ebins as [eb|]; [|reflexivity].
    rewrite (line_spectrum_scale m c eb H).
    destruct (Line.line_spectrum gcdf clight m c eb) as [sp|]; [|reflexivity].
    simpl. rewrite flat_scale. reflexivity.
Qed.
End ClosedFormScaling.

(** C5.  Multiplying the emission measure of a thermal model, or the
    emission field of a power-law or line model, by a constant [k] in every
    cell (every [k], positive ones in particular) multiplies the result of
    the photon_field, energy_field and spectrum modes by [k], errors and the
    generator state staying as they are, and multiplies the Poisson mean of
    every cell in the photons mode by [k].  The field that is scaled must
    not be one the model reads for something else. *)
Theorem emission_scaling :
  forall (G : PRNG) (to_keV : R -> R) (cap0 : nat) (gcdf : list R)
         (clight k : R),
    (forall m : Thermal.ThermalSourceModel,
        ~ In (Thermal.emission_measure_field m) (thermal_other_fields m) ->
        (forall md c (s : RandomState G),
            md <> photons ->
            Thermal.process_data_from G to_keV cap0 m md
              (scale_chunk (Thermal.emission_measure_field m) k c) s
            = scale_run k (Thermal.process_data_from G to_keV cap0 m md c s))
        /\ (forall c cut,
               Thermal.sample_filter to_keV m
                 (scale_chunk (Thermal.emission_measure_field m) k c)
               = Thermal.sample_filter to_keV m c
               /\ forall e,
                   Thermal.prepare to_keV m c cut = Some e ->
                   exists e',
                     Thermal.prepare to_keV m
                       (scale_chunk (Thermal.emission_measure_field m) k c)
                       cut = Some e'
                     /\ forall ibegin iend,
                         Thermal.tot_spec m e' ibegin iend
                         = Thermal.tot_spec m e ibegin iend
                         /\ forall tot,
                             Thermal.cell_norm e' ibegin iend tot
                             = map (Rmult k)
                                   (Thermal.cell_norm e ibegin iend tot)))
    /\ (forall m : PowerLaw.PowerLawSourceModel,
           (forall f, PowerLaw.alpha m = Field f ->
                      f <> PowerLaw.emission_field m) ->
           (forall md c emid (s : RandomState G),
               md <> photons ->
               PowerLaw.process_data G m md
                 (scale_io (PowerLaw.emission_field m) k c) emid s
               = scale_run k (PowerLaw.process_data G m md c emid s))
           /\ (forall c,
                  PowerLaw.photon_means m
                    (scale_io (PowerLaw.emission_field m) k c)
                  = map (Rmult k) (PowerLaw.photon_means m c)))
    /\ (forall m : Line.LineSourceModel,
           (forall f, Line.sigma m = Line.SigmaField f ->
                      f <> Line.emission_field m) ->
           (forall md c ebins (s : RandomState G),
               md <> photons ->
               Line.process_data G gcdf clight m md
                 (scale_io (Line.emission_field m) k c) ebins s
               = scale_run k (Line.process_data G gcdf clight m md c ebins s))
           /\ (forall c,
                  Line.photon_means m (scale_io (Line.emission_field m) k c)
                  = map (Rmult k) (Line.photon_means m c))).
Proof.
  intros G to_keV cap0 gcdf clight k. split; [|split].
  - intros m Hind. split.
    + intros md c s Hmd. apply thermal_scaling; assumption.
    + intros c cut. apply thermal_means_scaling. exact Hind.
  - intros m Ha. split.
    + intros md c emid s Hmd. apply plaw_scaling; assumption.
    + intros c. apply plaw_means_scale. exact Ha.
  - intros m Hs. split.
    + intros md c ebins s Hmd. apply line_scaling; assumption.
    + intros c. apply line_means_scale.
Qed.

Lemma emission_scaling_witness :
  ~ In (Thermal.emission_measure_field Fixtures.apec)
       (thermal_other_fields Fixtures.apec)
  /\ energy_field <> photons
  /\ Thermal.process_data_from Fixtures.counter (fun x => x) 1 Fixtures.apec
       energy_field
       (scale_chunk (Thermal.emission_measure_field Fixtures.apec) 2
                    Fixtures.chunk) O
     = scale_run 2
         (Thermal.process_data_from Fixtures.counter (fun x => x) 1
            Fixtures.apec energy_field Fixtures.chunk O)
  /\ (forall f, PowerLaw.alpha Fixtures.plaw = Field f ->
                f <> PowerLaw.emission_field Fixtures.plaw)
  /\ PowerLaw.photon_means Fixtures.plaw
       (scale_io (PowerLaw.emission_field Fixtures.plaw) 2 Fixtures.plaw_chunk)
     = map (Rmult 2) (PowerLaw.photon_means Fixtures.plaw Fixtures.plaw_chunk)
  /\ (forall f, Line.sigma Fixtures.line = Line.SigmaField f ->
                f <> Line.emission_field Fixtures.line)
  /\ Line.process_data Fixtures.counter [] 1 Fixtures.line photon_field
       (scale_io (Line.emission_field Fixtures.line) 2 Fixtures.line_chunk)
       None O
     = scale_run 2
         (Line.process_data Fixtures.counter [] 1 Fixtures.line photon_field
            Fixtures.line_chunk None O).
Proof.
  assert (H1 : ~ In (Thermal.emission_measure_field Fixtures.apec)
                    (thermal_other_fields Fixtures.apec)).
  { simpl. intros [H|[H|[H|[H|[]]]]]; discriminate. }
  assert (H2 : energy_field <> photons) by discriminate.
  assert (H3 : forall f, PowerLaw.alpha Fixtures.plaw = Field f ->
                         f <> PowerLaw.emission_field Fixtures.plaw).
  { intros f Hf. inversion Hf. discriminate. }
  assert (H4 : forall f, Line.sigma Fixtures.line = Line.SigmaField f ->
                         f <> Line.emission_field Fixtures.line).
  { intros f Hf. discriminate. }
  assert (H5 : photon_field <> photons) by discriminate.
  destruct (emission_scaling Fixtures.counter (fun x => x) 1 [] 1 2)
    as (Ht & Hp & Hl).
  split; [exact H1|]. split; [exact H2|].
  split; [exact (proj1 (Ht Fixtures.apec H1) energy_field Fixtures.chunk O H2)|].
  split; [exact H3|].
  split; [exact (proj2 (Hp Fixtures.plaw H3) Fixtures.plaw_chunk)|].
  split; [exact H4|].
  exact (proj1 (Hl Fixtures.line H4) photon_field Fixtures.line_chunk None O H5).
Defined.

(** ** Determinism *)

Section Worlds.
Variable G : PRNG.
Variable g : generator.

Lemma state_of_with_state (w : World G) s : state_of g (with_state g w s) = s.
Proof. destruct g; reflexivity. Qed.

Lemma with_state_twice (w : World G) s1 s2 :
  with_state g (with_state g w s1) s2 = with_state g w s2.
Proof. destruct g; reflexivity. Qed.

Lemma with_state_same (w : World G) : with_state g w (state_of g w) = w.
Proof. destruct g, w; reflexivity. Qed.

Lemma poisson_draws_in_world lams (w : World G) :
  poisson_draws (generator_object G g) lams w
  = (fst (poisson_draws G lams (state_of g w)),
     with_state g w (snd (poisson_draws G lams (state_of g w)))).
Proof.
  revert w. induction lams as [|lam lams IH]; intros w.
  - simpl. rewrite with_state_same. reflexivity.
  - cbn [poisson_draws]. cbn [poisson1 generator_object].
    destruct (poisson1 G lam (state_of g w)) as [n s1].
    rewrite IH, state_of_with_state, with_state_twice.
    destruct (poisson_draws G lams s1) as [ns s2]. reflexivity.
Qed.

Lemma poisson_in_world lams (w : World G) :
  poisson (generator_object G g) lams w = in_world g w (poisson G lams (state_of g w)).
Proof.
  unfold poisson. destruct (existsb _ lams); [reflexivity|].
  rewrite poisson_draws_in_world.
  destruct (poisson_draws G lams (state_of g w)). reflexivity.
Qed.

Lemma uniform_in_world n (w : World G) :
  uniform (generator_object G g) n w
  = (fst (uniform G n (state_of g w)),
     with_state g w (snd (uniform G n (state_of g w)))).
Proof.
  revert w. induction n as [|n IH]; intros w.
  - simpl. rewrite with_state_same. reflexivity.
  - cbn [uniform]. cbn [uniform1 generator_object].
    destruct (uniform1 G (state_of g w)) as [u s1].
    rewrite IH, state_of_with_state, with_state_twice.
    destruct (uniform G n s1) as [us s2]. reflexivity.
Qed.

Lemma choice_in_world nchan n p (w : World G) :
  choice (generator_object G g) nchan n p w = in_world g w (choice G nchan n p (state_of g w)).
Proof.
  revert w. induction n as [|n IH]; intros w.
  - simpl. rewrite with_state_same. reflexivity.
  - cbn [choice]. cbn [choice1 generator_object].
    destruct (choice1 G nchan p (state_of g w)) as [[i s1]|]; [|reflexivity].
    cbn beta iota. rewrite IH, state_of_with_state.
    destruct (choice G nchan n p s1) as [[js s2]|]; [|reflexivity].
    cbn [in_world]. rewrite with_state_twice. reflexivity.
Qed.

Lemma normal_draws_in_world sg n (w : World G) :
  normal_draws (generator_object G g) sg n w
  = (fst (normal_draws G sg n (state_of g w)),
     with_state g w (snd (normal_draws G sg n (state_of g w)))).
Proof.
  revert w. induction n as [|n IH]; intros w.
  - simpl. rewrite with_state_same. reflexivity.
  - cbn [normal_draws]. cbn [normal1 generator_object].
    destruct (normal1 G sg (state_of g w)) as [x s1].
    rewrite IH, state_of_with_state, with_state_twice.
    destruct (normal_draws G sg n s1) as [xs s2]. reflexivity.
Qed.

Lemma normal_in_world sg n (w : World G) :
  normal (generator_object G g) sg n w = in_world g w (normal G sg n (state_of g w)).
Proof.
  unfold normal. destruct (Rltb sg 0); [reflexivity|].
  rewrite normal_draws_in_world.
  destruct (normal_draws G sg n (state_of g w)). reflexivity.
Qed.

(** The thermal engine *)

Lemma thermal_sample_cell_in_world m cn cp_row p_row (w : World G) :
  Thermal.sample_cell (generator_object G g) m cn cp_row p_row w
  = in_world g w (Thermal.sample_cell G m cn cp_row p_row (state_of g w)).
Proof.
  unfold Thermal.sample_cell. destruct (Thermal.method m).
  - rewrite uniform_in_world.
    destruct (uniform G cn (state_of g w)) as [randvec s1]. cbn [fst snd].
    destruct (np_interp _ _ _); reflexivity.
  - rewrite choice_in_world.
    destruct (choice G (Thermal.nchan m) cn p_row (state_of g w))
      as [[eidxs s1]|]; [|reflexivity].
    cbn [in_world]. destruct (take _ _); reflexivity.
  - reflexivity.
Qed.

Lemma thermal_cells_loop_in_world m cells b ei (w : World G) :
  Thermal.cells_loop (generator_object G g) m cells b ei w
  = in_world g w (Thermal.cells_loop G m cells b ei (state_of g w)).
Proof.
  revert b ei w. induction cells as [|[cn [cp_row p_row]] cells IH];
    intros b ei w.
  - simpl. rewrite with_state_same. reflexivity.
  - cbn [Thermal.cells_loop]. destruct (cn =? 0)%nat; [apply IH|].
    rewrite thermal_sample_cell_in_world.
    destruct (Thermal.sample_cell G m cn cp_row p_row (state_of g w))
      as [[cell_e s1]|]; [|reflexivity].
    cbn [in_world]. destruct (Thermal.store_cell b ei cn cell_e) as [b1|];
      [|reflexivity].
    cbn beta iota. rewrite IH, state_of_with_state.
    destruct (Thermal.cells_loop G m cells b1 (ei + cn) s1) as [[[b2 n2] s2]|];
      [|reflexivity].
    cbn [in_world]. rewrite with_state_twice. reflexivity.
Qed.

Lemma thermal_use_spectrum_in_world m md e st (w : World G) ibegin iend tot :
  Thermal.use_spectrum (generator_object G g) m md e st w ibegin iend tot
  = in_world g w
      (Thermal.use_spectrum G m md e st (state_of g w) ibegin iend tot).
Proof.
  unfold Thermal.use_spectrum. destruct md.
  - rewrite poisson_in_world.
    destruct (poisson G _ (state_of g w)) as [[cell_n s1]|]; [|reflexivity].
    cbn [in_world]. rewrite thermal_cells_loop_in_world.
    rewrite state_of_with_state.
    destruct (Thermal.cells_loop G m _ _ _ s1) as [[[b1 n1] s2]|];
      [|reflexivity].
    cbn [in_world]. rewrite with_state_twice. reflexivity.
  - cbn [in_world]. rewrite with_state_same. reflexivity.
  - cbn [in_world]. rewrite with_state_same. reflexivity.
  - cbn [in_world]. rewrite with_state_same. reflexivity.
Qed.

Lemma thermal_batch_loop_in_world m md e cks st (w : World G) :
  Thermal.batch_loop (generator_object G g) m md e cks st w
  = in_world g w (Thermal.batch_loop G m md e cks st (state_of g w)).
Proof.
  revert st w. induction cks as [|ck cks IH]; intros st w.
  - simpl. rewrite with_state_same. reflexivity.
  - cbn [Thermal.batch_loop]. unfold Thermal.batch_step.
    destruct (Thermal.tot_spec m e (hd O ck) (S (last ck O))) as [tot|];
      [|reflexivity].
    cbn beta iota. rewrite thermal_use_spectrum_in_world.
    destruct (Thermal.use_spectrum G m md e st (state_of g w) _ _ tot)
      as [[st1 s1]|]; [|reflexivity].
    cbn [in_world]. rewrite IH, state_of_with_state.
    destruct (Thermal.batch_loop G m md e cks st1 s1) as [[st2 s2]|];
      [|reflexivity].
    cbn [in_world]. rewrite with_state_twice. reflexivity.
Qed.

Lemma thermal_process_data_in_world to_keV cap0 m md c (w : World G) :
  Thermal.process_data_from (generator_object G g) to_keV cap0 m md c w
  = in_world g w
      (Thermal.process_data_from G to_keV cap0 m md c (state_of g w)).
Proof.
  unfold Thermal.process_data_from.
  destruct (Thermal.orig_ncells c =? 0)%nat.
  { destruct md; cbn [in_world]; rewrite with_state_same; reflexivity. }
  destruct (Thermal.sample_filter to_keV m c) as [cut|]; [|reflexivity].
  cbn beta iota. destruct (count_true cut =? 0)%nat.
  { destruct md; cbn [in_world]; rewrite with_state_same; reflexivity. }
  unfold Thermal.run_batches.
  destruct (Thermal.prepare to_keV m c cut) as [e|]; [|reflexivity].
  cbn beta iota. rewrite thermal_batch_loop_in_world.
  destruct (Thermal.batch_loop G m md e _ _ (state_of g w)) as [[st s1]|];
    reflexivity.
Qed.

(** The power-law engine *)

Lemma plaw_cells_loop_in_world m cells energies start_e end_e (w : World G) :
  PowerLaw.cells_loop (generator_object G g) m cells energies start_e end_e w
  = (fst (PowerLaw.cells_loop G m cells energies start_e end_e (state_of g w)),
     with_state g w
       (snd (PowerLaw.cells_loop G m cells energies start_e end_e
                                 (state_of g w)))).
Proof.
  revert energies start_e end_e w.
  induction cells as [|[n [a nf]] cells IH]; intros energies start_e end_e w.
  - simpl. rewrite with_state_same. reflexivity.
  - cbn [PowerLaw.cells_loop]. destruct (0 <? n)%nat; [|apply IH].
    rewrite uniform_in_world.
    destruct (uniform G n (state_of g w)) as [u s1]. cbn [fst snd].
    rewrite IH, state_of_with_state, with_state_twice. reflexivity.
Qed.

Lemma plaw_process_data_in_world m md c emid (w : World G) :
  PowerLaw.process_data (generator_object G g) m md c emid w
  = in_world g w (PowerLaw.process_data G m md c emid (state_of g w)).
Proof.
  unfold PowerLaw.process_data. destruct md.
  - rewrite poisson_in_world.
    destruct (poisson G _ (state_of g w)) as [[nop s1]|]; [|reflexivity].
    cbn [in_world]. rewrite plaw_cells_loop_in_world.
    rewrite state_of_with_state.
    destruct (PowerLaw.cells_loop G m _ _ 0 0 s1) as [[en end_e] s2].
    cbn [fst snd in_world]. rewrite with_state_twice. reflexivity.
  - cbn [in_world]. rewrite with_state_same. reflexivity.
  - cbn [in_world]. rewrite with_state_same. reflexivity.
  - destruct emid as [mid|]; [|reflexivity]. cbn beta iota.
    destruct (broadcast2 _ mid _); [|reflexivity].
    cbn [in_world]. rewrite with_state_same. reflexivity.
Qed.

(** The line engine *)

Lemma line_cells_loop_in_world cells energies start_e (w : World G) :
  Line.cells_loop (generator_object G g) cells energies start_e w
  = in_world g w (Line.cells_loop G cells energies start_e (state_of g w)).
Proof.
  revert energies start_e w.
  induction cells as [|[n sg] cells IH]; intros energies start_e w.
  - simpl. rewrite with_state_same. reflexivity.
  - cbn [Line.cells_loop]. destruct (0 <? n)%nat; [|apply IH].
    rewrite normal_in_world.
    destruct (normal G sg n (state_of g w)) as [[dE s1]|]; [|reflexivity].
    cbn [in_world]. rewrite IH, state_of_with_state.
    destruct (Line.cells_loop G cells _ _ s1) as [[en s2]|]; [|reflexivity].
    cbn [in_world]. rewrite with_state_twice. reflexivity.
Qed.

Lemma line_process_data_in_world gcdf clight m md c ebins (w : World G) :
  Line.process_data (generator_object G g) gcdf clight m md c ebins w
  = in_world g w
      (Line.process_data G gcdf clight m md c ebins (state_of g w)).
Proof.
  unfold Line.process_data. destruct md.
  - rewrite poisson_in_world.
    destruct (poisson G _ (state_of g w)) as [[nop s1]|]; [|reflexivity].
    cbn [in_world]. destruct (Line.sigma m) as [|sg|f].
    + reflexivity.
    + rewrite normal_in_world, state_of_with_state.
      destruct (normal G sg _ s1) as [[dE s2]|]; [|reflexivity].
      cbn [in_world]. rewrite with_state_twice. reflexivity.
    + rewrite line_cells_loop_in_world, state_of_with_state.
      destruct (Line.cells_loop G _ _ 0 s1) as [[en s2]|]; [|reflexivity].
      cbn [in_world]. rewrite with_state_twice. reflexivity.
  - cbn [in_world]. rewrite with_state_same. reflexivity.
  - cbn [in_world]. rewrite with_state_same. reflexivity.
  - destruct ebins as [eb|]; [|reflexivity]. cbn beta iota.
    destruct (Line.line_spectrum _ _ m c eb); [|reflexivity].
    cbn [in_world]. rewrite with_state_same. reflexivity.
Qed.
End Worlds.



(** * Further properties of the engines *)

(** ** Assignment by index *)

Lemma list_set_length {A : Type} i (v : A) l :
  length (list_set i v l) = length l.
Proof.
  revert i; induction l as [|x l IH]; intros [|i]; simpl; auto.
Qed.

Lemma list_set_nth_same {A : Type} i (v : A) l d :
  (i < length l)%nat -> nth i (list_set i v l) d = v.
Proof.
  revert i; induction l as [|x l IH]; intros [|i] H; simpl in *; try lia; auto.
  apply IH. lia.
Qed.

Lemma list_set_nth_other {A : Type} i j (v : A) l d :
  i <> j -> nth j (list_set i v l) d = nth j l d.
Proof.
  revert i j; induction l as [|x l IH]; intros [|i] [|j] H; simpl; auto;
    try congruence.
Qed.

Lemma scatter_length {A : Type} idx (vals l : list A) :
  length (scatter idx vals l) = length l.
Proof.
  revert vals l; induction idx as [|i idx IH]; intros [|v vals] l; simpl; auto.
  rewrite IH. apply list_set_length.
Qed.

Lemma scatter_nth_other {A : Type} idx (vals l : list A) j d :
  ~ In j idx -> nth j (scatter idx vals l) d = nth j l d.
Proof.
  revert vals l; induction idx as [|i idx IH]; intros [|v vals] l H; simpl;
    auto.
  rewrite IH by (intros E; apply H; right; exact E).
  apply list_set_nth_other. intros E; apply H; left; exact E.
Qed.

Lemma scatter_nth_same {A : Type} idx (vals l : list A) k d :
  NoDup idx -> (k < length idx)%nat -> (k < length vals)%nat ->
  (nth k idx O < length l)%nat ->
  nth (nth k idx O) (scatter idx vals l) d = nth k vals d.
Proof.
  revert vals l k; induction idx as [|i idx IH]; intros [|v vals] l k Hnd Hk Hv Hl;
    simpl in *; try lia.
  inversion Hnd as [|? ? Hni Hnd']; subst.
  destruct k as [|k].
  - rewrite scatter_nth_other by exact Hni. apply list_set_nth_same. exact Hl.
  - apply IH; try lia; auto. rewrite list_set_length. exact Hl.
Qed.

Lemma np_sum_list_set i v l :
  (i < length l)%nat -> np_sum (list_set i v l) = np_sum l - nth i l 0 + v.
Proof.
  revert i; induction l as [|x l IH]; intros [|i] H; simpl in *; try lia.
  - lra.
  - rewrite IH by lia. lra.
Qed.

Lemma np_sum_scatter idx vals l :
  NoDup idx -> length idx = length vals ->
  Forall (fun i => (i < length l)%nat /\ nth i l 0 = 0) idx ->
  np_sum (scatter idx vals l) = np_sum l + np_sum vals.
Proof.
  revert vals l; induction idx as [|i idx IH]; intros [|v vals] l Hnd Hlen HF;
    simpl in *; try lia; try lra.
  inversion Hnd as [|? ? Hni Hnd']; subst.
  inversion HF as [|? ? [Hi Hz] HF']; subst.
  rewrite IH; auto.
  - rewrite np_sum_list_set by exact Hi. rewrite Hz. lra.
  - rewrite Forall_forall in *. intros j Hj. rewrite list_set_length.
    destruct (HF' j Hj) as [Hjl Hjz]. split; [exact Hjl|].
    rewrite list_set_nth_other; [exact Hjz|]. intros E; subst; contradiction.
Qed.

Lemma np_sum_repeat_0 n : np_sum (repeat 0 n) = 0.
Proof. induction n as [|n IH]; simpl; [reflexivity|]. rewrite IH. lra. Qed.

Lemma np_sum_zip_plus a b :
  length a = length b ->
  np_sum (zip_with Rplus a b) = np_sum a + np_sum b.
Proof.
  revert b; induction a as [|x a IH]; intros [|y b] H; simpl in *; try lia.
  - lra.
  - rewrite IH by lia. lra.
Qed.

(** ** [np.where]: the positions of the true entries, in increasing order *)

Lemma where_from_In i mask j :
  In j (where_from i mask)
  <-> (i <= j)%nat /\ nth (j - i) mask false = true.
Proof.
  revert i; induction mask as [|b mask IH]; intros i; simpl.
  - split; [tauto|]. intros [_ H]. destruct (j - i)%nat; discriminate.
  - assert (Hstep : In j (where_from (S i) mask)
                    <-> (i < j)%nat /\ nth (j - i) (b :: mask) false = true).
    { rewrite IH. split.
      - intros [Hle H]. split; [lia|].
        replace (j - i)%nat with (S (j - S i)) by lia. exact H.
      - intros [Hlt H]. split; [lia|].
        replace (j - i)%nat with (S (j - S i)) in H by lia. exact H. }
    destruct b; simpl.
    + rewrite Hstep. split.
      * intros [<-|[Hlt H]]; [rewrite Nat.sub_diag; auto|split; [lia|exact H]].
      * intros [Hle H]. destruct (Nat.eq_dec i j) as [E|E]; [left; exact E|].
        right. split; [lia|exact H].
    + rewrite Hstep. split.
      * intros [Hlt H]. split; [lia|exact H].
      * intros [Hle H]. destruct (Nat.eq_dec i j) as [E|E].
        -- subst. rewrite Nat.sub_diag in H. discriminate.
        -- split; [lia|exact H].
Qed.

Lemma np_where_In mask j :
  In j (np_where mask) <-> nth j mask false = true.
Proof.
  unfold np_where. rewrite where_from_In, Nat.sub_0_r. split; [tauto|].
  intros H; split; [lia|exact H].
Qed.

Lemma where_from_sorted i mask : StronglySorted lt (where_from i mask).
Proof.
  revert i; induction mask as [|b mask IH]; intros i; simpl; [constructor|].
  destruct b; [|apply IH]. constructor; [apply IH|].
  apply Forall_forall. intros j Hj. apply where_from_In in Hj. lia.
Qed.

Lemma sorted_lt_nth (l : list nat) :
  StronglySorted lt l ->
  forall p q, (p < q)%nat -> (q < length l)%nat ->
              (nth p l O < nth q l O)%nat.
Proof.
  induction 1 as [|x l Hs IH HF]; intros p q Hpq Hq; simpl in *; [lia|].
  destruct q as [|q]; [lia|]. destruct p as [|p].
  - rewrite Forall_forall in HF. apply HF. apply nth_In. lia.
  - apply IH; lia.
Qed.

Lemma mask_select_sorted (mask : list bool) (l : list nat) :
  StronglySorted lt l -> StronglySorted lt (mask_select mask l).
Proof.
  intros Hs. revert mask.
  induction Hs as [|x l Hs IH HF]; intros [|b mask]; simpl; try constructor.
  destruct b; [|apply IH]. constructor; [apply IH|].
  clear -HF. revert mask. induction HF as [|y l Hy HF IH]; intros [|b mask];
    simpl; try constructor.
  destruct b; [constructor; auto|auto].
Qed.

Lemma mask_select_In {A : Type} (mask : list bool) (l : list A) x :
  In x (mask_select mask l) -> In x l.
Proof.
  revert l; induction mask as [|b mask IH]; intros [|y l]; simpl; try tauto.
  destruct b; simpl; intros H.
  - destruct H as [H|H]; [left; exact H|right; apply IH; exact H].
  - right. apply IH. exact H.
Qed.

Lemma np_resize_same a sh :
  length a = np_prod sh -> data (np_resize a sh) = a.
Proof.
  intros H. unfold np_resize. simpl. rewrite <- H.
  apply (nth_ext _ _ 0 0).
  - rewrite length_map, length_seq. reflexivity.
  - intros i Hi. rewrite length_map, length_seq in Hi.
    rewrite (nth_indep _ 0 (nth (0 mod length a) a 0))
      by (rewrite length_map, length_seq; exact Hi).
    rewrite (map_nth (fun i => nth (i mod length a) a 0)), seq_nth by exact Hi.
    simpl. rewrite Nat.mod_small by exact Hi. reflexivity.
Qed.

Lemma slice_In {A : Type} lo hi (l : list A) x d :
  In x (slice lo hi l) ->
  exists i, (i < hi - lo)%nat /\ (lo + i < length l)%nat
            /\ x = nth (lo + i) l d.
Proof.
  intros H. destruct (In_nth _ _ d H) as (i & Hi & Hx).
  unfold slice in Hi. rewrite length_firstn, length_skipn in Hi.
  exists i. split; [lia|]. split; [lia|].
  rewrite <- Hx. apply slice_nth. lia.
Qed.

Lemma np_where_range mask j :
  In j (np_where mask) -> (j < length mask)%nat.
Proof.
  intros H. apply np_where_In in H.
  destruct (Nat.lt_ge_cases j (length mask)) as [Hlt|Hge]; [exact Hlt|].
  rewrite nth_overflow in H by exact Hge. discriminate.
Qed.

(** ** The thermal engine: the photon_field and energy_field modes *)

Section ThermalShapes.
Variable to_keV : R -> R.

Lemma prepare_idxs m c cut e :
  Thermal.prepare to_keV m c cut = Some e -> Thermal.idxs e = np_where cut.
Proof.
  unfold Thermal.prepare.
  destruct (Thermal.mask_fits c cut); [cbn [negb]|discriminate].
  match goal with
  | |- match ?x with Some _ => _ | None => _ end = _ -> _ =>
      destruct x; [|discriminate]
  end.
  intros H; inversion H; reflexivity.
Qed.
End ThermalShapes.

Lemma tot_spec_shape m e n a l tot :
  (n <= length (Thermal.metalZ e))%nat ->
  Forall (fun row => length row = n) (Thermal.elemZ e) ->
  (a + l <= n)%nat ->
  Thermal.tot_spec m e a (a + l) = Some tot ->
  has_shape l (Thermal.nchan m) tot = true.
Proof.
  intros HZ HeZ Hal Htot. unfold Thermal.tot_spec in Htot.
  destruct (Thermal.get_spectrum _ _ _) as [[cspec mspec] vspec] in Htot.
  apply compose_entry in Htot.
  - destruct Htot as [Hshape _].
    replace (a + l - a)%nat with l in Hshape by lia. exact Hshape.
  - apply slice_length. lia.
  - apply Forall_forall. intros zr Hzr. apply in_map_iff in Hzr.
    destruct Hzr as (row & <- & Hrow).
    rewrite Forall_forall in HeZ. apply slice_length.
    rewrite (HeZ row Hrow). lia.
Qed.

Section FieldLoop.
Variable G : PRNG.
Variable m : Thermal.ThermalSourceModel.
Variable md : mode.
Hypothesis field_mode : md = photon_field \/ md = energy_field.
Variable e : Thermal.eligible.
Variables n N : nat.
Hypothesis nrm_len : length (Thermal.cell_nrm e) = n.
Hypothesis Z_len : (n <= length (Thermal.metalZ e))%nat.
Hypothesis eZ_len : Forall (fun row => length row = n) (Thermal.elemZ e).
Hypothesis idx_len : length (Thermal.idxs e) = n.
Hypothesis idx_incr :
  forall p q, (p < q)%nat -> (q < n)%nat ->
              (nth p (Thermal.idxs e) O < nth q (Thermal.idxs e) O)%nat.
Hypothesis idx_range :
  forall p, (p < n)%nat -> (nth p (Thermal.idxs e) O < N)%nat.

Lemma field_values_length a l tot :
  (a + l <= n)%nat ->
  has_shape l (Thermal.nchan m) tot = true ->
  length (field_values_of m md e a (a + l) tot) = l.
Proof.
  intros Hal Htot. apply has_shape_spec in Htot. destruct Htot as [Hrows _].
  unfold field_values_of, Thermal.cell_norm, row_sums, mul_cols.
  destruct md; rewrite zip_with_length, ?length_map, Hrows, slice_length;
    lia.
Qed.

Lemma use_spectrum_field st (s : RandomState G) a b tot st' s' :
  Thermal.use_spectrum G m md e st s a b tot = Some (st', s') ->
  s' = s
  /\ Thermal.ret st'
     = scatter (slice a b (Thermal.idxs e)) (field_values_of m md e a b tot)
               (Thermal.ret st).
Proof.
  destruct field_mode; subst md; simpl; intros H; inversion H; auto.
Qed.

Lemma slice_idxs_NoDup a l :
  (a + l <= n)%nat -> NoDup (slice a (a + l) (Thermal.idxs e)).
Proof.
  intros Hal. apply (NoDup_nth _ O). intros i j Hi Hj.
  rewrite slice_length in Hi, Hj by lia.
  rewrite !slice_nth by lia. intros E.
  destruct (Nat.lt_trichotomy i j) as [Hlt|[Heq|Hgt]]; [|exact Heq|].
  - pose proof (idx_incr (a + i) (a + j) ltac:(lia) ltac:(lia)). lia.
  - pose proof (idx_incr (a + j) (a + i) ltac:(lia) ltac:(lia)). lia.
Qed.

Lemma slice_idxs_In a l j :
  (a + l <= n)%nat ->
  In j (slice a (a + l) (Thermal.idxs e)) ->
  exists k, (a <= k < a + l)%nat /\ j = nth k (Thermal.idxs e) O.
Proof.
  intros Hal H. destruct (slice_In _ _ _ _ O H) as (i & Hi & _ & Hj).
  exists (a + i)%nat. split; [lia|exact Hj].
Qed.

Lemma batch_loop_field cks :
  forall a st (s : RandomState G) st' s',
    chain a cks n ->
    length (Thermal.ret st) = N ->
    Thermal.batch_loop G m md e cks st s = Some (st', s') ->
    s' = s
    /\ length (Thermal.ret st') = N
    /\ (forall j, (forall k, (a <= k < n)%nat ->
                             nth k (Thermal.idxs e) O <> j) ->
                  nth j (Thermal.ret st') 0 = nth j (Thermal.ret st) 0)
    /\ (forall k, (a <= k < n)%nat ->
          exists b l tot,
            In (seq b l) cks /\ (0 < l)%nat /\ (b <= k < b + l)%nat
            /\ Thermal.tot_spec m e b (b + l) = Some tot
            /\ nth (nth k (Thermal.idxs e) O) (Thermal.ret st') 0
               = nth (k - b) (field_values_of m md e b (b + l) tot) 0).
Proof.
  induction cks as [|ck cks IH]; intros a st s st' s' Hch Hlen H; simpl in *.
  - inversion H; subst. repeat split; auto. intros k Hk. lia.
  - destruct Hch as (l & Hl & Hal & -> & Hch).
    destruct (Thermal.batch_step G m md e st s (seq a l))
      as [[st1 s1]|] eqn:Hstep; [|discriminate].
    unfold Thermal.batch_step in Hstep.
    destruct (seq_hd_last a l Hl) as [Hh Hla]. rewrite Hh, Hla in Hstep.
    destruct (Thermal.tot_spec m e a (a + l)) as [tot|] eqn:Htot;
      [|discriminate].
    pose proof (tot_spec_shape m e n a l tot Z_len eZ_len Hal Htot) as Hshape.
    destruct (use_spectrum_field _ _ _ _ _ _ _ Hstep) as [-> Hret].
    assert (Hlen1 : length (Thermal.ret st1) = N)
      by (rewrite Hret, scatter_length; exact Hlen).
    destruct (IH _ _ _ _ _ Hch Hlen1 H) as (Hs & Hlen' & Hframe & Hvals).
    split; [exact Hs|]. split; [exact Hlen'|]. split.
    + intros j Hj. rewrite Hframe by (intros k Hk; apply Hj; lia).
      rewrite Hret. apply scatter_nth_other. intros Hin.
      destruct (slice_idxs_In a l j Hal Hin) as (k & Hk & ->).
      apply (Hj k); [lia|reflexivity].
    + intros k Hk. destruct (Nat.lt_ge_cases k (a + l)) as [Hlt|Hge].
      * exists a, l, tot. split; [left; reflexivity|]. split; [exact Hl|].
        split; [lia|]. split; [exact Htot|].
        rewrite Hframe.
        2:{ intros k' Hk' E.
            pose proof (idx_incr k k' ltac:(lia) ltac:(lia)). lia. }
        rewrite Hret.
        replace (nth k (Thermal.idxs e) O)
          with (nth (k - a) (slice a (a + l) (Thermal.idxs e)) O)
          by (rewrite slice_nth by lia; f_equal; lia).
        apply scatter_nth_same.
        -- apply slice_idxs_NoDup. exact Hal.
        -- rewrite slice_length by lia. lia.
        -- rewrite field_values_length by assumption. lia.
        -- rewrite slice_nth by lia. rewrite Hlen. apply idx_range. lia.
      * destruct (Hvals k ltac:(lia)) as (b & l' & tot' & Hin & Hl' & Hb & Ht & Hv).
        exists b, l', tot'. split; [right; exact Hin|]. auto.
Qed.
End FieldLoop.

Lemma orig_ncells_prod c :
  Thermal.orig_ncells c <> O -> Thermal.orig_ncells c = np_prod (orig_shape c).
Proof.
  unfold Thermal.orig_ncells. destruct (orig_shape c); [congruence|reflexivity].
Qed.

Section FieldRun.
Variable G : PRNG.
Variable to_keV : R -> R.

(** A photon_field or energy_field call on a chunk with cells, in terms of
    the filter and of the arrays of the eligible cells. *)
Lemma thermal_field_facts cap0 m md c (s : RandomState G) a s' cut :
  md = photon_field \/ md = energy_field ->
  Thermal.orig_ncells c <> O ->
  Thermal.sample_filter to_keV m c = Some cut ->
  Thermal.process_data_from G to_keV cap0 m md c s = Some (RArray a, s') ->
  s' = s
  /\ shape a = orig_shape c
  /\ length (data a) = np_prod (orig_shape c)
  /\ (forall j, nth j cut false = false -> nth j (data a) 0 = 0)
  /\ (forall e, Thermal.prepare to_keV m c cut = Some e ->
      forall k, (k < Thermal.num_cells e)%nat ->
        exists b l tot,
          In (seq b l) (Thermal.batches (Thermal.num_cells e))
          /\ (0 < l)%nat /\ (b <= k < b + l)%nat
          /\ Thermal.tot_spec m e b (b + l) = Some tot
          /\ nth (nth k (Thermal.idxs e) O) (data a) 0
             = nth (k - b) (field_values_of m md e b (b + l) tot) 0).
Proof.
  intros Hmd Hn0 Hcut. unfold Thermal.process_data_from.
  pose proof (orig_ncells_prod c Hn0) as HN.
  pose proof (sample_filter_length to_keV m c cut Hcut) as Hclen.
  destruct (Thermal.orig_ncells c =? 0)%nat eqn:E0;
    [apply Nat.eqb_eq in E0; contradiction|].
  rewrite Hcut.
  destruct (count_true cut =? 0)%nat eqn:Ecnt.
  - apply Nat.eqb_eq in Ecnt.
    intros H.
    assert (H' : np_zeros (orig_shape c) = a /\ s = s').
    { destruct Hmd; subst md; inversion H; auto. }
    clear H. destruct H' as [<- <-]. simpl.
    split; [reflexivity|]. split; [reflexivity|].
    split; [apply repeat_length|]. split.
    + intros j _. apply nth_repeat.
    + intros e He k Hk.
      destruct (prepare_lengths to_keV m c cut e Hclen He) as (Hnc & _). lia.
  - apply Nat.eqb_neq in Ecnt. unfold Thermal.run_batches.
    destruct (Thermal.prepare to_keV m c cut) as [e|] eqn:Hprep;
      [|discriminate].
    destruct (Thermal.batch_loop G m md e _ _ s) as [[st s1]|] eqn:Hloop;
      [|discriminate].
    intros H.
    assert (Ha : a = np_resize (Thermal.ret st) (orig_shape c) /\ s1 = s').
    { destruct Hmd; subst md; inversion H; auto. }
    clear H. destruct Ha as [-> <-].
    destruct (prepare_lengths to_keV m c cut e Hclen Hprep)
      as (Hnc & _ & Hnrm & HZ & HeZ & Hidx).
    pose proof (prepare_idxs to_keV m c cut e Hprep) as Hwhere.
    assert (Hincr : forall p q, (p < q)%nat -> (q < count_true cut)%nat ->
                (nth p (Thermal.idxs e) O < nth q (Thermal.idxs e) O)%nat).
    { intros p q Hpq Hq. apply sorted_lt_nth; [|exact Hpq|lia].
      rewrite Hwhere. apply where_from_sorted. }
    assert (Hrange : forall p, (p < count_true cut)%nat ->
                (nth p (Thermal.idxs e) O < Thermal.orig_ncells c)%nat).
    { intros p Hp. rewrite HN, <- Hclen. apply np_where_range.
      rewrite <- Hwhere. apply nth_In. lia. }
    rewrite Hnc in Hloop.
    destruct (batch_loop_field G m md Hmd e (count_true cut)
                (Thermal.orig_ncells c) Hnrm HZ HeZ Hidx Hincr Hrange
                _ O (Thermal.init_state m e (Thermal.orig_ncells c) cap0)
                s st s1 (batches_chain _)
                (repeat_length 0 (Thermal.orig_ncells c)) Hloop)
      as (Hs & Hlen & Hframe & Hvals).
    assert (Hdata : data (np_resize (Thermal.ret st) (orig_shape c))
                    = Thermal.ret st)
      by (apply np_resize_same; rewrite Hlen; exact HN).
    rewrite Hdata.
    split; [exact Hs|]. split; [reflexivity|].
    split; [rewrite Hlen; exact HN|]. split.
    + intros j Hj. rewrite Hframe.
      * simpl. apply nth_repeat.
      * intros k Hk E.
        assert (Hin : In j (np_where cut)).
        { rewrite <- Hwhere, <- E. apply nth_In. lia. }
        apply np_where_In in Hin. congruence.
    + intros e' He' k Hk. injection He' as <-. rewrite Hnc in *.
      apply Hvals. lia.
Qed.
End FieldRun.

(** X1.  In the photon_field and energy_field modes, on a chunk with cells
    whose filter evaluates, the thermal engine returns an array of the
    chunk's own shape with one entry per cell of the chunk, and every cell
    the filter rejects holds zero in it. *)
Theorem thermal_field_zero_outside_filter :
  forall (G : PRNG) (to_keV : R -> R) (cap0 : nat)
         (m : Thermal.ThermalSourceModel) (md : mode) (c : Chunk)
         (s : RandomState G) (a : ndarray) (s' : RandomState G)
         (cut : list bool),
    md = photon_field \/ md = energy_field ->
    Thermal.orig_ncells c <> O ->
    Thermal.sample_filter to_keV m c = Some cut ->
    Thermal.process_data_from G to_keV cap0 m md c s = Some (RArray a, s') ->
    shape a = orig_shape c
    /\ length (data a) = np_prod (orig_shape c)
    /\ forall j, nth j cut false = false -> nth j (data a) 0 = 0.
Proof.
  intros G to_keV cap0 m md c s a s' cut Hmd Hn0 Hcut H.
  destruct (thermal_field_facts G to_keV cap0 m md c s a s' cut Hmd Hn0 Hcut H)
    as (_ & Hsh & Hlen & Hz & _).
  auto.
Qed.

Lemma thermal_field_example :
  { a : ndarray &
    { s' | Thermal.process_data_from Fixtures.counter (fun x => x) 1
             Fixtures.apec photon_field Fixtures.chunk O
           = Some (RArray a, s') } }.
Proof.
  do 2 eexists. unfold Thermal.process_data_from, Thermal.run_batches.
  run_model. reflexivity.
Defined.

Lemma thermal_field_filter_example :
  Thermal.sample_filter (fun x => x) Fixtures.apec Fixtures.chunk
  = Some [false; true; true].
Proof. unfold Thermal.sample_filter. run_model. reflexivity. Qed.

Lemma thermal_field_zero_outside_filter_witness :
  exists a s',
    Thermal.process_data_from Fixtures.counter (fun x => x) 1
      Fixtures.apec photon_field Fixtures.chunk O
    = Some (RArray a, s')
    /\ shape a = [3%nat] /\ nth 0 (data a) 0 = 0.
Proof.
  destruct thermal_field_example as (a & s' & H).
  exists a, s'. split; [exact H|].
  destruct (thermal_field_zero_outside_filter Fixtures.counter (fun x => x) 1
              Fixtures.apec photon_field Fixtures.chunk O a s'
              [false; true; true] (or_introl eq_refl)
              ltac:(cbv; discriminate) thermal_field_filter_example H)
    as (Hsh & _ & Hz).
  split; [exact Hsh|]. apply Hz. reflexivity.
Defined.

Lemma row_sums_nth i (M : matrix) : nth i (row_sums M) 0 = np_sum (nth i M []).
Proof. exact (map_nth np_sum M [] i). Qed.

Lemma field_values_nth m md e b l tot i :
  md = photon_field \/ md = energy_field ->
  (i < l)%nat -> length tot = l ->
  (b + l <= length (Thermal.cell_nrm e))%nat ->
  nth i (field_values_of m md e b (b + l) tot) 0
  = match md with
    | energy_field => np_sum (zip_with Rmult (nth i tot []) (Thermal.emid m))
    | _ => np_sum (nth i tot [])
    end * nth (b + i) (Thermal.cell_nrm e) 0.
Proof.
  intros Hmd Hi Htot Hnrm.
  assert (Hs : length (slice b (b + l) (Thermal.cell_nrm e)) = l)
    by (rewrite slice_length by lia; lia).
  destruct Hmd; subst md; unfold field_values_of, Thermal.cell_norm.
  - rewrite (zip_with_nth Rmult _ _ i 0 0 0)
      by (unfold row_sums; rewrite ?length_map; lia).
    rewrite row_sums_nth, slice_nth by lia. reflexivity.
  - rewrite (zip_with_nth Rmult _ _ i 0 0 0)
      by (unfold row_sums, mul_cols; rewrite ?length_map; lia).
    rewrite row_sums_nth, slice_nth by lia. unfold mul_cols.
    exact (f_equal (fun r => np_sum r * nth (b + i) (Thermal.cell_nrm e) 0)
             (map_nth (fun row => zip_with Rmult row (Thermal.emid m))
                      tot [] i)).
Qed.

(** X2.  In the photon_field mode the entry of the returned array at the
    [k]-th cell that passes the filter is the sum over the bins of the
    composed spectrum of that cell, taken from the batch the cell belongs
    to, times the cell's normalization; in the energy_field mode every bin
    of the composed spectrum is first multiplied by the bin's mid
    energy. *)
Theorem thermal_field_values :
  forall (G : PRNG) (to_keV : R -> R) (cap0 : nat)
         (m : Thermal.ThermalSourceModel) (md : mode) (c : Chunk)
         (s : RandomState G) (a : ndarray) (s' : RandomState G)
         (cut : list bool) (e : Thermal.eligible),
    md = photon_field \/ md = energy_field ->
    Thermal.orig_ncells c <> O ->
    Thermal.sample_filter to_keV m c = Some cut ->
    Thermal.prepare to_keV m c cut = Some e ->
    Thermal.process_data_from G to_keV cap0 m md c s = Some (RArray a, s') ->
    Thermal.idxs e = np_where cut
    /\ forall k, (k < Thermal.num_cells e)%nat ->
         exists ck tot,
           In ck (Thermal.batches (Thermal.num_cells e)) /\ In k ck
           /\ Thermal.tot_spec m e (hd O ck) (S (last ck O)) = Some tot
           /\ nth (nth k (Thermal.idxs e) O) (data a) 0
              = match md with
                | energy_field =>
                    np_sum (zip_with Rmult (nth (k - hd O ck) tot [])
                                     (Thermal.emid m))
                | _ => np_sum (nth (k - hd O ck) tot [])
                end * nth k (Thermal.cell_nrm e) 0.
Proof.
  intros G to_keV cap0 m md c s a s' cut e Hmd Hn0 Hcut Hprep H.
  split; [exact (prepare_idxs to_keV m c cut e Hprep)|].
  destruct (thermal_field_facts G to_keV cap0 m md c s a s' cut Hmd Hn0 Hcut H)
    as (_ & _ & _ & _ & Hvals).
  intros k Hk.
  destruct (Hvals e Hprep k Hk) as (b & l & tot & Hin & Hl & Hb & Htot & Hv).
  pose proof (sample_filter_length to_keV m c cut Hcut) as Hclen.
  destruct (prepare_lengths to_keV m c cut e Hclen Hprep)
    as (Hnc & _ & Hnrm & HZ & HeZ & _).
  assert (Hbl : (b + l <= Thermal.num_cells e)%nat).
  { destruct (batches_spec (Thermal.num_cells e)) as [_ HF].
    rewrite Forall_forall in HF. specialize (HF _ Hin). cbv zeta in HF.
    destruct (seq_hd_last b l Hl) as [Hh Hla]. rewrite Hh, Hla in HF. lia. }
  pose proof (tot_spec_shape m e (count_true cut) b l tot HZ HeZ
                ltac:(lia) Htot) as Hshape.
  apply has_shape_spec in Hshape. destruct Hshape as [Hrows _].
  destruct (seq_hd_last b l Hl) as [Hh Hla].
  exists (seq b l), tot. rewrite Hh, Hla.
  split; [exact Hin|]. split; [apply in_seq; lia|]. split; [exact Htot|].
  rewrite Hv, (field_values_nth m md e b l tot (k - b) Hmd) by lia.
  replace (b + (k - b))%nat with k by lia. reflexivity.
Qed.

Lemma thermal_field_prepare_example :
  { e | Thermal.prepare (fun x => x) Fixtures.apec Fixtures.chunk
          [false; true; true] = Some e }.
Proof. eexists. unfold Thermal.prepare. run_model. reflexivity. Defined.

Lemma thermal_field_values_witness :
  exists a s' e ck tot,
    Thermal.process_data_from Fixtures.counter (fun x => x) 1
      Fixtures.apec photon_field Fixtures.chunk O
    = Some (RArray a, s')
    /\ Thermal.prepare (fun x => x) Fixtures.apec Fixtures.chunk
         [false; true; true] = Some e
    /\ In 1%nat ck
    /\ nth (nth 1 (Thermal.idxs e) O) (data a) 0
       = np_sum (nth (1 - hd O ck) tot []) * nth 1 (Thermal.cell_nrm e) 0.
Proof.
  destruct thermal_field_example as (a & s' & H).
  destruct thermal_field_prepare_example as (e & He).
  destruct (thermal_field_values Fixtures.counter (fun x => x) 1
              Fixtures.apec photon_field Fixtures.chunk O a s'
              [false; true; true] e (or_introl eq_refl)
              ltac:(cbv; discriminate) thermal_field_filter_example He H)
    as [_ Hv].
  destruct (prepare_lengths (fun x => x) Fixtures.apec Fixtures.chunk
              [false; true; true] e eq_refl He) as (Hn & _).
  destruct (Hv 1%nat ltac:(rewrite Hn; cbv; lia)) as (ck & tot & _ & Hk & _ & Hval).
  exists a, s', e, ck, tot. auto.
Defined.

(** ** The thermal engine: the spectrum mode *)

Lemma col_sums_length c (M : matrix) :
  Forall (fun row => length row = c) M -> length (col_sums c M) = c.
Proof.
  induction 1 as [|row M Hrow HF IH].
  - apply repeat_length.
  - change (col_sums c (row :: M)) with (zip_with Rplus row (col_sums c M)).
    rewrite zip_with_length. lia.
Qed.

Lemma np_sum_zip_zeros c w : np_sum (zip_with Rmult (repeat 0 c) w) = 0.
Proof.
  revert w; induction c as [|c IH]; intros [|x w]; simpl; auto.
  rewrite IH. lra.
Qed.

Lemma np_sum_zip_mult_plus a b w :
  length a = length b ->
  np_sum (zip_with Rmult (zip_with Rplus a b) w)
  = np_sum (zip_with Rmult a w) + np_sum (zip_with Rmult b w).
Proof.
  revert b w; induction a as [|x a IH]; intros [|y b] [|z w] H; simpl in *;
    try lia; try lra.
  rewrite IH by lia. lra.
Qed.

Lemma np_sum_zip_scale zi row w :
  np_sum (zip_with Rmult (map (Rmult zi) row) w)
  = zi * np_sum (zip_with Rmult row w).
Proof.
  revert w; induction row as [|x row IH]; intros [|y w]; simpl; try lra.
  rewrite IH. lra.
Qed.

Lemma np_sum_col_sums c (M : matrix) :
  Forall (fun row => length row = c) M ->
  np_sum (col_sums c M) = np_sum (row_sums M).
Proof.
  induction 1 as [|row M Hrow HF IH].
  - apply np_sum_repeat_0.
  - pose proof (col_sums_length c M HF) as Hl.
    change (col_sums c (row :: M)) with (zip_with Rplus row (col_sums c M)).
    rewrite np_sum_zip_plus by lia. rewrite IH. reflexivity.
Qed.

Lemma np_sum_col_sums_weighted c (M : matrix) w :
  Forall (fun row => length row = c) M ->
  np_sum (zip_with Rmult (col_sums c M) w) = np_sum (row_sums (mul_cols M w)).
Proof.
  induction 1 as [|row M Hrow HF IH].
  - apply np_sum_zip_zeros.
  - pose proof (col_sums_length c M HF) as Hl.
    change (col_sums c (row :: M)) with (zip_with Rplus row (col_sums c M)).
    rewrite np_sum_zip_mult_plus by lia. rewrite IH. reflexivity.
Qed.

Lemma row_sums_scale_rows z (M : matrix) :
  np_sum (row_sums (scale_rows z M)) = np_sum (zip_with Rmult (row_sums M) z).
Proof.
  revert M; induction z as [|zi z IH]; intros [|row M]; simpl; auto.
  rewrite np_sum_scale. specialize (IH M). unfold scale_rows in IH.
  rewrite IH. lra.
Qed.

Lemma row_sums_mul_cols_scale z (M : matrix) w :
  np_sum (row_sums (mul_cols (scale_rows z M) w))
  = np_sum (zip_with Rmult (row_sums (mul_cols M w)) z).
Proof.
  revert M; induction z as [|zi z IH]; intros [|row M]; simpl; auto.
  rewrite np_sum_zip_scale. specialize (IH M).
  unfold scale_rows in IH. rewrite IH. lra.
Qed.

Section SpectrumLoop.
Variable G : PRNG.
Variable m : Thermal.ThermalSourceModel.
Variable e : Thermal.eligible.
Variables n N : nat.
Hypothesis nrm_len : length (Thermal.cell_nrm e) = n.
Hypothesis Z_len : (n <= length (Thermal.metalZ e))%nat.
Hypothesis eZ_len : Forall (fun row => length row = n) (Thermal.elemZ e).

Lemma use_spectrum_spectrum st (s : RandomState G) a l tot st' s' :
  (a + l <= n)%nat ->
  has_shape l (Thermal.nchan m) tot = true ->
  length (Thermal.spec st) = Thermal.nchan m ->
  Thermal.use_spectrum G m spectrum e st s a (a + l) tot = Some (st', s') ->
  s' = s
  /\ Thermal.ret st' = Thermal.ret st
  /\ length (Thermal.spec st') = Thermal.nchan m
  /\ forall md, md = photon_field \/ md = energy_field ->
       weighted_total m md (Thermal.spec st')
       = weighted_total m md (Thermal.spec st)
         + np_sum (field_values_of m md e a (a + l) tot).
Proof.
  intros Hal Htot Hlen H. simpl in H. inversion H; subst st' s'; clear H.
  simpl.
  assert (Hrows : Forall (fun row => length row = Thermal.nchan m)
                         (scale_rows (slice a (a + l) (Thermal.cell_nrm e))
                                     tot)).
  { assert (Hs : length (slice a (a + l) (Thermal.cell_nrm e)) = l)
      by (rewrite slice_length by lia; lia).
    pose proof (has_shape_scale_rows l (Thermal.nchan m) _ tot Hs Htot) as Hsc.
    apply has_shape_spec in Hsc. exact (proj2 Hsc). }
  pose proof (col_sums_length _ _ Hrows) as Hcl.
  split; [reflexivity|]. split; [reflexivity|]. split.
  - rewrite zip_with_length. lia.
  - intros md [Hmd|Hmd]; subst md; unfold weighted_total, field_values_of.
    + rewrite np_sum_zip_plus by lia.
      rewrite np_sum_col_sums by exact Hrows.
      rewrite row_sums_scale_rows. reflexivity.
    + rewrite np_sum_zip_mult_plus by lia.
      rewrite np_sum_col_sums_weighted by exact Hrows.
      rewrite row_sums_mul_cols_scale. reflexivity.
Qed.

Lemma batch_loop_spectrum cks :
  forall a st (s : RandomState G) st' s',
    chain a cks n ->
    length (Thermal.spec st) = Thermal.nchan m ->
    Thermal.batch_loop G m spectrum e cks st s = Some (st', s') ->
    s' = s /\ length (Thermal.spec st') = Thermal.nchan m.
Proof.
  induction cks as [|ck cks IH]; intros a st s st' s' Hch Hlen H; simpl in *.
  - inversion H; subst. auto.
  - destruct Hch as (l & Hl & Hal & -> & Hch).
    destruct (Thermal.batch_step G m spectrum e st s (seq a l))
      as [[st1 s1]|] eqn:Hstep; [|discriminate].
    unfold Thermal.batch_step in Hstep.
    destruct (seq_hd_last a l Hl) as [Hh Hla]. rewrite Hh, Hla in Hstep.
    destruct (Thermal.tot_spec m e a (a + l)) as [tot|] eqn:Htot;
      [|discriminate].
    pose proof (tot_spec_shape m e n a l tot Z_len eZ_len Hal Htot) as Hshape.
    destruct (use_spectrum_spectrum _ _ _ _ _ _ _ Hal Hshape Hlen Hstep)
      as (-> & _ & Hlen1 & _).
    exact (IH _ _ _ _ _ Hch Hlen1 H).
Qed.

Hypothesis idx_len : length (Thermal.idxs e) = n.
Hypothesis idx_incr :
  forall p q, (p < q)%nat -> (q < n)%nat ->
              (nth p (Thermal.idxs e) O < nth q (Thermal.idxs e) O)%nat.
Hypothesis idx_range :
  forall p, (p < n)%nat -> (nth p (Thermal.idxs e) O < N)%nat.
Variable md : mode.
Hypothesis field_mode : md = photon_field \/ md = energy_field.

(** The spectrum accumulated by the spectrum mode and the array filled by
    a field mode grow by the same total in every batch. *)
Lemma batch_loop_flux_balance cks :
  forall a st1 st2 (s1 s2 : RandomState G) st1' st2' s1' s2',
    chain a cks n ->
    length (Thermal.spec st1) = Thermal.nchan m ->
    length (Thermal.ret st2) = N ->
    (forall k, (a <= k < n)%nat ->
               nth (nth k (Thermal.idxs e) O) (Thermal.ret st2) 0 = 0) ->
    Thermal.batch_loop G m spectrum e cks st1 s1 = Some (st1', s1') ->
    Thermal.batch_loop G m md e cks st2 s2 = Some (st2', s2') ->
    weighted_total m md (Thermal.spec st1')
    - weighted_total m md (Thermal.spec st1)
    = np_sum (Thermal.ret st2') - np_sum (Thermal.ret st2).
Proof.
  induction cks as [|ck cks IH];
    intros a st1 st2 s1 s2 st1' st2' s1' s2' Hch Hlen1 Hlen2 Hzero H1 H2;
    simpl in *.
  - inversion H1; inversion H2; subst. lra.
  - destruct Hch as (l & Hl & Hal & -> & Hch).
    destruct (Thermal.batch_step G m spectrum e st1 s1 (seq a l))
      as [[sta sa]|] eqn:Hstep1; [|discriminate].
    destruct (Thermal.batch_step G m md e st2 s2 (seq a l))
      as [[stb sb]|] eqn:Hstep2; [|discriminate].
    unfold Thermal.batch_step in Hstep1, Hstep2.
    destruct (seq_hd_last a l Hl) as [Hh Hla].
    rewrite Hh, Hla in Hstep1, Hstep2.
    destruct (Thermal.tot_spec m e a (a + l)) as [tot|] eqn:Htot;
      [|discriminate].
    pose proof (tot_spec_shape m e n a l tot Z_len eZ_len Hal Htot) as Hshape.
    destruct (use_spectrum_spectrum _ _ _ _ _ _ _ Hal Hshape Hlen1 Hstep1)
      as (_ & _ & Hlena & Hsuma).
    specialize (Hsuma md field_mode).
    destruct (use_spectrum_field G m md field_mode e _ _ _ _ _ _ _ Hstep2)
      as [_ Hretb].
    assert (Hnd : NoDup (slice a (a + l) (Thermal.idxs e)))
      by (apply (slice_idxs_NoDup e n nrm_len Z_len idx_len idx_incr);
          exact Hal).
    assert (Hvl : length (field_values_of m md e a (a + l) tot) = l).
    { exact (field_values_length m md field_mode e n
               nrm_len Z_len idx_len a l tot Hal Hshape). }
    assert (Hsumb : np_sum (Thermal.ret stb)
                    = np_sum (Thermal.ret st2)
                      + np_sum (field_values_of m md e a (a + l) tot)).
    { rewrite Hretb. apply np_sum_scatter.
      - exact Hnd.
      - rewrite slice_length by lia. lia.
      - apply Forall_forall. intros j Hj.
        destruct (slice_idxs_In e n nrm_len Z_len idx_len a l j Hal Hj)
          as (k & Hk & ->).
        split; [rewrite Hlen2; apply idx_range; lia|].
        apply Hzero. lia. }
    assert (Hlenb : length (Thermal.ret stb) = N)
      by (rewrite Hretb, scatter_length; exact Hlen2).
    assert (Hzerob : forall k, (a + l <= k < n)%nat ->
               nth (nth k (Thermal.idxs e) O) (Thermal.ret stb) 0 = 0).
    { intros k Hk. rewrite Hretb, scatter_nth_other; [apply Hzero; lia|].
      intros Hin.
      destruct (slice_idxs_In e n nrm_len Z_len idx_len a l _ Hal Hin)
        as (k' & Hk' & E).
      pose proof (idx_incr k' k ltac:(lia) ltac:(lia)). lia. }
    pose proof (IH _ _ _ _ _ _ _ _ _ Hch Hlena Hlenb Hzerob H1 H2) as Hrest.
    lra.
Qed.
End SpectrumLoop.

Section SpectrumRun.
Variable G : PRNG.
Variable to_keV : R -> R.

(** A spectrum-mode call on a chunk with at least one eligible cell. *)
Lemma thermal_spectrum_facts cap0 m c (s : RandomState G) a s' cut :
  Thermal.orig_ncells c <> O ->
  Thermal.sample_filter to_keV m c = Some cut ->
  count_true cut <> O ->
  Thermal.process_data_from G to_keV cap0 m spectrum c s = Some (RArray a, s') ->
  s' = s /\ shape a = [Thermal.nchan m]
  /\ length (data a) = Thermal.nchan m.
Proof.
  intros Hn0 Hcut Hcnt. unfold Thermal.process_data_from.
  apply Nat.eqb_neq in Hn0, Hcnt. rewrite Hn0, Hcut, Hcnt.
  unfold Thermal.run_batches.
  destruct (Thermal.prepare to_keV m c cut) as [e|] eqn:Hprep;
    [|discriminate].
  destruct (Thermal.batch_loop G m spectrum e _ _ s) as [[st s1]|] eqn:Hloop;
    [|discriminate].
  intros H. inversion H; subst a s1; clear H. simpl.
  pose proof (sample_filter_length to_keV m c cut Hcut) as Hclen.
  destruct (prepare_lengths to_keV m c cut e Hclen Hprep)
    as (Hnc & _ & Hnrm & HZ & HeZ & _).
  rewrite Hnc in Hloop.
  destruct (batch_loop_spectrum G m e (count_true cut) Hnrm HZ HeZ _ O
              (Thermal.init_state m e (Thermal.orig_ncells c) cap0)
              s st s' (batches_chain _)
              (repeat_length 0 (Thermal.nchan m)) Hloop) as [Hs Hlen].
  auto.
Qed.

(** The spectrum of a chunk and a field of the same chunk have the same
    total. *)
Lemma thermal_spectrum_total cap1 cap2 m md c (s1 s2 : RandomState G)
      sp fd s1' s2' :
  md = photon_field \/ md = energy_field ->
  Thermal.process_data_from G to_keV cap1 m spectrum c s1
  = Some (RArray sp, s1') ->
  Thermal.process_data_from G to_keV cap2 m md c s2 = Some (RArray fd, s2') ->
  weighted_total m md (data sp) = np_sum (data fd).
Proof.
  intros Hmd. unfold Thermal.process_data_from.
  destruct (Thermal.orig_ncells c =? 0)%nat eqn:E0.
  { intros H1 H2.
    assert (Hfd : fd = np_empty) by (destruct Hmd; subst md; inversion H2; auto).
    inversion H1; subst. destruct Hmd; subst md; reflexivity. }
  apply Nat.eqb_neq in E0. pose proof (orig_ncells_prod c E0) as HN.
  destruct (Thermal.sample_filter to_keV m c) as [cut|] eqn:Hcut;
    [|discriminate].
  destruct (count_true cut =? 0)%nat eqn:Ecnt.
  { intros H1 H2.
    assert (Hfd : fd = np_zeros (orig_shape c))
      by (destruct Hmd; subst md; inversion H2; auto).
    inversion H1; subst. simpl. rewrite np_sum_repeat_0.
    destruct Hmd; subst md; unfold weighted_total;
      [apply np_sum_repeat_0|apply np_sum_zip_zeros]. }
  unfold Thermal.run_batches.
  destruct (Thermal.prepare to_keV m c cut) as [e|] eqn:Hprep;
    [|discriminate].
  destruct (Thermal.batch_loop G m spectrum e _ _ s1) as [[st1 sa]|] eqn:Hl1;
    [|discriminate].
  destruct (Thermal.batch_loop G m md e _ _ s2)
    as [[st2 sb]|] eqn:Hl2; [|discriminate].
  intros H1 H2.
  assert (Hfd : fd = np_resize (Thermal.ret st2) (orig_shape c))
    by (destruct Hmd; subst md; inversion H2; auto).
  inversion H1; subst sp fd; clear H1 H2.
  pose proof (sample_filter_length to_keV m c cut Hcut) as Hclen.
  destruct (prepare_lengths to_keV m c cut e Hclen Hprep)
    as (Hnc & _ & Hnrm & HZ & HeZ & Hidx).
  pose proof (prepare_idxs to_keV m c cut e Hprep) as Hwhere.
  assert (Hincr : forall p q, (p < q)%nat -> (q < count_true cut)%nat ->
              (nth p (Thermal.idxs e) O < nth q (Thermal.idxs e) O)%nat).
  { intros p q Hpq Hq. apply sorted_lt_nth; [|exact Hpq|lia].
    rewrite Hwhere. apply where_from_sorted. }
  assert (Hrange : forall p, (p < count_true cut)%nat ->
              (nth p (Thermal.idxs e) O < Thermal.orig_ncells c)%nat).
  { intros p Hp. rewrite HN, <- Hclen. apply np_where_range.
    rewrite <- Hwhere. apply nth_In. lia. }
  rewrite Hnc in Hl1, Hl2.
  pose proof (batch_loop_flux_balance G m e (count_true cut)
                (Thermal.orig_ncells c) Hnrm HZ HeZ Hidx Hincr Hrange
                md Hmd
                _ O (Thermal.init_state m e (Thermal.orig_ncells c) cap1)
                (Thermal.init_state m e (Thermal.orig_ncells c) cap2)
                s1 s2 st1 st2 sa sb (batches_chain _)
                (repeat_length 0 (Thermal.nchan m))
                (repeat_length 0 (Thermal.orig_ncells c))
                (fun k _ => nth_repeat 0 (Thermal.orig_ncells c) _)
                Hl1 Hl2) as Hbal.
  assert (H0 : weighted_total m md (repeat 0 (Thermal.nchan m)) = 0).
  { destruct Hmd; subst md; unfold weighted_total;
      [apply np_sum_repeat_0|apply np_sum_zip_zeros]. }
  simpl in Hbal. rewrite H0, np_sum_repeat_0 in Hbal.
  destruct (batch_loop_field G m md Hmd e
              (count_true cut) (Thermal.orig_ncells c) Hnrm HZ HeZ Hidx
              Hincr Hrange _ O
              (Thermal.init_state m e (Thermal.orig_ncells c) cap2)
              s2 st2 sb (batches_chain _)
              (repeat_length 0 (Thermal.orig_ncells c)) Hl2)
    as (_ & Hlen & _).
  rewrite np_resize_same by (rewrite Hlen; exact HN). simpl. lra.
Qed.
End SpectrumRun.

(** X3.  The spectrum mode and the field modes of the thermal engine
    account for the same emission: whenever both calls return on a chunk,
    the entries of the spectrum summed over the bins equal the entries of
    the photon field summed over the cells, and the entries of the spectrum
    times the mid energies of their bins, summed over the bins, equal the
    entries of the energy field summed over the cells. *)
Theorem thermal_spectrum_total_is_field_total :
  forall (G : PRNG) (to_keV : R -> R) (cap1 cap2 : nat)
         (m : Thermal.ThermalSourceModel) (md : mode) (c : Chunk)
         (s1 s2 : RandomState G) (sp fd : ndarray) (s1' s2' : RandomState G),
    md = photon_field \/ md = energy_field ->
    Thermal.process_data_from G to_keV cap1 m spectrum c s1
    = Some (RArray sp, s1') ->
    Thermal.process_data_from G to_keV cap2 m md c s2
    = Some (RArray fd, s2') ->
    match md with
    | energy_field => np_sum (zip_with Rmult (data sp) (Thermal.emid m))
    | _ => np_sum (data sp)
    end = np_sum (data fd).
Proof.
  intros G to_keV cap1 cap2 m md c s1 s2 sp fd s1' s2' Hmd H1 H2.
  exact (thermal_spectrum_total G to_keV cap1 cap2 m md c s1 s2 sp fd s1' s2'
           Hmd H1 H2).
Qed.

Lemma thermal_spectrum_example :
  { sp : ndarray &
    { s' | Thermal.process_data_from Fixtures.counter (fun x => x) 1
             Fixtures.apec spectrum Fixtures.chunk O
           = Some (RArray sp, s') } }.
Proof.
  do 2 eexists. unfold Thermal.process_data_from, Thermal.run_batches.
  run_model. reflexivity.
Defined.

Lemma thermal_energy_field_example :
  { a : ndarray &
    { s' | Thermal.process_data_from Fixtures.counter (fun x => x) 1
             Fixtures.apec energy_field Fixtures.chunk O
           = Some (RArray a, s') } }.
Proof.
  do 2 eexists. unfold Thermal.process_data_from, Thermal.run_batches.
  run_model. reflexivity.
Defined.

Lemma thermal_spectrum_total_is_field_total_witness :
  exists sp fd s1 s2,
    Thermal.process_data_from Fixtures.counter (fun x => x) 1
      Fixtures.apec spectrum Fixtures.chunk O
    = Some (RArray sp, s1)
    /\ Thermal.process_data_from Fixtures.counter (fun x => x) 1
         Fixtures.apec energy_field Fixtures.chunk O
       = Some (RArray fd, s2)
    /\ np_sum (zip_with Rmult (data sp) [3 / 2; 5 / 2]) = np_sum (data fd).
Proof.
  destruct thermal_spectrum_example as (sp & s1 & H1).
  destruct thermal_energy_field_example as (fd & s2 & H2).
  exists sp, fd, s1, s2. split; [exact H1|]. split; [exact H2|].
  exact (thermal_spectrum_total_is_field_total Fixtures.counter
           (fun x => x) 1 1 Fixtures.apec energy_field Fixtures.chunk O O
           sp fd s1 s2 (or_intror eq_refl) H1 H2).
Defined.

(** ** The thermal engine: which modes draw random numbers *)

Lemma batch_loop_no_draw (G : PRNG) m md e cks :
  md <> photons ->
  forall st (s : RandomState G) st' s',
    Thermal.batch_loop G m md e cks st s = Some (st', s') -> s' = s.
Proof.
  intros Hmd. induction cks as [|ck cks IH]; intros st s st' s' H; simpl in H.
  - inversion H; reflexivity.
  - destruct (Thermal.batch_step G m md e st s ck) as [[st1 s1]|] eqn:Hstep;
      [|discriminate].
    apply IH in H. subst s'. unfold Thermal.batch_step in Hstep.
    destruct (Thermal.tot_spec m e _ _) as [tot|]; [|discriminate].
    destruct md; try congruence; simpl in Hstep; inversion Hstep; reflexivity.
Qed.

(** X4.  Only the photons mode consumes random numbers: a call of
    [process_data] in the photon_field, energy_field or spectrum mode that
    returns leaves the generator of the instance in the state it found it
    in, for the thermal, the power-law and the line engine. *)
Theorem only_photons_mode_draws :
  forall (G : PRNG) (to_keV : R -> R) (gcdf : list R) (clight : R)
         (md : mode),
    md <> photons ->
    (forall cap0 m c (s : RandomState G) r s',
        Thermal.process_data_from G to_keV cap0 m md c s = Some (r, s') ->
        s' = s)
    /\ (forall m c emid (s : RandomState G) r s',
           PowerLaw.process_data G m md c emid s = Some (r, s') -> s' = s)
    /\ (forall m c ebins (s : RandomState G) r s',
           Line.process_data G gcdf clight m md c ebins s = Some (r, s') ->
           s' = s).
Proof.
  intros G to_keV gcdf clight md Hmd. split; [|split].
  - intros cap0 m c s r s'. unfold Thermal.process_data_from.
    destruct (Thermal.orig_ncells c =? 0)%nat.
    { destruct md; try congruence; intros H; inversion H; reflexivity. }
    destruct (Thermal.sample_filter to_keV m c) as [cut|]; [|discriminate].
    destruct (count_true cut =? 0)%nat.
    { destruct md; try congruence; intros H; inversion H; reflexivity. }
    unfold Thermal.run_batches.
    destruct (Thermal.prepare to_keV m c cut) as [e|]; [|discriminate].
    destruct (Thermal.batch_loop G m md e _ _ s) as [[st s1]|] eqn:Hloop;
      [|discriminate].
    intros H; inversion H; subst.
    exact (batch_loop_no_draw G m md e _ Hmd _ _ _ _ Hloop).
  - intros m c emid s r s'. unfold PowerLaw.process_data.
    destruct md; try congruence.
    destruct emid as [mid|]; [|discriminate].
    destruct (broadcast2 _ mid _); [|discriminate].
    intros H; inversion H; reflexivity.
  - intros m c ebins s r s'. unfold Line.process_data.
    destruct md; try congruence.
    destruct ebins as [eb|]; [|discriminate].
    destruct (Line.line_spectrum gcdf clight m c eb); [|discriminate].
    intros H; inversion H; reflexivity.
Qed.

Lemma only_photons_mode_draws_witness :
  exists sp s',
    Thermal.process_data_from Fixtures.counter (fun x => x) 1
      Fixtures.apec spectrum Fixtures.chunk 5%nat
    = Some (RArray sp, s')
    /\ s' = 5%nat.
Proof.
  assert (H : { sp : ndarray &
                { s' | Thermal.process_data_from Fixtures.counter
                         (fun x => x) 1 Fixtures.apec spectrum
                         Fixtures.chunk 5%nat
                       = Some (RArray sp, s') } }).
  { do 2 eexists. unfold Thermal.process_data_from, Thermal.run_batches.
    run_model. reflexivity. }
  destruct H as (sp & s' & H). exists sp, s'. split; [exact H|].
  exact (proj1 (only_photons_mode_draws Fixtures.counter (fun x => x) [] 1
                  spectrum ltac:(discriminate))
           1%nat Fixtures.apec Fixtures.chunk 5%nat (RArray sp) s' H).
Defined.

(** ** The thermal engine: the cells and counts of a population *)

(** X5.  The cell indices of a population returned by the thermal engine
    are strictly increasing, each of them is a cell of the chunk that the
    filter accepts, and every returned count is positive. *)
Theorem thermal_photons_indices :
  forall (G : PRNG) (to_keV : R -> R) (cap0 : nat)
         (m : Thermal.ThermalSourceModel) (c : Chunk) (s : RandomState G)
         (ncells : nat) (counts idx : list nat) (ee : list R)
         (s' : RandomState G) (cut : list bool),
    Thermal.sample_filter to_keV m c = Some cut ->
    Thermal.process_data_from G to_keV cap0 m photons c s
    = Some (RPhotons ncells counts (Indices idx) ee, s') ->
    StronglySorted lt idx
    /\ Forall (fun i => (i < np_prod (orig_shape c))%nat
                        /\ nth i cut false = true) idx
    /\ Forall (fun n => (0 < n)%nat) counts.
Proof.
  intros G to_keV cap0 m c s ncells counts idx ee s' cut Hcut.
  unfold Thermal.process_data_from.
  destruct (Thermal.orig_ncells c =? 0)%nat; [discriminate|].
  rewrite Hcut.
  destruct (count_true cut =? 0)%nat; [discriminate|].
  unfold Thermal.run_batches.
  destruct (Thermal.prepare to_keV m c cut) as [e|] eqn:Hprep;
    [|discriminate].
  destruct (Thermal.batch_loop G m photons e _ _ s) as [[st s1]|];
    [|discriminate].
  intros H. injection H as _ Hc Hi _ _.
  pose proof (prepare_idxs to_keV m c cut e Hprep) as Hwhere.
  pose proof (sample_filter_length to_keV m c cut Hcut) as Hclen.
  subst idx counts. rewrite Hwhere. split; [|split].
  - apply mask_select_sorted. apply where_from_sorted.
  - apply Forall_forall. intros i Hin. apply mask_select_In in Hin.
    split; [rewrite <- Hclen; apply np_where_range; exact Hin|].
    apply np_where_In. exact Hin.
  - rewrite mask_select_active_filter. apply Forall_forall. intros k Hk.
    apply filter_In in Hk. destruct Hk as [_ Hk]. apply Nat.ltb_lt in Hk.
    exact Hk.
Qed.

Lemma thermal_photons_indices_witness :
  exists ee s',
    Thermal.process_data_from Fixtures.counter (fun x => x) 1
      Fixtures.apec photons Fixtures.chunk O
    = Some (RPhotons 1 [2%nat] (Indices [2%nat]) ee, s')
    /\ Forall (fun i => (i < 3)%nat
                        /\ nth i [false; true; true] false = true) [2%nat].
Proof.
  destruct thermal_run as (ee & s' & H).
  exists ee, s'. split; [exact H|].
  exact (proj1 (proj2 (thermal_photons_indices Fixtures.counter (fun x => x) 1
                         Fixtures.apec Fixtures.chunk O 1%nat [2%nat] [2%nat]
                         ee s' [false; true; true]
                         thermal_field_filter_example H))).
Defined.

(** ** The thermal engine: energies by sampling method *)

Lemma take_In {A : Type} (l : list A) idx r :
  take l idx = Some r -> Forall (fun x => In x l) r.
Proof.
  revert r; induction idx as [|i idx IH]; intros r H; simpl in H.
  - inversion H. constructor.
  - destruct (nth_error l i) as [x|] eqn:Hx; [|discriminate].
    destruct (take l idx) as [r'|]; [|discriminate].
    inversion H; subst. constructor; [|apply IH; reflexivity].
    eapply nth_error_In; eauto.
Qed.

Section PhotonContent.
Variable G : PRNG.
Variable to_keV : R -> R.
Variable P : R -> Prop.
Variable m : Thermal.ThermalSourceModel.
Hypothesis sampled :
  forall cn cp_row p_row (s : RandomState G) cell_e s1,
    Thermal.sample_cell G m cn cp_row p_row s = Some (cell_e, s1) ->
    Forall P cell_e.

(** The energies of a population are the values the cells were given by
    the sampling method, raised to the power of ten on a log scale. *)
Lemma thermal_photons_content cap0 c s ncells counts sel ee s' :
  Thermal.process_data_from G to_keV cap0 m photons c s
  = Some (RPhotons ncells counts sel ee, s') ->
  exists raw,
    Forall P raw
    /\ ee = match Thermal.binscale m with
            | Thermal.log => map np_pow10 raw
            | Thermal.linear => raw
            end.
Proof.
  unfold Thermal.process_data_from.
  destruct (Thermal.orig_ncells c =? 0)%nat; [discriminate|].
  destruct (Thermal.sample_filter to_keV m c) as [cut|] eqn:Hcut;
    [|discriminate].
  destruct (count_true cut =? 0)%nat; [discriminate|].
  destruct (Thermal.run_batches G to_keV cap0 m photons c cut s)
    as [[[e st] s1]|] eqn:Hrun; [|discriminate].
  intros H. injection H as _ _ _ Hee _.
  exists (firstn (Thermal.end_e st) (Thermal.energies (Thermal.buf st))).
  split; [|symmetry; exact Hee].
  unfold Thermal.run_batches in Hrun.
  destruct (Thermal.prepare to_keV m c cut) as [e0|] eqn:Hprep;
    [|discriminate].
  destruct (Thermal.batch_loop G m photons e0 _ _ s) as [[st0 s0]|] eqn:Hloop;
    [|discriminate].
  injection Hrun as -> -> ->.
  pose proof (sample_filter_length to_keV m c cut Hcut) as Hlen.
  destruct (prepare_lengths to_keV m c cut e Hlen Hprep)
    as (Hn & _ & Hnrm & HZ & HeZ & _).
  rewrite Hn in Hloop.
  refine (batch_loop_photons_content G P m sampled e (count_true cut) _
            Hnrm HZ HeZ O _ s st s1 (batches_chain _) _ _ Hloop).
  - unfold photons_inv, Thermal.init_state; simpl.
    rewrite Hn, !repeat_length, Nat.sub_0_r, nat_sum_repeat_0.
    repeat split; lia.
  - simpl. constructor.
Qed.
End PhotonContent.

(** X6.  Under the accept_reject method every energy of a population is
    the mid energy of one of the bins of the spectral table (ten to the
    power of such a mid energy when the bins are on a log scale). *)
Theorem accept_reject_energies_are_bin_midpoints :
  forall (G : PRNG) (to_keV : R -> R) (cap0 : nat)
         (m : Thermal.ThermalSourceModel) (c : Chunk) (s : RandomState G)
         (ncells : nat) (counts : list nat) (sel : selector) (ee : list R)
         (s' : RandomState G),
    Thermal.method m = Thermal.accept_reject ->
    Thermal.process_data_from G to_keV cap0 m photons c s
    = Some (RPhotons ncells counts sel ee, s') ->
    Forall (fun x => In x match Thermal.binscale m with
                          | Thermal.log => map np_pow10 (Thermal.emid m)
                          | Thermal.linear => Thermal.emid m
                          end) ee.
Proof.
  intros G to_keV cap0 m c s ncells counts sel ee s' Hmeth H.
  assert (Hsampled : forall cn cp_row p_row (s0 : RandomState G) cell_e s1,
             Thermal.sample_cell G m cn cp_row p_row s0 = Some (cell_e, s1) ->
             Forall (fun y => In y (Thermal.emid m)) cell_e).
  { intros cn cp_row p_row s0 cell_e s1. unfold Thermal.sample_cell.
    rewrite Hmeth.
    destruct (choice G (Thermal.nchan m) cn p_row s0) as [[eidxs s2]|];
      [|discriminate].
    destruct (take (Thermal.emid m) eidxs) as [r|] eqn:Ht; [|discriminate].
    intros E; injection E as <- _. exact (take_In _ _ _ Ht). }
  destruct (thermal_photons_content G to_keV _ m Hsampled cap0 c s
              _ _ _ _ _ H) as (raw & Hraw & ->).
  destruct (Thermal.binscale m); [exact Hraw|].
  apply Forall_forall. intros x Hx. apply in_map_iff in Hx.
  destruct Hx as (y & <- & Hy). apply in_map.
  rewrite Forall_forall in Hraw. exact (Hraw y Hy).
Qed.

Lemma accept_reject_example :
  { ee : list R &
    { s' | Thermal.process_data_from Fixtures.counter (fun x => x) 1
             (Fixtures.with_method Thermal.accept_reject Fixtures.apec)
             photons Fixtures.chunk O
           = Some (RPhotons 1 [2%nat] (Indices [2%nat]) ee, s') } }.
Proof.
  do 2 eexists. unfold Thermal.process_data_from, Thermal.run_batches.
  run_model. reflexivity.
Defined.

Lemma accept_reject_energies_are_bin_midpoints_witness :
  exists ee s',
    Thermal.process_data_from Fixtures.counter (fun x => x) 1
      (Fixtures.with_method Thermal.accept_reject Fixtures.apec)
      photons Fixtures.chunk O
    = Some (RPhotons 1 [2%nat] (Indices [2%nat]) ee, s')
    /\ Forall (fun x => In x [3 / 2; 5 / 2]) ee.
Proof.
  destruct accept_reject_example as (ee & s' & H).
  exists ee, s'. split; [exact H|].
  exact (accept_reject_energies_are_bin_midpoints Fixtures.counter
           (fun x => x) 1
           (Fixtures.with_method Thermal.accept_reject Fixtures.apec)
           Fixtures.chunk O 1%nat [2%nat] (Indices [2%nat]) ee s'
           eq_refl H).
Defined.

Lemma nat_sum_zero_filter l :
  nat_sum l = O -> filter (fun n => (0 <? n)%nat) l = [].
Proof.
  induction l as [|x l IH]; simpl; auto. intros H.
  assert (x = O) by lia. subst x. simpl. apply IH. simpl in H. exact H.
Qed.

(** X7.  A sampling method other than invert_cdf and accept_reject never
    yields a photon: a photons-mode call with such a method either raises
    or returns nothing or an empty population. *)
Theorem unknown_method_gives_no_photons :
  forall (G : PRNG) (to_keV : R -> R) (cap0 : nat)
         (m : Thermal.ThermalSourceModel) (c : Chunk) (s : RandomState G)
         (r : result) (s' : RandomState G),
    Thermal.method m = Thermal.other_method ->
    Thermal.process_data_from G to_keV cap0 m photons c s = Some (r, s') ->
    r = RNone \/ r = RPhotons 0 [] (Indices []) [].
Proof.
  intros G to_keV cap0 m c s r s' Hmeth H.
  destruct r as [|ncells counts sel ee|a].
  - left; reflexivity.
  - right.
    assert (Hsampled : forall cn cp_row p_row (s0 : RandomState G) cell_e s1,
               Thermal.sample_cell G m cn cp_row p_row s0 = Some (cell_e, s1) ->
               Forall (fun _ : R => False) cell_e).
    { intros cn cp_row p_row s0 cell_e s1. unfold Thermal.sample_cell.
      rewrite Hmeth. discriminate. }
    destruct (thermal_photons_content G to_keV _ m Hsampled cap0 c s
                _ _ _ _ _ H) as (raw & Hraw & Hee).
    assert (raw = []) by (destruct raw; [reflexivity|inversion Hraw; tauto]).
    subst raw.
    assert (Hnil : ee = [])
      by (rewrite Hee; destruct (Thermal.binscale m); reflexivity).
    clear Hee. subst ee.
    destruct (thermal_photons_result G to_keV cap0 m c s _ _ _ _ _ H)
      as (cut & e & st & _ & _ & _ & _ & Hlen & Hsel & Hn & Hcnt & Hidx).
    simpl in Hlen. symmetry in Hlen.
    rewrite (nat_sum_zero_filter _ Hlen) in Hsel. simpl in Hsel.
    rewrite Hsel in Hn, Hcnt. subst ncells.
    destruct counts; [|discriminate].
    destruct sel as [idx|mask]; [|discriminate].
    destruct idx; [reflexivity|discriminate].
  - exfalso. revert H. unfold Thermal.process_data_from.
    destruct (Thermal.orig_ncells c =? 0)%nat; [discriminate|].
    destruct (Thermal.sample_filter to_keV m c) as [cut|]; [|discriminate].
    destruct (count_true cut =? 0)%nat; [discriminate|].
    destruct (Thermal.run_batches G to_keV cap0 m photons c cut s)
      as [[[e st] s1]|]; discriminate.
Qed.

Lemma unknown_method_gives_no_photons_witness :
  Thermal.process_data_from Fixtures.counter (fun x => x) 1
    (Fixtures.with_method Thermal.other_method Fixtures.apec)
    photons Fixtures.dark_chunk O
  = Some (RPhotons 0 [] (Indices []) [], 3%nat)
  /\ (RPhotons 0 [] (Indices []) [] = RNone
      \/ RPhotons 0 [] (Indices []) [] = RPhotons 0 [] (Indices []) []).
Proof.
  assert (H : Thermal.process_data_from Fixtures.counter (fun x => x) 1
                (Fixtures.with_method Thermal.other_method Fixtures.apec)
                photons Fixtures.dark_chunk O
              = Some (RPhotons 0 [] (Indices []) [], 3%nat)).
  { unfold Thermal.process_data_from, Thermal.run_batches.
    run_model. reflexivity. }
  split; [exact H|].
  exact (unknown_method_gives_no_photons Fixtures.counter (fun x => x) 1
           (Fixtures.with_method Thermal.other_method Fixtures.apec)
           Fixtures.dark_chunk O _ _ eq_refl H).
Defined.

(** ** [make_spectrum] of the power-law engine *)

Lemma np_linspace_length lo hi num : length (np_linspace lo hi num) = num.
Proof.
  unfold np_linspace. destruct num as [|[|num]]; simpl; auto.
  rewrite length_map, length_seq. reflexivity.
Qed.

Lemma removelast_length' {A : Type} (l : list A) :
  length (removelast l) = (length l - 1)%nat.
Proof.
  induction l as [|x l IH]; [reflexivity|].
  destruct l as [|y l]; [reflexivity|].
  change (removelast (x :: y :: l)) with (x :: removelast (y :: l)).
  simpl length in *. rewrite IH. lia.
Qed.

Lemma midpoints_length l : length (midpoints l) = (length l - 1)%nat.
Proof.
  unfold midpoints. rewrite zip_with_length, removelast_length'.
  destruct l; simpl; lia.
Qed.

Lemma broadcast2_spec f a b :
  match broadcast2 f a b with
  | Some r =>
      (length a = length b /\ r = zip_with f a b)
      \/ (length a <> length b /\ length a = 1%nat
          /\ r = map (f (nth 0 a 0)) b)
      \/ (length a <> length b /\ length a <> 1%nat /\ length b = 1%nat
          /\ r = map (fun x => f x (nth 0 b 0)) a)
  | None => length a <> length b /\ length a <> 1%nat /\ length b <> 1%nat
  end.
Proof.
  unfold broadcast2. destruct (length a =? length b)%nat eqn:E.
  - apply Nat.eqb_eq in E. left. auto.
  - apply Nat.eqb_neq in E.
    destruct a as [|x [|x' a]]; destruct b as [|y [|y' b]]; simpl in *;
      try lia;
      try (split; [lia|split; lia]);
      try (right; left; split; [lia|split; [lia|reflexivity]]);
      try (right; right; split; [lia|split; [lia|split; [lia|reflexivity]]]).
Qed.

Lemma np_iadd_flat spec r :
  match np_iadd spec (flat r) with
  | Some spec1 =>
      length spec1 = length spec
      /\ ((length r = length spec /\ spec1 = zip_with Rplus spec r)
          \/ (length r <> length spec /\ length r = 1%nat
              /\ spec1 = map (fun y => y + nth 0 r 0) spec))
  | None => length r <> length spec /\ length r <> 1%nat
  end.
Proof.
  unfold np_iadd, flat. simpl.
  destruct (length r =? length spec)%nat eqn:E.
  - apply Nat.eqb_eq in E. split; [rewrite zip_with_length; lia|]. left. auto.
  - apply Nat.eqb_neq in E. destruct (length r =? 1)%nat eqn:E1.
    + apply Nat.eqb_eq in E1. destruct r as [|x [|x' r]]; try discriminate.
      split; [apply length_map|]. right. auto.
    + apply Nat.eqb_neq in E1. auto.
Qed.

Section PowerLawSpectrum.
Variable G : PRNG.
Variable m : PowerLaw.PowerLawSourceModel.
Variable mid : list R.

Let call (c : IOChunk) (s : RandomState G) :=
  PowerLaw.process_data G m spectrum c (Some mid) s.

(** One turn of the loop of [make_spectrum]: the chunk's spectrum is added
    when the chunk has as many cells as there are bins, or one cell, and the
    addition raises otherwise. *)
Lemma plaw_spectrum_turn c (s : RandomState G) spec :
  length spec = length mid ->
  match call c s with
  | Some (RArray a, s1) =>
      match np_iadd spec a with
      | Some spec1 =>
          (io_size c = length mid \/ io_size c = 1%nat)
          /\ s1 = s /\ length spec1 = length spec
          /\ forall j, (j < length mid)%nat ->
               nth j spec1 0
               = nth j spec 0
                 + np_sum (io_get c (PowerLaw.emission_field m))
                   * Rpower (nth j mid 0 / PowerLaw.e0 m)
                            (- nth (if (io_size c =? length mid)%nat
                                    then j else O)
                                   (PowerLaw.alpha_of m c) 0)
      | None => io_size c <> length mid /\ io_size c <> 1%nat
      end
  | Some (_, _) => False
  | None => io_size c <> length mid /\ io_size c <> 1%nat
  end.
Proof.
  intros Hlen. unfold call, PowerLaw.process_data.
  pose proof (plaw_alpha_length m c) as Hal.
  set (f := fun x a : R =>
              np_sum (io_get c (PowerLaw.emission_field m))
              * Rpower (x / PowerLaw.e0 m) (- a)).
  pose proof (broadcast2_spec f mid (PowerLaw.alpha_of m c)) as Hb.
  destruct (broadcast2 f mid (PowerLaw.alpha_of m c)) as [r|]; [|lia].
  pose proof (np_iadd_flat spec r) as Hi.
  destruct (np_iadd spec (flat r)) as [spec1|].
  - destruct Hi as [Hl1 Hi].
    destruct Hb as [[He ->]|[(Hne & H1 & ->)|(Hne & Hn1 & H1 & ->)]].
    + split; [lia|]. split; [reflexivity|]. split; [exact Hl1|].
      intros j Hj.
      assert (E : (io_size c =? length mid)%nat = true)
        by (apply Nat.eqb_eq; lia).
      rewrite E.
      destruct Hi as [[_ ->]|(Hr & _)];
        [|rewrite zip_with_length in Hr; lia].
      rewrite (zip_with_nth Rplus _ _ j 0 0 0)
        by (rewrite ?zip_with_length; lia).
      rewrite (zip_with_nth f _ _ j 0 0 0) by lia. reflexivity.
    + rewrite length_map in Hi.
      destruct Hi as [[Hr _]|(Hr & Hr1 & _)]; lia.
    + rewrite length_map in Hi. split; [lia|]. split; [reflexivity|].
      split; [exact Hl1|]. intros j Hj.
      assert (E : (io_size c =? length mid)%nat = false)
        by (apply Nat.eqb_neq; lia).
      rewrite E.
      destruct Hi as [[_ ->]|(Hr & _)]; [|lia].
      rewrite (zip_with_nth Rplus _ _ j 0 0 0)
        by (rewrite ?length_map; lia).
      rewrite (nth_indep
                 (map (fun x => f x (nth 0 (PowerLaw.alpha_of m c) 0)) mid)
                 0 (f 0 (nth 0 (PowerLaw.alpha_of m c) 0)))
        by (rewrite length_map; lia).
      rewrite (map_nth (fun x => f x (nth 0 (PowerLaw.alpha_of m c) 0))).
      reflexivity.
  - destruct Hi as [Hr Hr1].
    destruct Hb as [[He ->]|[(Hne & H1 & ->)|(Hne & Hn1 & H1 & ->)]].
    + rewrite zip_with_length in Hr. lia.
    + rewrite length_map in Hr, Hr1. lia.
    + rewrite length_map in Hr. lia.
Qed.

Lemma plaw_spectrum_loop chunks :
  forall spec (s : RandomState G),
    length spec = length mid ->
    match spectrum_loop call chunks spec s with
    | Some (spec', s') =>
        Forall (fun c => io_size c = length mid \/ io_size c = 1%nat) chunks
        /\ s' = s /\ length spec' = length mid
        /\ forall j, (j < length mid)%nat ->
             nth j spec' 0
             = nth j spec 0
               + np_sum
                   (map (fun c =>
                           np_sum (io_get c (PowerLaw.emission_field m))
                           * Rpower (nth j mid 0 / PowerLaw.e0 m)
                                    (- nth (if (io_size c =? length mid)%nat
                                            then j else O)
                                           (PowerLaw.alpha_of m c) 0))
                        chunks)
    | None =>
        ~ Forall (fun c => io_size c = length mid \/ io_size c = 1%nat) chunks
    end.
Proof.
  induction chunks as [|c chunks IH]; intros spec s Hlen; simpl.
  - split; [constructor|]. split; [reflexivity|]. split; [exact Hlen|].
    intros j Hj. lra.
  - pose proof (plaw_spectrum_turn c s spec Hlen) as Ht.
    destruct (call c s) as [[[| |a] s1]|]; try contradiction.
    + destruct (np_iadd spec a) as [spec1|].
      * destruct Ht as (Hok & -> & Hl1 & Hv).
        specialize (IH spec1 s ltac:(lia)).
        destruct (spectrum_loop call chunks spec1 s) as [[spec' s']|].
        -- destruct IH as (HF & Hs & Hl' & Hv').
           split; [constructor; assumption|]. split; [exact Hs|].
           split; [exact Hl'|]. intros j Hj.
           rewrite Hv', Hv by exact Hj. lra.
        -- intros HF. inversion HF; subst. contradiction.
      * intros HF. inversion HF; subst. lia.
    + intros HF. inversion HF; subst. lia.
Qed.
End PowerLawSpectrum.

(** X8.  [make_spectrum] of the power-law engine returns exactly when every
    chunk of the data source has as many cells as the requested number of
    bins, or one cell: the spectrum mode combines the bin mid energies with
    the per-cell index array, so a chunk of any other size raises. *)
Theorem plaw_make_spectrum_chunk_sizes :
  forall (G : PRNG) (m : PowerLaw.PowerLawSourceModel)
         (chunks : list IOChunk) (emin emax : R) (nbins : nat)
         (s : RandomState G),
    (exists r, plaw_make_spectrum G m chunks emin emax nbins s = Some r)
    <-> Forall (fun c => io_size c = nbins \/ io_size c = 1%nat) chunks.
Proof.
  intros G m chunks emin emax nbins s. unfold plaw_make_spectrum.
  set (mid := midpoints (np_linspace emin emax (nbins + 1))).
  assert (Hmid : length mid = nbins).
  { unfold mid. rewrite midpoints_length, np_linspace_length. lia. }
  pose proof (plaw_spectrum_loop G m mid chunks (repeat 0 nbins) s
                ltac:(rewrite repeat_length; lia)) as Hloop.
  cbv zeta in Hloop. rewrite Hmid in Hloop.
  destruct (spectrum_loop _ chunks (repeat 0 nbins) s) as [[spec s']|].
  - split; [intros _; exact (proj1 Hloop)|]. intros _. eexists. reflexivity.
  - split; [intros [r Hr]; discriminate|]. intros HF. contradiction.
Qed.

Lemma np_sum_map_mult_r {A : Type} (t : A -> R) (p : R) (l : list A) :
  np_sum (map (fun c => t c * p) l) = np_sum (map t l) * p.
Proof. induction l as [|x l IH]; simpl; [lra|]. rewrite IH. lra. Qed.

Lemma plaw_constant_alpha_nth m c a i :
  PowerLaw.alpha m = Float a -> (i < io_size c)%nat ->
  nth i (PowerLaw.alpha_of m c) 0 = a.
Proof.
  intros Ha Hi. unfold PowerLaw.alpha_of. rewrite Ha.
  rewrite (nth_indep _ 0 (a * 1)) by (rewrite length_map, repeat_length; lia).
  rewrite (map_nth (Rmult a)), nth_repeat. lra.
Qed.

(** X9.  With a constant index [a], the spectrum that [make_spectrum] of the
    power-law engine returns holds, in every bin, the emission of all cells
    of all chunks times the power law [(emid/e0)**(-a)] at the bin's mid
    energy; the bin edges are [nbins+1] equally spaced values from [emin] to
    [emax], and no random number is drawn. *)
Theorem plaw_make_spectrum_constant_index :
  forall (G : PRNG) (m : PowerLaw.PowerLawSourceModel) (a : R)
         (chunks : list IOChunk) (emin emax : R) (nbins : nat)
         (s : RandomState G) (ebins spec : list R) (s' : RandomState G),
    PowerLaw.alpha m = Float a ->
    plaw_make_spectrum G m chunks emin emax nbins s = Some (ebins, spec, s') ->
    ebins = np_linspace emin emax (nbins + 1)
    /\ s' = s
    /\ length spec = nbins
    /\ forall j, (j < nbins)%nat ->
         nth j spec 0
         = np_sum (map (fun c => np_sum (io_get c (PowerLaw.emission_field m)))
                       chunks)
           * Rpower (nth j (midpoints ebins) 0 / PowerLaw.e0 m) (- a).
Proof.
  intros G m a chunks emin emax nbins s ebins spec s' Ha.
  unfold plaw_make_spectrum.
  set (mid := midpoints (np_linspace emin emax (nbins + 1))).
  assert (Hmid : length mid = nbins).
  { unfold mid. rewrite midpoints_length, np_linspace_length. lia. }
  pose proof (plaw_spectrum_loop G m mid chunks (repeat 0 nbins) s
                ltac:(rewrite repeat_length; lia)) as Hloop.
  cbv zeta in Hloop. rewrite Hmid in Hloop.
  destruct (spectrum_loop _ chunks (repeat 0 nbins) s) as [[spec0 s0]|];
    [|discriminate].
  intros H; injection H as <- <- <-.
  destruct Hloop as (HF & Hs & Hlen & Hv).
  split; [reflexivity|]. split; [exact Hs|]. split; [exact Hlen|].
  intros j Hj. rewrite Hv by exact Hj. rewrite nth_repeat.
  fold mid. rewrite <- np_sum_map_mult_r, Rplus_0_l. f_equal.
  apply map_ext_in. intros c Hc. rewrite Forall_forall in HF.
  rewrite (plaw_constant_alpha_nth m c a); [reflexivity|exact Ha|].
  destruct (HF c Hc) as [E|E].
  - rewrite E, Nat.eqb_refl. lia.
  - destruct (io_size c =? nbins)%nat eqn:E'; [apply Nat.eqb_eq in E'|]; lia.
Qed.

Lemma plaw_make_spectrum_example :
  { r : list R * list R * nat
  | plaw_make_spectrum Fixtures.counter Fixtures.plaw_flat
      [Fixtures.plaw_chunk; Fixtures.plaw_cell] 1 3 2 O = Some r }.
Proof.
  eexists. unfold plaw_make_spectrum, PowerLaw.process_data. cbn.
  reflexivity.
Defined.

Lemma plaw_make_spectrum_constant_index_witness :
  exists ebins spec s',
    plaw_make_spectrum Fixtures.counter Fixtures.plaw_flat
      [Fixtures.plaw_chunk; Fixtures.plaw_cell] 1 3 2 O
    = Some (ebins, spec, s')
    /\ length spec = 2%nat
    /\ nth 0 spec 0
       = np_sum (map (fun c => np_sum (io_get c (Fixtures.gas "norm")))
                     [Fixtures.plaw_chunk; Fixtures.plaw_cell])
         * Rpower (nth 0 (midpoints ebins) 0 / 1) (- 2).
Proof.
  destruct plaw_make_spectrum_example as ([[ebins spec] s'] & H).
  exists ebins, spec, s'. split; [exact H|].
  destruct (plaw_make_spectrum_constant_index Fixtures.counter
              Fixtures.plaw_flat 2 _ 1 3 2%nat O ebins spec s' eq_refl H)
    as (_ & _ & Hlen & Hv).
  split; [exact Hlen|]. exact (Hv O ltac:(lia)).
Defined.

(** ** [make_spectrum] of the thermal engine *)

Lemma np_iadd_length spec a spec1 :
  length (data a) = np_prod (shape a) ->
  np_iadd spec a = Some spec1 -> length spec1 = length spec.
Proof.
  unfold np_iadd. intros Hwf.
  destruct (shape a) as [|n [|n' sh]]; simpl in Hwf.
  - destruct (data a) as [|x [|x' d]]; try discriminate.
    intros H; inversion H. apply length_map.
  - destruct (n =? length spec)%nat eqn:E.
    + apply Nat.eqb_eq in E. intros H; inversion H.
      rewrite zip_with_length. lia.
    + destruct (n =? 1)%nat; [|discriminate].
      destruct (data a) as [|x [|x' d]]; try discriminate.
      intros H; inversion H. apply length_map.
  - discriminate.
Qed.

Lemma np_iadd_zeros_fails spec sh :
  sh <> [] -> sh <> [length spec] -> sh <> [1%nat] ->
  np_iadd spec (np_zeros sh) = None.
Proof.
  intros H0 H1 H2. unfold np_iadd, np_zeros. simpl.
  destruct sh as [|n [|n' sh]]; [congruence| |reflexivity].
  destruct (n =? length spec)%nat eqn:E;
    [apply Nat.eqb_eq in E; congruence|].
  destruct (n =? 1)%nat eqn:E1; [apply Nat.eqb_eq in E1; congruence|].
  reflexivity.
Qed.

Lemma np_iadd_empty_fails spec :
  spec <> [] -> np_iadd spec np_empty = None.
Proof.
  intros H. unfold np_iadd, np_empty. simpl.
  destruct spec; [congruence|reflexivity].
Qed.

(** The loop of [make_spectrum] raises as soon as one chunk yields an array
    that cannot be added to the spectrum. *)
Lemma spectrum_loop_fails {G : PRNG} {C : Type}
      (call : C -> RandomState G -> option (result * RandomState G))
      (n : nat) (c : C) (chunks : list C) :
  In c chunks ->
  (forall c' spec s a s1 spec1,
      call c' s = Some (RArray a, s1) -> length spec = n ->
      np_iadd spec a = Some spec1 -> length spec1 = n) ->
  (forall spec s a s1,
      call c s = Some (RArray a, s1) -> length spec = n ->
      np_iadd spec a = None) ->
  forall spec s, length spec = n -> spectrum_loop call chunks spec s = None.
Proof.
  intros Hin Hkeep Hbad. induction chunks as [|c' chunks IH]; [contradiction|].
  intros spec s Hlen. simpl.
  destruct (call c' s) as [[[| |a] s1]|] eqn:Hcall; try reflexivity.
  destruct (np_iadd spec a) as [spec1|] eqn:Hadd; [|reflexivity].
  destruct Hin as [->|Hin].
  - rewrite (Hbad spec s a s1 Hcall Hlen) in Hadd. discriminate.
  - apply IH; [exact Hin|]. exact (Hkeep c' spec s a s1 spec1 Hcall Hlen Hadd).
Qed.

Section ThermalMakeSpectrum.
Variable G : PRNG.
Variable to_keV : R -> R.

(** What the spectrum mode returns is an array with as many entries as its
    shape says. *)
Lemma thermal_spectrum_wellformed cap0 m c (s : RandomState G) a s' :
  Thermal.process_data_from G to_keV cap0 m spectrum c s = Some (RArray a, s') ->
  length (data a) = np_prod (shape a).
Proof.
  intros H. pose proof H as H'. revert H'. unfold Thermal.process_data_from.
  destruct (Thermal.orig_ncells c =? 0)%nat eqn:E0.
  { intros E; inversion E. reflexivity. }
  destruct (Thermal.sample_filter to_keV m c) as [cut|] eqn:Hcut;
    [|discriminate].
  destruct (count_true cut =? 0)%nat eqn:Ecnt.
  { intros E; inversion E. simpl. apply repeat_length. }
  intros _. apply Nat.eqb_neq in E0, Ecnt.
  destruct (thermal_spectrum_facts G to_keV cap0 m c s a s' cut E0 Hcut Ecnt H)
    as (_ & Hsh & Hlen).
  rewrite Hsh, Hlen. simpl. lia.
Qed.

(** The spectrum mode on a chunk without eligible cells. *)
Lemma thermal_spectrum_idle cap0 m c (s : RandomState G) a s' :
  Thermal.orig_ncells c = O
  \/ (exists cut, Thermal.sample_filter to_keV m c = Some cut
                  /\ count_true cut = O) ->
  Thermal.process_data_from G to_keV cap0 m spectrum c s = Some (RArray a, s') ->
  a = np_empty \/ (a = np_zeros (orig_shape c) /\ orig_shape c <> []).
Proof.
  unfold Thermal.process_data_from. intros Hidle.
  destruct (Thermal.orig_ncells c =? 0)%nat eqn:E0.
  { intros E; inversion E. left; reflexivity. }
  apply Nat.eqb_neq in E0.
  destruct Hidle as [Hz|(cut & Hcut & Hcnt)]; [contradiction|].
  rewrite Hcut, Hcnt. simpl. intros E; inversion E. right.
  split; [reflexivity|]. intros Hsh. apply E0. unfold Thermal.orig_ncells.
  rewrite Hsh. reflexivity.
Qed.
End ThermalMakeSpectrum.

(** X10.  [make_spectrum] of the thermal engine raises whenever the data
    source holds a chunk without eligible cells (no cells at all, or none
    that the filter accepts), unless that chunk is one-dimensional with
    one cell or with as many cells as the table has bins: for such a chunk
    the spectrum mode returns an array of the chunk's shape (or an empty
    array), which cannot be added to the spectrum. *)
Theorem thermal_make_spectrum_idle_chunk :
  forall (G : PRNG) (elem_names : list string) (atomic_weights : list R)
         (metal_elem : list nat) (to_keV : R -> R)
         (m : Thermal.ThermalSourceModel) (ds : Dataset)
         (chunks : list Chunk) (s : RandomState G)
         (m' : Thermal.ThermalSourceModel) (c : Chunk),
    Thermal.setup_model elem_names atomic_weights metal_elem m
                        (DataObject ds chunks) 0 1
    = inr m' ->
    In c chunks ->
    Thermal.orig_ncells c = O
    \/ (exists cut, Thermal.sample_filter to_keV m' c = Some cut
                    /\ count_true cut = O) ->
    (0 < Thermal.nchan m')%nat ->
    orig_shape c <> [Thermal.nchan m'] ->
    orig_shape c <> [1%nat] ->
    thermal_make_spectrum G elem_names atomic_weights metal_elem to_keV
                          m ds chunks s = None.
Proof.
  intros G elem_names atomic_weights metal_elem to_keV m ds chunks s m' c
         Hsetup Hin Hidle Hpos Hsh Hsh1.
  unfold thermal_make_spectrum. rewrite Hsetup.
  assert (Hn : Thermal.nchan m'
               = length (Thermal.sm_emid (Thermal.spectral_model m')))
    by apply (setup_model_bin_edges _ _ _ _ _ _ _ _ Hsetup).
  rewrite (spectrum_loop_fails
             (Thermal.process_data G to_keV m' spectrum)
             (Thermal.nchan m') c chunks Hin).
  - reflexivity.
  - intros c' spec s0 a s1 spec1 Hcall Hlen Hadd.
    rewrite <- Hlen. apply (np_iadd_length spec a spec1); [|exact Hadd].
    exact (thermal_spectrum_wellformed G to_keV _ m' c' s0 a s1 Hcall).
  - intros spec s0 a s1 Hcall Hlen.
    destruct (thermal_spectrum_idle G to_keV _ m' c s0 a s1 Hidle Hcall)
      as [->|[-> Hne]].
    + apply np_iadd_empty_fails. destruct spec; [simpl in Hlen; lia|].
      discriminate.
    + apply np_iadd_zeros_fails; [exact Hne|rewrite Hlen; exact Hsh|exact Hsh1].
  - rewrite <- Hn. apply repeat_length.
Qed.

Lemma np_isclose_1_1 : np_isclose 1 1 = true.
Proof.
  unfold np_isclose. replace (1 - 1) with 0 by lra.
  rewrite Rabs_R0, Rabs_R1. apply Rleb_true. lra.
Qed.

Lemma setup_example :
  { m' | Thermal.setup_model Fixtures.elem_names Fixtures.atomic_weights
           Fixtures.metal_elem Fixtures.apec
           (DataObject Fixtures.dataset [Fixtures.chunk]) 0 1 = inr m' }.
Proof.
  eexists. unfold Thermal.setup_model. cbn. rewrite !np_isclose_1_1. cbn.
  reflexivity.
Defined.

Lemma setup_two_chunks_example :
  { m' | Thermal.setup_model Fixtures.elem_names Fixtures.atomic_weights
           Fixtures.metal_elem Fixtures.apec
           (DataObject Fixtures.dataset [Fixtures.chunk; Fixtures.cold_chunk])
           0 1 = inr m' }.
Proof.
  eexists. unfold Thermal.setup_model. cbn. rewrite !np_isclose_1_1. cbn.
  reflexivity.
Defined.

Lemma thermal_make_spectrum_idle_chunk_witness :
  Thermal.sample_filter (fun x => x) (proj1_sig setup_two_chunks_example)
    Fixtures.cold_chunk
  = Some [false; false; false]
  /\ thermal_make_spectrum Fixtures.counter Fixtures.elem_names
       Fixtures.atomic_weights Fixtures.metal_elem (fun x => x)
       Fixtures.apec Fixtures.dataset
       [Fixtures.chunk; Fixtures.cold_chunk] O
     = None.
Proof.
  assert (Hcut : Thermal.sample_filter (fun x => x)
                   (proj1_sig setup_two_chunks_example) Fixtures.cold_chunk
                 = Some [false; false; false]).
  { unfold Thermal.sample_filter. run_model. reflexivity. }
  split; [exact Hcut|].
  refine (thermal_make_spectrum_idle_chunk Fixtures.counter
            Fixtures.elem_names Fixtures.atomic_weights Fixtures.metal_elem
            (fun x => x) Fixtures.apec Fixtures.dataset
            [Fixtures.chunk; Fixtures.cold_chunk] O
            (proj1_sig setup_two_chunks_example) Fixtures.cold_chunk
            (proj2_sig setup_two_chunks_example) _ _ _ _ _).
  - simpl. auto.
  - right. exists [false; false; false]. split; [exact Hcut|reflexivity].
  - simpl. lia.
  - simpl. discriminate.
  - simpl. discriminate.
Defined.

(** ** The line engine: the spectrum mode *)

Lemma searchsorted_between a x j :
  StronglySorted Rle a ->
  (S j < length a)%nat ->
  nth j a 0 < x -> x <= nth (S j) a 0 ->
  Line.searchsorted a x = S j.
Proof.
  intros Hs. revert j. induction Hs as [|y a Hs IH HF]; intros j Hj Hlo Hhi;
    simpl in Hj; [lia|].
  destruct j as [|j].
  - simpl in Hlo. simpl. rewrite Rltb_true by exact Hlo.
    destruct a as [|z a]; [simpl in Hj; lia|].
    simpl in Hhi. simpl. rewrite Rltb_false by exact Hhi. reflexivity.
  - change (nth (S j) (y :: a) 0) with (nth j a 0) in Hlo.
    change (nth (S (S j)) (y :: a) 0) with (nth (S j) a 0) in Hhi.
    simpl. rewrite Rltb_true.
    + f_equal. apply IH; [lia|exact Hlo|exact Hhi].
    + rewrite Forall_forall in HF.
      assert (Hin : In (nth j a 0) a) by (apply nth_In; lia).
      specialize (HF _ Hin). lra.
Qed.

Lemma list_set_repeat_nth i v n k :
  (i < n)%nat ->
  nth k (list_set i v (repeat 0 n)) 0 = if (k =? i)%nat then v else 0.
Proof.
  intros Hi. destruct (k =? i)%nat eqn:E.
  - apply Nat.eqb_eq in E. subst k. apply list_set_nth_same.
    rewrite repeat_length. exact Hi.
  - apply Nat.eqb_neq in E. rewrite list_set_nth_other by congruence.
    apply nth_repeat.
Qed.

(** X11.  For an unbroadened line whose energy lies in bin [j] of
    increasing bin edges, above the bin's lower edge and up to its upper
    edge, the spectrum mode of the line engine stores the emission of all
    cells of the chunk in bin [j+1], the bin after the one that holds the
    line, and leaves every other bin at zero; when bin [j] is the last bin,
    the assignment is out of range and the call raises. *)
Theorem line_unbroadened_flux_bin :
  forall (G : PRNG) (gcdf : list R) (clight : R) (m : Line.LineSourceModel)
         (c : IOChunk) (ebins : list R) (s : RandomState G) (j : nat),
    Line.sigma m = Line.Unbroadened ->
    StronglySorted Rle ebins ->
    (S j < length ebins)%nat ->
    nth j ebins 0 < Line.e0 m -> Line.e0 m <= nth (S j) ebins 0 ->
    ((S j < length ebins - 1)%nat ->
     exists sp,
       Line.process_data G gcdf clight m spectrum c (Some ebins) s
       = Some (RArray (flat sp), s)
       /\ length sp = (length ebins - 1)%nat
       /\ forall k, nth k sp 0
                    = if (k =? S j)%nat
                      then np_sum (io_get c (Line.emission_field m))
                      else 0)
    /\ (S j = (length ebins - 1)%nat ->
        Line.process_data G gcdf clight m spectrum c (Some ebins) s = None).
Proof.
  intros G gcdf clight m c ebins s j Hsig Hsorted Hj Hlo Hhi.
  pose proof (searchsorted_between ebins (Line.e0 m) j Hsorted Hj Hlo Hhi)
    as Hidx.
  unfold Line.process_data, Line.line_spectrum. rewrite Hsig, Hidx. split.
  - intros Hin. apply Nat.ltb_lt in Hin. rewrite Hin. eexists.
    split; [reflexivity|]. split.
    + rewrite list_set_length. apply repeat_length.
    + intros k. apply list_set_repeat_nth. apply Nat.ltb_lt. exact Hin.
  - intros Hlast. rewrite <- Hlast, Nat.ltb_irrefl. reflexivity.
Qed.

Lemma line_unbroadened_flux_bin_witness :
  exists sp,
    Line.process_data Fixtures.counter [] 1 Fixtures.line spectrum
      Fixtures.line_chunk (Some [0; 1; 2; 3]) O
    = Some (RArray (flat sp), O)
    /\ nth 1 sp 0 = np_sum (io_get Fixtures.line_chunk (Fixtures.gas "norm"))
    /\ nth 0 sp 0 = 0.
Proof.
  destruct (proj1 (line_unbroadened_flux_bin Fixtures.counter [] 1
                     Fixtures.line Fixtures.line_chunk [0; 1; 2; 3] O O
                     eq_refl
                     ltac:(repeat constructor; lra)
                     ltac:(simpl; lia)
                     ltac:(simpl; lra)
                     ltac:(simpl; lra))
              ltac:(simpl; lia))
    as (sp & H & _ & Hv).
  exists sp. split; [exact H|]. split; [exact (Hv 1%nat)|exact (Hv O)].
Defined.

Lemma np_sum_diffs r :
  r <> [] -> np_sum (Line.diffs r) = last r 0 - hd 0 r.
Proof.
  intros Hne. destruct r as [|x r]; [congruence|]. clear Hne.
  revert x. induction r as [|y r IH]; intros x.
  - unfold Line.diffs. simpl. lra.
  - unfold Line.diffs in *.
    change (zip_with Rminus (tl (x :: y :: r)) (removelast (x :: y :: r)))
      with ((y - x) :: zip_with Rminus (tl (y :: r)) (removelast (y :: r))).
    change (last (x :: y :: r) 0) with (last (y :: r) 0).
    match goal with
    | |- context [np_sum (?h :: ?l)] =>
        change (np_sum (h :: l)) with (h + np_sum l)
    end.
    rewrite (IH y). simpl hd. lra.
Qed.

Lemma diffs_length r : length (Line.diffs r) = (length r - 1)%nat.
Proof.
  unfold Line.diffs. rewrite zip_with_length, removelast_length'.
  destruct r; simpl; lia.
Qed.

Lemma line_sigma_spectrum_sum gcdf clight m c ebins sg sp :
  Line.sigma m = Line.Sigma sg ->
  ebins <> [] ->
  Line.line_spectrum gcdf clight m c ebins = Some sp ->
  length sp = (length ebins - 1)%nat
  /\ np_sum sp
     = np_sum (io_get c (Line.emission_field m))
       * (interp1 Line.gx gcdf ((last ebins 0 - Line.e0 m) / sg)
          - interp1 Line.gx gcdf ((hd 0 ebins - Line.e0 m) / sg)).
Proof.
  intros Hsig Hne. unfold Line.line_spectrum. rewrite Hsig.
  match goal with
  | |- context [np_interp ?x ?xp ?fp] =>
      destruct (np_interp x xp fp) as [r|] eqn:Hi; [|discriminate]
  end.
  intros H; injection H as <-.
  unfold np_interp in Hi. destruct Line.gx as [|g0 gs] eqn:Hgx;
    [discriminate|rewrite <- Hgx in *].
  destruct (length Line.gx =? length gcdf)%nat; [|discriminate].
  injection Hi as <-.
  rewrite !length_map, diffs_length, !length_map.
  split; [reflexivity|].
  rewrite np_sum_scale. f_equal.
  rewrite np_sum_diffs.
  2:{ destruct ebins; [congruence|discriminate]. }
  rewrite !map_map.
  rewrite (last_map_ne _ ebins 0 0 Hne), (hd_map_ne _ ebins 0 0 Hne).
  reflexivity.
Qed.

(** X12.  For a line of constant width [sg] the spectrum mode returns one
    entry per bin, and the entries sum to the emission of all cells of the
    chunk times the increase of the interpolated Gaussian distribution
    function from the first bin edge to the last (both taken relative to
    the line energy, in units of [sg]). *)
Theorem line_constant_width_spectrum_total :
  forall (G : PRNG) (gcdf : list R) (clight : R) (m : Line.LineSourceModel)
         (c : IOChunk) (ebins : list R) (s : RandomState G) (sg : R)
         (a : ndarray) (s' : RandomState G),
    Line.sigma m = Line.Sigma sg ->
    ebins <> [] ->
    Line.process_data G gcdf clight m spectrum c (Some ebins) s
    = Some (RArray a, s') ->
    shape a = [(length ebins - 1)%nat]
    /\ length (data a) = (length ebins - 1)%nat
    /\ np_sum (data a)
       = np_sum (io_get c (Line.emission_field m))
         * (interp1 Line.gx gcdf ((last ebins 0 - Line.e0 m) / sg)
            - interp1 Line.gx gcdf ((hd 0 ebins - Line.e0 m) / sg)).
Proof.
  intros G gcdf clight m c ebins s sg a s' Hsig Hne.
  unfold Line.process_data.
  destruct (Line.line_spectrum gcdf clight m c ebins) as [sp|] eqn:Hsp;
    [|discriminate].
  intros H; inversion H; subst a s'; clear H.
  destruct (line_sigma_spectrum_sum gcdf clight m c ebins sg sp Hsig Hne Hsp)
    as [Hlen Hsum].
  unfold flat. cbn [shape data]. rewrite Hlen. auto.
Qed.

Lemma line_constant_width_example :
  { a | Line.process_data Fixtures.counter Fixtures.flat_cdf 1
          Fixtures.line_broad spectrum Fixtures.line_chunk
          (Some [0; 1; 2]) O
        = Some (RArray a, O) }.
Proof.
  unfold Line.process_data, Line.line_spectrum, np_interp.
  cbn [Line.sigma Fixtures.line_broad].
  assert (Hlen : length Line.gx = length Fixtures.flat_cdf)
    by (unfold Fixtures.flat_cdf; rewrite length_map; reflexivity).
  apply Nat.eqb_eq in Hlen. rewrite Hlen.
  assert (Hgx : Line.gx <> []).
  { unfold Line.gx. intros E. apply (f_equal (@length R)) in E.
    rewrite length_map, length_seq in E. discriminate. }
  destruct Line.gx as [|g0 gs]; [congruence|].
  eexists. reflexivity.
Defined.

Lemma line_constant_width_spectrum_total_witness :
  exists a,
    Line.process_data Fixtures.counter Fixtures.flat_cdf 1
      Fixtures.line_broad spectrum Fixtures.line_chunk (Some [0; 1; 2]) O
    = Some (RArray a, O)
    /\ shape a = [2%nat]
    /\ np_sum (data a)
       = np_sum (io_get Fixtures.line_chunk (Fixtures.gas "norm"))
         * (interp1 Line.gx Fixtures.flat_cdf ((2 - 1) / 1)
            - interp1 Line.gx Fixtures.flat_cdf ((0 - 1) / 1)).
Proof.
  destruct line_constant_width_example as (a & H).
  exists a. split; [exact H|].
  destruct (line_constant_width_spectrum_total Fixtures.counter
              Fixtures.flat_cdf 1 Fixtures.line_broad Fixtures.line_chunk
              [0; 1; 2] O 1 a O eq_refl ltac:(discriminate) H)
    as (Hsh & _ & Hsum).
  split; [exact Hsh|exact Hsum].
Defined.

(** ** The power-law engine: the band of the photon energies *)

Lemma exp_le x y : x <= y -> exp x <= exp y.
Proof.
  intros [H|H]; [left; apply exp_increasing; exact H|right; congruence].
Qed.

Lemma ln_le_mono x y : 0 < x -> x <= y -> ln x <= ln y.
Proof.
  intros Hx [H|H]; [left; apply ln_increasing; assumption|right; congruence].
Qed.

Lemma Rpower_le_neg b c q :
  q <= 0 -> 0 < b -> b <= c -> Rpower c q <= Rpower b q.
Proof.
  intros Hq Hb Hbc. unfold Rpower. apply exp_le.
  pose proof (ln_le_mono b c Hb Hbc). nra.
Qed.

Lemma Rpower_1_base a : Rpower 1 a = 1.
Proof. unfold Rpower. rewrite ln_1, Rmult_0_r. apply exp_0. Qed.

Lemma Rpower_pos x y : 0 < Rpower x y.
Proof. unfold Rpower. apply exp_pos. Qed.

(** The rest-frame energy drawn for a cell lies between [emin] and [emax]
    when the reference energy is 1 keV. *)
Lemma plaw_energy_band m a u :
  PowerLaw.e0 m = 1 -> 0 < PowerLaw.emin m ->
  PowerLaw.emin m <= PowerLaw.emax m -> 0 <= u <= 1 ->
  PowerLaw.emin m
  <= PowerLaw.energy m a
       ((if Reqb a 1 then ln (PowerLaw.emax m / PowerLaw.emin m)
         else Rpower (PowerLaw.emax m) (1 - a)
              - Rpower (PowerLaw.emin m) (1 - a))
        * Rpower (PowerLaw.e0 m) a) u
  <= PowerLaw.emax m.
Proof.
  intros He0 Hmin Hle Hu. unfold PowerLaw.energy. rewrite He0, Rpower_1_base.
  set (lo := PowerLaw.emin m) in *. set (hi := PowerLaw.emax m) in *.
  destruct (Req_dec a 1) as [Ha|Ha].
  - rewrite !Reqb_true by exact Ha.
    assert (Hx : 1 <= hi / lo).
    { apply (Rmult_le_reg_r lo); [exact Hmin|]. field_simplify; lra. }
    assert (H0 : Rpower (hi / lo) 0 = 1) by (apply Rpower_O; lra).
    assert (H1 : Rpower (hi / lo) 1 = hi / lo) by (apply Rpower_1; lra).
    pose proof (Rle_Rpower (hi / lo) 0 u Hx (proj1 Hu)) as Hlow.
    pose proof (Rle_Rpower (hi / lo) u 1 Hx (proj2 Hu)) as Hhigh.
    rewrite H0 in Hlow. rewrite H1 in Hhigh.
    assert (Hhi : lo * (hi / lo) = hi) by (field; lra).
    set (pw := Rpower (hi / lo) u) in *. split; [nra|].
    apply Rle_trans with (lo * (hi / lo));
      [apply Rmult_le_compat_l; lra|lra].
  - rewrite !Reqb_false by exact Ha.
    set (p := 1 - a). assert (Hp : p <> 0) by (unfold p; lra).
    set (A := Rpower lo p). set (B := Rpower hi p).
    pose proof (Rpower_pos lo p) as HA. pose proof (Rpower_pos hi p) as HB.
    fold A in HA. fold B in HB.
    assert (Hlo : Rpower A (1 / p) = lo).
    { unfold A. rewrite Rpower_mult. replace (p * (1 / p)) with 1 by (field; lra).
      apply Rpower_1. exact Hmin. }
    assert (Hhi : Rpower B (1 / p) = hi).
    { unfold B. rewrite Rpower_mult. replace (p * (1 / p)) with 1 by (field; lra).
      apply Rpower_1. lra. }
    destruct (Rlt_le_dec 0 p) as [Hpos|Hneg].
    + assert (HAB : A <= B) by (apply Rle_Rpower_l; lra).
      assert (Hq : 0 <= 1 / p).
      { apply Rlt_le. apply Rdiv_lt_0_compat; lra. }
      split.
      * apply Rle_trans with (Rpower A (1 / p)); [right; symmetry; exact Hlo|].
        apply Rle_Rpower_l; [exact Hq|]. split; [exact HA|nra].
      * apply Rle_trans with (Rpower B (1 / p)); [|right; exact Hhi].
        apply Rle_Rpower_l; [exact Hq|]. split; [nra|nra].
    + assert (Hp' : p < 0) by lra.
      assert (HBA : B <= A) by (apply Rpower_le_neg; lra).
      assert (Hq : 1 / p <= 0).
      { apply Rlt_le. unfold Rdiv. rewrite Rmult_1_l.
        apply Rinv_lt_0_compat. exact Hp'. }
      split.
      * apply Rle_trans with (Rpower A (1 / p)); [right; symmetry; exact Hlo|].
        apply Rpower_le_neg; [exact Hq|nra|nra].
      * apply Rle_trans with (Rpower B (1 / p)); [|right; exact Hhi].
        apply Rpower_le_neg; [exact Hq|exact HB|nra].
Qed.

Lemma In_combine_nth_error {A B : Type} (l1 : list A) (l2 : list B) a b :
  In (a, b) (combine l1 l2) ->
  exists i, nth_error l1 i = Some a /\ nth_error l2 i = Some b.
Proof.
  revert l2; induction l1 as [|x l1 IH]; intros [|y l2] H; simpl in H;
    try contradiction.
  destruct H as [H|H].
  - inversion H; subst. exists O. auto.
  - destruct (IH l2 H) as (i & H1 & H2). exists (S i). auto.
Qed.

Section PowerLawBand.
Variable G : PRNG.
Hypothesis uniform_unit : forall s : RandomState G,
    0 <= fst (uniform1 G s) <= 1.

Lemma uniform_range n (s : RandomState G) :
  Forall (fun u => 0 <= u <= 1) (fst (uniform G n s)).
Proof.
  revert s; induction n as [|n IH]; intros s; simpl; [constructor|].
  pose proof (uniform_unit s) as Hu.
  destruct (uniform1 G s) as [u s1]. specialize (IH s1).
  destruct (uniform G n s1) as [us s2]. simpl in *. constructor; assumption.
Qed.

Variable P : R -> Prop.
Variable m : PowerLaw.PowerLawSourceModel.

Lemma plaw_cells_loop_content cells :
  forall energies start_e (s : RandomState G) energies' end_e' s',
    Forall (fun cell =>
              forall u, 0 <= u <= 1 ->
                P (PowerLaw.energy m (fst (snd cell)) (snd (snd cell)) u
                   * PowerLaw.scale_factor m)) cells ->
    (start_e + nat_sum (map fst cells) <= length energies)%nat ->
    Forall P (firstn start_e energies) ->
    PowerLaw.cells_loop G m cells energies start_e start_e s
    = (energies', end_e', s') ->
    Forall P (firstn end_e' energies').
Proof.
  induction cells as [|[n [a nf]] cells IH];
    intros energies start_e s energies' end_e' s' Hcells Hfit HP H;
    simpl in *.
  - inversion H; subst. exact HP.
  - inversion Hcells as [|? ? Hcell Hrest]; subst. simpl in Hcell.
    destruct (0 <? n)%nat eqn:Hn.
    + pose proof (uniform_length G n s) as Hul.
      pose proof (uniform_range n s) as Hur.
      destruct (uniform G n s) as [u s1]. simpl in Hul, Hur.
      apply IH in H; [exact H|exact Hrest| |].
      * rewrite slice_assign_length; rewrite ?length_map; lia.
      * rewrite firstn_add_split, slice_assign_prefix by lia.
        apply Forall_app. split; [exact HP|].
        pose proof (slice_assign_written start_e
                      (map (fun x => x * PowerLaw.scale_factor m)
                           (map (PowerLaw.energy m a nf) u))
                      energies ltac:(lia)) as Hw.
        unfold slice in Hw. rewrite !length_map, Hul in Hw.
        replace (start_e + n - start_e)%nat with n in Hw by lia.
        rewrite Hw, map_map. apply Forall_forall. intros x Hx.
        apply in_map_iff in Hx. destruct Hx as (v & <- & Hv).
        apply Hcell. rewrite Forall_forall in Hur. exact (Hur v Hv).
    + apply Nat.ltb_ge in Hn. assert (n = O) by lia. subst n.
      apply IH in H; [exact H|exact Hrest|simpl in Hfit; lia|exact HP].
Qed.
End PowerLawBand.

(** The energies of a population lie between [emin] and [emax], both
    multiplied by the scale factor. *)
Lemma plaw_energies_band :
  forall (G : PRNG) (m : PowerLaw.PowerLawSourceModel) (c : IOChunk)
         (emid : option (list R)) (s : RandomState G)
         (ncells : nat) (counts : list nat) (sel : selector) (ee : list R)
         (s' : RandomState G),
    (forall s0 : RandomState G, 0 <= fst (uniform1 G s0) <= 1) ->
    PowerLaw.e0 m = 1 ->
    0 < PowerLaw.emin m -> PowerLaw.emin m <= PowerLaw.emax m ->
    0 <= PowerLaw.scale_factor m ->
    PowerLaw.process_data G m photons c emid s
    = Some (RPhotons ncells counts sel ee, s') ->
    Forall (fun x => PowerLaw.emin m * PowerLaw.scale_factor m <= x
                     /\ x <= PowerLaw.emax m * PowerLaw.scale_factor m) ee.
Proof.
  intros G m c emid s ncells counts sel ee s' Huni He0 Hmin Hle Hsf.
  unfold PowerLaw.process_data.
  destruct (poisson G (PowerLaw.photon_means m c) s) as [[nop s1]|] eqn:Hp;
    [|discriminate].
  destruct (PowerLaw.cells_loop G m _ _ O O s1) as [[en' end_e] s2] eqn:Hc.
  intros H. injection H as _ _ _ Hee _. subst ee.
  pose proof (poisson_length G _ _ _ _ Hp) as Hlen.
  rewrite plaw_photon_means_length in Hlen.
  refine (plaw_cells_loop_content G Huni _ m _ _ O s1 en' end_e s2 _ _ _ Hc).
  - apply Forall_forall. intros [n [a nf]] Hin u Hu. simpl.
    apply in_combine_r in Hin.
    destruct (In_combine_nth_error _ _ _ _ Hin) as (i & Ha & Hnf).
    rewrite (plaw_norm_fac_nth m _ i a Ha) in Hnf. injection Hnf as <-.
    pose proof (plaw_energy_band m a u He0 Hmin Hle Hu) as [H1 H2].
    split; apply Rmult_le_compat_r; assumption.
  - rewrite map_fst_combine, repeat_length; [simpl; lia|].
    rewrite length_combine, plaw_norm_fac_length, plaw_alpha_length. lia.
  - simpl. constructor.
Qed.

(** X13.  After [setup_model] for a redshift [z > -1], with the reference
    energy [e0] at 1 keV, [0 < emin <= emax] and uniform draws in the unit
    interval, every photon energy the power-law engine returns lies between
    [emin/(1+z)] and [emax/(1+z)]. *)
Theorem plaw_energies_within_band :
  forall (G : PRNG) (m m' : PowerLaw.PowerLawSourceModel) (ds : Dataset)
         (z sn : R) (c : IOChunk) (emid : option (list R))
         (s : RandomState G) (ncells : nat) (counts : list nat)
         (sel : selector) (ee : list R) (s' : RandomState G),
    (forall s0 : RandomState G, 0 <= fst (uniform1 G s0) <= 1) ->
    plaw_setup_model m ds z sn = Some m' ->
    -1 < z ->
    PowerLaw.e0 m = 1 ->
    0 < PowerLaw.emin m -> PowerLaw.emin m <= PowerLaw.emax m ->
    PowerLaw.process_data G m' photons c emid s
    = Some (RPhotons ncells counts sel ee, s') ->
    Forall (fun x => PowerLaw.emin m / (1 + z) <= x
                     /\ x <= PowerLaw.emax m / (1 + z)) ee.
Proof.
  intros G m m' ds z sn c emid s ncells counts sel ee s'
         Huni Hsetup Hz He0 Hmin Hle H.
  unfold plaw_setup_model in Hsetup.
  destruct (Reqb (1 + z) 0); [discriminate|].
  destruct (get_field_info ds (PowerLaw.emission_field m)) as [[nm u]|];
    [|discriminate].
  injection Hsetup as <-.
  assert (Hsf : 0 <= 1 / (1 + z)).
  { apply Rlt_le. apply Rdiv_lt_0_compat; lra. }
  match type of H with
  | PowerLaw.process_data _ ?mm _ _ _ _ = _ =>
      pose proof (plaw_energies_band G mm c emid s ncells counts sel ee s'
                    Huni He0 Hmin Hle Hsf H) as HF
  end.
  simpl in HF. eapply Forall_impl; [|exact HF].
  intros x [H1 H2]. unfold Rdiv in *. rewrite Rmult_1_l in H1, H2.
  split; assumption.
Qed.

Lemma plaw_setup_example :
  { m' | plaw_setup_model Fixtures.plaw Fixtures.dataset 0 1 = Some m' }.
Proof.
  eexists. unfold plaw_setup_model.
  rewrite (Reqb_false (1 + 0) 0) by lra. reflexivity.
Defined.

Lemma plaw_setup_run :
  { ee : list R &
    { s' | PowerLaw.process_data Fixtures.counter
             (proj1_sig plaw_setup_example) photons
             Fixtures.plaw_dim_chunk None O
           = Some (RPhotons 1 [2%nat] (Mask [true; false]) ee, s') } }.
Proof.
  do 2 eexists. unfold PowerLaw.process_data, PowerLaw.photon_means.
  pose proof ln_2_1_pos.
  cbn. decide_floats. cbn. rewrite ?Rpower_1_1. unfold poisson.
  cbn. decide_floats. cbn. reflexivity.
Defined.

Lemma plaw_energies_within_band_witness :
  exists ee s',
    PowerLaw.process_data Fixtures.counter (proj1_sig plaw_setup_example)
      photons Fixtures.plaw_dim_chunk None O
    = Some (RPhotons 1 [2%nat] (Mask [true; false]) ee, s')
    /\ Forall (fun x => 1 / (1 + 0) <= x /\ x <= 2 / (1 + 0)) ee.
Proof.
  destruct plaw_setup_run as (ee & s' & H).
  exists ee, s'. split; [exact H|].
  exact (plaw_energies_within_band Fixtures.counter Fixtures.plaw
           (proj1_sig plaw_setup_example) Fixtures.dataset 0 1
           Fixtures.plaw_dim_chunk None O 1%nat [2%nat] (Mask [true; false])
           ee s'
           ltac:(intros s0; simpl; lra) (proj2_sig plaw_setup_example)
           ltac:(lra) eq_refl ltac:(simpl; lra) ltac:(simpl; lra) H).
Defined.

(** ** The power-law and line engines: cells without emission *)

Lemma io_get_nth_error c f i :
  (i < io_size c)%nat -> nth_error (io_get c f) i = Some (io_values c f i).
Proof.
  intros Hi. unfold io_get. rewrite nth_error_map.
  rewrite (nth_error_nth' _ O) by (rewrite length_seq; exact Hi).
  rewrite seq_nth by exact Hi. reflexivity.
Qed.

Lemma nth_error_Some_lt {A : Type} (l : list A) i :
  (i < length l)%nat -> exists x, nth_error l i = Some x.
Proof.
  intros Hi. destruct (nth_error l i) as [x|] eqn:E; [eauto|].
  apply nth_error_None in E. lia.
Qed.

Section DarkCells.
Variable G : PRNG.
Hypothesis poisson_zero : forall s : RandomState G,
    fst (poisson1 G 0 s) = O.

Lemma poisson_draws_zero lams :
  forall (s : RandomState G) i,
    nth_error lams i = Some 0 ->
    nth i (fst (poisson_draws G lams s)) O = O.
Proof.
  induction lams as [|lam lams IH]; intros s i Hi; [destruct i; discriminate|].
  simpl. pose proof (poisson_zero s) as Hz.
  destruct (poisson1 G lam s) as [n s1] eqn:Hd. specialize (IH s1).
  destruct (poisson_draws G lams s1) as [ns s2]. simpl in *.
  destruct i as [|i].
  - injection Hi as ->. rewrite Hd in Hz. exact Hz.
  - apply IH. exact Hi.
Qed.

Lemma poisson_zero_inactive lams (s : RandomState G) nop s1 i :
  poisson G lams s = Some (nop, s1) ->
  nth_error lams i = Some 0 ->
  nth i (map (fun n => (0 <? n)%nat) nop) true = false.
Proof.
  unfold poisson. destruct (existsb _ lams); [discriminate|].
  intros H Hi. injection H as H.
  assert (Hnop : nop = fst (poisson_draws G lams s))
    by (rewrite H; reflexivity).
  subst nop. clear H.
  assert (Hlt : (i < length lams)%nat)
    by (apply nth_error_Some; rewrite Hi; discriminate).
  rewrite (nth_indep _ true ((0 <? O)%nat))
    by (rewrite length_map, poisson_draws_length; exact Hlt).
  rewrite (map_nth (fun n => (0 <? n)%nat)).
  rewrite (poisson_draws_zero lams s i Hi). reflexivity.
Qed.
End DarkCells.

(** X14.  With a generator whose Poisson draw for the mean zero is zero, a
    cell whose emission is zero is never active in the population the
    power-law engine or the line engine returns: its entry of the returned
    boolean array [active_cells] is false. *)
Theorem cells_without_emission_stay_inactive :
  forall (G : PRNG) (gcdf : list R) (clight : R),
    (forall s : RandomState G, fst (poisson1 G 0 s) = O) ->
    (forall m c emid (s : RandomState G) ncells counts mask ee s' i,
        PowerLaw.process_data G m photons c emid s
        = Some (RPhotons ncells counts (Mask mask) ee, s') ->
        (i < io_size c)%nat ->
        io_values c (PowerLaw.emission_field m) i = 0 ->
        nth i mask true = false)
    /\ (forall m c ebins (s : RandomState G) ncells counts mask ee s' i,
           Line.process_data G gcdf clight m photons c ebins s
           = Some (RPhotons ncells counts (Mask mask) ee, s') ->
           (i < io_size c)%nat ->
           io_values c (Line.emission_field m) i = 0 ->
           nth i mask true = false).
Proof.
  intros G gcdf clight Hz. split.
  - intros m c emid s ncells counts mask ee s' i H Hi Hem.
    destruct (plaw_photons_result G m c emid s _ _ _ _ _ H)
      as (nop & s1 & Hp & _ & Hsel & _).
    injection Hsel as ->.
    apply (poisson_zero_inactive G Hz _ s nop s1 i Hp).
    unfold PowerLaw.photon_means. rewrite nth_error_map.
    destruct (nth_error_Some_lt (PowerLaw.alpha_of m c) i
                ltac:(rewrite plaw_alpha_length; exact Hi)) as [a Ha].
    rewrite (plaw_norm_nth m _ _ i a 0 Ha)
      by (rewrite io_get_nth_error by exact Hi; rewrite Hem; reflexivity).
    simpl. f_equal. destruct (Reqb a 1); unfold Rdiv; ring.
  - intros m c ebins s ncells counts mask ee s' i H Hi Hem.
    destruct (line_photons_result G gcdf clight m c ebins s _ _ _ _ _ H)
      as (nop & s1 & Hp & _ & Hsel & _).
    injection Hsel as ->.
    apply (poisson_zero_inactive G Hz _ s nop s1 i Hp).
    unfold Line.photon_means. rewrite nth_error_map.
    rewrite io_get_nth_error by exact Hi. rewrite Hem. simpl.
    f_equal. ring.
Qed.

Lemma cells_without_emission_stay_inactive_witness :
  exists ee s',
    Line.process_data Fixtures.counter [] 1 Fixtures.line photons
      Fixtures.line_chunk None O
    = Some (RPhotons 1 [2%nat] (Mask [false; true]) ee, s')
    /\ nth 0 [false; true] true = false.
Proof.
  destruct line_run as (ee & s' & H).
  exists ee, s'. split; [exact H|].
  refine (proj2 (cells_without_emission_stay_inactive Fixtures.counter [] 1 _)
            Fixtures.line Fixtures.line_chunk None O 1%nat [2%nat]
            [false; true] ee s' O H _ _).
  - intros s. simpl. rewrite Rltb_false by lra. reflexivity.
  - simpl. lia.
  - reflexivity.
Defined.

(** ** The line engine: the energy of an unbroadened line *)

(** X15.  After [setup_model] for the redshift [z], every photon the line
    engine returns for an unbroadened line has the energy [e0/(1+z)], and
    there are as many of them as the returned counts add up to. *)
Theorem line_unbroadened_energies :
  forall (G : PRNG) (gcdf : list R) (clight : R)
         (m m' : Line.LineSourceModel) (ds : Dataset) (z sn : R)
         (c : IOChunk) (ebins : option (list R)) (s : RandomState G)
         (ncells : nat) (counts : list nat) (sel : selector) (ee : list R)
         (s' : RandomState G),
    line_setup_model m ds z sn = Some m' ->
    Line.sigma m = Line.Unbroadened ->
    Line.process_data G gcdf clight m' photons c ebins s
    = Some (RPhotons ncells counts sel ee, s') ->
    ee = repeat (Line.e0 m / (1 + z)) (nat_sum counts).
Proof.
  intros G gcdf clight m m' ds z sn c ebins s ncells counts sel ee s'
         Hsetup Hsig H.
  unfold line_setup_model in Hsetup.
  destruct (Reqb (1 + z) 0); [discriminate|].
  destruct (get_field_info ds (Line.emission_field m)) as [[nm u]|];
    [|discriminate].
  injection Hsetup as <-.
  destruct (line_photons_result G gcdf clight _ c ebins s _ _ _ _ _ H)
    as (nop & s1 & Hp & _ & _ & _ & _ & Hsum & _).
  revert H. unfold Line.process_data. rewrite Hp. cbn [Line.sigma].
  rewrite Hsig. cbn [Line.e0 Line.scale_factor].
  intros H. injection H as _ _ _ Hee _. rewrite Hsum, <- Hee.
  generalize (nat_sum nop). intros n. induction n as [|n IH]; simpl.
  - reflexivity.
  - rewrite IH. f_equal. unfold Rdiv. ring.
Qed.

Lemma line_setup_example :
  { m' | line_setup_model Fixtures.line Fixtures.dataset 0 1 = Some m' }.
Proof.
  eexists. unfold line_setup_model.
  rewrite (Reqb_false (1 + 0) 0) by lra. reflexivity.
Defined.

Lemma line_setup_run :
  { ee : list R &
    { s' | Line.process_data Fixtures.counter [] 1
             (proj1_sig line_setup_example) photons
             Fixtures.line_chunk None O
           = Some (RPhotons 1 [2%nat] (Mask [false; true]) ee, s') } }.
Proof.
  do 2 eexists. unfold Line.process_data, Line.photon_means.
  run_model. reflexivity.
Defined.

Lemma line_unbroadened_energies_witness :
  exists ee s',
    Line.process_data Fixtures.counter [] 1 (proj1_sig line_setup_example)
      photons Fixtures.line_chunk None O
    = Some (RPhotons 1 [2%nat] (Mask [false; true]) ee, s')
    /\ ee = repeat (1 / (1 + 0)) (nat_sum [2%nat]).
Proof.
  destruct line_setup_run as (ee & s' & H).
  exists ee, s'. split; [exact H|].
  exact (line_unbroadened_energies Fixtures.counter [] 1 Fixtures.line
           (proj1_sig line_setup_example) Fixtures.dataset 0 1
           Fixtures.line_chunk None O 1%nat [2%nat] (Mask [false; true])
           ee s' (proj2_sig line_setup_example) eq_refl H).
Defined.

(** ** [make_spectrum] of the thermal engine: the total of the spectrum *)

Lemma np_sum_zip_plus_zeros spec k :
  (length spec <= k)%nat ->
  np_sum (zip_with Rplus spec (repeat 0 k)) = np_sum spec.
Proof.
  revert k; induction spec as [|x spec IH]; intros [|k] H; simpl in *;
    try lia; auto.
  rewrite IH by lia. lra.
Qed.

Lemma np_sum_map_plus_0 spec : np_sum (map (fun y => y + 0) spec) = np_sum spec.
Proof. induction spec as [|x spec IH]; simpl; [reflexivity|]. rewrite IH. lra. Qed.

Lemma repeat_singleton {A : Type} (x y : A) k : repeat x k = [y] -> y = x.
Proof. destruct k as [|[|k]]; simpl; intros H; inversion H; reflexivity. Qed.

(** [spec += a] adds the total of [a] to the total of [spec] when [a] has
    the shape of [spec] or holds zeros only. *)
Lemma np_iadd_total spec a spec1 :
  np_iadd spec a = Some spec1 ->
  (shape a = [length spec] /\ length (data a) = length spec)
  \/ (exists k, data a = repeat 0 k /\ k = np_prod (shape a)) ->
  np_sum spec1 = np_sum spec + np_sum (data a).
Proof.
  unfold np_iadd. intros H [[Hsh Hlen]|(k & Hdata & Hk)].
  - rewrite Hsh, Nat.eqb_refl in H. injection H as <-.
    apply np_sum_zip_plus. lia.
  - rewrite Hdata in *. rewrite np_sum_repeat_0, Rplus_0_r.
    destruct (shape a) as [|n [|n' sh]]; try discriminate.
    + destruct (repeat 0 k) as [|x [|x' d]] eqn:E; try discriminate.
      apply repeat_singleton in E. subst x. injection H as <-.
      apply np_sum_map_plus_0.
    + destruct (n =? length spec)%nat eqn:En.
      * apply Nat.eqb_eq in En. injection H as <-.
        apply np_sum_zip_plus_zeros. simpl in Hk. lia.
      * destruct (n =? 1)%nat; [|discriminate].
        destruct (repeat 0 k) as [|x [|x' d]] eqn:E; try discriminate.
        apply repeat_singleton in E. subst x. injection H as <-.
        apply np_sum_map_plus_0.
Qed.

Section ThermalSpectrumSum.
Variable G : PRNG.
Variable to_keV : R -> R.

(** What the spectrum mode returns: a spectrum with one entry per bin, or
    an array of zeros. *)
Lemma thermal_spectrum_kind cap0 m c (s : RandomState G) a s' :
  Thermal.process_data_from G to_keV cap0 m spectrum c s = Some (RArray a, s') ->
  s' = s
  /\ ((shape a = [Thermal.nchan m] /\ length (data a) = Thermal.nchan m)
      \/ (exists k, data a = repeat 0 k /\ k = np_prod (shape a))).
Proof.
  intros H. pose proof H as H'. revert H'. unfold Thermal.process_data_from.
  destruct (Thermal.orig_ncells c =? 0)%nat eqn:E0.
  { intros E; inversion E. split; [reflexivity|]. right. exists O. auto. }
  destruct (Thermal.sample_filter to_keV m c) as [cut|] eqn:Hcut;
    [|discriminate].
  destruct (count_true cut =? 0)%nat eqn:Ecnt.
  { intros E; inversion E. split; [reflexivity|]. right.
    exists (np_prod (orig_shape c)). auto. }
  intros _. apply Nat.eqb_neq in E0, Ecnt.
  destruct (thermal_spectrum_facts G to_keV cap0 m c s a s' cut E0 Hcut Ecnt H)
    as (Hs & Hsh & Hlen).
  auto.
Qed.

Lemma thermal_spectrum_loop_total m chunks :
  forall spec (s : RandomState G) spec' s' pfs,
    length spec = Thermal.nchan m ->
    spectrum_loop (Thermal.process_data G to_keV m spectrum) chunks spec s
    = Some (spec', s') ->
    Forall2 (fun c pf =>
               Thermal.process_data G to_keV m photon_field c s
               = Some (RArray pf, s)) chunks pfs ->
    s' = s /\ length spec' = Thermal.nchan m
    /\ np_sum spec' = np_sum spec + np_sum (map (fun pf => np_sum (data pf)) pfs).
Proof.
  induction chunks as [|c chunks IH]; intros spec s spec' s' pfs Hlen H HF;
    simpl in H.
  - inversion H; subst. inversion HF; subst. simpl.
    split; [reflexivity|]. split; [exact Hlen|lra].
  - inversion HF as [|? pf ? pfs' Hpf HF']; subst.
    destruct (Thermal.process_data G to_keV m spectrum c s)
      as [[[| |a] s1]|] eqn:Hcall; try discriminate.
    destruct (np_iadd spec a) as [spec1|] eqn:Hadd; [|discriminate].
    unfold Thermal.process_data in Hcall, Hpf.
    destruct (thermal_spectrum_kind _ m c s a s1 Hcall) as [-> Hkind].
    pose proof (thermal_spectrum_total G to_keV _ _ m photon_field c s s
                  a pf s s (or_introl eq_refl) Hcall Hpf) as Htot.
    unfold weighted_total in Htot.
    assert (Hwf : length (data a) = np_prod (shape a)).
    { destruct Hkind as [[Hsh Hl]|(k & Hd & Hk)].
      - rewrite Hsh, Hl. simpl. lia.
      - rewrite Hd, repeat_length. exact Hk. }
    pose proof (np_iadd_length spec a spec1 Hwf Hadd) as Hlen1.
    assert (Hsum1 : np_sum spec1 = np_sum spec + np_sum (data a)).
    { apply (np_iadd_total spec a spec1 Hadd).
      destruct Hkind as [[Hsh Hl]|Hz]; [left|right; exact Hz].
      rewrite Hlen. auto. }
    destruct (IH spec1 s spec' s' pfs' ltac:(lia) H HF')
      as (Hs & Hlen' & Hsum').
    split; [exact Hs|]. split; [exact Hlen'|]. simpl. lra.
Qed.
End ThermalSpectrumSum.

(** X16.  When [make_spectrum] of the thermal engine returns for a data
    object, it returns the bin edges of the spectral table as
    [prepare_spectrum] left it and a spectrum with one entry per bin whose
    entries sum to the photon rate of all cells of all chunks, as the
    photon_field mode gives it chunk by chunk; no random number is drawn. *)
Theorem thermal_make_spectrum_total :
  forall (G : PRNG) (elem_names : list string) (atomic_weights : list R)
         (metal_elem : list nat) (to_keV : R -> R)
         (m m' : Thermal.ThermalSourceModel) (ds : Dataset)
         (chunks : list Chunk) (s : RandomState G)
         (ebins spec : list R) (s' : RandomState G) (pfs : list ndarray),
    Thermal.setup_model elem_names atomic_weights metal_elem m
                        (DataObject ds chunks) 0 1
    = inr m' ->
    thermal_make_spectrum G elem_names atomic_weights metal_elem to_keV
                          m ds chunks s = Some (ebins, spec, s') ->
    Forall2 (fun c pf =>
               Thermal.process_data G to_keV m' photon_field c s
               = Some (RArray pf, s)) chunks pfs ->
    Thermal.prepare_spectrum m 0 (Thermal.kT_min m) (Thermal.kT_max m)
    = inr (Thermal.spectral_model m')
    /\ ebins = Thermal.sm_ebins (Thermal.spectral_model m')
    /\ s' = s
    /\ length spec = length (Thermal.sm_emid (Thermal.spectral_model m'))
    /\ np_sum spec = np_sum (map (fun pf => np_sum (data pf)) pfs).
Proof.
  intros G elem_names atomic_weights metal_elem to_keV m m' ds chunks s
         ebins spec s' pfs Hsetup Hmake HF.
  unfold thermal_make_spectrum in Hmake. rewrite Hsetup in Hmake.
  assert (Hn : Thermal.nchan m'
               = length (Thermal.sm_emid (Thermal.spectral_model m')))
    by apply (setup_model_bin_edges _ _ _ _ _ _ _ _ Hsetup).
  destruct (spectrum_loop _ chunks _ s) as [[spec0 s0]|] eqn:Hloop;
    [|discriminate].
  injection Hmake as <- <- <-.
  destruct (thermal_spectrum_loop_total G to_keV m' chunks _ s spec0 s0 pfs
              ltac:(rewrite repeat_length; symmetry; exact Hn) Hloop HF)
    as (Hs & Hlen & Hsum).
  rewrite np_sum_repeat_0, Rplus_0_l in Hsum.
  split; [apply (setup_model_bin_edges _ _ _ _ _ _ _ _ Hsetup)|].
  split; [reflexivity|]. split; [exact Hs|].
  split; [rewrite <- Hn; exact Hlen|exact Hsum].
Qed.

Lemma thermal_make_spectrum_example :
  { r | thermal_make_spectrum Fixtures.counter Fixtures.elem_names
          Fixtures.atomic_weights Fixtures.metal_elem (fun x => x)
          Fixtures.apec Fixtures.dataset [Fixtures.chunk] O = Some r }.
Proof.
  eexists. unfold thermal_make_spectrum.
  rewrite (proj2_sig setup_example).
  unfold Thermal.process_data, Thermal.process_data_from, Thermal.run_batches.
  run_model. reflexivity.
Defined.

Lemma thermal_setup_field_example :
  { pf | Thermal.process_data Fixtures.counter (fun x => x)
           (proj1_sig setup_example) photon_field Fixtures.chunk O
         = Some (RArray pf, O) }.
Proof.
  eexists.
  unfold Thermal.process_data, Thermal.process_data_from, Thermal.run_batches.
  run_model. reflexivity.
Defined.

Lemma thermal_make_spectrum_total_witness :
  exists ebins spec s' pf,
    thermal_make_spectrum Fixtures.counter Fixtures.elem_names
      Fixtures.atomic_weights Fixtures.metal_elem (fun x => x)
      Fixtures.apec Fixtures.dataset [Fixtures.chunk] O
    = Some (ebins, spec, s')
    /\ Thermal.process_data Fixtures.counter (fun x => x)
         (proj1_sig setup_example) photon_field Fixtures.chunk O
       = Some (RArray pf, O)
    /\ ebins = [1; 2; 3]
    /\ np_sum spec = np_sum (map (fun pf => np_sum (data pf)) [pf]).
Proof.
  destruct thermal_make_spectrum_example as ([[ebins spec] s'] & H).
  destruct thermal_setup_field_example as (pf & Hpf).
  exists ebins, spec, s', pf. split; [exact H|]. split; [exact Hpf|].
  destruct (thermal_make_spectrum_total Fixtures.counter Fixtures.elem_names
              Fixtures.atomic_weights Fixtures.metal_elem (fun x => x)
              Fixtures.apec (proj1_sig setup_example) Fixtures.dataset
              [Fixtures.chunk] O ebins spec s' [pf]
              (proj2_sig setup_example) H
              (Forall2_cons _ _ Hpf (Forall2_nil _)))
    as (_ & He & _ & _ & Hsum).
  split; [exact He|exact Hsum].
Defined.

(** ** The thermal engine: the filter and the eligible cells, cell by cell *)

Lemma where_from_nth_ge i mask k :
  (k < length (where_from i mask))%nat ->
  (i <= nth k (where_from i mask) O)%nat.
Proof.
  intros Hk. assert (Hin : In (nth k (where_from i mask) O) (where_from i mask))
    by (apply nth_In; exact Hk).
  apply where_from_In in Hin. lia.
Qed.

Lemma mask_select_nth_from {A : Type} (mask : list bool) (l : list A) i k d :
  length l = length mask -> (k < count_true mask)%nat ->
  nth k (mask_select mask l) d = nth (nth k (where_from i mask) O - i) l d.
Proof.
  revert l i k. induction mask as [|b mask IH]; intros [|x l] i k Hlen Hk;
    simpl in Hlen; try discriminate.
  - unfold count_true in Hk. simpl in Hk. lia.
  - assert (Hstep : forall k', (k' < count_true mask)%nat ->
               nth k' (mask_select mask l) d
               = nth (nth k' (where_from (S i) mask) O - i) (x :: l) d).
    { intros k' Hk'. rewrite (IH l (S i) k') by (try lia; exact Hk').
      pose proof (where_from_nth_ge (S i) mask k'
                    ltac:(rewrite where_from_length; exact Hk')) as Hge.
      replace (nth k' (where_from (S i) mask) O - i)%nat
        with (S (nth k' (where_from (S i) mask) O - S i)) by lia.
      reflexivity. }
    unfold count_true in Hk. simpl in *. destruct b; simpl in *.
    + destruct k as [|k]; [rewrite Nat.sub_diag; reflexivity|].
      apply Hstep. unfold count_true. lia.
    + apply Hstep. exact Hk.
Qed.

(** [a[mask][k]] is [a] at the position of the [k]-th true entry of
    [mask]. *)
Lemma mask_select_nth {A : Type} (mask : list bool) (l : list A) k d :
  length l = length mask -> (k < count_true mask)%nat ->
  nth k (mask_select mask l) d = nth (nth k (np_where mask) O) l d.
Proof.
  intros Hlen Hk. rewrite (mask_select_nth_from mask l O k d Hlen Hk).
  rewrite Nat.sub_0_r. reflexivity.
Qed.

Lemma chunk_get_nth c f i :
  (i < np_prod (orig_shape c))%nat ->
  nth i (chunk_get c f) 0 = field_values c f i.
Proof.
  intros Hi. unfold chunk_get.
  rewrite (nth_indep _ 0 (field_values c f O))
    by (rewrite length_map, length_seq; exact Hi).
  rewrite (map_nth (field_values c f)), seq_nth by exact Hi. reflexivity.
Qed.

Lemma map_nth_lt {A B : Type} (f : A -> B) l i da db :
  (i < length l)%nat -> nth i (map f l) db = f (nth i l da).
Proof.
  intros Hi. rewrite (nth_indep _ db (f da)) by (rewrite length_map; exact Hi).
  apply map_nth.
Qed.

Section FilterEntries.
Variable to_keV : R -> R.

(** X17.  The filter of the thermal engine accepts a cell exactly when its
    density is strictly below [max_density] (when one is set), its
    temperature in keV lies between [kT_min] and [kT_max], both included,
    and, for a model with an nH field, its nH lies between [nH_min] and
    [nH_max], both included. *)
Theorem sample_filter_accepts :
  forall (m : Thermal.ThermalSourceModel) (c : Chunk) (cut : list bool)
         (i : nat),
    Thermal.sample_filter to_keV m c = Some cut ->
    (i < np_prod (orig_shape c))%nat ->
    nth i cut false = true
    <-> (forall d, Thermal.max_density m = Some d ->
                   field_values c (Thermal.density_field m) i < d)
        /\ Thermal.kT_min m
           <= to_keV (field_values c (Thermal.temperature_field m) i)
           <= Thermal.kT_max m
        /\ (forall f lo hi,
               Thermal.nh_field m = Some f ->
               Thermal.nH_min m = Some lo -> Thermal.nH_max m = Some hi ->
               lo <= field_values c f i <= hi).
Proof.
  intros m c cut i Hcut Hi. unfold Thermal.sample_filter in Hcut.
  destruct (Thermal.nH_cut m c) as [nc|] eqn:Hnc; [|discriminate].
  injection Hcut as <-.
  set (N := np_prod (orig_shape c)) in *.
  assert (Hdl : length (Thermal.density_cut m c) = N).
  { unfold Thermal.density_cut. destruct (Thermal.max_density m).
    - rewrite length_map. apply chunk_get_length.
    - apply repeat_length. }
  assert (Hkl : length (Thermal.kT_cut to_keV m c) = N).
  { unfold Thermal.kT_cut, Thermal.kT_all. rewrite !length_map.
    apply chunk_get_length. }
  assert (Hnl : length nc = N).
  { unfold Thermal.nH_cut in Hnc. destruct (Thermal.nh_field m).
    - destruct (Thermal.nH_min m), (Thermal.nH_max m); try discriminate.
      injection Hnc as <-. rewrite length_map. apply chunk_get_length.
    - injection Hnc as <-. apply repeat_length. }
  rewrite (zip_with_nth andb _ _ i false false false)
    by (rewrite ?zip_with_length; lia).
  rewrite (zip_with_nth andb _ _ i false false false) by lia.
  rewrite !andb_true_iff.
  assert (Hd : nth i (Thermal.density_cut m c) false = true
               <-> forall d, Thermal.max_density m = Some d ->
                             field_values c (Thermal.density_field m) i < d).
  { unfold Thermal.density_cut. destruct (Thermal.max_density m) as [dmax|].
    - rewrite (map_nth_lt _ _ i 0 false)
        by (rewrite chunk_get_length; exact Hi).
      rewrite chunk_get_nth by exact Hi. unfold Rltb.
      destruct (Rlt_dec _ dmax) as [Hlt|Hge].
      + split; [intros _ d Hd; injection Hd as <-; exact Hlt|reflexivity].
      + split; [discriminate|]. intros H. exfalso. apply Hge. apply H.
        reflexivity.
    - rewrite nth_repeat_lt by exact Hi.
      split; [intros _ d Hd; discriminate|reflexivity]. }
  assert (Hk : nth i (Thermal.kT_cut to_keV m c) false = true
               <-> Thermal.kT_min m
                   <= to_keV (field_values c (Thermal.temperature_field m) i)
                   <= Thermal.kT_max m).
  { unfold Thermal.kT_cut, Thermal.kT_all.
    rewrite (map_nth_lt _ _ i 0 false)
      by (rewrite length_map, chunk_get_length; exact Hi).
    rewrite (map_nth_lt to_keV _ i 0 0)
      by (rewrite chunk_get_length; exact Hi).
    rewrite chunk_get_nth by exact Hi. rewrite andb_true_iff. unfold Rleb.
    destruct (Rle_dec (Thermal.kT_min m) _), (Rle_dec _ (Thermal.kT_max m));
      split; intros [H1 H2]; try discriminate; try contradiction;
      split; auto. }
  assert (Hn : nth i nc false = true
               <-> forall f lo hi,
                   Thermal.nh_field m = Some f ->
                   Thermal.nH_min m = Some lo -> Thermal.nH_max m = Some hi ->
                   lo <= field_values c f i <= hi).
  { unfold Thermal.nH_cut in Hnc. destruct (Thermal.nh_field m) as [f|].
    - destruct (Thermal.nH_min m) as [lo|], (Thermal.nH_max m) as [hi|];
        try discriminate.
      injection Hnc as <-.
      rewrite (map_nth_lt _ _ i 0 false)
        by (rewrite chunk_get_length; exact Hi).
      rewrite chunk_get_nth by exact Hi. rewrite andb_true_iff. unfold Rleb.
      destruct (Rle_dec lo _) as [H1|H1], (Rle_dec _ hi) as [H2|H2].
      + split; [|auto]. intros _ f' lo' hi' Hf Hlo Hhi.
        injection Hf as <-. injection Hlo as <-. injection Hhi as <-. auto.
      + split; [intros [_ H]; discriminate|].
        intros H. destruct (H f lo hi eq_refl eq_refl eq_refl). contradiction.
      + split; [intros [H _]; discriminate|].
        intros H. destruct (H f lo hi eq_refl eq_refl eq_refl). contradiction.
      + split; [intros [H _]; discriminate|].
        intros H. destruct (H f lo hi eq_refl eq_refl eq_refl). contradiction.
    - injection Hnc as <-. rewrite nth_repeat_lt by exact Hi.
      split; [intros _ f lo hi Hf; discriminate|reflexivity]. }
  rewrite Hd, Hk, Hn. tauto.
Qed.
End FilterEntries.

Lemma sample_filter_accepts_witness :
  nth 1 [false; true; true] false = true
  <-> (forall d, Thermal.max_density Fixtures.apec = Some d ->
                 field_values Fixtures.chunk
                   (Thermal.density_field Fixtures.apec) 1 < d)
      /\ Thermal.kT_min Fixtures.apec
         <= field_values Fixtures.chunk
              (Thermal.temperature_field Fixtures.apec) 1
         <= Thermal.kT_max Fixtures.apec
      /\ (forall f lo hi,
             Thermal.nh_field Fixtures.apec = Some f ->
             Thermal.nH_min Fixtures.apec = Some lo ->
             Thermal.nH_max Fixtures.apec = Some hi ->
             lo <= field_values Fixtures.chunk f 1 <= hi).
Proof.
  exact (sample_filter_accepts (fun x => x) Fixtures.apec Fixtures.chunk
           [false; true; true] 1%nat thermal_field_filter_example
           ltac:(simpl; lia)).
Defined.

Section PreparedCells.
Variable to_keV : R -> R.

(** The hydrogen fraction [X_H] of line 418-421 for the cell [i] of the
    chunk. *)
Let X_H_of (m : Thermal.ThermalSourceModel) (c : Chunk) (i : nat) : R :=
  match Thermal.h_fraction m with
  | Float x => x
  | Field f => field_values c f i
  end.

(** The arrays of the eligible cells, cell by cell. *)
Lemma prepare_cells :
  forall (m : Thermal.ThermalSourceModel) (c : Chunk) (cut : list bool)
         (e : Thermal.eligible) (k : nat),
    Thermal.sample_filter to_keV m c = Some cut ->
    Thermal.prepare to_keV m c cut = Some e ->
    (k < Thermal.num_cells e)%nat ->
    let i := nth k (np_where cut) O in
    Thermal.num_cells e = count_true cut
    /\ nth k (Thermal.idxs e) O = i
    /\ nth k (Thermal.kT e) 0
       = to_keV (field_values c (Thermal.temperature_field m) i)
    /\ nth k (Thermal.cell_nrm e) 0
       = match Thermal.nh_field m with
         | Some f =>
             if Thermal.fix_norm m
             then field_values c (Thermal.emission_measure_field m) i
                  * Thermal.spectral_norm m / field_values c f i
             else field_values c (Thermal.emission_measure_field m) i
                  * Thermal.spectral_norm m
         | None => field_values c (Thermal.emission_measure_field m) i
                   * Thermal.spectral_norm m
         end
    /\ nth k (Thermal.metalZ e) 0
       = if Thermal.nei m then 0
         else match Thermal.Zmet m with
              | Float z => z
              | Field f =>
                  field_values c f
                    (if Thermal.fac_per_cell m c f
                        && (1 <? length (orig_shape c))%nat
                     then nth 0 (np_where cut) O
                     else i)
                  * (if String.eqb (field_units c f) "Zsun"
                     then Thermal.Zconvert m
                     else Thermal.Zconvert m / X_H_of m c i)
              end.
Proof.
  intros m c cut e k Hcut Hprep Hk i.
  pose proof (sample_filter_length to_keV m c cut Hcut) as Hclen.
  destruct (prepare_lengths to_keV m c cut e Hclen Hprep) as (Hnc & _).
  rewrite Hnc in Hk. split; [exact Hnc|].
  assert (Hi : (i < np_prod (orig_shape c))%nat).
  { rewrite <- Hclen. apply np_where_range. apply nth_In.
    unfold np_where. rewrite where_from_length. exact Hk. }
  assert (Hsel : forall f,
             nth k (mask_select cut (chunk_get c f)) 0 = field_values c f i).
  { intros f. rewrite mask_select_nth by (rewrite ?chunk_get_length; auto).
    apply chunk_get_nth. exact Hi. }
  assert (Hsl : forall f, length (mask_select cut (chunk_get c f))
                          = count_true cut).
  { intros f. apply mask_select_length. rewrite chunk_get_length; auto. }
  assert (Hsel0 : forall f,
             nth 0 (mask_select cut (chunk_get c f)) 0
             = field_values c f (nth 0 (np_where cut) O)).
  { intros f. rewrite mask_select_nth by (rewrite ?chunk_get_length; auto; lia).
    apply chunk_get_nth. rewrite <- Hclen. apply np_where_range. apply nth_In.
    unfold np_where. rewrite where_from_length. lia. }
  revert Hprep. unfold Thermal.prepare.
  destruct (Thermal.mask_fits c cut); [cbn [negb]|discriminate].
  set (n := count_true cut) in *.
  set (X_H := match Thermal.h_fraction m with
              | Float x => repeat x n
              | Field f => mask_select cut (chunk_get c f)
              end).
  assert (HXl : length X_H = n).
  { subst X_H. destruct (Thermal.h_fraction m); [apply repeat_length|apply Hsl]. }
  assert (HX : nth k X_H 0 = X_H_of m c i).
  { subst X_H. unfold X_H_of. destruct (Thermal.h_fraction m) as [x|f].
    - apply nth_repeat_lt. exact Hk.
    - apply Hsel. }
  match goal with
  | |- match ?x with Some _ => _ | None => _ end = _ -> _ =>
      destruct x as [eZ|]; [|discriminate]
  end.
  intros H; inversion H; subst e; clear H. cbn [Thermal.idxs Thermal.kT
    Thermal.cell_nrm Thermal.metalZ].
  split; [reflexivity|]. split.
  { unfold Thermal.kT_all.
    rewrite mask_select_nth
      by (rewrite ?length_map, ?chunk_get_length; auto).
    fold i. rewrite (map_nth_lt to_keV _ i 0 0)
      by (rewrite chunk_get_length; exact Hi).
    rewrite chunk_get_nth by exact Hi. reflexivity. }
  assert (Hnrm : nth k (map (fun em => em * Thermal.spectral_norm m)
                            (mask_select cut
                               (chunk_get c (Thermal.emission_measure_field m))))
                     0
                 = field_values c (Thermal.emission_measure_field m) i
                   * Thermal.spectral_norm m).
  { rewrite (map_nth_lt _ _ k 0 0) by (rewrite Hsl; exact Hk).
    rewrite Hsel. reflexivity. }
  split.
  { destruct (Thermal.nh_field m) as [f|]; [|exact Hnrm].
    destruct (Thermal.fix_norm m); [|exact Hnrm].
    rewrite (zip_with_nth Rdiv _ _ k 0 0 0)
      by (rewrite ?length_map, Hsl; exact Hk).
    rewrite Hnrm, Hsel. reflexivity. }
  destruct (Thermal.nei m); [apply nth_repeat_lt; exact Hk|].
  destruct (Thermal.Zmet m) as [z|f].
  - rewrite (map_nth_lt _ _ k 1 0) by (rewrite repeat_length; exact Hk).
    rewrite nth_repeat_lt by exact Hk. lra.
  - assert (Hfac : nth k (Thermal.solar_factor c f (Thermal.Zconvert m) X_H) 0
                   = if String.eqb (field_units c f) "Zsun"
                     then Thermal.Zconvert m
                     else Thermal.Zconvert m / X_H_of m c i).
    { unfold Thermal.solar_factor.
      destruct (String.eqb (field_units c f) "Zsun").
      + rewrite (map_nth_lt _ _ k 0 0) by lia. reflexivity.
      + rewrite (map_nth_lt _ _ k 0 0) by lia. rewrite HX. reflexivity. }
    unfold Thermal.times_fac.
    destruct (Thermal.fac_per_cell m c f && (1 <? length (orig_shape c))%nat).
    + pose proof (Hsel0 f) as H0. specialize (Hsl f).
      destruct (mask_select cut (chunk_get c f)) as [|a sel];
        [simpl in Hsl; lia|].
      cbn [flat_map]. rewrite app_nth1
        by (rewrite length_map, solar_factor_length; lia).
      rewrite (map_nth_lt (Rmult a) _ k 0 0)
        by (rewrite solar_factor_length; lia).
      simpl in H0. rewrite H0, Hfac. reflexivity.
    + rewrite (zip_with_nth Rmult _ _ k 0 0 0)
        by (rewrite ?solar_factor_length, ?Hsl; lia).
      rewrite Hsel, Hfac. reflexivity.
Qed.

(** X18.  The arrays of the eligible cells hold, at position [k], the
    values of the [k]-th cell of the chunk that the filter accepts, at index
    [i = np.where(cut)[0][k]]: its temperature in keV; its emission measure
    times the spectral norm, divided by its nH for a model that fixes the
    norm by an nH field; and its metallicity, which is zero for a
    non-equilibrium model, the constant for a float, and otherwise the field
    value times [Zconvert], divided by the cell's hydrogen fraction unless
    the field is in solar units.  On a chunk of more than one dimension
    whose metallicity is divided by a hydrogen-fraction field, the field
    value in that product is the one of the first accepted cell, for every
    [k]. *)
Theorem prepare_per_cell :
  forall (m : Thermal.ThermalSourceModel) (c : Chunk) (cut : list bool)
         (e : Thermal.eligible) (k : nat),
    Thermal.sample_filter to_keV m c = Some cut ->
    Thermal.prepare to_keV m c cut = Some e ->
    (k < Thermal.num_cells e)%nat ->
    let i := nth k (np_where cut) O in
    Thermal.num_cells e = count_true cut
    /\ nth k (Thermal.idxs e) O = i
    /\ nth k (Thermal.kT e) 0
       = to_keV (field_values c (Thermal.temperature_field m) i)
    /\ nth k (Thermal.cell_nrm e) 0
       = match Thermal.nh_field m with
         | Some f =>
             if Thermal.fix_norm m
             then field_values c (Thermal.emission_measure_field m) i
                  * Thermal.spectral_norm m / field_values c f i
             else field_values c (Thermal.emission_measure_field m) i
                  * Thermal.spectral_norm m
         | None => field_values c (Thermal.emission_measure_field m) i
                   * Thermal.spectral_norm m
         end
    /\ nth k (Thermal.metalZ e) 0
       = if Thermal.nei m then 0
         else match Thermal.Zmet m with
              | Float z => z
              | Field f =>
                  field_values c f
                    (if Thermal.fac_per_cell m c f
                        && (1 <? length (orig_shape c))%nat
                     then nth 0 (np_where cut) O
                     else i)
                  * (if String.eqb (field_units c f) "Zsun"
                     then Thermal.Zconvert m
                     else Thermal.Zconvert m / X_H_of m c i)
              end.
Proof.
  intros m c cut e k Hcut Hprep Hk.
  exact (prepare_cells m c cut e k Hcut Hprep Hk).
Qed.
End PreparedCells.

Lemma prepare_column_example :
  { e | Thermal.prepare (fun x => x) Fixtures.apec_hfield Fixtures.column_chunk
          [true; true] = Some e }.
Proof. eexists. unfold Thermal.prepare. run_model. reflexivity. Defined.

Lemma prepare_per_cell_witness :
  (exists e,
      Thermal.prepare (fun x => x) Fixtures.apec Fixtures.chunk
        [false; true; true] = Some e
      /\ nth 1 (Thermal.idxs e) O = 2%nat
      /\ nth 1 (Thermal.kT e) 0
         = field_values Fixtures.chunk (Fixtures.gas "temperature") 2)
  /\ (exists e,
         Thermal.prepare (fun x => x) Fixtures.apec_hfield
           Fixtures.column_chunk [true; true] = Some e
         /\ Thermal.metalZ e = [3 * (1 / 2); 3 * (1 / 4);
                                5 * (1 / 2); 5 * (1 / 4)]
         /\ nth 1 (Thermal.metalZ e) 0 = 3 * (1 / 4)).
Proof.
  split.
  - destruct thermal_field_prepare_example as (e & He).
    exists e. split; [exact He|].
    destruct (prepare_lengths (fun x => x) Fixtures.apec Fixtures.chunk
                [false; true; true] e eq_refl He) as (Hn & _).
    destruct (prepare_per_cell (fun x => x) Fixtures.apec Fixtures.chunk
                [false; true; true] e 1%nat thermal_field_filter_example He
                ltac:(rewrite Hn; cbv; lia))
      as (_ & Hidx & HkT & _).
    split; [exact Hidx|exact HkT].
  - destruct prepare_column_example as (e & He).
    exists e. split; [exact He|].
    assert (Hcut : Thermal.sample_filter (fun x => x) Fixtures.apec_hfield
                     Fixtures.column_chunk = Some [true; true]).
    { unfold Thermal.sample_filter. run_model. reflexivity. }
    destruct (prepare_lengths (fun x => x) Fixtures.apec_hfield
                Fixtures.column_chunk [true; true] e eq_refl He) as (Hn & _).
    split.
    { injection He as <-. reflexivity. }
    destruct (prepare_per_cell (fun x => x) Fixtures.apec_hfield
                Fixtures.column_chunk [true; true] e 1%nat Hcut He
                ltac:(rewrite Hn; cbv; lia))
      as (_ & _ & _ & _ & HZ).
    rewrite HZ. reflexivity.
Defined.

(** ** [make_spectrum] of the line engine *)

Lemma np_linspace_hd lo hi n : hd 0 (np_linspace lo hi (S n)) = lo.
Proof.
  unfold np_linspace. destruct n as [|n]; [reflexivity|].
  simpl. lra.
Qed.

Lemma np_linspace_last lo hi n :
  (0 < n)%nat -> last (np_linspace lo hi (S n)) 0 = hi.
Proof.
  intros Hn. unfold np_linspace. destruct n as [|n]; [lia|].
  rewrite seq_S, map_app. cbn [map]. rewrite last_last. simpl Nat.add.
  replace (S (S n) - 1)%nat with (S n) by lia.
  assert (H : INR (S n) <> 0) by (apply not_0_INR; discriminate).
  field. exact H.
Qed.

Lemma np_sum_list_set_zeros idx v n :
  (idx < n)%nat -> np_sum (list_set idx v (repeat 0 n)) = v.
Proof.
  intros H. rewrite np_sum_list_set by (rewrite repeat_length; exact H).
  rewrite np_sum_repeat_0, nth_repeat. lra.
Qed.

Section LineSpectrum.
Variable G : PRNG.
Variable gcdf : list R.
Variable clight : R.
Variable m : Line.LineSourceModel.
Variable ebins : list R.

Lemma line_fold_length de cells :
  forall acc sp,
    length acc = (length de - 1)%nat ->
    fold_left
      (fun acc cell =>
         sp <- acc ;;
         r <- np_interp (map (fun x => x / snd cell) de) Line.gx gcdf ;;
         Some (zip_with Rplus sp (map (Rmult (fst cell)) (Line.diffs r))))
      cells (Some acc) = Some sp ->
    length sp = (length de - 1)%nat.
Proof.
  induction cells as [|cell cells IH]; intros acc sp Hlen H;
    cbn [fold_left] in H.
  - injection H as <-. exact Hlen.
  - destruct (np_interp (map (fun x => x / snd cell) de) Line.gx gcdf)
      as [r|] eqn:Hi.
    + apply (IH _ sp) in H; [exact H|].
      apply np_interp_length in Hi.
      rewrite zip_with_length, length_map, diffs_length, Hi, length_map. lia.
    + exfalso. clear -H. induction cells as [|c' cells IH];
        cbn [fold_left] in H; [discriminate|auto].
Qed.

(** The spectrum of a chunk has one entry per bin. *)
Lemma line_spectrum_length c sp :
  Line.line_spectrum gcdf clight m c ebins = Some sp ->
  length sp = (length ebins - 1)%nat.
Proof.
  unfold Line.line_spectrum. destruct (Line.sigma m) as [|sg|f].
  - destruct (_ <? _)%nat; [|discriminate]. intros H; injection H as <-.
    rewrite list_set_length. apply repeat_length.
  - match goal with
    | |- context [np_interp ?x ?xp ?fp] =>
        destruct (np_interp x xp fp) as [r|] eqn:Hi; [|discriminate]
    end.
    intros H; injection H as <-. apply np_interp_length in Hi.
    rewrite length_map, diffs_length, Hi, !length_map. reflexivity.
  - intros H. apply line_fold_length in H.
    + rewrite length_map in H. exact H.
    + rewrite repeat_length, length_map. reflexivity.
Qed.

Let call (c : IOChunk) (s : RandomState G) :=
  Line.process_data G gcdf clight m spectrum c (Some ebins) s.

Lemma line_spectrum_loop (w : IOChunk -> R) chunks :
  (forall c sp, Line.line_spectrum gcdf clight m c ebins = Some sp ->
                np_sum sp = w c) ->
  forall spec (s : RandomState G) spec' s',
    length spec = (length ebins - 1)%nat ->
    spectrum_loop call chunks spec s = Some (spec', s') ->
    s' = s /\ length spec' = (length ebins - 1)%nat
    /\ np_sum spec' = np_sum spec + np_sum (map w chunks).
Proof.
  intros Hw. induction chunks as [|c chunks IH];
    intros spec s spec' s' Hlen H; simpl in H.
  - injection H as <- <-. simpl. split; [reflexivity|]. split; [exact Hlen|lra].
  - unfold call at 1 in H. unfold Line.process_data in H.
    destruct (Line.line_spectrum gcdf clight m c ebins) as [sp|] eqn:Hsp;
      [|discriminate].
    pose proof (line_spectrum_length c sp Hsp) as Hl.
    destruct (np_iadd spec (flat sp)) as [spec1|] eqn:Hadd; [|discriminate].
    assert (Hwf : length (data (flat sp)) = np_prod (shape (flat sp)))
      by (simpl; lia).
    pose proof (np_iadd_length spec (flat sp) spec1 Hwf Hadd) as Hl1.
    assert (Hsum : np_sum spec1 = np_sum spec + np_sum sp).
    { apply (np_iadd_total spec (flat sp) spec1 Hadd). left. simpl.
      rewrite Hl, Hlen. auto. }
    destruct (IH spec1 s spec' s' ltac:(lia) H) as (Hs & Hl' & Hsum').
    split; [exact Hs|]. split; [exact Hl'|].
    simpl. rewrite (Hw c sp Hsp) in Hsum. lra.
Qed.
End LineSpectrum.

(** X19.  When [make_spectrum] of the line engine returns, the bin edges are
    [nbins+1] equally spaced values from [emin] to [emax], the spectrum has
    one entry per bin and no random number is drawn.  For an unbroadened
    line the entries sum to the emission of all cells of all chunks; for a
    line of constant width [sg] (and at least one bin) they sum to that
    emission times the increase of the interpolated Gaussian distribution
    function from [(emin-e0)/sg] to [(emax-e0)/sg]. *)
Theorem line_make_spectrum_total :
  forall (G : PRNG) (gcdf : list R) (clight : R) (m : Line.LineSourceModel)
         (chunks : list IOChunk) (emin emax : R) (nbins : nat)
         (s : RandomState G) (ebins spec : list R) (s' : RandomState G),
    line_make_spectrum G gcdf clight m chunks emin emax nbins s
    = Some (ebins, spec, s') ->
    let total :=
      np_sum (map (fun c => np_sum (io_get c (Line.emission_field m)))
                  chunks) in
    ebins = np_linspace emin emax (nbins + 1)
    /\ s' = s
    /\ length spec = nbins
    /\ (Line.sigma m = Line.Unbroadened -> np_sum spec = total)
    /\ (forall sg, Line.sigma m = Line.Sigma sg -> (0 < nbins)%nat ->
          np_sum spec
          = total * (interp1 Line.gx gcdf ((emax - Line.e0 m) / sg)
                     - interp1 Line.gx gcdf ((emin - Line.e0 m) / sg))).
Proof.
  intros G gcdf clight m chunks emin emax nbins s ebins spec s' H total.
  unfold line_make_spectrum in H.
  set (eb := np_linspace emin emax (nbins + 1)) in *.
  assert (Hel : (length eb - 1)%nat = nbins)
    by (unfold eb; rewrite np_linspace_length; lia).
  destruct (spectrum_loop _ chunks (repeat 0 nbins) s) as [[spec0 s0]|]
    eqn:Hloop; [|discriminate].
  injection H as <- <- <-.
  assert (Hlen0 : length (repeat 0 nbins) = (length eb - 1)%nat)
    by (rewrite repeat_length; lia).
  split; [reflexivity|].
  assert (Hbase : s0 = s /\ length spec0 = nbins).
  { destruct (line_spectrum_loop G gcdf clight m eb
                (fun c => match Line.line_spectrum gcdf clight m c eb with
                          | Some sp => np_sum sp
                          | None => 0
                          end) chunks
                ltac:(intros c sp Hsp; cbv beta; rewrite Hsp; reflexivity)
                _ s spec0 s0 Hlen0 Hloop) as (Hs & Hl & _).
    split; [exact Hs|lia]. }
  destruct Hbase as [Hs Hl]. split; [exact Hs|]. split; [exact Hl|]. split.
  - intros Hsig.
    destruct (line_spectrum_loop G gcdf clight m eb
                (fun c => np_sum (io_get c (Line.emission_field m))) chunks)
      with (2 := Hlen0) (3 := Hloop) as (_ & _ & Hsum).
    + intros c sp. unfold Line.line_spectrum. rewrite Hsig.
      destruct (_ <? _)%nat eqn:E; [|discriminate].
      intros Hsp; injection Hsp as <-. apply np_sum_list_set_zeros.
      apply Nat.ltb_lt. exact E.
    + rewrite np_sum_repeat_0 in Hsum. unfold total. lra.
  - intros sg Hsig Hnb.
    assert (Hne : eb <> []).
    { intros E. rewrite E in Hel. simpl in Hel. lia. }
    assert (Hhd : hd 0 eb = emin)
      by (unfold eb; rewrite Nat.add_1_r; apply np_linspace_hd).
    assert (Hla : last eb 0 = emax)
      by (unfold eb; rewrite Nat.add_1_r; apply np_linspace_last; exact Hnb).
    destruct (line_spectrum_loop G gcdf clight m eb
                (fun c => np_sum (io_get c (Line.emission_field m))
                          * (interp1 Line.gx gcdf ((emax - Line.e0 m) / sg)
                             - interp1 Line.gx gcdf
                                 ((emin - Line.e0 m) / sg))) chunks)
      with (2 := Hlen0) (3 := Hloop) as (_ & _ & Hsum).
    + intros c sp Hsp.
      destruct (line_sigma_spectrum_sum gcdf clight m c eb sg sp Hsig Hne Hsp)
        as [_ Hv].
      rewrite Hv, Hhd, Hla. reflexivity.
    + rewrite np_sum_repeat_0, np_sum_map_mult_r in Hsum. unfold total. lra.
Qed.

Lemma line_make_spectrum_example :
  { r | line_make_spectrum Fixtures.counter [] 1 Fixtures.line
          [Fixtures.line_chunk; Fixtures.line_chunk] 0 3 3 O = Some r }.
Proof.
  eexists. unfold line_make_spectrum, Line.process_data, Line.line_spectrum.
  run_model. reflexivity.
Defined.

Lemma line_make_spectrum_total_witness :
  exists ebins spec s',
    line_make_spectrum Fixtures.counter [] 1 Fixtures.line
      [Fixtures.line_chunk; Fixtures.line_chunk] 0 3 3 O
    = Some (ebins, spec, s')
    /\ length spec = 3%nat
    /\ np_sum spec
       = np_sum (map (fun c => np_sum (io_get c (Fixtures.gas "norm")))
                     [Fixtures.line_chunk; Fixtures.line_chunk]).
Proof.
  destruct line_make_spectrum_example as ([[ebins spec] s'] & H).
  exists ebins, spec, s'. split; [exact H|].
  destruct (line_make_spectrum_total Fixtures.counter [] 1 Fixtures.line
              [Fixtures.line_chunk; Fixtures.line_chunk] 0 3 3%nat O
              ebins spec s' H)
    as (_ & _ & Hlen & Hsum & _).
  split; [exact Hlen|exact (Hsum eq_refl)].
Defined.

(** ** The thermal engine: cells without emission measure *)

Lemma slice_assign_nth_before {A : Type} lo (vals l : list A) k d :
  (k < lo)%nat -> (lo <= length l)%nat ->
  nth k (slice_assign lo vals l) d = nth k l d.
Proof.
  intros Hk Hl. unfold slice_assign.
  rewrite app_nth1 by (rewrite length_firstn; lia).
  rewrite nth_firstn. destruct (k <? lo)%nat eqn:E; [reflexivity|].
  apply Nat.ltb_ge in E. lia.
Qed.

Lemma slice_assign_nth_written {A : Type} lo (vals l : list A) k d :
  (lo <= k)%nat -> (k < lo + length vals)%nat -> (lo <= length l)%nat ->
  nth k (slice_assign lo vals l) d = nth (k - lo) vals d.
Proof.
  intros Hk1 Hk2 Hl. unfold slice_assign.
  rewrite app_nth2 by (rewrite length_firstn; lia).
  rewrite length_firstn. replace (Nat.min lo (length l)) with lo by lia.
  apply app_nth1. lia.
Qed.

Lemma mask_select_In_nth {A : Type} (mask : list bool) (l : list A) x d :
  In x (mask_select mask l) ->
  exists k, (k < length l)%nat /\ nth k mask false = true /\ nth k l d = x.
Proof.
  revert l; induction mask as [|b mask IH]; intros [|y l] H; simpl in H;
    try contradiction.
  assert (Hrest : In x (mask_select mask l) ->
                  exists k, (k < length (y :: l))%nat
                            /\ nth k (b :: mask) false = true
                            /\ nth k (y :: l) d = x).
  { intros Hin. destruct (IH l Hin) as (k & Hk & Hm & Hv).
    exists (S k). simpl. split; [lia|]. auto. }
  destruct b; [|exact (Hrest H)].
  destruct H as [<-|H]; [|exact (Hrest H)].
  exists O. simpl. split; [lia|]. auto.
Qed.

Section DarkThermalCells.
Variable G : PRNG.
Hypothesis poisson_zero : forall s : RandomState G,
    fst (poisson1 G 0 s) = O.
Variable m : Thermal.ThermalSourceModel.
Variable e : Thermal.eligible.
Variable n : nat.
Hypothesis nrm_len : length (Thermal.cell_nrm e) = n.
Hypothesis Z_len : (n <= length (Thermal.metalZ e))%nat.
Hypothesis eZ_len : Forall (fun row => length row = n) (Thermal.elemZ e).

Lemma use_spectrum_dark st (s : RandomState G) a l tot st' s' :
  photons_inv n a st -> dark_inv e a st ->
  (0 < l)%nat -> (a + l <= n)%nat ->
  has_shape l (Thermal.nchan m) tot = true ->
  Thermal.use_spectrum G m photons e st s a (a + l) tot = Some (st', s') ->
  dark_inv e (a + l) st'.
Proof.
  intros (Hlen & _) Hdark Hl Hal Htot. unfold Thermal.use_spectrum.
  destruct (poisson G (Thermal.cell_norm e a (a + l) tot) s)
    as [[cell_n s1]|] eqn:Hp; [|discriminate].
  destruct (Thermal.cells_loop G m _ (Thermal.buf st) (Thermal.start_e st) s1)
    as [[[b1 ei'] s2]|]; [|discriminate].
  intros H; inversion H; subst st' s'; clear H.
  apply has_shape_spec in Htot. destruct Htot as [Hrows _].
  assert (Hcn : length cell_n = l).
  { apply poisson_length in Hp. rewrite Hp. unfold Thermal.cell_norm.
    rewrite zip_with_length. unfold row_sums. rewrite length_map, Hrows.
    rewrite slice_length by lia. lia. }
  intros k Hk Hz. cbn [Thermal.number_of_photons].
  destruct (Nat.lt_ge_cases k a) as [Hlt|Hge].
  - rewrite slice_assign_nth_before by lia. apply Hdark; assumption.
  - rewrite slice_assign_nth_written by lia.
    unfold poisson in Hp. destruct (existsb _ _); [discriminate|].
    injection Hp as Hp.
    assert (Hc : cell_n = fst (poisson_draws G (Thermal.cell_norm e a (a + l) tot) s))
      by (rewrite Hp; reflexivity).
    rewrite Hc. apply (poisson_draws_zero G poisson_zero).
    unfold Thermal.cell_norm. rewrite zip_with_nth_error.
    destruct (nth_error_Some_lt (row_sums tot) (k - a)
                ltac:(unfold row_sums; rewrite length_map; lia)) as [rs Hrs].
    rewrite Hrs.
    rewrite (nth_error_nth' _ 0)
      by (rewrite slice_length by lia; lia).
    rewrite slice_nth by lia. replace (a + (k - a))%nat with k by lia.
    rewrite Hz. f_equal. ring.
Qed.

Lemma batch_loop_dark cks :
  forall a st (s : RandomState G) st' s',
    chain a cks n ->
    photons_inv n a st -> dark_inv e a st ->
    Thermal.batch_loop G m photons e cks st s = Some (st', s') ->
    dark_inv e n st'.
Proof.
  induction cks as [|ck cks IH]; intros a st s st' s' Hch Hinv Hdark H;
    simpl in *.
  - inversion H; subst. exact Hdark.
  - destruct Hch as (l & Hl & Hal & -> & Hch).
    destruct (Thermal.batch_step G m photons e st s (seq a l))
      as [[st1 s1]|] eqn:Hstep; [|discriminate].
    unfold Thermal.batch_step in Hstep.
    destruct (seq_hd_last a l Hl) as [Hh Hla]. rewrite Hh, Hla in Hstep.
    destruct (Thermal.tot_spec m e a (a + l)) as [tot|] eqn:Htot;
      [|discriminate].
    pose proof (tot_spec_shape m e n a l tot Z_len eZ_len Hal Htot) as Hshape.
    destruct (use_spectrum_photons_inv G m e st s n a l tot st1 s1
                Hinv Hl Hal nrm_len Hshape Hstep) as (Hinv1 & _).
    pose proof (use_spectrum_dark st s a l tot st1 s1
                  Hinv Hdark Hl Hal Hshape Hstep) as Hdark1.
    exact (IH _ _ _ _ _ Hch Hinv1 Hdark1 H).
Qed.
End DarkThermalCells.

(** X20.  With a generator whose Poisson draw for the mean zero is zero, a
    cell whose emission measure is zero never appears among the cell
    indices of a population returned by the thermal engine. *)
Theorem thermal_cells_without_emission_stay_inactive :
  forall (G : PRNG) (to_keV : R -> R) (cap0 : nat)
         (m : Thermal.ThermalSourceModel) (c : Chunk) (s : RandomState G)
         (ncells : nat) (counts idx : list nat) (ee : list R)
         (s' : RandomState G) (i : nat),
    (forall s0 : RandomState G, fst (poisson1 G 0 s0) = O) ->
    Thermal.process_data_from G to_keV cap0 m photons c s
    = Some (RPhotons ncells counts (Indices idx) ee, s') ->
    In i idx ->
    field_values c (Thermal.emission_measure_field m) i <> 0.
Proof.
  intros G to_keV cap0 m c s ncells counts idx ee s' i Hz H Hin Hem.
  revert H. unfold Thermal.process_data_from.
  destruct (Thermal.orig_ncells c =? 0)%nat; [discriminate|].
  destruct (Thermal.sample_filter to_keV m c) as [cut|] eqn:Hcut;
    [|discriminate].
  destruct (count_true cut =? 0)%nat; [discriminate|].
  destruct (Thermal.run_batches G to_keV cap0 m photons c cut s)
    as [[[e st] s1]|] eqn:Hrun; [|discriminate].
  intros H. injection H as _ _ Hidx _ _.
  destruct (run_batches_photons G to_keV cap0 m c cut s e st s1 Hcut Hrun)
    as [(Hnop & _) Hil].
  unfold Thermal.run_batches in Hrun.
  destruct (Thermal.prepare to_keV m c cut) as [e0|] eqn:Hprep;
    [|discriminate].
  destruct (Thermal.batch_loop G m photons e0 _ _ s) as [[st0 s0]|] eqn:Hloop;
    [|discriminate].
  injection Hrun as -> -> ->.
  pose proof (sample_filter_length to_keV m c cut Hcut) as Hclen.
  destruct (prepare_lengths to_keV m c cut e Hclen Hprep)
    as (Hn & _ & Hnrm & HZ & HeZ & _).
  rewrite Hn in Hloop.
  assert (Hdark : dark_inv e (count_true cut) st).
  { refine (batch_loop_dark G Hz m e (count_true cut) Hnrm HZ HeZ _ O _ s st s1
              (batches_chain _) _ _ Hloop).
    - unfold photons_inv, Thermal.init_state; simpl.
      rewrite Hn, !repeat_length, Nat.sub_0_r, nat_sum_repeat_0.
      repeat split; lia.
    - intros k Hk. lia. }
  subst idx.
  destruct (mask_select_In_nth _ _ i O Hin) as (k & Hk & Hact & Hv).
  rewrite Hil in Hk.
  rewrite (map_nth_lt (fun n => (0 <? n)%nat) _ k O false) in Hact
    by (rewrite Hnop; exact Hk).
  apply Nat.ltb_lt in Hact.
  assert (Hnrm0 : nth k (Thermal.cell_nrm e) 0 = 0).
  { destruct (prepare_cells to_keV m c cut e k Hcut Hprep
                ltac:(rewrite Hn; exact Hk))
      as (_ & Hki & _ & Hcn & _).
    rewrite Hv in Hki. rewrite <- Hki in Hcn. rewrite Hcn, Hem.
    destruct (Thermal.nh_field m); [destruct (Thermal.fix_norm m)|];
      unfold Rdiv; ring. }
  specialize (Hdark k Hk Hnrm0). lia.
Qed.

Lemma thermal_cells_without_emission_stay_inactive_witness :
  exists ee s',
    Thermal.process_data_from Fixtures.counter (fun x => x) 1
      Fixtures.apec photons Fixtures.chunk O
    = Some (RPhotons 1 [2%nat] (Indices [2%nat]) ee, s')
    /\ field_values Fixtures.chunk (Fixtures.gas "emission_measure") 2 <> 0.
Proof.
  destruct thermal_run as (ee & s' & H).
  exists ee, s'. split; [exact H|].
  refine (thermal_cells_without_emission_stay_inactive Fixtures.counter
            (fun x => x) 1 Fixtures.apec Fixtures.chunk O 1%nat [2%nat]
            [2%nat] ee s' 2%nat _ H _).
  - intros s0. simpl. rewrite Rltb_false by lra. reflexivity.
  - left. reflexivity.
Defined.

(** ** The thermal engine: chunks of more than one dimension *)

(** X21.  On a chunk whose field arrays do not hold all their cells along
    the first axis (a grid of more than one row and column, say),
    [process_data] raises in every mode as soon as the filter accepts a
    cell: the mask over the raveled cells does not fit the first axis of
    the emission-measure array it is applied to. *)
Theorem thermal_grid_chunk_raises :
  forall (G : PRNG) (to_keV : R -> R) (cap0 : nat)
         (m : Thermal.ThermalSourceModel) (md : mode) (c : Chunk)
         (cut : list bool) (s : RandomState G),
    orig_shape c <> [] ->
    Thermal.sample_filter to_keV m c = Some cut ->
    count_true cut <> O ->
    hd O (orig_shape c) <> np_prod (orig_shape c) ->
    Thermal.process_data_from G to_keV cap0 m md c s = None.
Proof.
  intros G to_keV cap0 m md c cut s Hsh Hcut Hcnt Hhd.
  pose proof (sample_filter_length to_keV m c cut Hcut) as Hlen.
  assert (Hn : Thermal.orig_ncells c <> O).
  { unfold Thermal.orig_ncells. destruct (orig_shape c) as [|d sh] eqn:E;
      [congruence|].
    intros H0. rewrite H0 in Hlen. destruct cut; [|discriminate].
    apply Hcnt. reflexivity. }
  unfold Thermal.process_data_from.
  apply Nat.eqb_neq in Hn. rewrite Hn, Hcut. cbn beta iota.
  apply Nat.eqb_neq in Hcnt. rewrite Hcnt.
  unfold Thermal.run_batches, Thermal.prepare, Thermal.mask_fits.
  rewrite Hlen, Nat.eqb_refl.
  apply Nat.eqb_neq in Hhd. rewrite Hhd. reflexivity.
Qed.

Lemma thermal_grid_chunk_raises_witness :
  Thermal.sample_filter (fun x => x) Fixtures.apec Fixtures.grid_chunk
  = Some [true; true; true; true]
  /\ Thermal.process_data_from Fixtures.counter (fun x => x) 1
       Fixtures.apec photon_field Fixtures.grid_chunk O = None.
Proof.
  assert (Hcut : Thermal.sample_filter (fun x => x) Fixtures.apec
                   Fixtures.grid_chunk
                 = Some [true; true; true; true]).
  { unfold Thermal.sample_filter. run_model. reflexivity. }
  split; [exact Hcut|].
  exact (thermal_grid_chunk_raises Fixtures.counter (fun x => x) 1
           Fixtures.apec photon_field Fixtures.grid_chunk
           [true; true; true; true] O ltac:(discriminate) Hcut
           ltac:(cbv; discriminate) ltac:(cbv; discriminate)).
Defined.
